(** * web-ble-kit: connection pool, operation queue, retry engine,
      connection state machine and event emitter

    A shallow embedding of the concurrency core of web-ble-kit
    ([src/ble/connection-pool.ts], [src/ble/operation-queue.ts],
    [src/ble/transport.ts], [src/errors/errors.ts],
    [src/state/state-machine.ts], [src/state/event-emitter.ts]) together
    with the properties its specification states about it and further
    properties of the same code.

    JavaScript runs these components on one cooperative thread: the code
    between two suspension points ([await], a promise callback) is atomic.
    Asynchronous functions are therefore embedded as one step function per
    synchronous segment, and the environment (the adapter, the peripheral,
    the scheduler of promise callbacks) chooses which segment runs next.
    Callbacks of the user run inside a segment: the callbacks of the state
    machine and of the event emitter are given as lists of the calls they
    make, and so are the listeners of the pool's events.  Where a property
    depends on callbacks that re-enter the component that calls them (a
    listener of the pool that connects, a transition callback that
    subscribes, a listener that emits), the component is embedded a second
    time with these calls ([PoolListeners], [LiveCallbacks], [NestedEmit]). *)

From Stdlib Require Import ZArith QArith Qminmax String Ascii List Lia Bool DecimalString.
From stdpp Require Import gmap strings list fin_maps.
Import ListNotations.

Close Scope Q_scope.
Local Open Scope string_scope.
Local Open Scope list_scope.

(* ===================================================================== *)
(** * Errors ([src/errors/errors.ts]) *)
(* ===================================================================== *)

Module Errors.

(** The classes an error value can be an [instanceof].  Every class extends
    [Error]; [RangeErrorC] is the built-in [RangeError]. *)
Inductive ErrorClass : Type :=
| ErrorC
| AbortErrorC
| TimeoutErrorC
| RangeErrorC.

(** An error value: its class, and its (mutable, hence independent) [name]
    and [message] properties. *)
Record Error : Type := mkError {
  cls : ErrorClass;
  name : string;
  message : string
}.

Definition new_Error (msg : string) : Error :=
  {| cls := ErrorC; name := "Error"; message := msg |}.

Definition new_RangeError (msg : string) : Error :=
  {| cls := RangeErrorC; name := "RangeError"; message := msg |}.

(** [class AbortError]: [super(message); this.name = "AbortError"]. *)
Definition new_AbortError (msg : string) : Error :=
  {| cls := AbortErrorC; name := "AbortError"; message := msg |}.

(** [class TimeoutError]: the message is
    [`${operation} timed out after ${timeout}ms`]; [timeout] is passed in its
    printed form. *)
Definition new_TimeoutError (operation timeout : string) : Error :=
  {| cls := TimeoutErrorC; name := "TimeoutError";
     message := operation ++ " timed out after " ++ timeout ++ "ms" |}.

(** What a promise rejects with, or a function throws: an [Error], or some
    other value, of which only [String(e)] is used. *)
Inductive Thrown : Type :=
| ThrownError (e : Error)
| ThrownValue (rendered : string).

(** [e instanceof Error ? e : new Error(String(e))]. *)
Definition as_Error (x : Thrown) : Error :=
  match x with
  | ThrownError e => e
  | ThrownValue rendered => new_Error rendered
  end.

(** An [AbortSignal]: its [aborted] flag and [reason?.message]. *)
Record AbortSignal : Type := mkSignal {
  aborted : bool;
  reason_message : option string
}.

(** [signal?.aborted]. *)
Definition is_aborted (signal : option AbortSignal) : bool :=
  match signal with
  | Some s => aborted s
  | None => false
  end.

(** [signal.reason?.message ?? "Operation aborted"]. *)
Definition abort_message (signal : option AbortSignal) : string :=
  match signal with
  | Some s => default "Operation aborted" (reason_message s)
  | None => "Operation aborted"
  end.

(** [String.prototype.toLowerCase], on the ASCII letters. *)
Definition toLowerCase_ascii (c : ascii) : ascii :=
  let n := nat_of_ascii c in
  if ((65 <=? n) && (n <=? 90))%nat then ascii_of_nat (n + 32) else c.

Fixpoint toLowerCase (s : string) : string :=
  match s with
  | EmptyString => EmptyString
  | String c rest => String (toLowerCase_ascii c) (toLowerCase rest)
  end.

Fixpoint startsWith (s pattern : string) : bool :=
  match pattern, s with
  | EmptyString, _ => true
  | String _ _, EmptyString => false
  | String p pattern', String c s' =>
      if Ascii.eqb p c then startsWith s' pattern' else false
  end.

(** [String.prototype.includes]: [pattern] occurs somewhere in [s]. *)
Fixpoint includes (s pattern : string) : bool :=
  startsWith s pattern ||
  match s with
  | EmptyString => false
  | String _ s' => includes s' pattern
  end.

Definition nonRetryablePatterns : list string :=
  [ "user cancelled";
    "user canceled";
    "user denied";
    "notallowederror";
    "securityerror";
    "not found";
    "no device selected";
    "permission denied" ].

Definition retryablePatterns : list string :=
  [ "network";
    "gatt";
    "connection";
    "disconnect";
    "failed to execute";
    "operation failed";
    "not connected" ].

(** The body of both [for (const pattern of ...)] loops: some pattern occurs
    in the lower-cased message or in the lower-cased name. *)
Definition matches_any (patterns : list string) (message name : string) : bool :=
  existsb (fun pattern => includes message pattern || includes name pattern) patterns.

Definition instanceof (e : Error) (c : ErrorClass) : bool :=
  match cls e, c with
  | _, ErrorC => true
  | AbortErrorC, AbortErrorC => true
  | TimeoutErrorC, TimeoutErrorC => true
  | RangeErrorC, RangeErrorC => true
  | _, _ => false
  end.

(** [export function isTransientBLEError(error: Error): boolean]. *)
Definition isTransientBLEError (error : Error) : bool :=
  if instanceof error AbortErrorC || String.eqb (name error) "AbortError" then false
  else if instanceof error TimeoutErrorC || String.eqb (name error) "TimeoutError" then true
  else
    let message := toLowerCase (message error) in
    let name := toLowerCase (name error) in
    if matches_any nonRetryablePatterns message name then false
    else if matches_any retryablePatterns message name then true
    else false.

(** The classes of errors the specification's default retry classification
    speaks of, in its words. *)
Definition is_cancellation (e : Error) : bool :=
  instanceof e AbortErrorC || String.eqb (name e) "AbortError".

Definition is_timeout (e : Error) : bool :=
  instanceof e TimeoutErrorC || String.eqb (name e) "TimeoutError".

Definition mentions (e : Error) (pattern : string) : bool :=
  includes (toLowerCase (message e)) pattern || includes (toLowerCase (name e)) pattern.

Definition is_user_cancellation (e : Error) : bool :=
  mentions e "user cancelled" || mentions e "user canceled" ||
  mentions e "no device selected".

Definition is_permission_denial (e : Error) : bool :=
  mentions e "user denied" || mentions e "notallowederror" ||
  mentions e "securityerror" || mentions e "permission denied".

Definition is_not_found (e : Error) : bool :=
  mentions e "not found".

Definition is_transient_connectivity (e : Error) : bool :=
  mentions e "network" || mentions e "gatt" ||
  mentions e "connection" || mentions e "disconnect" ||
  mentions e "failed to execute" || mentions e "operation failed" ||
  mentions e "not connected".

End Errors.


(* ===================================================================== *)
(** * Connection state machine ([src/state/state-machine.ts]) *)
(* ===================================================================== *)

Module StateMachine.
Import Errors.

Inductive ConnectionState : Type :=
| disconnected
| connecting
| connected
| error.

Definition ConnectionState_eqb (a b : ConnectionState) : bool :=
  match a, b with
  | disconnected, disconnected => true
  | connecting, connecting => true
  | connected, connected => true
  | error, error => true
  | _, _ => false
  end.

(** The string a state is printed as in an error message. *)
Definition show (s : ConnectionState) : string :=
  match s with
  | disconnected => "disconnected"
  | connecting => "connecting"
  | connected => "connected"
  | error => "error"
  end.

(** [const VALID_TRANSITIONS: Record<ConnectionState, ConnectionState[]>]. *)
Definition VALID_TRANSITIONS (s : ConnectionState) : list ConnectionState :=
  match s with
  | disconnected => [connecting]
  | connecting => [connected; error; disconnected]
  | connected => [disconnected; error]
  | error => [disconnected; connecting]
  end.

(** [Array.prototype.includes] on a list of states. *)
Definition includes (l : list ConnectionState) (x : ConnectionState) : bool :=
  existsb (ConnectionState_eqb x) l.

(** What the body of a registered callback may do with the machine it
    observes: call [transition] (letting the exception escape, or catching
    it), read the state, query [canTransition], or throw an error of its
    own.  Registration and removal of callbacks from inside a callback are
    not part of this model. *)
Inductive Cmd : Type :=
| CallTransition (to : ConnectionState) (caught : bool)
| CallGetState
| CallCanTransition (to : ConnectionState)
| Throw (e : Error).

(** [type TransitionCallback = (from, to) => void]. *)
Definition TransitionCallback : Type :=
  ConnectionState -> ConnectionState -> list Cmd.

(** What an observer of a run sees, in order: the calls of [transition] made
    from inside callbacks with their outcome ([None]: returned normally) and
    the state right after the call, and the errors handed to
    [console.error]. *)
Inductive Event : Type :=
| InnerTransition (to : ConnectionState) (outcome : option Error)
    (state_after : ConnectionState)
| ConsoleError (e : Error).

(** The closure state of [createStateMachine]: [state], the insertion-ordered
    set [callbacks] (each callback with the identity [Set] compares), and
    [isTransitioning]; [trace] is the observation log. *)
Record Machine : Type := mkMachine {
  state : ConnectionState;
  callbacks : list (nat * TransitionCallback);
  isTransitioning : bool;
  trace : list Event
}.

Definition createStateMachine (initialState : ConnectionState) : Machine :=
  {| state := initialState; callbacks := []; isTransitioning := false;
     trace := [] |}.

Definition getState (m : Machine) : ConnectionState := state m.

Definition canTransition (m : Machine) (to : ConnectionState) : bool :=
  let validTargets := VALID_TRANSITIONS (state m) in
  includes validTargets to.

(** The two errors [transition] throws.  Both are plain [Error]s; they differ
    in their message. *)
Definition reentrant_error (st to : ConnectionState) : Error :=
  new_Error ("Cannot transition while another transition is in progress (attempted "
             ++ show st ++ " -> " ++ show to ++ ")").

Definition invalid_error (st to : ConnectionState) : Error :=
  new_Error ("Invalid state transition: " ++ show st ++ " -> " ++ show to).

(** The result of a call: it returned, it threw, or the evaluator ran out of
    fuel (never the case with fuel [>= 1], see [transition_fuel_irrelevant]). *)
Inductive Result : Type :=
| Returned (m : Machine)
| Threw (e : Error) (m : Machine)
| OutOfFuel.

Definition log (ev : Event) (m : Machine) : Machine :=
  {| state := state m; callbacks := callbacks m;
     isTransitioning := isTransitioning m; trace := trace m ++ [ev] |}.

(** The body of one callback, run against the machine; [tr] is the machine's
    own [transition].  The result is the machine afterwards and the
    exception that escaped the callback, if any. *)
Fixpoint run_cmds (tr : ConnectionState -> Machine -> Result)
    (cmds : list Cmd) (m : Machine) : option (Machine * option Error) :=
  match cmds with
  | [] => Some (m, None)
  | CallTransition to caught :: rest =>
      match tr to m with
      | Returned m' =>
          run_cmds tr rest (log (InnerTransition to None (state m')) m')
      | Threw e m' =>
          let m'' := log (InnerTransition to (Some e) (state m')) m' in
          if caught then run_cmds tr rest m'' else Some (m'', Some e)
      | OutOfFuel => None
      end
  | CallGetState :: rest => run_cmds tr rest m
  | CallCanTransition _ :: rest => run_cmds tr rest m
  | Throw e :: _ => Some (m, Some e)
  end.

(** [for (const cb of callbacks) { try { cb(from, to) } catch (e) { console.error(..., e) } }] *)
Fixpoint run_callbacks (tr : ConnectionState -> Machine -> Result)
    (cbs : list (nat * TransitionCallback)) (from to : ConnectionState)
    (m : Machine) : option Machine :=
  match cbs with
  | [] => Some m
  | (_, cb) :: rest =>
      match run_cmds tr (cb from to) m with
      | Some (m', None) => run_callbacks tr rest from to m'
      | Some (m', Some e) => run_callbacks tr rest from to (log (ConsoleError e) m')
      | None => None
      end
  end.

(** [function transition(to)].  The fuel bounds the nesting of [transition]
    calls made from callbacks. *)
Fixpoint transition (fuel : nat) (to : ConnectionState) (m : Machine) : Result :=
  if isTransitioning m then Threw (reentrant_error (state m) to) m
  else if negb (canTransition m to) then Threw (invalid_error (state m) to) m
  else
    match fuel with
    | O => OutOfFuel
    | S fuel' =>
        let from := state m in
        let m1 := {| state := to; callbacks := callbacks m;
                     isTransitioning := true; trace := trace m |} in
        match run_callbacks (transition fuel') (callbacks m) from to m1 with
        | Some m2 =>
            (* finally { isTransitioning = false } *)
            Returned {| state := state m2; callbacks := callbacks m2;
                        isTransitioning := false; trace := trace m2 |}
        | None => OutOfFuel
        end
    end.

(** [function onTransition(callback)]: [callbacks.add(callback)]; a [Set]
    keeps one entry per callback identity, at its first insertion place. *)
Definition onTransition (id : nat) (cb : TransitionCallback) (m : Machine) : Machine :=
  if existsb (fun p => Nat.eqb (fst p) id) (callbacks m) then m
  else {| state := state m; callbacks := callbacks m ++ [(id, cb)];
          isTransitioning := isTransitioning m; trace := trace m |}.

(** The unsubscribe function [onTransition] returns: [callbacks.delete(callback)]. *)
Definition unsubscribe (id : nat) (m : Machine) : Machine :=
  {| state := state m;
     callbacks := List.filter (fun p => negb (Nat.eqb (fst p) id)) (callbacks m);
     isTransitioning := isTransitioning m; trace := trace m |}.

(** The transition table as the specification prints it. *)
Definition allowed_by_spec (from to : ConnectionState) : bool :=
  match from, to with
  | disconnected, connecting => true
  | connecting, connected => true
  | connecting, error => true
  | connecting, disconnected => true
  | connected, disconnected => true
  | connected, error => true
  | error, disconnected => true
  | error, connecting => true
  | _, _ => false
  end.

Definition returned (r : Result) : bool :=
  match r with Returned _ => true | _ => false end.

Definition threw (r : Result) : bool :=
  match r with Threw _ _ => true | _ => false end.

Definition machine_of (r : Result) (default : Machine) : Machine :=
  match r with Returned m => m | Threw _ m => m | OutOfFuel => default end.

End StateMachine.

(* ===================================================================== *)
(** * Callbacks that register and remove callbacks ([transition] and
      [onTransition] of [src/state/state-machine.ts]) *)
(* ===================================================================== *)

Module LiveCallbacks.
Import Errors.
Import StateMachine(ConnectionState, disconnected, connecting, connected, error,
                    VALID_TRANSITIONS, includes, Cmd, CallTransition, CallGetState,
                    CallCanTransition, Throw, Event, InnerTransition, ConsoleError,
                    reentrant_error, invalid_error).

(** What the body of a callback may do when it may also register and remove
    callbacks: what [StateMachine.Cmd] says, a call of [onTransition] with
    the callback [id], or a call of the unsubscribe function [onTransition]
    returned for the callback [id]. *)
Inductive LiveCmd : Type :=
| Plain (c : Cmd)
| CallOnTransition (id : nat)
| CallUnsubscribe (id : nat).

(** The entries of the [Set] [callbacks], in insertion order.  The loop
    [for (const cb of callbacks)] walks the entries by index while the
    callbacks it calls change them: [Set.prototype.delete] empties the entry
    of the value and [Set.prototype.add] appends an entry, unless the value
    has one. *)
Abbreviation SetData := (list (option nat)).

Definition set_add (id : nat) (d : SetData) : SetData :=
  if bool_decide (Some id ∈ d) then d else d ++ [Some id].

Definition set_delete (id : nat) (d : SetData) : SetData :=
  map (fun entry => if bool_decide (entry = Some id) then None else entry) d.

(** The values of the set, in insertion order. *)
Definition values (d : SetData) : list nat := omap (fun entry => entry) d.

(** The closure state of [createStateMachine], with the set as its entries. *)
Record Machine : Type := mkMachine {
  state : ConnectionState;
  callbacks : SetData;
  isTransitioning : bool;
  trace : list Event
}.

Definition createStateMachine (initialState : ConnectionState) : Machine :=
  {| state := initialState; callbacks := []; isTransitioning := false;
     trace := [] |}.

Definition canTransition (m : Machine) (to : ConnectionState) : bool :=
  let validTargets := VALID_TRANSITIONS (state m) in
  includes validTargets to.

Inductive Result : Type :=
| Returned (m : Machine)
| Threw (e : Error) (m : Machine)
| OutOfFuel.

Definition log (ev : Event) (m : Machine) : Machine :=
  {| state := state m; callbacks := callbacks m;
     isTransitioning := isTransitioning m; trace := trace m ++ [ev] |}.

(** [function onTransition(callback)]: [callbacks.add(callback)]. *)
Definition onTransition (id : nat) (m : Machine) : Machine :=
  {| state := state m; callbacks := set_add id (callbacks m);
     isTransitioning := isTransitioning m; trace := trace m |}.

(** The function [onTransition] returns: [callbacks.delete(callback)]. *)
Definition unsubscribe (id : nat) (m : Machine) : Machine :=
  {| state := state m; callbacks := set_delete id (callbacks m);
     isTransitioning := isTransitioning m; trace := trace m |}.

Section Bodies.

(** What the callback [id] does when it is called with [from] and [to]. *)
Variable body : nat -> ConnectionState -> ConnectionState -> list LiveCmd.

(** The body of one callback, run against the machine; [tr] is the machine's
    own [transition]. *)
Fixpoint run_cmds (tr : ConnectionState -> Machine -> Result)
    (cmds : list LiveCmd) (m : Machine) : option (Machine * option Error) :=
  match cmds with
  | [] => Some (m, None)
  | Plain (CallTransition to caught) :: rest =>
      match tr to m with
      | Returned m' =>
          run_cmds tr rest (log (InnerTransition to None (state m')) m')
      | Threw e m' =>
          let m'' := log (InnerTransition to (Some e) (state m')) m' in
          if caught then run_cmds tr rest m'' else Some (m'', Some e)
      | OutOfFuel => None
      end
  | Plain CallGetState :: rest => run_cmds tr rest m
  | Plain (CallCanTransition _) :: rest => run_cmds tr rest m
  | Plain (Throw e) :: _ => Some (m, Some e)
  | CallOnTransition id :: rest => run_cmds tr rest (onTransition id m)
  | CallUnsubscribe id :: rest => run_cmds tr rest (unsubscribe id m)
  end.

(** [for (const cb of callbacks) { try { cb(from, to) } catch (e) { console.error(..., e) } }]:
    the iterator is at [index]; it is done when no entry is left, skips an
    emptied entry, and sees the entries added meanwhile.  The loop need not
    end (a callback can remove and register itself again); the fuel bounds
    its rounds. *)
Fixpoint for_of (tr : ConnectionState -> Machine -> Result) (fuel index : nat)
    (from to : ConnectionState) (m : Machine) : option Machine :=
  match fuel with
  | O => None
  | S fuel' =>
      match callbacks m !! index with
      | None => Some m
      | Some None => for_of tr fuel' (S index) from to m
      | Some (Some id) =>
          match run_cmds tr (body id from to) m with
          | Some (m', None) => for_of tr fuel' (S index) from to m'
          | Some (m', Some e) => for_of tr fuel' (S index) from to (log (ConsoleError e) m')
          | None => None
          end
      end
  end.

(** [function transition(to)]. *)
Fixpoint transition (fuel : nat) (to : ConnectionState) (m : Machine) : Result :=
  if isTransitioning m then Threw (reentrant_error (state m) to) m
  else if negb (canTransition m to) then Threw (invalid_error (state m) to) m
  else
    match fuel with
    | O => OutOfFuel
    | S fuel' =>
        let from := state m in
        let m1 := {| state := to; callbacks := callbacks m;
                     isTransitioning := true; trace := trace m |} in
        match for_of (transition fuel') fuel' 0 from to m1 with
        | Some m2 =>
            (* finally { isTransitioning = false } *)
            Returned {| state := state m2; callbacks := callbacks m2;
                        isTransitioning := false; trace := trace m2 |}
        | None => OutOfFuel
        end
    end.

End Bodies.

End LiveCallbacks.

(* ===================================================================== *)
(** * Retry engine ([withRetry] of [src/ble/transport.ts]) *)
(* ===================================================================== *)

Module Retry.
Import Errors.

(** What an invocation of the wrapped operation settles with. *)
Inductive Outcome (T : Type) : Type :=
| Resolves (v : T)
| Rejects (x : Thrown).
Arguments Resolves {T} v.
Arguments Rejects {T} x.

(** [interface RetryOptions].  [signal] is the signal as it is when
    [withRetry] is called.  Delays are milliseconds, as rationals;
    [onRetry] tells whether the observer is supplied (its calls are events
    of the run). *)
Record RetryOptions : Type := mkRetryOptions {
  maxAttempts : option Z;
  initialDelayMs : option Q;
  maxDelayMs : option Q;
  backoffMultiplier : option Q;
  jitter : option bool;
  signal : option AbortSignal;
  onRetry : bool;
  isRetryable : option (Error -> bool)
}.

(** What a run does, in order: the [n]-th invocation of the operation, a call
    of [onRetry], and the wait that follows a failed attempt. *)
Inductive Event : Type :=
| Invoked (n : nat)
| OnRetry (attempt : Z) (delayMs : Q) (error : Error)
| Waited (attempt : Z).

(** How a promise settles. *)
Inductive Settled (T : Type) : Type :=
| Resolved (v : T)
| Rejected (e : Error).
Arguments Resolved {T} v.
Arguments Rejected {T} e.

(** ** The p-retry loop *)

(** What the function handed to [pRetry] throws: p-retry's own [AbortError],
    which wraps the error built from the message it is given, or any other
    error. *)
Inductive PThrown : Type :=
| PAbortError (originalError : Error)
| PError (e : Error).

Inductive PResult (T : Type) : Type :=
| PResolved (v : T)
| PRejected (x : PThrown).
Arguments PResolved {T} v.
Arguments PRejected {T} x.

(** The error [onFailedAttempt] receives, decorated with [attemptNumber] and
    [retriesLeft]. *)
Record FailedAttempt : Type := mkFailedAttempt {
  failure : Error;
  attemptNumber : Z;
  retriesLeft : Z
}.

Record POptions : Type := mkPOptions {
  retries : Z;
  minTimeout : Q;
  maxTimeout : Q;
  factor : Q;
  randomize : bool;
  psignal : option AbortSignal;
  onFailedAttempt : FailedAttempt -> list Event
}.

(** The outcome of [pRetry]: how it settled, the events of the run, the
    number of invocations of the operation so far, and whether the signal
    fired during a wait. *)
Definition PRun (T : Type) : Type := (Settled T * list Event * nat * bool)%type.

(** The names of the properties every object inherits.  An object used as
    a map, as [counts] below, finds these keys before they are set. *)
Definition inherited_properties : list string :=
  [ "constructor"; "hasOwnProperty"; "isPrototypeOf"; "propertyIsEnumerable";
    "toLocaleString"; "toString"; "valueOf"; "__proto__";
    "__defineGetter__"; "__defineSetter__"; "__lookupGetter__"; "__lookupSetter__" ].

Definition inherited (key : string) : bool :=
  existsb (String.eqb key) inherited_properties.

(** [RetryOperation.prototype.mainError] of the retry package, one round of
    its loop over the errors: [counts] is the object used as a map from
    messages to counts, for messages that are not [inherited];
    [count = (counts[message] || 0) + 1; counts[message] = count;
     if (count >= mainErrorCount) { mainError = error; mainErrorCount = count }]. *)
Definition mainError_step (acc : gmap string nat * option Error * nat) (error : Error)
    : gmap string nat * option Error * nat :=
  let '(counts, mainError, mainErrorCount) := acc in
  let count := (default 0%nat (counts !! message error) + 1)%nat in
  let counts := <[message error := count]> counts in
  if (mainErrorCount <=? count)%nat
  then (counts, Some error, count)
  else (counts, mainError, mainErrorCount).

Definition mainError (errors : list Error) : option Error :=
  snd (fst (fold_left mainError_step errors (∅, None, 0%nat))).

(** Modelled from the spec: the loop of the p-retry package ([import pRetry
    from "p-retry"], a dependency whose source is not part of the
    repository), as section 4.3 of the specification describes it, with the
    one thing the package is known to do otherwise: when no retry is left it
    does not reject with the last error but with [mainError()] of the errors
    of all failed attempts (which is modelled for messages that are not
    [inherited]).  The attempt counter starts at 1; a success is
    returned at once; a failure that is p-retry's [AbortError] (the error
    was not retryable) rejects with the wrapped error at once; any other
    failure is reported to [onFailedAttempt] with its attempt number and the
    retries left, is added to [errors], and rejects when no retry is left;
    otherwise the loop waits, increments the attempt and retries.  A wait
    during which the signal fires ends the loop: p-retry rejects with the
    reason of the signal, of which this development knows the message only
    and which is taken here to be an error named [AbortError], as the reason
    of [abort()] without argument is.  Errors of the class [TypeError],
    which p-retry does not retry, are not among the error values of this
    development.  [left] is the number of retries left; [fires k] tells
    whether the signal fires during the wait after attempt [k]. *)
Fixpoint pRetry_loop {T : Type}
    (input : Z -> nat -> PResult T * list Event * nat)
    (options : POptions) (fires : Z -> bool)
    (left : nat) (attempt : Z) (calls : nat) (errors : list Error) : PRun T :=
  let '(r, evs, calls') := input attempt calls in
  match r with
  | PResolved v => (Resolved v, evs, calls', false)
  | PRejected (PAbortError originalError) => (Rejected originalError, evs, calls', false)
  | PRejected (PError e) =>
      let reported :=
        onFailedAttempt options
          {| failure := e; attemptNumber := attempt; retriesLeft := Z.of_nat left |} in
      let errors := errors ++ [e] in
      match left with
      | O => (Rejected (default e (mainError errors)), evs ++ reported, calls', false)
      | S left' =>
          match psignal options with
          | Some s =>
              if fires attempt
              then (Rejected {| cls := ErrorC; name := "AbortError";
                                message := default "This operation was aborted" (reason_message s) |},
                    evs ++ reported ++ [Waited attempt], calls', true)
              else
                let '(res, evs', calls'', fired) :=
                  pRetry_loop input options fires left' (attempt + 1) calls' errors in
                (res, evs ++ reported ++ [Waited attempt] ++ evs', calls'', fired)
          | None =>
              let '(res, evs', calls'', fired) :=
                pRetry_loop input options fires left' (attempt + 1) calls' errors in
              (res, evs ++ reported ++ [Waited attempt] ++ evs', calls'', fired)
          end
      end
  end.

Definition pRetry {T : Type}
    (input : Z -> nat -> PResult T * list Event * nat)
    (options : POptions) (fires : Z -> bool) : PRun T :=
  pRetry_loop input options fires (Z.to_nat (retries options)) 1 0 [].

(** ** [withRetry] *)

(** A number interpolated in a template string. *)
Definition show_Z (z : Z) : string := NilZero.string_of_int (Z.to_int z).

(** The approximate delay [onFailedAttempt] reports:
    [Math.min(effectiveInitialDelay * backoffMultiplier ** (attempt - 1), maxDelayMs)]. *)
Definition reported_delay (effectiveInitialDelay backoffMultiplier maxDelayMs : Q)
    (attempt : Z) : Q :=
  Qmin (effectiveInitialDelay * backoffMultiplier ^ (attempt - 1))%Q maxDelayMs.

(** [export async function withRetry<T>(operation, options)].  [operation n]
    is what the [n]-th invocation of the operation settles with; the result
    is how the returned promise settles, the events of the run and the
    number of invocations of the operation. *)
Definition withRetry {T : Type} (operation : nat -> Outcome T)
    (fires : Z -> bool) (options : RetryOptions) : Settled T * list Event * nat :=
  let maxAttempts := default 3%Z (maxAttempts options) in
  let initialDelayMs := default 1000%Q (initialDelayMs options) in
  let maxDelayMs := default 30000%Q (maxDelayMs options) in
  let backoffMultiplier := default 2%Q (backoffMultiplier options) in
  let jitter := default true (jitter options) in
  let signal := signal options in
  let isRetryable := default isTransientBLEError (isRetryable options) in
  if (maxAttempts <? 1)%Z then
    (Rejected (new_RangeError ("maxAttempts must be >= 1, got " ++ show_Z maxAttempts)),
     [], 0%nat)
  else if is_aborted signal then
    (Rejected (new_AbortError (abort_message signal)), [], 0%nat)
  else
    let effectiveInitialDelay := Qmin initialDelayMs maxDelayMs in
    let '(res, evs, calls, fired) :=
      pRetry
        (fun (_ : Z) (calls : nat) =>
           let n := S calls in
           match operation n with
           | Resolves v => (PResolved v, [Invoked n], n)
           | Rejects x =>
               let error := as_Error x in
               if negb (isRetryable error)
               then (PRejected (PAbortError (new_Error (message error))), [Invoked n], n)
               else (PRejected (PError error), [Invoked n], n)
           end)
        {| retries := maxAttempts - 1;
           minTimeout := effectiveInitialDelay;
           maxTimeout := maxDelayMs;
           factor := backoffMultiplier;
           randomize := jitter;
           psignal := signal;
           onFailedAttempt := fun error =>
             if (0 <? retriesLeft error)%Z && onRetry options then
               let attempt := attemptNumber error in
               let delayMs :=
                 reported_delay effectiveInitialDelay backoffMultiplier maxDelayMs attempt in
               [OnRetry attempt delayMs (failure error)]
             else [] |}
        fires in
    match res with
    | Resolved v => (Resolved v, evs, calls)
    | Rejected e =>
        if String.eqb (name e) "AbortError" && (is_aborted signal || fired)
        then (Rejected (new_AbortError (abort_message signal)), evs, calls)
        else (Rejected e, evs, calls)
    end.

(** The delay of the specification's algorithm:
    [min(initialDelay * backoffMultiplier^(attempt - 1), maxDelay)]. *)
Definition delay_by_spec (initialDelay backoffMultiplier maxDelay : Q) (attempt : Z) : Q :=
  Qmin (initialDelay * backoffMultiplier ^ (attempt - 1))%Q maxDelay.

End Retry.

(* ===================================================================== *)
(** * Connection pool ([src/ble/connection-pool.ts]) *)
(* ===================================================================== *)

Module Pool.
Import Errors.

(** [const MAX_BLE_CONNECTIONS = 7]. *)
Definition MAX_BLE_CONNECTIONS : Z := 7.

(** A [BLEConnectedSession], as far as the pool uses it: the key it reports,
    the identity of the object, and whether it has the optional
    [onDisconnect] registration. *)
Record BLEConnectedSession : Type := mkSession {
  deviceId : string;
  sessionId : nat;
  has_onDisconnect : bool
}.

(** A [BLEAdapter]: the identity of the object and whether it has the
    optional [reconnect]. *)
Record BLEAdapter : Type := mkAdapter {
  adapterId : nat;
  has_reconnect : bool
}.

(** [interface ConnectionPoolOptions] ([createAdapter] is the environment's,
    and [reconnectOptions] the retry engine's). *)
Record ConnectionPoolOptions : Type := mkOptions {
  opt_maxConnections : option Z;
  opt_autoReconnect : option bool
}.

(** The destructured options of [createConnectionPool], with their defaults. *)
Record Config : Type := mkConfig {
  maxConnections : Z;
  autoReconnect : bool
}.

Definition config_of (options : ConnectionPoolOptions) : Config :=
  {| maxConnections := default MAX_BLE_CONNECTIONS (opt_maxConnections options);
     autoReconnect := default false (opt_autoReconnect options) |}.

(** [interface ConnectionPoolEvents]: what the emitter is asked to emit. *)
Inductive PoolEvent : Type :=
| EmitConnect (deviceId : string) (session : BLEConnectedSession)
| EmitDisconnect (deviceId : string).

(** The calls the pool makes on its collaborators. *)
Inductive Call : Type :=
| AdapterConnect (adapter : BLEAdapter)
| SessionDisconnect (session : BLEConnectedSession)
| Cleanup (subscribedSession : nat)
| ConsoleWarn.

(** An asynchronous function of the pool suspended at an [await]. *)
Inductive Task : Type :=
| ConnectAwait (adapter : BLEAdapter)
    (* [connect]: [await adapter.connect(connectOptions)] *)
| ReconnectAwait (deviceId : string) (adapter : BLEAdapter)
    (* [reconnectDevice]: [await connectWithRetry(...)] *)
| ReconnectTeardownAwait (deviceId : string)
    (* [reconnectDevice]: [await session.disconnect().catch(() => {})] *)
| DisconnectAwait (deviceId : string) (session : BLEConnectedSession).
    (* [disconnect]: [await session.disconnect()] *)

(** The closure state of [createConnectionPool]: the three maps, the set of
    keys being reconnected and the counter of pending connections; then what
    the pool emitted and called so far, and the suspended functions. *)
Record PoolState : Type := mkPool {
  sessions : gmap string BLEConnectedSession;
  adapters : gmap string BLEAdapter;
  disconnectCleanups : gmap string nat;
  reconnectingDevices : gset string;
  pendingConnections : Z;
  emitted : list PoolEvent;
  calls : list Call;
  tasks : gmap nat Task;
  nextTask : nat
}.

Definition createConnectionPool : PoolState :=
  {| sessions := ∅; adapters := ∅; disconnectCleanups := ∅;
     reconnectingDevices := ∅; pendingConnections := 0;
     emitted := []; calls := []; tasks := ∅; nextTask := 0 |}.

Definition set_sessions (f : gmap string BLEConnectedSession -> gmap string BLEConnectedSession)
    (s : PoolState) : PoolState :=
  mkPool (f (sessions s)) (adapters s) (disconnectCleanups s) (reconnectingDevices s)
         (pendingConnections s) (emitted s) (calls s) (tasks s) (nextTask s).

Definition set_adapters (f : gmap string BLEAdapter -> gmap string BLEAdapter)
    (s : PoolState) : PoolState :=
  mkPool (sessions s) (f (adapters s)) (disconnectCleanups s) (reconnectingDevices s)
         (pendingConnections s) (emitted s) (calls s) (tasks s) (nextTask s).

Definition set_disconnectCleanups (f : gmap string nat -> gmap string nat)
    (s : PoolState) : PoolState :=
  mkPool (sessions s) (adapters s) (f (disconnectCleanups s)) (reconnectingDevices s)
         (pendingConnections s) (emitted s) (calls s) (tasks s) (nextTask s).

Definition set_reconnectingDevices (f : gset string -> gset string)
    (s : PoolState) : PoolState :=
  mkPool (sessions s) (adapters s) (disconnectCleanups s) (f (reconnectingDevices s))
         (pendingConnections s) (emitted s) (calls s) (tasks s) (nextTask s).

Definition set_pendingConnections (f : Z -> Z) (s : PoolState) : PoolState :=
  mkPool (sessions s) (adapters s) (disconnectCleanups s) (reconnectingDevices s)
         (f (pendingConnections s)) (emitted s) (calls s) (tasks s) (nextTask s).

(** [emitter.emit(...)]. *)
Definition emit (ev : PoolEvent) (s : PoolState) : PoolState :=
  mkPool (sessions s) (adapters s) (disconnectCleanups s) (reconnectingDevices s)
         (pendingConnections s) (emitted s ++ [ev]) (calls s) (tasks s) (nextTask s).

Definition call (c : Call) (s : PoolState) : PoolState :=
  mkPool (sessions s) (adapters s) (disconnectCleanups s) (reconnectingDevices s)
         (pendingConnections s) (emitted s) (calls s ++ [c]) (tasks s) (nextTask s).

(** Suspend at an [await]: the continuation gets a fresh task number. *)
Definition suspend (t : Task) (s : PoolState) : nat * PoolState :=
  (nextTask s,
   mkPool (sessions s) (adapters s) (disconnectCleanups s) (reconnectingDevices s)
          (pendingConnections s) (emitted s) (calls s)
          (<[nextTask s := t]> (tasks s)) (S (nextTask s))).

Definition resume (task : nat) (s : PoolState) : PoolState :=
  mkPool (sessions s) (adapters s) (disconnectCleanups s) (reconnectingDevices s)
         (pendingConnections s) (emitted s) (calls s)
         (delete task (tasks s)) (nextTask s).

(** [const cleanup = disconnectCleanups.get(deviceId);
     if (cleanup) { cleanup(); disconnectCleanups.delete(deviceId); }] *)
Definition run_cleanup (deviceId : string) (s : PoolState) : PoolState :=
  match disconnectCleanups s !! deviceId with
  | Some subscribed =>
      set_disconnectCleanups (delete deviceId) (call (Cleanup subscribed) s)
  | None => s
  end.

(** [if (session.onDisconnect) { const cleanup = session.onDisconnect(...);
     disconnectCleanups.set(deviceId, cleanup); }] *)
Definition register_disconnect_handler (deviceId : string)
    (session : BLEConnectedSession) (s : PoolState) : PoolState :=
  if has_onDisconnect session
  then set_disconnectCleanups (<[deviceId := sessionId session]>) s
  else s.

(** [reconnectDevice], up to its first [await]. *)
Definition reconnectDevice (deviceId : string) (adapter : BLEAdapter)
    (s : PoolState) : PoolState :=
  if negb (has_reconnect adapter) then s
  else
    let s := set_reconnectingDevices (fun r => {[deviceId]} ∪ r) s in
    snd (suspend (ReconnectAwait deviceId adapter) s).

(** [function handleDisconnect(deviceId)]: what the session's
    unexpected-disconnect notification runs. *)
Definition handleDisconnect (cfg : Config) (deviceId : string) (s : PoolState) : PoolState :=
  match sessions s !! deviceId with
  | None => s
  | Some _ =>
      let s := set_sessions (delete deviceId) s in
      let s := run_cleanup deviceId s in
      let s := emit (EmitDisconnect deviceId) s in
      if autoReconnect cfg then
        match adapters s !! deviceId with
        | Some adapter =>
            if has_reconnect adapter then reconnectDevice deviceId adapter s else s
        | None => s
        end
      else set_adapters (delete deviceId) s
  end.

(** How a call of the pool, or the resumption of one, ends: the promise
    resolves (for [connect], with a session), it rejects, the function is
    suspended as the given task, or there is no such suspended task. *)
Inductive Reply : Type :=
| Resolves (session : option BLEConnectedSession)
| Rejects (e : Error)
| Suspended (task : nat)
| NoSuchTask.

Definition show_Z (z : Z) : string := NilZero.string_of_int (Z.to_int z).

Definition capacity_error (cfg : Config) : Error :=
  new_Error ("Maximum connections (" ++ show_Z (maxConnections cfg)
             ++ ") reached. Disconnect a device before connecting another.").

(** [async connect(connectOptions)], up to [await adapter.connect(...)];
    [adapter] is what [createAdapter()] returns. *)
Definition connect (cfg : Config) (adapter : BLEAdapter) (s : PoolState)
    : Reply * PoolState :=
  if (maxConnections cfg <=? Z.of_nat (size (sessions s)) + pendingConnections s)%Z
  then (Rejects (capacity_error cfg), s)
  else
    let s := set_pendingConnections (fun p => p + 1)%Z s in
    let s := call (AdapterConnect adapter) s in
    let '(task, s) := suspend (ConnectAwait adapter) s in
    (Suspended task, s).

(** [connect], from the settlement of [adapter.connect(...)] to its end;
    [pendingConnections--] is the [finally] block. *)
Definition connect_settles (task : nat) (adapter : BLEAdapter)
    (outcome : BLEConnectedSession + Error) (s : PoolState) : Reply * PoolState :=
  let s := resume task s in
  match outcome with
  | inl session =>
      let deviceId := deviceId session in
      let s := set_adapters (<[deviceId := adapter]>) s in
      let s := set_sessions (<[deviceId := session]>) s in
      let s := register_disconnect_handler deviceId session s in
      let s := emit (EmitConnect deviceId session) s in
      (Resolves (Some session), set_pendingConnections (fun p => p - 1)%Z s)
  | inr e =>
      (Rejects e, set_pendingConnections (fun p => p - 1)%Z s)
  end.

(** [reconnectDevice], from the settlement of [connectWithRetry(...)] on.
    With the key no longer marked, the new session is torn down and the
    function is suspended once more; otherwise it runs to its [finally]. *)
Definition reconnect_settles (task : nat) (deviceId : string)
    (outcome : BLEConnectedSession + Error) (s : PoolState) : Reply * PoolState :=
  let s := resume task s in
  match outcome with
  | inl session =>
      if negb (bool_decide (deviceId ∈ reconnectingDevices s)) then
        let s := call (SessionDisconnect session) s in
        let '(task', s) := suspend (ReconnectTeardownAwait deviceId) s in
        (Suspended task', s)
      else
        let s := set_sessions (<[deviceId := session]>) s in
        let s := register_disconnect_handler deviceId session s in
        let s := emit (EmitConnect deviceId session) s in
        (Resolves None, set_reconnectingDevices (fun r => r ∖ {[deviceId]}) s)
  | inr _ =>
      let s := call ConsoleWarn s in
      let s := set_adapters (delete deviceId) s in
      (Resolves None, set_reconnectingDevices (fun r => r ∖ {[deviceId]}) s)
  end.

(** [reconnectDevice], after the discarded session's teardown settled (either
    way): [return], then the [finally] block. *)
Definition reconnect_teardown_settles (task : nat) (deviceId : string)
    (s : PoolState) : Reply * PoolState :=
  let s := resume task s in
  (Resolves None, set_reconnectingDevices (fun r => r ∖ {[deviceId]}) s).

(** [async disconnect(deviceId)], up to [await session.disconnect()]. *)
Definition disconnect (deviceId : string) (s : PoolState) : Reply * PoolState :=
  let s := set_reconnectingDevices (fun r => r ∖ {[deviceId]}) s in
  match sessions s !! deviceId with
  | None => (Resolves None, s)
  | Some session =>
      let s := set_sessions (delete deviceId) s in
      let s := set_adapters (delete deviceId) s in
      let s := run_cleanup deviceId s in
      let s := call (SessionDisconnect session) s in
      let '(task, s) := suspend (DisconnectAwait deviceId session) s in
      (Suspended task, s)
  end.

(** [disconnect], from the settlement of [session.disconnect()] on: a
    rejection leaves the function at the [await]; otherwise the disconnect
    event is emitted. *)
Definition disconnect_settles (task : nat) (deviceId : string)
    (teardown : option Error) (s : PoolState) : Reply * PoolState :=
  let s := resume task s in
  match teardown with
  | Some e => (Rejects e, s)
  | None => (Resolves None, emit (EmitDisconnect deviceId) s)
  end.

(** The read accessors. *)
Definition getSession (deviceId : string) (s : PoolState) : option BLEConnectedSession :=
  sessions s !! deviceId.

Definition isConnected (deviceId : string) (s : PoolState) : bool :=
  bool_decide (is_Some (sessions s !! deviceId)).

(** [getSessions()]: [new Map(sessions)], a copy. *)
Definition getSessions (s : PoolState) : gmap string BLEConnectedSession :=
  sessions s.

(** [get connectionCount()]: [sessions.size]. *)
Definition connectionCount (s : PoolState) : Z := Z.of_nat (size (sessions s)).

(** What happens next: a call by the user of the pool, or the environment
    settling what a suspended function awaits, or notifying an unexpected
    disconnect.  The notification is the callback [() =>
    handleDisconnect(deviceId)] that [connect] and [reconnectDevice] register
    with a session; here it may arrive for any key at any time, which
    includes every run of the pool ([handleDisconnect] ignores a key without
    entry). *)
Inductive Action : Type :=
| CallConnect (adapter : BLEAdapter)
| CallDisconnect (deviceId : string)
| UnexpectedDisconnect (deviceId : string)
| Settle (task : nat) (outcome : BLEConnectedSession + Error)
| SettleTeardown (task : nat) (teardown : option Error).

Definition step (cfg : Config) (a : Action) (s : PoolState) : Reply * PoolState :=
  match a with
  | CallConnect adapter => connect cfg adapter s
  | CallDisconnect deviceId => disconnect deviceId s
  | UnexpectedDisconnect deviceId => (Resolves None, handleDisconnect cfg deviceId s)
  | Settle task outcome =>
      match tasks s !! task with
      | Some (ConnectAwait adapter) => connect_settles task adapter outcome s
      | Some (ReconnectAwait deviceId _) => reconnect_settles task deviceId outcome s
      | _ => (NoSuchTask, s)
      end
  | SettleTeardown task teardown =>
      match tasks s !! task with
      | Some (ReconnectTeardownAwait deviceId) => reconnect_teardown_settles task deviceId s
      | Some (DisconnectAwait deviceId _) => disconnect_settles task deviceId teardown s
      | _ => (NoSuchTask, s)
      end
  end.

(** The state after a sequence of actions. *)
Definition run (cfg : Config) (actions : list Action) (s : PoolState) : PoolState :=
  fold_left (fun s a => snd (step cfg a s)) actions s.

Definition reachable (cfg : Config) (s : PoolState) : Prop :=
  exists actions, s = run cfg actions createConnectionPool.

End Pool.

(* ===================================================================== *)
(** * [disconnectAll] of the connection pool *)
(* ===================================================================== *)

Module PoolTeardown.
Import Errors Pool.

(** [deviceIds.map((id) => this.disconnect(id))]: [disconnect] is called for
    each key in turn, and each call runs to its [await] (or to its end, for
    a key without entry) before the next one starts. *)
Fixpoint disconnect_each (deviceIds : list string) (s : PoolState)
    : list Reply * PoolState :=
  match deviceIds with
  | [] => ([], s)
  | id :: rest =>
      let '(r, s) := disconnect id s in
      let '(rs, s) := disconnect_each rest s in
      (r :: rs, s)
  end.

(** [Array.from(sessions.keys())] lists the keys in the order of their
    insertion, which the map of the model does not record: [deviceIds] is
    any listing of the keys, each once. *)
Definition lists_keys (deviceIds : list string) (s : PoolState) : Prop :=
  NoDup deviceIds /\ forall k, k ∈ deviceIds <-> is_Some (sessions s !! k).

(** [async disconnectAll()], up to [await Promise.allSettled(...)]. *)
Definition disconnectAll (deviceIds : list string) (s : PoolState)
    : list Reply * PoolState :=
  disconnect_each deviceIds s.

(** [disconnectAll], after every [disconnect] has settled: [results] tells,
    for each call, the error it was rejected with, if any. *)
Definition disconnectAll_settles (results : list (option Error)) (s : PoolState)
    : Reply * PoolState :=
  let failures := List.filter (fun r => bool_decide (is_Some r)) results in
  if (0 <? length failures)%nat
  then (Resolves None, call ConsoleWarn s)
  else (Resolves None, s).

(** The sessions whose teardown the pool has called, in order. *)
Definition teardowns (l : list Call) : list BLEConnectedSession :=
  flat_map (fun c => match c with SessionDisconnect session => [session] | _ => [] end) l.

End PoolTeardown.

(* ===================================================================== *)
(** * Listeners that call the pool ([src/ble/connection-pool.ts]) *)
(* ===================================================================== *)

(** [emitter.emit] calls the listeners registered with [onConnect] and
    [onDisconnect] before it returns, and a listener may call the pool.  In
    [Pool] the listeners leave the pool alone; here the functions of the
    pool that emit are given the calls the listeners make, which run where
    [emitter.emit] is called.  The adapters, the sessions and
    [createAdapter] are taken not to call the pool from inside the calls the
    pool makes on them. *)
Module PoolListeners.
Import Errors Pool.

(** What a listener may do with the pool: call [connect] or [disconnect]
    ([disconnectAll] is one [disconnect] for each key).  Both run up to
    their first [await] before the listener goes on; the accessors change
    nothing.  An exception of a listener does not leave the emitter. *)
Inductive ListenerCall : Type :=
| ListenerConnect (adapter : BLEAdapter)
| ListenerDisconnect (deviceId : string).

Definition listener_step (cfg : Config) (c : ListenerCall) (s : PoolState) : PoolState :=
  match c with
  | ListenerConnect adapter => snd (connect cfg adapter s)
  | ListenerDisconnect deviceId => snd (disconnect deviceId s)
  end.

(** [emitter.emit(...)]: the listeners run, one call after the other. *)
Definition emit (cfg : Config) (calls : list ListenerCall) (ev : PoolEvent)
    (s : PoolState) : PoolState :=
  fold_left (fun s c => listener_step cfg c s) calls (Pool.emit ev s).

(** [handleDisconnect], up to the return of [emitter.emit]. *)
Definition handleDisconnect_notifies (cfg : Config) (calls : list ListenerCall)
    (deviceId : string) (s : PoolState) : PoolState :=
  let s := set_sessions (delete deviceId) s in
  let s := run_cleanup deviceId s in
  emit cfg calls (EmitDisconnect deviceId) s.

(** [function handleDisconnect(deviceId)]. *)
Definition handleDisconnect (cfg : Config) (calls : list ListenerCall)
    (deviceId : string) (s : PoolState) : PoolState :=
  match sessions s !! deviceId with
  | None => s
  | Some _ =>
      let s := handleDisconnect_notifies cfg calls deviceId s in
      if autoReconnect cfg then
        match adapters s !! deviceId with
        | Some adapter =>
            if has_reconnect adapter then reconnectDevice deviceId adapter s else s
        | None => s
        end
      else set_adapters (delete deviceId) s
  end.

(** [connect], from the session [adapter.connect(...)] resolved with up to
    the return of [emitter.emit]: the [finally] block has not run. *)
Definition connect_notifies (cfg : Config) (calls : list ListenerCall) (task : nat)
    (adapter : BLEAdapter) (session : BLEConnectedSession) (s : PoolState) : PoolState :=
  let s := resume task s in
  let deviceId := deviceId session in
  let s := set_adapters (<[deviceId := adapter]>) s in
  let s := set_sessions (<[deviceId := session]>) s in
  let s := register_disconnect_handler deviceId session s in
  emit cfg calls (EmitConnect deviceId session) s.

(** [connect], from the settlement of [adapter.connect(...)] to its end. *)
Definition connect_settles (cfg : Config) (calls : list ListenerCall) (task : nat)
    (adapter : BLEAdapter) (outcome : BLEConnectedSession + Error) (s : PoolState)
    : Reply * PoolState :=
  match outcome with
  | inl session =>
      let s := connect_notifies cfg calls task adapter session s in
      (Resolves (Some session), set_pendingConnections (fun p => p - 1)%Z s)
  | inr e =>
      let s := resume task s in
      (Rejects e, set_pendingConnections (fun p => p - 1)%Z s)
  end.

(** [reconnectDevice], from the new session that is kept up to the return
    of [emitter.emit]. *)
Definition reconnect_notifies (cfg : Config) (calls : list ListenerCall)
    (deviceId : string) (session : BLEConnectedSession) (s : PoolState) : PoolState :=
  let s := set_sessions (<[deviceId := session]>) s in
  let s := register_disconnect_handler deviceId session s in
  emit cfg calls (EmitConnect deviceId session) s.

(** [reconnectDevice], from the settlement of [connectWithRetry(...)] on. *)
Definition reconnect_settles (cfg : Config) (calls : list ListenerCall) (task : nat)
    (deviceId : string) (outcome : BLEConnectedSession + Error) (s : PoolState)
    : Reply * PoolState :=
  let s := resume task s in
  match outcome with
  | inl session =>
      if negb (bool_decide (deviceId ∈ reconnectingDevices s)) then
        let s := call (SessionDisconnect session) s in
        let '(task', s) := suspend (ReconnectTeardownAwait deviceId) s in
        (Suspended task', s)
      else
        let s := reconnect_notifies cfg calls deviceId session s in
        (Resolves None, set_reconnectingDevices (fun r => r ∖ {[deviceId]}) s)
  | inr _ =>
      let s := call ConsoleWarn s in
      let s := set_adapters (delete deviceId) s in
      (Resolves None, set_reconnectingDevices (fun r => r ∖ {[deviceId]}) s)
  end.

(** [disconnect], from the settlement of [session.disconnect()] on. *)
Definition disconnect_settles (cfg : Config) (calls : list ListenerCall) (task : nat)
    (deviceId : string) (teardown : option Error) (s : PoolState) : Reply * PoolState :=
  let s := resume task s in
  match teardown with
  | Some e => (Rejects e, s)
  | None => (Resolves None, emit cfg calls (EmitDisconnect deviceId) s)
  end.

(** What happens next, with the calls the listeners make if the pool emits
    an event. *)
Definition step (cfg : Config) (a : Action) (calls : list ListenerCall) (s : PoolState)
    : Reply * PoolState :=
  match a with
  | CallConnect adapter => connect cfg adapter s
  | CallDisconnect deviceId => disconnect deviceId s
  | UnexpectedDisconnect deviceId => (Resolves None, handleDisconnect cfg calls deviceId s)
  | Settle task outcome =>
      match tasks s !! task with
      | Some (ConnectAwait adapter) => connect_settles cfg calls task adapter outcome s
      | Some (ReconnectAwait deviceId _) =>
          reconnect_settles cfg calls task deviceId outcome s
      | _ => (NoSuchTask, s)
      end
  | SettleTeardown task teardown =>
      match tasks s !! task with
      | Some (ReconnectTeardownAwait deviceId) => reconnect_teardown_settles task deviceId s
      | Some (DisconnectAwait deviceId _) =>
          disconnect_settles cfg calls task deviceId teardown s
      | _ => (NoSuchTask, s)
      end
  end.

Definition run (cfg : Config) (actions : list (Action * list ListenerCall))
    (s : PoolState) : PoolState :=
  fold_left (fun s a => snd (step cfg (fst a) (snd a) s)) actions s.

Definition reachable (cfg : Config) (s : PoolState) : Prop :=
  exists actions, s = run cfg actions createConnectionPool.

End PoolListeners.

(* ===================================================================== *)
(** * Operation queue ([src/ble/operation-queue.ts]) *)
(* ===================================================================== *)

Module OperationQueue.
Import Errors.

(** [interface OperationQueueOptions]. *)
Record OperationQueueOptions : Type := mkQueueOptions {
  maxConcurrent : option Z;
  signal : option AbortSignal
}.

(** The values operations resolve with are opaque to the queue. *)
Definition Value : Type := nat.

(** The deferred [resultPromise] of one [enqueue]: settled at most once, by
    [resolveOp] or [rejectOp]. *)
Inductive Handle : Type :=
| Pending
| Fulfilled (v : Value)
| Failed (e : Error).

(** [resolveOp?.(result)] and [rejectOp?.(err)]: settling a settled promise
    does nothing. *)
Definition settle_handle (h new : Handle) : Handle :=
  match h with
  | Pending => new
  | _ => h
  end.

(** Where the chain [newQueue] of one [enqueue] stands: its first callback has
    not run yet; it has called [operation()], whose promise is pending; its
    [finally] callback has run, after the operation settled ([Done]) or
    without the operation having been called ([Skipped]). *)
Inductive Phase : Type :=
| Waiting
| Running
| Done
| Skipped.

Definition finished (p : Phase) : bool :=
  match p with
  | Done | Skipped => true
  | Waiting | Running => false
  end.

(** What one accepted [enqueue] creates: the chain [newQueue], built on
    [currentQueue] ([after]; [None] is [Promise.resolve()]), and the deferred
    result.  [operation] names the caller's function. *)
Record Entry : Type := mkEntry {
  key : string;
  operation : nat;
  after : option nat;
  phase : Phase;
  result : Handle
}.

(** The closure state of [createOperationQueue]: the signal, the maps
    [queues] (a chain is named by the position of its entry) and
    [queueDepths], and [cleared]; then the entries created so far and the
    operations invoked so far, in order. *)
Record QueueState : Type := mkQueue {
  q_signal : option AbortSignal;
  queues : gmap string nat;
  queueDepths : gmap string Z;
  cleared : bool;
  entries : list Entry;
  invoked : list nat
}.

(** [createOperationQueue(options)]: [const { signal } = options]. *)
Definition createOperationQueue (options : OperationQueueOptions) : QueueState :=
  {| q_signal := signal options;
     queues := ∅; queueDepths := ∅; cleared := false;
     entries := []; invoked := [] |}.

Definition set_phase (p : Phase) (e : Entry) : Entry :=
  mkEntry (key e) (operation e) (after e) p (result e).

Definition set_result (h : Handle) (e : Entry) : Entry :=
  mkEntry (key e) (operation e) (after e) (phase e) h.

(** [function enqueue(characteristicUuid, operation)]: the promise it returns
    is rejected at once, or is the result of the entry it created. *)
Definition enqueue (characteristicUuid : string) (op : nat) (s : QueueState)
    : (Error + nat) * QueueState :=
  if is_aborted (q_signal s) then
    (inl (new_AbortError (abort_message (q_signal s))), s)
  else if cleared s then
    (inl (new_AbortError "Queue has been cleared"), s)
  else
    let currentDepth := default 0%Z (queueDepths s !! characteristicUuid) in
    let currentQueue := queues s !! characteristicUuid in
    let newQueue := length (entries s) in
    (inr newQueue,
     {| q_signal := q_signal s;
        queues := <[characteristicUuid := newQueue]> (queues s);
        queueDepths := <[characteristicUuid := (currentDepth + 1)%Z]> (queueDepths s);
        cleared := cleared s;
        entries := entries s ++
          [{| key := characteristicUuid; operation := op; after := currentQueue;
              phase := Waiting; result := Pending |}];
        invoked := invoked s |}).

(** The [finally] callback of the chain [newQueue] of [characteristicUuid]. *)
Definition finally (characteristicUuid : string) (newQueue : nat) (s : QueueState)
    : QueueState :=
  let depth := default 1%Z (queueDepths s !! characteristicUuid) in
  if (depth <=? 1)%Z then
    {| q_signal := q_signal s;
       queues :=
         if bool_decide (queues s !! characteristicUuid = Some newQueue)
         then delete characteristicUuid (queues s) else queues s;
       queueDepths := delete characteristicUuid (queueDepths s);
       cleared := cleared s; entries := entries s; invoked := invoked s |}
  else
    {| q_signal := q_signal s; queues := queues s;
       queueDepths := <[characteristicUuid := (depth - 1)%Z]> (queueDepths s);
       cleared := cleared s; entries := entries s; invoked := invoked s |}.

Definition update_entry (c : nat) (f : Entry -> Entry) (s : QueueState) : QueueState :=
  {| q_signal := q_signal s; queues := queues s; queueDepths := queueDepths s;
     cleared := cleared s;
     entries := match entries s !! c with
                | Some e => <[c := f e]> (entries s)
                | None => entries s
                end;
     invoked := invoked s |}.

(** The chain [c] can run its first callback: it has not run yet, and the
    promise it is chained on is fulfilled. *)
Definition ready (c : nat) (s : QueueState) : bool :=
  match entries s !! c with
  | Some e =>
      match phase e with
      | Waiting =>
          match after e with
          | None => true
          | Some p =>
              match entries s !! p with
              | Some ep => finished (phase ep)
              | None => false
              end
          end
      | _ => false
      end
  | None => false
  end.

(** The first callback of the chain [c]: it throws when the signal is aborted
    or the queue cleared, and the [catch] and [finally] callbacks follow;
    otherwise it calls [operation()]. *)
Definition advance (c : nat) (s : QueueState) : QueueState :=
  if negb (ready c s) then s
  else
    match entries s !! c with
    | None => s
    | Some e =>
        if is_aborted (q_signal s) then
          let err := new_AbortError (abort_message (q_signal s)) in
          finally (key e) c
            (update_entry c
               (fun e => set_phase Skipped (set_result (settle_handle (result e) (Failed err)) e)) s)
        else if cleared s then
          let err := new_AbortError "Queue has been cleared" in
          finally (key e) c
            (update_entry c
               (fun e => set_phase Skipped (set_result (settle_handle (result e) (Failed err)) e)) s)
        else
          let s := update_entry c (set_phase Running) s in
          {| q_signal := q_signal s; queues := queues s; queueDepths := queueDepths s;
             cleared := cleared s; entries := entries s;
             invoked := invoked s ++ [c] |}
    end.

(** The promise of the operation of chain [c] settles: [resolveOp] or
    [rejectOp], then the [finally] callback. *)
Definition settle (c : nat) (outcome : Value + Thrown) (s : QueueState) : QueueState :=
  match entries s !! c with
  | Some e =>
      match phase e with
      | Running =>
          let h := match outcome with
                   | inl v => Fulfilled v
                   | inr x => Failed (as_Error x)
                   end in
          finally (key e) c
            (update_entry c
               (fun e => set_phase Done (set_result (settle_handle (result e) h) e)) s)
      | _ => s
      end
  | None => s
  end.

(** The signal fires: every [abortHandler] still registered rejects its
    result. *)
Definition abort (reason : option string) (s : QueueState) : QueueState :=
  match q_signal s with
  | Some sg =>
      if aborted sg then s
      else
        let sg' := {| aborted := true; reason_message := reason |} in
        {| q_signal := Some sg'; queues := queues s; queueDepths := queueDepths s;
           cleared := cleared s;
           entries :=
             map (fun e =>
                    set_result
                      (settle_handle (result e)
                         (Failed (new_AbortError (abort_message (Some sg')))))
                      e)
                 (entries s);
           invoked := invoked s |}
  | None => s
  end.

(** [function clear()]. *)
Definition clear (s : QueueState) : QueueState :=
  {| q_signal := q_signal s; queues := ∅; queueDepths := ∅; cleared := true;
     entries := entries s; invoked := invoked s |}.

(** [function getQueueDepth(characteristicUuid)]. *)
Definition getQueueDepth (characteristicUuid : string) (s : QueueState) : Z :=
  default 0%Z (queueDepths s !! characteristicUuid).

(** What happens next: a call by the user of the queue, a promise callback
    run by the scheduler, an operation settling, or the signal firing. *)
Inductive Action : Type :=
| Enqueue (characteristicUuid : string) (op : nat)
| Advance (c : nat)
| Settle (c : nat) (outcome : Value + Thrown)
| Abort (reason : option string)
| Clear.

Definition step (a : Action) (s : QueueState) : QueueState :=
  match a with
  | Enqueue k op => snd (enqueue k op s)
  | Advance c => advance c s
  | Settle c outcome => settle c outcome s
  | Abort reason => abort reason s
  | Clear => clear s
  end.

Definition run (actions : list Action) (s : QueueState) : QueueState :=
  fold_left (fun s a => step a s) actions s.

Definition reachable (options : OperationQueueOptions) (s : QueueState) : Prop :=
  exists actions, s = run actions (createOperationQueue options).

(** The operation of chain [c] has been called. *)
Definition started (p : Phase) : bool :=
  match p with
  | Running | Done => true
  | Waiting | Skipped => false
  end.

End OperationQueue.

(* ===================================================================== *)
(** * Event emitter ([createEventEmitter] of [src/state/event-emitter.ts]) *)
(* ===================================================================== *)

Module EventEmitter.
Import Errors.

(** The identity of a listener function: a callback of the user, or one of
    the wrappers [once] creates. *)
Inductive Fn : Type :=
| Callback (id : nat)
| Wrapper (w : nat).

#[global] Instance Fn_eq_dec : EqDecision Fn.
Proof. solve_decision. Defined.

(** [Set.prototype.add] and [Set.prototype.delete] on an insertion-ordered
    set of functions. *)
Definition set_add (x : Fn) (l : list Fn) : list Fn :=
  if bool_decide (x ∈ l) then l else l ++ [x].

Definition set_delete (x : Fn) (l : list Fn) : list Fn :=
  List.filter (fun y => negb (bool_decide (y = x))) l.

(** [Map.prototype.get], [set] and [delete] on an insertion-ordered map from
    functions to functions. *)
Definition map_get (k : Fn) (m : list (Fn * Fn)) : option Fn :=
  match List.find (fun p => bool_decide (fst p = k)) m with
  | Some p => Some (snd p)
  | None => None
  end.

Definition map_set (k v : Fn) (m : list (Fn * Fn)) : list (Fn * Fn) :=
  if existsb (fun p => bool_decide (fst p = k)) m
  then map (fun p => if bool_decide (fst p = k) then (k, v) else p) m
  else m ++ [(k, v)].

Definition map_delete (k : Fn) (m : list (Fn * Fn)) : list (Fn * Fn) :=
  List.filter (fun p => negb (bool_decide (fst p = k))) m.

(** The payload of an event. *)
Definition Data : Type := nat.

(** The closure state of [createEventEmitter]: the maps [listeners] and
    [onceWrappers]; then the closures of the wrappers created so far (the
    wrapper [w] closes over the event and the callback at place [w]), the
    calls of callbacks of the user so far, and the errors handed to
    [console.error] so far. *)
Record Emitter : Type := mkEmitter {
  listeners : gmap string (list Fn);
  onceWrappers : list (Fn * Fn);
  wrappers : list (string * nat);
  called : list (nat * Data);
  reported : list Error
}.

Definition createEventEmitter : Emitter :=
  {| listeners := ∅; onceWrappers := []; wrappers := []; called := []; reported := [] |}.

(** [getListenerSet(event)] followed by [set.add(fn)]. *)
Definition add_listener (event : string) (fn : Fn) (e : Emitter) : Emitter :=
  {| listeners := <[event := set_add fn (default [] (listeners e !! event))]> (listeners e);
     onceWrappers := onceWrappers e; wrappers := wrappers e;
     called := called e; reported := reported e |}.

(** [function on(event, callback)]; the function it returns is
    [() => off(event, callback)]. *)
Definition on (event : string) (id : nat) (e : Emitter) : Emitter :=
  add_listener event (Callback id) e.

(** [function once(event, callback)]. *)
Definition once (event : string) (id : nat) (e : Emitter) : Emitter :=
  let w := length (wrappers e) in
  let e :=
    {| listeners := listeners e;
       onceWrappers := map_set (Callback id) (Wrapper w) (onceWrappers e);
       wrappers := wrappers e ++ [(event, id)];
       called := called e; reported := reported e |} in
  add_listener event (Wrapper w) e.

(** [function off(event, callback)]. *)
Definition off (event : string) (fn : Fn) (e : Emitter) : Emitter :=
  match listeners e !! event with
  | Some set =>
      match map_get fn (onceWrappers e) with
      | Some wrapper =>
          {| listeners := <[event := set_delete wrapper set]> (listeners e);
             onceWrappers := map_delete fn (onceWrappers e);
             wrappers := wrappers e; called := called e; reported := reported e |}
      | None =>
          {| listeners := <[event := set_delete fn set]> (listeners e);
             onceWrappers := onceWrappers e;
             wrappers := wrappers e; called := called e; reported := reported e |}
      end
  | None => e
  end.

(** The inner loop of [removeAllListeners]: the first entry of
    [onceWrappers] whose wrapper is [cb] is deleted. *)
Definition forget_wrapper (ow : list (Fn * Fn)) (cb : Fn) : list (Fn * Fn) :=
  match List.find (fun p => bool_decide (snd p = cb)) ow with
  | Some p => map_delete (fst p) ow
  | None => ow
  end.

(** [function removeAllListeners(event?)]. *)
Definition removeAllListeners (event : option string) (e : Emitter) : Emitter :=
  match event with
  | Some event =>
      {| listeners := delete event (listeners e);
         onceWrappers :=
           match listeners e !! event with
           | Some set => fold_left forget_wrapper set (onceWrappers e)
           | None => onceWrappers e
           end;
         wrappers := wrappers e; called := called e; reported := reported e |}
  | None =>
      {| listeners := ∅; onceWrappers := [];
         wrappers := wrappers e; called := called e; reported := reported e |}
  end.

(** [function listenerCount(event)]. *)
Definition listenerCount (event : string) (e : Emitter) : nat :=
  match listeners e !! event with
  | Some set => length set
  | None => 0
  end.

(** What the body of a callback of the user may do with the emitter:
    subscribe, unsubscribe, remove all listeners, or throw.  Callbacks that
    emit are the subject of [NestedEmit]. *)
Inductive Cmd : Type :=
| DoOn (event : string) (id : nat)
| DoOnce (event : string) (id : nat)
| DoOff (event : string) (id : nat)
| DoRemoveAll (event : option string)
| DoThrow (err : Error).

Fixpoint run_body (cmds : list Cmd) (e : Emitter) : Emitter * option Error :=
  match cmds with
  | [] => (e, None)
  | DoOn event id :: rest => run_body rest (on event id e)
  | DoOnce event id :: rest => run_body rest (once event id e)
  | DoOff event id :: rest => run_body rest (off event (Callback id) e)
  | DoRemoveAll event :: rest => run_body rest (removeAllListeners event e)
  | DoThrow err :: _ => (e, Some err)
  end.

Section Callbacks.

(** What the callback [id] does when it is called with a payload. *)
Variable body : nat -> Data -> list Cmd.

Definition call_callback (id : nat) (data : Data) (e : Emitter) : Emitter * option Error :=
  run_body (body id data)
    {| listeners := listeners e; onceWrappers := onceWrappers e;
       wrappers := wrappers e; called := called e ++ [(id, data)];
       reported := reported e |}.

(** [cb(data)], for a callback of the user or for a wrapper:
    [onceWrappers.delete(callback); off(event, wrapper); callback(data)]. *)
Definition call (fn : Fn) (data : Data) (e : Emitter) : Emitter * option Error :=
  match fn with
  | Callback id => call_callback id data e
  | Wrapper w =>
      match wrappers e !! w with
      | Some (event, id) =>
          let e :=
            {| listeners := listeners e;
               onceWrappers := map_delete (Callback id) (onceWrappers e);
               wrappers := wrappers e; called := called e; reported := reported e |} in
          let e := off event (Wrapper w) e in
          call_callback id data e
      | None => (e, None)
      end
  end.

(** [try { cb(data) } catch (err) { queueMicrotask(() => console.error(..., err)) }] *)
Definition deliver (data : Data) (e : Emitter) (cb : Fn) : Emitter :=
  let '(e', thrown) := call cb data e in
  match thrown with
  | Some err =>
      {| listeners := listeners e'; onceWrappers := onceWrappers e';
         wrappers := wrappers e'; called := called e';
         reported := reported e' ++ [err] |}
  | None => e'
  end.

(** [function emit(event, data)]: the loop runs over [[...set]], a copy. *)
Definition emit (event : string) (data : Data) (e : Emitter) : Emitter :=
  match listeners e !! event with
  | Some set => fold_left (deliver data) set e
  | None => e
  end.

(** What happens next to an emitter. *)
Inductive Action : Type :=
| On (event : string) (id : nat)
| Once (event : string) (id : nat)
| Off (event : string) (id : nat)
| RemoveAllListeners (event : option string)
| Emit (event : string) (data : Data).

Definition step (a : Action) (e : Emitter) : Emitter :=
  match a with
  | On event id => on event id e
  | Once event id => once event id e
  | Off event id => off event (Callback id) e
  | RemoveAllListeners event => removeAllListeners event e
  | Emit event data => emit event data e
  end.

Definition run (actions : list Action) (e : Emitter) : Emitter :=
  fold_left (fun e a => step a e) actions e.

Definition reachable (e : Emitter) : Prop :=
  exists actions, e = run actions createEventEmitter.

End Callbacks.

(** The callback of the user a listener function ends up calling. *)
Definition target (e : Emitter) (fn : Fn) : option nat :=
  match fn with
  | Callback id => Some id
  | Wrapper w =>
      match wrappers e !! w with
      | Some (_, id) => Some id
      | None => None
      end
  end.

(** The exception that escapes a body, if any. *)
Fixpoint escapes (cmds : list Cmd) : option Error :=
  match cmds with
  | [] => None
  | DoThrow err :: _ => Some err
  | _ :: rest => escapes rest
  end.

End EventEmitter.

(* ===================================================================== *)
(** * Listeners that emit ([emit] of [src/state/event-emitter.ts], re-entered) *)
(* ===================================================================== *)

Module NestedEmit.
Import Errors EventEmitter.

(** [emit] calls the listeners before it returns, and a listener may call
    [emit] itself.  Here the body of a callback does what a body of
    [EventEmitter] does, or emits.  The emitter is the one of
    [EventEmitter]; next to it goes the log of the calls [cb(data)] the
    loops of [emit] make, wrappers included. *)
Inductive Cmd : Type :=
| Plain (c : EventEmitter.Cmd)
| DoEmit (event : string) (data : Data).

Record Run : Type := mkRun {
  emitter : Emitter;
  invoked : list (Fn * Data)
}.

Definition start : Run := {| emitter := createEventEmitter; invoked := [] |}.

Definition set_emitter (e : Emitter) (r : Run) : Run :=
  {| emitter := e; invoked := invoked r |}.

Definition log_call (id : nat) (data : Data) (e : Emitter) : Emitter :=
  {| listeners := listeners e; onceWrappers := onceWrappers e;
     wrappers := wrappers e; called := called e ++ [(id, data)];
     reported := reported e |}.

Definition log_error (err : Error) (e : Emitter) : Emitter :=
  {| listeners := listeners e; onceWrappers := onceWrappers e;
     wrappers := wrappers e; called := called e;
     reported := reported e ++ [err] |}.

(** What the wrapper [w] of [once(event, callback)] does before it calls the
    callback: [onceWrappers.delete(callback); off(event, wrapper)]. *)
Definition unwrap (event : string) (id w : nat) (e : Emitter) : Emitter :=
  off event (Wrapper w)
    {| listeners := listeners e;
       onceWrappers := map_delete (Callback id) (onceWrappers e);
       wrappers := wrappers e; called := called e; reported := reported e |}.

Section Callbacks.

(** What the callback [id] does when it is called with a payload. *)
Variable body : nat -> Data -> list Cmd.

Section Level.

(** [emit], as the bodies call it; [None] when the calls nest too deep. *)
Variable inner : string -> Data -> Run -> option Run.

Fixpoint run_body (cmds : list Cmd) (r : Run) : option (Run * option Error) :=
  match cmds with
  | [] => Some (r, None)
  | Plain c :: rest =>
      match EventEmitter.run_body [c] (emitter r) with
      | (e, Some err) => Some (set_emitter e r, Some err)
      | (e, None) => run_body rest (set_emitter e r)
      end
  | DoEmit event data :: rest =>
      match inner event data r with
      | Some r => run_body rest r
      | None => None
      end
  end.

Definition call_callback (id : nat) (data : Data) (r : Run) : option (Run * option Error) :=
  run_body (body id data) (set_emitter (log_call id data (emitter r)) r).

(** [cb(data)], for a callback of the user or for a wrapper. *)
Definition call (fn : Fn) (data : Data) (r : Run) : option (Run * option Error) :=
  match fn with
  | Callback id => call_callback id data r
  | Wrapper w =>
      match wrappers (emitter r) !! w with
      | Some (event, id) =>
          call_callback id data (set_emitter (unwrap event id w (emitter r)) r)
      | None => Some (r, None)
      end
  end.

(** [try { cb(data) } catch (err) { queueMicrotask(() => console.error(..., err)) }] *)
Definition deliver (data : Data) (r : Run) (cb : Fn) : option Run :=
  match call cb data {| emitter := emitter r; invoked := invoked r ++ [(cb, data)] |} with
  | Some (r, Some err) => Some (set_emitter (log_error err (emitter r)) r)
  | Some (r, None) => Some r
  | None => None
  end.

(** [for (const cb of callbacks)] *)
Fixpoint deliver_all (data : Data) (callbacks : list Fn) (r : Run) : option Run :=
  match callbacks with
  | [] => Some r
  | cb :: rest =>
      match deliver data r cb with
      | Some r => deliver_all data rest r
      | None => None
      end
  end.

(** The body of [function emit(event, data)]: the loop runs over [[...set]]. *)
Definition emit_with (event : string) (data : Data) (r : Run) : option Run :=
  match listeners (emitter r) !! event with
  | Some set => deliver_all data set r
  | None => Some r
  end.

End Level.

(** [function emit(event, data)], with calls of [emit] nested at most [fuel]
    deep. *)
Fixpoint emit (fuel : nat) : string -> Data -> Run -> option Run :=
  match fuel with
  | O => fun _ _ _ => None
  | S fuel => emit_with (emit fuel)
  end.

Definition step (fuel : nat) (a : Action) (r : Run) : option Run :=
  match a with
  | On event id => Some (set_emitter (on event id (emitter r)) r)
  | Once event id => Some (set_emitter (once event id (emitter r)) r)
  | Off event id => Some (set_emitter (off event (Callback id) (emitter r)) r)
  | RemoveAllListeners event => Some (set_emitter (removeAllListeners event (emitter r)) r)
  | Emit event data => emit fuel event data r
  end.

Fixpoint run (fuel : nat) (actions : list Action) (r : Run) : option Run :=
  match actions with
  | [] => Some r
  | a :: rest =>
      match step fuel a r with
      | Some r => run fuel rest r
      | None => None
      end
  end.

Definition reachable (r : Run) : Prop :=
  exists fuel actions, run fuel actions start = Some r.

End Callbacks.

(** How often the wrapper [w] is called in a log. *)
Definition times (w : nat) (log : list (Fn * Data)) : nat :=
  length (List.filter (fun c => bool_decide (fst c = Wrapper w)) log).

End NestedEmit.

(* ===================================================================== *)
(** * Timeouts and retries of BLE operations ([src/ble/transport.ts],
      with [throwIfAborted], [raceWithAbort] and [withTimeout] of
      [src/errors/errors.ts]) *)
(* ===================================================================== *)

Module Transport.
Import Errors Retry.

(** [signal.reason]: an [Error], a string, or anything else. *)
Inductive Reason : Type :=
| ReasonError (e : Error)
| ReasonString (s : string)
| ReasonOther.

(** An [AbortSignal]: whether it is aborted when the function is called,
    and the reason it has once it is aborted. *)
Record Signal : Type := mkTransportSignal {
  aborted_already : bool;
  reason : Reason
}.

(** [reason instanceof Error ? reason.message
     : typeof reason === "string" ? reason : "Operation aborted"]. *)
Definition abort_text (r : Reason) : string :=
  match r with
  | ReasonError e => message e
  | ReasonString s => s
  | ReasonOther => "Operation aborted"
  end.

(** [export function throwIfAborted(signal)]: the error it throws, if any. *)
Definition throwIfAborted (signal : option Signal) : option Error :=
  match signal with
  | Some sg =>
      if aborted_already sg then Some (new_AbortError (abort_text (reason sg))) else None
  | None => None
  end.

(** What happens after a BLE operation has been started, in order: the
    promise of the operation settles, the timer of [withTimeout] fires, the
    signal fires.  A timeline lists what happens; the timer that is not
    listed fires after everything that is. *)
Inductive Happening (T : Type) : Type :=
| Settles (o : Outcome T)
| TimerFires
| SignalFires.
Arguments Settles {T} o.
Arguments TimerFires {T}.
Arguments SignalFires {T}.

(** A promise that settles: the place in the timeline at which it does
    (from 1; 0 is at once), and how. *)
Definition Settling (T : Type) : Type := (nat * Outcome T)%type.

(** A promise, which may stay pending. *)
Definition Promise (T : Type) : Type := option (Settling T).

(** The promise of the operation itself: it settles when the timeline says
    so, for the first time. *)
Fixpoint operation_promise {T : Type} (timeline : list (Happening T)) (place : nat)
    : Promise T :=
  match timeline with
  | [] => None
  | Settles o :: _ => Some (place, o)
  | _ :: rest => operation_promise rest (S place)
  end.

Fixpoint timer_at {T : Type} (timeline : list (Happening T)) (place : nat) : nat :=
  match timeline with
  | [] => place
  | TimerFires :: _ => place
  | _ :: rest => timer_at rest (S place)
  end.

Fixpoint signal_at {T : Type} (timeline : list (Happening T)) (place : nat) : option nat :=
  match timeline with
  | [] => None
  | SignalFires :: _ => Some place
  | _ :: rest => signal_at rest (S place)
  end.

(** [export function withTimeout(promise, ms, label)]: the promise settles
    as [promise] does, unless the timer fires first. *)
Definition withTimeout {T : Type} (timeline : list (Happening T))
    (promise : Promise T) (ms : Z) (label : string) : Settling T :=
  let timer := timer_at timeline 1 in
  let timeout := Rejects (ThrownError (new_TimeoutError label (show_Z ms))) in
  match promise with
  | Some (place, o) => if (place <? timer)%nat then (place, o) else (timer, timeout)
  | None => (timer, timeout)
  end.

(** [export function raceWithAbort(promise, signal)], for a promise that
    settles (as the one of [withTimeout] does). *)
Definition raceWithAbort {T : Type} (timeline : list (Happening T))
    (promise : Settling T) (signal : option Signal) : Settling T :=
  match signal with
  | None => promise
  | Some sg =>
      let abort := Rejects (ThrownError (new_AbortError (abort_text (reason sg)))) in
      if aborted_already sg then (0%nat, abort)
      else
        match signal_at timeline 1 with
        | Some place => if (place <? fst promise)%nat then (place, abort) else promise
        | None => promise
        end
  end.

(** [interface WriteOptions] and [interface ReadOptions]. *)
Record TimeoutOptions : Type := mkTimeoutOptions {
  timeoutMs : option Z;
  signal : option Signal
}.

Definition DEFAULT_WRITE_TIMEOUT_MS : Z := 10000.

(** [typeof options === "number" ? { timeoutMs: options } : options]. *)
Definition options_of (options : TimeoutOptions + Z) : TimeoutOptions :=
  match options with
  | inl opts => opts
  | inr ms => {| timeoutMs := Some ms; signal := None |}
  end.

(** [export async function writeWithTimeout(char, data, options)]:
    how the promise settles, and the number of calls of
    [char.writeValueWithResponse]. *)
Definition writeWithTimeout (byteLength : nat) (options : TimeoutOptions + Z)
    (timeline : list (Happening unit)) : Outcome unit * nat :=
  let opts := options_of options in
  let timeoutMs := default DEFAULT_WRITE_TIMEOUT_MS (timeoutMs opts) in
  let signal := signal opts in
  match throwIfAborted signal with
  | Some e => (Rejects (ThrownError e), 0%nat)
  | None =>
      if (byteLength =? 0)%nat then
        (Rejects (ThrownError
                    (new_Error "Empty data: cannot write zero bytes to BLE characteristic")),
         0%nat)
      else
        let writePromise :=
          withTimeout timeline (operation_promise timeline 1) timeoutMs "BLE write" in
        (snd (raceWithAbort timeline writePromise signal), 1%nat)
  end.


(** [interface BLERetryOptions extends RetryOptions]. *)
Record BLERetryOptions : Type := mkBLERetryOptions {
  ble_timeoutMs : option Z;
  retryOptions : RetryOptions
}.


(** [export async function writeWithRetry(char, data, options)]. *)
Definition writeWithRetry (byteLength : nat) (timelines : nat -> list (Happening unit))
    (fires : Z -> bool) (options : BLERetryOptions) : Settled unit * list Event * nat :=
  let timeoutMs := default DEFAULT_WRITE_TIMEOUT_MS (ble_timeoutMs options) in
  withRetry (fun n => fst (writeWithTimeout byteLength (inr timeoutMs) (timelines n)))
            fires (retryOptions options).

(** [export async function connectWithRetry(adapter, connectOptions,
    retryOptions)].  Of [connectOptions] only the signal matters here;
    [adapter s n] is how the [n]-th call of [adapter.connect] settles when
    it is given the signal [s].  The result also tells the signal the
    adapter was given. *)
Definition connectWithRetry {T : Type}
    (adapter : option AbortSignal -> nat -> Outcome T)
    (connectSignal : option AbortSignal) (retryOptions : RetryOptions)
    (fires : Z -> bool) : (Settled T * list Event * nat) * option AbortSignal :=
  let signal :=
    match Retry.signal retryOptions with
    | Some s => Some s
    | None => connectSignal
    end in
  let finalConnectSignal :=
    match signal with
    | Some s => Some s
    | None => connectSignal
    end in
  let finalRetryOptions :=
    match signal with
    | Some s =>
        {| maxAttempts := maxAttempts retryOptions;
           initialDelayMs := initialDelayMs retryOptions;
           maxDelayMs := maxDelayMs retryOptions;
           backoffMultiplier := backoffMultiplier retryOptions;
           jitter := jitter retryOptions;
           Retry.signal := Some s;
           onRetry := onRetry retryOptions;
           isRetryable := isRetryable retryOptions |}
    | None => retryOptions
    end in
  (withRetry (adapter finalConnectSignal) fires finalRetryOptions, finalConnectSignal).

End Transport.

(* ===================================================================== *)
(** * Properties of the default retry classification *)
(* ===================================================================== *)

Module ErrorsFacts.
Import Errors.

Lemma matches_any_mentions (patterns : list string) (e : Error) :
  matches_any patterns (toLowerCase (message e)) (toLowerCase (name e)) =
  existsb (mentions e) patterns.
Proof. reflexivity. Qed.

(** Case analysis on every [mentions e _] of a hypothesis. *)
Ltac split_mentions e H :=
  repeat match type of H with
         | context [mentions e ?p] => destruct (mentions e p)
         end;
  cbn [orb] in *; try discriminate H;
  rewrite ?orb_true_r; reflexivity.

Lemma permission_denial_nonRetryable (e : Error) :
  is_permission_denial e = true ->
  matches_any nonRetryablePatterns (toLowerCase (message e)) (toLowerCase (name e)) = true.
Proof.
  rewrite matches_any_mentions. unfold is_permission_denial, nonRetryablePatterns.
  cbn [existsb]. intros H.
  split_mentions e H.
Qed.

Lemma user_cancellation_nonRetryable (e : Error) :
  is_user_cancellation e = true ->
  matches_any nonRetryablePatterns (toLowerCase (message e)) (toLowerCase (name e)) = true.
Proof.
  rewrite matches_any_mentions. unfold is_user_cancellation, nonRetryablePatterns.
  cbn [existsb]. intros H.
  split_mentions e H.
Qed.

Lemma not_found_nonRetryable (e : Error) :
  is_not_found e = true ->
  matches_any nonRetryablePatterns (toLowerCase (message e)) (toLowerCase (name e)) = true.
Proof.
  rewrite matches_any_mentions. unfold is_not_found, nonRetryablePatterns.
  cbn [existsb]. intros H. split_mentions e H.
Qed.

Lemma transient_connectivity_retryable (e : Error) :
  is_transient_connectivity e = true ->
  matches_any retryablePatterns (toLowerCase (message e)) (toLowerCase (name e)) = true.
Proof.
  rewrite matches_any_mentions. unfold is_transient_connectivity, retryablePatterns.
  cbn [existsb]. intros H.
  split_mentions e H.
Qed.

(** C7, as the code has it.  The classification is a cascade: a cancellation
    is never retried; otherwise a timeout is retried, whatever its message
    says; otherwise an error that mentions a non-retryable pattern (a
    cancellation by the user, a denied permission, "not found") is not
    retried, even when it also mentions a connectivity failure; otherwise an
    error that mentions a retryable pattern (network, GATT, connection,
    disconnect and the like) is retried; every other error is not retried. *)
Theorem isTransientBLEError_cascade (e : Error) :
  (is_cancellation e = true -> isTransientBLEError e = false) /\
  (is_cancellation e = false -> is_timeout e = true -> isTransientBLEError e = true) /\
  (is_timeout e = false ->
     is_user_cancellation e = true \/ is_permission_denial e = true \/
     is_not_found e = true ->
     isTransientBLEError e = false) /\
  (is_cancellation e = false -> is_timeout e = false ->
     existsb (mentions e) nonRetryablePatterns = false ->
     is_transient_connectivity e = true ->
     isTransientBLEError e = true) /\
  (is_timeout e = false ->
     existsb (mentions e) retryablePatterns = false ->
     isTransientBLEError e = false).
Proof.
  unfold isTransientBLEError, is_cancellation, is_timeout.
  repeat rewrite matches_any_mentions.
  split; [| split; [| split; [| split]]].
  - intros ->. reflexivity.
  - intros -> ->. reflexivity.
  - intros -> Hclass.
    destruct (instanceof e AbortErrorC || (name e =? "AbortError")%string);
      [reflexivity |].
    assert (Hm : existsb (mentions e) nonRetryablePatterns = true).
    { rewrite <- matches_any_mentions.
      destruct Hclass as [H | [H | H]];
        [apply user_cancellation_nonRetryable | apply permission_denial_nonRetryable
         | apply not_found_nonRetryable];
        exact H. }
    rewrite Hm. reflexivity.
  - intros -> -> -> Hconn.
    rewrite <- matches_any_mentions.
    rewrite (transient_connectivity_retryable e Hconn). reflexivity.
  - intros -> Hnone. rewrite Hnone.
    destruct (instanceof e AbortErrorC || (name e =? "AbortError")%string);
      [reflexivity |].
    destruct (existsb (mentions e) nonRetryablePatterns); reflexivity.
Qed.

Lemma isTransientBLEError_cascade_witness :
  let e := new_Error "GATT operation failed" in
  (is_cancellation e = true -> isTransientBLEError e = false) /\
  (is_cancellation e = false -> is_timeout e = true -> isTransientBLEError e = true) /\
  (is_timeout e = false ->
     is_user_cancellation e = true \/ is_permission_denial e = true \/
     is_not_found e = true ->
     isTransientBLEError e = false) /\
  (is_cancellation e = false -> is_timeout e = false ->
     existsb (mentions e) nonRetryablePatterns = false ->
     is_transient_connectivity e = true ->
     isTransientBLEError e = true) /\
  (is_timeout e = false ->
     existsb (mentions e) retryablePatterns = false ->
     isTransientBLEError e = false).
Proof. exact (isTransientBLEError_cascade (new_Error "GATT operation failed")). Defined.

(** The classification as the specification lists it does not hold of every
    error: a timeout whose label says "not found" is a "resource not found"
    error that is retried, and a network error that reports a denied
    permission is a connectivity error that is not. *)
Lemma classification_overlap_counterexample :
  (let e := new_TimeoutError "Device not found lookup" "5000" in
   is_not_found e = true /\ isTransientBLEError e = true) /\
  (let e := new_Error "Network error: permission denied" in
   is_transient_connectivity e = true /\ isTransientBLEError e = false).
Proof. split; split; vm_compute; reflexivity. Qed.

Example retryable_gatt :
  isTransientBLEError (new_Error "GATT Server is disconnected") = true.
Proof. reflexivity. Qed.

Example unknown_fails_fast :
  isTransientBLEError (new_Error "Something odd happened") = false.
Proof. reflexivity. Qed.

End ErrorsFacts.

(* ===================================================================== *)
(** * Properties of the connection state machine *)
(* ===================================================================== *)

Module StateMachineFacts.
Import Errors StateMachine.

Lemma includes_VALID_TRANSITIONS (from to : ConnectionState) :
  includes (VALID_TRANSITIONS from) to = allowed_by_spec from to.
Proof. destruct from, to; reflexivity. Qed.

Lemma canTransition_table (m : Machine) (to : ConnectionState) :
  canTransition m to = allowed_by_spec (state m) to.
Proof. unfold canTransition. apply includes_VALID_TRANSITIONS. Qed.

(** The guard: with [isTransitioning] set, [transition] throws the reentrancy
    error and hands the machine back untouched, whatever the fuel. *)
Lemma transition_while_transitioning (fuel : nat) (to : ConnectionState) (m : Machine) :
  isTransitioning m = true ->
  transition fuel to m = Threw (reentrant_error (state m) to) m.
Proof. intros H. destruct fuel; simpl; rewrite H; reflexivity. Qed.

Lemma transition_invalid (fuel : nat) (to : ConnectionState) (m : Machine) :
  isTransitioning m = false ->
  canTransition m to = false ->
  transition fuel to m = Threw (invalid_error (state m) to) m.
Proof. intros H1 H2. destruct fuel; simpl; rewrite H1, H2; reflexivity. Qed.

(** An event of a callback run during which every inner [transition] was
    refused with the reentrancy error and left the state at [st]. *)
Definition inner_rejected (st : ConnectionState) (ev : Event) : Prop :=
  match ev with
  | InnerTransition to outcome state_after =>
      outcome = Some (reentrant_error st to) /\ state_after = st
  | ConsoleError _ => True
  end.

(** What a callback run preserves while the guard is held. *)
Definition guarded_extension (m m' : Machine) : Prop :=
  state m' = state m /\ callbacks m' = callbacks m /\
  isTransitioning m' = true /\
  exists evs, trace m' = trace m ++ evs /\ Forall (inner_rejected (state m)) evs.

Lemma guarded_extension_refl (m : Machine) :
  isTransitioning m = true -> guarded_extension m m.
Proof.
  intros H. repeat split; auto. exists []. split; [now rewrite app_nil_r | constructor].
Qed.

Lemma guarded_extension_log (m m' : Machine) (ev : Event) :
  guarded_extension m m' -> inner_rejected (state m) ev ->
  guarded_extension m (log ev m').
Proof.
  intros (Hs & Hc & Ht & evs & Htr & Hall) Hev. repeat split; simpl; auto.
  exists (evs ++ [ev]). split.
  - rewrite Htr. now rewrite app_assoc.
  - apply Forall_app. split; [assumption | constructor; [assumption | constructor]].
Qed.

Lemma run_cmds_guarded (fuel : nat) (cmds : list Cmd) :
  forall m0 m, guarded_extension m0 m ->
  exists m' eo, run_cmds (transition fuel) cmds m = Some (m', eo) /\
                guarded_extension m0 m'.
Proof.
  induction cmds as [| c rest IH]; intros m0 m Hg.
  - exists m, None. split; [reflexivity | assumption].
  - destruct c as [to caught | | to | e]; simpl.
    + pose proof Hg as (Hs & Hc & Ht & _).
      rewrite (transition_while_transitioning fuel to m Ht).
      assert (Hg' : guarded_extension m0
                (log (InnerTransition to (Some (reentrant_error (state m) to)) (state m)) m)).
      { apply guarded_extension_log; [assumption |]. simpl. rewrite Hs. auto. }
      destruct caught.
      * apply IH. assumption.
      * eexists _, _. split; [reflexivity | assumption].
    + apply IH. assumption.
    + apply IH. assumption.
    + exists m, (Some e). split; [reflexivity | assumption].
Qed.

Lemma run_callbacks_guarded (fuel : nat) (from to : ConnectionState)
    (cbs : list (nat * TransitionCallback)) :
  forall m0 m, guarded_extension m0 m ->
  exists m', run_callbacks (transition fuel) cbs from to m = Some m' /\
             guarded_extension m0 m'.
Proof.
  induction cbs as [| [id cb] rest IH]; intros m0 m Hg; simpl.
  - exists m. split; [reflexivity | assumption].
  - destruct (run_cmds_guarded fuel (cb from to) m0 m Hg) as (m' & eo & Hrun & Hg').
    rewrite Hrun. destruct eo as [e |].
    + apply IH. apply guarded_extension_log; [assumption | exact I].
    + apply IH. assumption.
Qed.

(** A valid transition from a machine at rest returns, with any fuel [>= 1]:
    the state is the target, the guard is released, the callbacks are those
    registered before, and every [transition] attempted by a callback was
    refused. *)
Lemma transition_valid (fuel : nat) (to : ConnectionState) (m : Machine) :
  isTransitioning m = false ->
  canTransition m to = true ->
  exists m' evs,
    transition (S fuel) to m = Returned m' /\
    state m' = to /\ isTransitioning m' = false /\
    callbacks m' = callbacks m /\
    trace m' = trace m ++ evs /\ Forall (inner_rejected to) evs.
Proof.
  intros H1 H2. simpl. rewrite H1, H2. simpl.
  set (m1 := {| state := to; callbacks := callbacks m;
                isTransitioning := true; trace := trace m |}).
  destruct (run_callbacks_guarded fuel (state m) to (callbacks m) m1 m1)
    as (m2 & Hrun & (Hs & Hc & Ht & evs & Htr & Hall)).
  { apply guarded_extension_refl. reflexivity. }
  rewrite Hrun. eexists _, evs. split; [reflexivity |]. simpl.
  repeat split; assumption.
Qed.

(** The evaluator's fuel does not matter once there is one unit of it. *)
Lemma transition_fuel_irrelevant (fuel : nat) (to : ConnectionState) (m : Machine) :
  transition (S fuel) to m <> OutOfFuel.
Proof.
  destruct (isTransitioning m) eqn:Ht.
  - rewrite transition_while_transitioning by assumption. discriminate.
  - destruct (canTransition m to) eqn:Hc.
    + destruct (transition_valid fuel to m Ht Hc) as (m' & evs & Hr & _).
      rewrite Hr. discriminate.
    + rewrite transition_invalid by assumption. discriminate.
Qed.

Lemma reentrant_error_distinct (st to st' to' : ConnectionState) :
  reentrant_error st to <> invalid_error st' to'.
Proof. unfold reentrant_error, invalid_error, new_Error. simpl. intros H. discriminate H. Qed.

(** C8.  For every pair [(from, to)], every set of registered callbacks and any
    fuel: on a machine in state [from] with no transition in progress,
    [transition(to)] returns iff [(from, to)] is in the specification's
    table, and then [getState()] is [to]; otherwise it throws the
    invalid-transition error and the machine, in particular [getState()], is
    what it was.  [canTransition(to)] is exactly membership in the table (it
    is a function of the machine to [bool], so it changes nothing). *)
Theorem transition_iff_table (fuel : nat) (from to : ConnectionState)
    (cbs : list (nat * TransitionCallback)) (tr : list Event) :
  let m := mkMachine from cbs false tr in
  let r := transition (S fuel) to m in
  (returned r = true <-> allowed_by_spec from to = true) /\
  (returned r = true -> getState (machine_of r m) = to) /\
  (returned r = false -> r = Threw (invalid_error from to) m /\
                         getState (machine_of r m) = from) /\
  canTransition m to = allowed_by_spec from to /\
  canTransition m to = includes (VALID_TRANSITIONS (getState m)) to.
Proof.
  intros m r.
  assert (Hcan : canTransition m to = allowed_by_spec from to)
    by apply canTransition_table.
  destruct (allowed_by_spec from to) eqn:Hallowed.
  - destruct (transition_valid fuel to m eq_refl Hcan)
      as (m' & evs & Hr & Hs & _).
    subst r. rewrite Hr. simpl. repeat split; auto; try discriminate.
  - pose proof (transition_invalid (S fuel) to m eq_refl Hcan) as Hr.
    subst r. rewrite Hr. simpl. repeat split; auto; try discriminate.
Qed.

(** C9.  During the callbacks of a successful transition [from -> to], every
    call of [transition] made by a callback throws the reentrancy error,
    which no invalid-transition error is equal to, and leaves the state at
    [to]; the outer call returns with [getState() = to] and the guard
    released.  More generally a call of [transition] on a machine whose guard
    is held throws that error and changes nothing. *)
Theorem reentrant_transition_rejected (fuel : nat) (from to : ConnectionState)
    (cbs : list (nat * TransitionCallback)) (tr : list Event) :
  allowed_by_spec from to = true ->
  let m := mkMachine from cbs false tr in
  (exists m' evs,
      transition (S fuel) to m = Returned m' /\
      getState m' = to /\ isTransitioning m' = false /\
      trace m' = tr ++ evs /\ Forall (inner_rejected to) evs) /\
  (forall f t busy, isTransitioning busy = true ->
      transition f t busy = Threw (reentrant_error (getState busy) t) busy) /\
  (forall st t st' t', reentrant_error st t <> invalid_error st' t').
Proof.
  intros Hallowed m. split; [| split].
  - assert (Hcan : canTransition m to = true)
      by (rewrite canTransition_table; exact Hallowed).
    destruct (transition_valid fuel to m eq_refl Hcan)
      as (m' & evs & Hr & Hs & Ht & _ & Htr & Hall).
    exists m', evs. repeat split; assumption.
  - intros f t busy Hbusy. apply transition_while_transitioning. assumption.
  - intros. apply reentrant_error_distinct.
Qed.

(** A callback that asks for [connected -> disconnected] from inside the
    transition [connecting -> connected], once letting the exception escape
    and once catching it. *)
Definition nosy_callback : TransitionCallback :=
  fun _ _ => [CallTransition disconnected true; CallGetState;
              CallTransition error false; CallTransition disconnected false].

Lemma reentrant_transition_rejected_witness :
  allowed_by_spec connecting connected = true /\
  let m := mkMachine connecting [(0%nat, nosy_callback)] false [] in
  (exists m' evs,
      transition 1 connected m = Returned m' /\
      getState m' = connected /\ isTransitioning m' = false /\
      trace m' = [] ++ evs /\ Forall (inner_rejected connected) evs) /\
  (forall f t busy, isTransitioning busy = true ->
      transition f t busy = Threw (reentrant_error (getState busy) t) busy) /\
  (forall st t st' t', reentrant_error st t <> invalid_error st' t').
Proof.
  split; [reflexivity |].
  apply (reentrant_transition_rejected 0 connecting connected
           [(0%nat, nosy_callback)] []).
  reflexivity.
Defined.

(** The run of [nosy_callback]: two inner calls are logged, both refused, and
    the escaped exception reaches [console.error]. *)
Example nosy_callback_trace :
  transition 1 connected (mkMachine connecting [(0%nat, nosy_callback)] false []) =
  Returned (mkMachine connected [(0%nat, nosy_callback)] false
    [InnerTransition disconnected (Some (reentrant_error connected disconnected)) connected;
     InnerTransition error (Some (reentrant_error connected error)) connected;
     ConsoleError (reentrant_error connected error)]).
Proof. reflexivity. Qed.

End StateMachineFacts.

(* ===================================================================== *)
(** * Properties of the retry engine *)
(* ===================================================================== *)

Module RetryFacts.
Import Errors Retry.

(** A configuration error is raised before anything else happens. *)
Lemma withRetry_maxAttempts_lt_1 {T : Type} (operation : nat -> Outcome T)
    (fires : Z -> bool) (options : RetryOptions) (n : Z) :
  maxAttempts options = Some n -> (n < 1)%Z ->
  withRetry operation fires options =
  (Rejected (new_RangeError ("maxAttempts must be >= 1, got " ++ show_Z n)), [], 0%nat).
Proof.
  intros Hmax Hlt. unfold withRetry. rewrite Hmax. simpl.
  destruct (Z.ltb_spec n 1) as [_ | Hge]; [reflexivity | lia].
Qed.

Lemma reported_delay_le_max (i m mx : Q) (attempt : Z) :
  (reported_delay i m mx attempt <= mx)%Q.
Proof. unfold reported_delay. apply Q.le_min_r. Qed.

(** With [initialDelayMs <= maxDelayMs] the reported delay is the one of the
    specification's formula. *)
Lemma reported_delay_by_spec (initial m mx : Q) (attempt : Z) :
  (initial <= mx)%Q ->
  (reported_delay (Qmin initial mx) m mx attempt == delay_by_spec initial m mx attempt)%Q.
Proof.
  intros Hle. unfold reported_delay, delay_by_spec.
  assert (Hmin : (Qmin initial mx == initial)%Q) by (apply Q.min_l; exact Hle).
  rewrite Hmin. reflexivity.
Qed.

Section ThreeAttempts.

Context {T : Type}.
Variable operation : nat -> Outcome T.
Variable fires : Z -> bool.
Variable options : RetryOptions.
Variables x1 x2 : Thrown.
Variable v : T.

Let initial : Q := default 1000%Q (initialDelayMs options).
Let mx : Q := default 30000%Q (maxDelayMs options).
Let m : Q := default 2%Q (backoffMultiplier options).
Let retryable : Error -> bool := default isTransientBLEError (isRetryable options).

Hypothesis three_attempts : maxAttempts options = Some 3%Z.
Hypothesis observer : onRetry options = true.
Hypothesis not_cancelled : is_aborted (signal options) = false.
Hypothesis never_fires : forall k, fires k = false.
Hypothesis first_fails : operation 1%nat = Rejects x1.
Hypothesis second_fails : operation 2%nat = Rejects x2.
Hypothesis third_succeeds : operation 3%nat = Resolves v.
Hypothesis first_retryable : retryable (as_Error x1) = true.
Hypothesis second_retryable : retryable (as_Error x2) = true.

(** C5, as the code has it.  With [maxAttempts = 3], an operation that fails
    with retryable errors on its first two invocations and succeeds on the
    third, and a signal that does not fire: the promise resolves with the
    success value, the operation is invoked exactly 3 times, and [onRetry] is
    invoked exactly twice, for attempts 1 and 2 in this order, with the
    errors of these attempts and the delays
    [min(min(initialDelay, maxDelay) * backoffMultiplier^(attempt-1), maxDelay)].
    Each delay is at most [maxDelay], and is the delay of the
    specification's formula when [initialDelay <= maxDelay]. *)
Theorem withRetry_third_attempt_succeeds :
  let d := reported_delay (Qmin initial mx) m mx in
  withRetry operation fires options =
    (Resolved v,
     [Invoked 1; OnRetry 1 (d 1%Z) (as_Error x1); Waited 1;
      Invoked 2; OnRetry 2 (d 2%Z) (as_Error x2); Waited 2;
      Invoked 3],
     3%nat) /\
  (d 1%Z <= mx)%Q /\ (d 2%Z <= mx)%Q /\
  ((initial <= mx)%Q ->
   (d 1%Z == delay_by_spec initial m mx 1)%Q /\
   (d 2%Z == delay_by_spec initial m mx 2)%Q).
Proof.
  intros d. split; [| split; [| split]].
  - unfold withRetry. rewrite three_attempts, not_cancelled. simpl default.
    change (3 <? 1)%Z with false. cbv iota.
    unfold pRetry. cbn [retries]. change (Z.to_nat (3 - 1)) with 2%nat.
    fold initial mx m retryable.
    cbn [pRetry_loop].
    rewrite first_fails. rewrite first_retryable. cbn [negb].
    cbn [onFailedAttempt retriesLeft attemptNumber failure psignal].
    rewrite observer.
    change (0 <? Z.of_nat 2)%Z with true. cbn [andb].
    rewrite (never_fires 1%Z).
    change (1 + 1)%Z with 2%Z.
    rewrite second_fails. rewrite second_retryable. cbn [negb].
    change (0 <? Z.of_nat 1)%Z with true. cbn [andb].
    rewrite (never_fires 2%Z).
    change (2 + 1)%Z with 3%Z.
    rewrite third_succeeds.
    destruct (signal options) as [s |]; reflexivity.
  - apply reported_delay_le_max.
  - apply reported_delay_le_max.
  - intros Hle. split; apply reported_delay_by_spec; exact Hle.
Qed.

End ThreeAttempts.

(** The run of the specification's example: two transient failures, then
    success, with delays 100 and 200 under a cap of 1500. *)
Definition flaky (n : nat) : Outcome string :=
  match n with
  | 1%nat => Rejects (ThrownError (new_Error "GATT operation failed"))
  | 2%nat => Rejects (ThrownValue "Network error")
  | _ => Resolves "success"
  end.

Definition three_tries (initial mx multiplier : Q) : RetryOptions :=
  {| maxAttempts := Some 3%Z; initialDelayMs := Some initial;
     maxDelayMs := Some mx; backoffMultiplier := Some multiplier;
     jitter := Some false; signal := None; onRetry := true;
     isRetryable := None |}.

Lemma withRetry_third_attempt_succeeds_witness :
  let d := reported_delay (Qmin 100 1500) 2 1500 in
  withRetry flaky (fun _ => false) (three_tries 100 1500 2) =
    (Resolved "success",
     [Invoked 1; OnRetry 1 (d 1%Z) (new_Error "GATT operation failed"); Waited 1;
      Invoked 2; OnRetry 2 (d 2%Z) (new_Error "Network error"); Waited 2;
      Invoked 3],
     3%nat) /\
  (d 1%Z <= 1500)%Q /\ (d 2%Z <= 1500)%Q /\
  ((100 <= 1500)%Q ->
   (d 1%Z == delay_by_spec 100 2 1500 1)%Q /\
   (d 2%Z == delay_by_spec 100 2 1500 2)%Q).
Proof.
  apply (withRetry_third_attempt_succeeds flaky (fun _ => false)
           (three_tries 100 1500 2)
           (ThrownError (new_Error "GATT operation failed"))
           (ThrownValue "Network error") "success");
    reflexivity.
Defined.

(** The delay reported for attempt 2 is not the one of the specification's
    formula when the initial delay exceeds the cap and the multiplier is
    below one: with [initialDelay = 100], [maxDelay = 50] and
    [backoffMultiplier = 1/2], [onRetry] is told 25, the formula gives 50. *)
Lemma reported_delay_counterexample :
  exists d e,
    In (OnRetry 2 d e)
       (snd (fst (withRetry flaky (fun _ => false) (three_tries 100 50 (1 # 2))))) /\
    (d == 25)%Q /\
    (delay_by_spec 100 (1 # 2) 50 2 == 50)%Q /\
    ~ (d == delay_by_spec 100 (1 # 2) 50 2)%Q.
Proof.
  eexists _, _. split.
  - vm_compute. right. right. right. right. left. reflexivity.
  - split; [reflexivity | split; [reflexivity | ]].
    intros H. vm_compute in H. discriminate H.
Qed.

(** Cancellation: a signal that is already aborted prevents the first
    invocation; a signal that fires during the wait after the first failure
    ends the run with an [AbortError] after exactly one invocation. *)
Definition with_signal (aborted_already : bool) : RetryOptions :=
  {| maxAttempts := Some 3%Z; initialDelayMs := Some 100%Q;
     maxDelayMs := None; backoffMultiplier := None;
     jitter := Some false; signal := Some (mkSignal aborted_already None);
     onRetry := false; isRetryable := None |}.

Example cancelled_before_start :
  withRetry flaky (fun _ => false) (with_signal true) =
  (Rejected (new_AbortError "Operation aborted"), [], 0%nat).
Proof. reflexivity. Qed.

Example cancelled_during_delay :
  withRetry flaky (fun k => (k =? 1)%Z) (with_signal false) =
  (Rejected (new_AbortError "Operation aborted"), [Invoked 1; Waited 1], 1%nat).
Proof. reflexivity. Qed.

(** An error that is not retryable is surfaced at once, as the plain [Error]
    p-retry builds from its message. *)
Example not_retryable_fails_fast :
  withRetry (fun _ => Rejects (ThrownError (new_RangeError "Something odd happened")))
    (fun _ => false) (three_tries 100 1500 2) =
  (Rejected (new_Error "Something odd happened") : Settled nat, [Invoked 1], 1%nat).
Proof. reflexivity. Qed.

End RetryFacts.

(* ===================================================================== *)
(** * Properties of the connection pool *)
(* ===================================================================== *)

Module PoolFacts.
Import Errors Pool.

(** ** Admission *)

Lemma connect_at_capacity (cfg : Config) (adapter : BLEAdapter) (s : PoolState) :
  (maxConnections cfg <= connectionCount s + pendingConnections s)%Z ->
  connect cfg adapter s = (Rejects (capacity_error cfg), s).
Proof.
  intros Hfull. unfold connect, connectionCount in *.
  destruct (Z.leb_spec (maxConnections cfg)
              (Z.of_nat (size (sessions s)) + pendingConnections s)) as [_ | Hlt];
    [reflexivity | lia].
Qed.


(** ** The capacity invariant without auto-reconnect *)

Definition awaiting_connect (p : nat * Task) : Prop :=
  match snd p with
  | ConnectAwait _ => True
  | _ => False
  end.

#[local] Instance awaiting_connect_dec (p : nat * Task) : Decision (awaiting_connect p).
Proof. unfold awaiting_connect. destruct (snd p); [left; exact I | right; tauto ..]. Defined.

(** The number of [connect] calls suspended at [adapter.connect]. *)
Definition connecting (s : PoolState) : nat :=
  size (filter awaiting_connect (tasks s)).

(** The pool accounts for every connection attempt in flight, is within its
    capacity, and has no reconnect in flight. *)
Record Capped (cfg : Config) (s : PoolState) : Prop := mkCapped {
  pending_counted : pendingConnections s = Z.of_nat (connecting s);
  within_capacity : (connectionCount s + pendingConnections s <= maxConnections cfg)%Z;
  numbered : forall t, (nextTask s <= t)%nat -> tasks s !! t = None;
  no_reconnect : forall t task, tasks s !! t = Some task ->
    match task with
    | ReconnectAwait _ _ | ReconnectTeardownAwait _ => False
    | _ => True
    end
}.

Lemma connecting_insert_connect (m : gmap nat Task) (t : nat) (adapter : BLEAdapter) :
  m !! t = None ->
  size (filter awaiting_connect (<[t := ConnectAwait adapter]> m)) =
  S (size (filter awaiting_connect m)).
Proof.
  intros Hfresh. rewrite map_filter_insert_True by exact I.
  apply map_size_insert_None. apply map_lookup_filter_None. left. exact Hfresh.
Qed.

Lemma connecting_insert_other (m : gmap nat Task) (t : nat) (task : Task) :
  m !! t = None -> ~ awaiting_connect (t, task) ->
  size (filter awaiting_connect (<[t := task]> m)) = size (filter awaiting_connect m).
Proof.
  intros Hfresh Hnot. rewrite map_filter_insert_False by exact Hnot.
  rewrite delete_id by exact Hfresh. reflexivity.
Qed.

Lemma connecting_delete_connect (m : gmap nat Task) (t : nat) (adapter : BLEAdapter) :
  m !! t = Some (ConnectAwait adapter) ->
  size (filter awaiting_connect m) = S (size (filter awaiting_connect (delete t m))).
Proof.
  intros Hin. rewrite map_filter_delete.
  assert (Hf : filter awaiting_connect m !! t = Some (ConnectAwait adapter))
    by (apply map_lookup_filter_Some; split; [exact Hin | exact I]).
  rewrite <- (insert_delete_id _ _ _ Hf) at 1.
  apply map_size_insert_None. apply lookup_delete_eq.
Qed.

Lemma connecting_delete_other (m : gmap nat Task) (t : nat) (task : Task) :
  m !! t = Some task -> ~ awaiting_connect (t, task) ->
  size (filter awaiting_connect (delete t m)) = size (filter awaiting_connect m).
Proof.
  intros Hin Hnot. rewrite map_filter_delete. apply map_size_delete_None.
  apply map_lookup_filter_None. right. intros x Hx. rewrite Hin in Hx.
  injection Hx as <-. exact Hnot.
Qed.

Lemma size_insert_le {A : Type} (m : gmap string A) (k : string) (x : A) :
  (size (<[k := x]> m) <= S (size m))%nat.
Proof. rewrite map_size_insert. destruct (m !! k); simpl; lia. Qed.

Lemma size_delete_le {A : Type} (m : gmap string A) (k : string) :
  (size (delete k m) <= size m)%nat.
Proof. rewrite map_size_delete. destruct (m !! k); simpl; lia. Qed.

Section WithoutAutoReconnect.

Variable cfg : Config.
Hypothesis disabled : autoReconnect cfg = false.

Lemma Capped_init : (0 <= maxConnections cfg)%Z -> Capped cfg createConnectionPool.
Proof.
  intros Hsane. constructor; simpl.
  - unfold connecting. simpl. rewrite map_filter_empty. reflexivity.
  - unfold connectionCount. simpl. rewrite map_size_empty. simpl. lia.
  - intros t _. apply lookup_empty.
  - intros t task H. rewrite lookup_empty in H. discriminate H.
Qed.

Lemma Capped_step (a : Action) (s : PoolState) :
  Capped cfg s -> Capped cfg (snd (step cfg a s)).
Proof.
  intros [Hcount Hcap Hnum Hnore].
  unfold connectionCount, connecting in *.
  destruct a as [ad | d | d | t o | t o]; cbn [step].
  - (* connect *)
    unfold connect.
    destruct (Z.leb_spec (maxConnections cfg)
                (Z.of_nat (size (sessions s)) + pendingConnections s)) as [Hfull | Hroom];
      [constructor; assumption |].
    cbn [snd]. constructor; unfold connectionCount, connecting; simpl.
    + rewrite connecting_insert_connect by (apply Hnum; lia). lia.
    + lia.
    + intros t Hle. rewrite lookup_insert_ne by lia. apply Hnum. lia.
    + intros t task Ht. destruct (decide (nextTask s = t)) as [<- | Hne].
      * rewrite lookup_insert_eq in Ht. injection Ht as <-. exact I.
      * rewrite lookup_insert_ne in Ht by exact Hne. exact (Hnore t task Ht).
  - (* disconnect *)
    unfold disconnect. simpl.
    destruct (sessions s !! d) as [session |] eqn:Hs;
      [| constructor; assumption].
    assert (Hcleanup : forall s0,
              tasks (run_cleanup d s0) = tasks s0 /\
              nextTask (run_cleanup d s0) = nextTask s0 /\
              sessions (run_cleanup d s0) = sessions s0 /\
              pendingConnections (run_cleanup d s0) = pendingConnections s0).
    { intros s0. unfold run_cleanup. destruct (disconnectCleanups s0 !! d); repeat split. }
    match goal with |- context [run_cleanup d ?s0] =>
      destruct (Hcleanup s0) as (Ht & Hn & Hse & Hp) end.
    cbn [snd suspend]. constructor; unfold connectionCount, connecting; simpl;
      rewrite ?Ht, ?Hn, ?Hse, ?Hp; simpl.
    + rewrite connecting_insert_other by (first [apply Hnum; lia | tauto]). exact Hcount.
    + pose proof (size_delete_le (sessions s) d). lia.
    + intros t Hle. rewrite lookup_insert_ne by lia. apply Hnum. lia.
    + intros t task Hl. destruct (decide (nextTask s = t)) as [<- | Hne].
      * rewrite lookup_insert_eq in Hl. injection Hl as <-. exact I.
      * rewrite lookup_insert_ne in Hl by exact Hne. exact (Hnore t task Hl).
  - (* unexpected disconnect *)
    cbn [snd]. unfold handleDisconnect. rewrite disabled.
    destruct (sessions s !! d); [| constructor; assumption].
    unfold run_cleanup. simpl.
    destruct (disconnectCleanups s !! d); constructor;
      unfold connectionCount, connecting; simpl; auto;
      pose proof (size_delete_le (sessions s) d); lia.
  - (* adapter.connect settles *)
    destruct (tasks s !! t) as [[ad | d ad | d | d se] |] eqn:Ht;
      try (constructor; assumption).
    + pose proof (connecting_delete_connect (tasks s) t ad Ht) as Hdel.
      unfold connect_settles. destruct o as [session | err]; cbn [snd].
      * unfold register_disconnect_handler.
        destruct (has_onDisconnect session); constructor;
          unfold connectionCount, connecting; simpl.
        all: try (pose proof (size_insert_le (sessions s) (deviceId session) session); lia).
        all: try (intros t' Hle; rewrite lookup_delete; case_decide;
                  [reflexivity | apply Hnum; exact Hle]).
        all: intros t' task Hl; apply lookup_delete_Some in Hl;
             exact (Hnore t' task (proj2 Hl)).
      * constructor; unfold connectionCount, connecting; simpl.
        -- lia.
        -- lia.
        -- intros t' Hle. rewrite lookup_delete. case_decide;
             [reflexivity | apply Hnum; exact Hle].
        -- intros t' task Hl. apply lookup_delete_Some in Hl.
           exact (Hnore t' task (proj2 Hl)).
    + contradiction (Hnore t _ Ht).
  - (* a teardown settles *)
    destruct (tasks s !! t) as [[ad | d ad | d | d se] |] eqn:Ht;
      try (constructor; assumption).
    + contradiction (Hnore t _ Ht).
    + assert (Hdel : size (filter awaiting_connect (delete t (tasks s))) =
                     size (filter awaiting_connect (tasks s)))
        by (apply (connecting_delete_other _ _ _ Ht); tauto).
      unfold disconnect_settles. destruct o; cbn [snd]; constructor;
        unfold connectionCount, connecting; simpl.
      all: try lia.
      all: try (intros t' Hle; rewrite lookup_delete; case_decide;
                [reflexivity | apply Hnum; exact Hle]).
      all: intros t' task Hl; apply lookup_delete_Some in Hl;
           exact (Hnore t' task (proj2 Hl)).
Qed.

Lemma Capped_run (actions : list Action) :
  forall s, Capped cfg s -> Capped cfg (run cfg actions s).
Proof.
  induction actions as [| a rest IH]; intros s H; [exact H |].
  simpl. apply IH. apply Capped_step. exact H.
Qed.

(** With auto-reconnect disabled, every reachable state of the pool has
    [connectionCount = |getSessions()|], a pending counter that counts the
    suspended [connect] calls, and [connectionCount + pendingConnections <=
    maxConnections], hence [connectionCount <= maxConnections]. *)
Lemma capacity_without_autoReconnect (s : PoolState) :
  (0 <= maxConnections cfg)%Z ->
  reachable cfg s ->
  connectionCount s = Z.of_nat (size (getSessions s)) /\
  pendingConnections s = Z.of_nat (connecting s) /\
  (connectionCount s + pendingConnections s <= maxConnections cfg)%Z /\
  (connectionCount s <= maxConnections cfg)%Z.
Proof.
  intros Hsane [actions ->].
  destruct (Capped_run actions createConnectionPool (Capped_init Hsane))
    as [Hcount Hcap _ _].
  split; [reflexivity |]. split; [exact Hcount |]. split; [exact Hcap |]. lia.
Qed.

End WithoutAutoReconnect.

(** ** The failing run of the capacity invariant *)

Definition a1 : BLEAdapter := mkAdapter 1 true.
Definition a2 : BLEAdapter := mkAdapter 2 true.
Definition d1_first : BLEConnectedSession := mkSession "d1" 1 true.
Definition d2_first : BLEConnectedSession := mkSession "d2" 2 true.
Definition d1_again : BLEConnectedSession := mkSession "d1" 3 true.

(** A pool of one connection with auto-reconnect. *)
Definition tiny : Config := {| maxConnections := 1; autoReconnect := true |}.

(** Device d1 connects and drops; while its auto-reconnect (task 1) is in
    flight, device d2 connects and fills the pool. *)
Definition fill_while_reconnecting : list Action :=
  [ CallConnect a1; Settle 0 (inl d1_first);
    UnexpectedDisconnect "d1";
    CallConnect a2; Settle 2 (inl d2_first) ].

(** C1, at its failing input.  With [maxConnections = 1] and auto-reconnect:
    after [fill_while_reconnecting] the pool is full (one live session, none
    pending) and the reconnect of d1 is still in flight; when that reconnect
    resolves, the session is re-registered without any admission check and
    [connectionCount] is 2.  It still is the size of [getSessions()]. *)
Theorem auto_reconnect_exceeds_capacity :
  let full := run tiny fill_while_reconnecting createConnectionPool in
  let over := snd (step tiny (Settle 1 (inl d1_again)) full) in
  reachable tiny over /\
  tasks full !! 1%nat = Some (ReconnectAwait "d1" a1) /\
  connectionCount full = maxConnections tiny /\
  pendingConnections full = 0%Z /\
  connectionCount over = 2%Z /\
  pendingConnections over = 0%Z /\
  connectionCount over = Z.of_nat (size (getSessions over)) /\
  ~ (connectionCount over <= maxConnections tiny)%Z /\
  ~ (connectionCount over + pendingConnections over <= maxConnections tiny)%Z.
Proof.
  intros full over.
  assert (Hcount : connectionCount over = 2%Z) by (vm_compute; reflexivity).
  assert (Hpending : pendingConnections over = 0%Z) by (vm_compute; reflexivity).
  split.
  { exists (fill_while_reconnecting ++ [Settle 1 (inl d1_again)]).
    unfold over, full, run. rewrite fold_left_app. reflexivity. }
  split; [vm_compute; reflexivity |].
  split; [vm_compute; reflexivity |].
  split; [vm_compute; reflexivity |].
  split; [exact Hcount |].
  split; [exact Hpending |].
  split; [reflexivity |].
  rewrite Hcount, Hpending. simpl. split; lia.
Qed.

(** ** Explicit disconnect *)

(** On a key without entry, [disconnect] resolves at once, and all it does is
    clear the key's reconnecting marker. *)
Lemma disconnect_untracked (deviceId : string) (s : PoolState) :
  sessions s !! deviceId = None ->
  disconnect deviceId s =
  (Resolves None, set_reconnectingDevices (fun r => r ∖ {[deviceId]}) s).
Proof. intros Hnone. unfold disconnect. simpl. rewrite Hnone. reflexivity. Qed.

Lemma unmarked_after_unmark (deviceId : string) (r : gset string) :
  deviceId ∉ r ∖ {[deviceId]}.
Proof. apply not_elem_of_difference. right. apply elem_of_singleton. reflexivity. Qed.

Lemma unmark_unmarked (deviceId : string) (s : PoolState) :
  deviceId ∉ reconnectingDevices s ->
  set_reconnectingDevices (fun r => r ∖ {[deviceId]}) s = s.
Proof.
  intros Hnot. destruct s as [se ad dc rd pc em ca ta nt]. unfold set_reconnectingDevices.
  simpl in *. f_equal. apply difference_disjoint_L.
  apply disjoint_singleton_r. exact Hnot.
Qed.

Lemma disconnect_tracked (deviceId : string) (session : BLEConnectedSession)
    (s : PoolState) :
  sessions s !! deviceId = Some session ->
  exists s1,
    disconnect deviceId s = (Suspended (nextTask s), s1) /\
    sessions s1 = delete deviceId (sessions s) /\
    adapters s1 = delete deviceId (adapters s) /\
    disconnectCleanups s1 !! deviceId = None /\
    (deviceId ∉ reconnectingDevices s1) /\
    emitted s1 = emitted s /\
    (exists between, calls s1 = calls s ++ between ++ [SessionDisconnect session]) /\
    tasks s1 !! nextTask s = Some (DisconnectAwait deviceId session).
Proof.
  intros Hsome. unfold disconnect. simpl. rewrite Hsome.
  unfold run_cleanup. simpl.
  destruct (disconnectCleanups s !! deviceId) as [subscribed |] eqn:Hc; simpl.
  - eexists. split; [reflexivity |]. simpl.
    repeat split; auto.
    + apply lookup_delete_eq.
    + apply unmarked_after_unmark.
    + exists [Cleanup subscribed]. now rewrite <- app_assoc.
    + apply lookup_insert_eq.
  - eexists. split; [reflexivity |]. simpl.
    repeat split; auto.
    + apply unmarked_after_unmark.
    + exists []. reflexivity.
    + apply lookup_insert_eq.
Qed.

(** C2, as the code has it.  On a key without entry [disconnect] resolves
    without error and changes nothing but the key's reconnecting marker,
    which it clears (nothing at all when the key is not being reconnected).
    On a tracked key it removes the entry, then invokes the session's
    teardown and suspends; when the teardown resolves, the disconnect
    notification is emitted and the call resolves; when it rejects, the
    rejection is the caller's. *)
Theorem disconnect_contract (cfg : Config) (deviceId : string) (s : PoolState) :
  (sessions s !! deviceId = None ->
     fst (disconnect deviceId s) = Resolves None /\
     snd (disconnect deviceId s) = set_reconnectingDevices (fun r => r ∖ {[deviceId]}) s /\
     (deviceId ∉ reconnectingDevices s -> snd (disconnect deviceId s) = s)) /\
  (forall session, sessions s !! deviceId = Some session ->
     exists task s1,
       disconnect deviceId s = (Suspended task, s1) /\
       getSession deviceId s1 = None /\
       getSessions s1 = delete deviceId (getSessions s) /\
       emitted s1 = emitted s /\
       (exists between, calls s1 = calls s ++ between ++ [SessionDisconnect session]) /\
       tasks s1 !! task = Some (DisconnectAwait deviceId session) /\
       (let '(reply, s2) := step cfg (SettleTeardown task None) s1 in
        reply = Resolves None /\
        emitted s2 = emitted s ++ [EmitDisconnect deviceId] /\
        getSessions s2 = getSessions s1) /\
       (forall e,
          let '(reply, s2) := step cfg (SettleTeardown task (Some e)) s1 in
          reply = Rejects e /\ getSessions s2 = getSessions s1)).
Proof.
  split.
  - intros Hnone. rewrite (disconnect_untracked deviceId s Hnone). simpl.
    repeat split. apply unmark_unmarked.
  - intros session Hsome.
    destruct (disconnect_tracked deviceId session s Hsome)
      as (s1 & Hd & Hs & Ha & Hc & Hr & He & Hcalls & Ht).
    exists (nextTask s), s1. split; [exact Hd |].
    unfold getSession, getSessions. rewrite Hs.
    split; [apply lookup_delete_eq |].
    split; [reflexivity |].
    split; [exact He |].
    split; [exact Hcalls |].
    split; [exact Ht |].
    split.
    + unfold step. rewrite Ht. unfold disconnect_settles. simpl.
      rewrite He, Hs. auto.
    + intros e. unfold step. rewrite Ht. unfold disconnect_settles. simpl.
      rewrite Hs. auto.
Qed.

Definition roomy : Config := {| maxConnections := 7; autoReconnect := true |}.

(** Device d1 connected, nothing else. *)
Definition one_connected : PoolState :=
  run roomy [CallConnect a1; Settle 0 (inl d1_first)] createConnectionPool.

(** Device d1 connected and dropped; its auto-reconnect is task 1. *)
Definition one_reconnecting : PoolState :=
  run roomy [CallConnect a1; Settle 0 (inl d1_first); UnexpectedDisconnect "d1"]
    createConnectionPool.

Lemma disconnect_contract_witness :
  (sessions one_connected !! "d2" = None ->
     fst (disconnect "d2" one_connected) = Resolves None /\
     snd (disconnect "d2" one_connected) =
       set_reconnectingDevices (fun r => r ∖ {["d2"]}) one_connected /\
     ("d2" ∉ reconnectingDevices one_connected ->
      snd (disconnect "d2" one_connected) = one_connected)) /\
  (forall session, sessions one_connected !! "d1" = Some session ->
     exists task s1,
       disconnect "d1" one_connected = (Suspended task, s1) /\
       getSession "d1" s1 = None /\
       getSessions s1 = delete "d1" (getSessions one_connected) /\
       emitted s1 = emitted one_connected /\
       (exists between, calls s1 = calls one_connected ++ between ++ [SessionDisconnect session]) /\
       tasks s1 !! task = Some (DisconnectAwait "d1" session) /\
       (let '(reply, s2) := step roomy (SettleTeardown task None) s1 in
        reply = Resolves None /\
        emitted s2 = emitted one_connected ++ [EmitDisconnect "d1"] /\
        getSessions s2 = getSessions s1) /\
       (forall e,
          let '(reply, s2) := step roomy (SettleTeardown task (Some e)) s1 in
          reply = Rejects e /\ getSessions s2 = getSessions s1)).
Proof.
  split.
  - exact (proj1 (disconnect_contract roomy "d2" one_connected)).
  - exact (proj2 (disconnect_contract roomy "d1" one_connected)).
Defined.

(** The claim as stated fails twice.  A key being reconnected has no entry,
    yet [disconnect] changes the pool: it clears the marker.  And when the
    teardown of a tracked session rejects, the entry is gone but no
    disconnect notification is emitted. *)
Lemma disconnect_counterexample :
  (sessions one_reconnecting !! "d1" = None /\
   "d1" ∈ reconnectingDevices one_reconnecting /\
   fst (disconnect "d1" one_reconnecting) = Resolves None /\
   ("d1" ∉ reconnectingDevices (snd (disconnect "d1" one_reconnecting))) /\
   snd (disconnect "d1" one_reconnecting) <> one_reconnecting) /\
  (let before := one_connected in
   let waiting := snd (disconnect "d1" before) in
   let after := step roomy (SettleTeardown 1 (Some (new_Error "GATT operation failed"))) waiting in
   sessions before !! "d1" = Some d1_first /\
   fst (disconnect "d1" before) = Suspended 1 /\
   fst after = Rejects (new_Error "GATT operation failed") /\
   sessions (snd after) !! "d1" = None /\
   emitted (snd after) = emitted before /\
   ~ In (EmitDisconnect "d1") (emitted (snd after))).
Proof.
  split.
  - assert (Hin : "d1" ∈ reconnectingDevices one_reconnecting).
    { apply (bool_decide_eq_true_1 ("d1" ∈ reconnectingDevices one_reconnecting)).
      vm_compute. reflexivity. }
    assert (Hout : "d1" ∉ reconnectingDevices (snd (disconnect "d1" one_reconnecting))).
    { rewrite disconnect_untracked by (vm_compute; reflexivity). simpl.
      apply not_elem_of_difference. right. apply elem_of_singleton. reflexivity. }
    split; [vm_compute; reflexivity |].
    split; [exact Hin |].
    split; [vm_compute; reflexivity |].
    split; [exact Hout |].
    intros Heq. rewrite Heq in Hout. contradiction.
  - cbv zeta.
    split; [vm_compute; reflexivity |].
    split; [vm_compute; reflexivity |].
    split; [vm_compute; reflexivity |].
    split; [vm_compute; reflexivity |].
    split; [vm_compute; reflexivity |].
    vm_compute. intros [H | []]. discriminate H.
Qed.

(** ** Explicit disconnect against a racing auto-reconnect *)

(** Task numbers are fresh: no suspended function has a number the pool has
    not handed out yet. *)
Definition fresh_tasks (s : PoolState) : Prop :=
  forall t, (nextTask s <= t)%nat -> tasks s !! t = None.

Lemma fresh_tasks_lt (s : PoolState) (t : nat) (task : Task) :
  fresh_tasks s -> tasks s !! t = Some task -> (t < nextTask s)%nat.
Proof.
  intros Hfresh Hsome. destruct (Nat.lt_ge_cases t (nextTask s)) as [Hlt | Hge];
    [exact Hlt |]. rewrite (Hfresh t Hge) in Hsome. discriminate Hsome.
Qed.

Lemma fresh_tasks_init : fresh_tasks createConnectionPool.
Proof. intros t _. apply lookup_empty. Qed.

(** An action that neither settles the given task nor notifies an unexpected
    disconnect of the given key. *)
Definition quiet (deviceId : string) (task : nat) (a : Action) : Prop :=
  match a with
  | UnexpectedDisconnect d => d <> deviceId
  | Settle t _ => t <> task
  | _ => True
  end.

(** What a quiet action keeps: the fresh numbering, the suspended reconnect,
    and the key unmarked. *)
Definition reconnect_cancelled (deviceId : string) (task : nat) (adapter : BLEAdapter)
    (s : PoolState) : Prop :=
  fresh_tasks s /\
  tasks s !! task = Some (ReconnectAwait deviceId adapter) /\
  deviceId ∉ reconnectingDevices s.

Section Cancelled.

Variables (deviceId : string) (task : nat) (adapter : BLEAdapter).

Let cancelled : PoolState -> Prop := reconnect_cancelled deviceId task adapter.

Lemma cancelled_set_sessions f s : cancelled s -> cancelled (set_sessions f s).
Proof. exact (fun H => H). Qed.

Lemma cancelled_set_adapters f s : cancelled s -> cancelled (set_adapters f s).
Proof. exact (fun H => H). Qed.

Lemma cancelled_set_disconnectCleanups f s :
  cancelled s -> cancelled (set_disconnectCleanups f s).
Proof. exact (fun H => H). Qed.

Lemma cancelled_set_pendingConnections f s :
  cancelled s -> cancelled (set_pendingConnections f s).
Proof. exact (fun H => H). Qed.

Lemma cancelled_emit ev s : cancelled s -> cancelled (emit ev s).
Proof. exact (fun H => H). Qed.

Lemma cancelled_call c s : cancelled s -> cancelled (call c s).
Proof. exact (fun H => H). Qed.

Lemma cancelled_run_cleanup d s : cancelled s -> cancelled (run_cleanup d s).
Proof.
  intros H. unfold run_cleanup. destruct (disconnectCleanups s !! d); exact H.
Qed.

Lemma cancelled_register d session s :
  cancelled s -> cancelled (register_disconnect_handler d session s).
Proof.
  intros H. unfold register_disconnect_handler. destruct (has_onDisconnect session); exact H.
Qed.

Lemma cancelled_suspend t s : cancelled s -> cancelled (snd (suspend t s)).
Proof.
  intros (Hfresh & Htask & Hmark).
  pose proof (fresh_tasks_lt s task _ Hfresh Htask) as Hlt.
  split; [| split]; simpl.
  - intros t' Hle. simpl in *. rewrite lookup_insert_ne by lia. apply Hfresh. lia.
  - rewrite lookup_insert_ne by lia. exact Htask.
  - exact Hmark.
Qed.

Lemma cancelled_resume t s : t <> task -> cancelled s -> cancelled (resume t s).
Proof.
  intros Hne (Hfresh & Htask & Hmark).
  split; [| split]; simpl.
  - intros t' Hle. simpl in *. rewrite lookup_delete. case_decide; [reflexivity |].
    apply Hfresh. exact Hle.
  - rewrite lookup_delete_ne by exact Hne. exact Htask.
  - exact Hmark.
Qed.

Lemma cancelled_unmark d s :
  cancelled s -> cancelled (set_reconnectingDevices (fun r => r ∖ {[d]}) s).
Proof.
  intros (Hfresh & Htask & Hmark).
  split; [exact Hfresh | split; [exact Htask |]]. simpl.
  intros Hin. apply elem_of_difference in Hin. destruct Hin as [Hin _]. contradiction.
Qed.

Lemma cancelled_mark d s :
  d <> deviceId ->
  cancelled s -> cancelled (set_reconnectingDevices (fun r => {[d]} ∪ r) s).
Proof.
  intros Hne (Hfresh & Htask & Hmark).
  split; [exact Hfresh | split; [exact Htask |]]. simpl.
  intros Hin. apply elem_of_union in Hin. destruct Hin as [Hin | Hin].
  - apply elem_of_singleton in Hin. congruence.
  - contradiction.
Qed.

End Cancelled.

Create HintDb pool.
#[local] Hint Resolve cancelled_set_sessions cancelled_set_adapters
  cancelled_set_disconnectCleanups cancelled_set_pendingConnections
  cancelled_emit cancelled_call cancelled_run_cleanup cancelled_register
  cancelled_suspend cancelled_resume cancelled_unmark cancelled_mark : pool.

Lemma cancelled_reconnectDevice (deviceId : string) (task : nat) (adapter : BLEAdapter)
    (d : string) (ad : BLEAdapter) (s : PoolState) :
  d <> deviceId ->
  reconnect_cancelled deviceId task adapter s ->
  reconnect_cancelled deviceId task adapter (reconnectDevice d ad s).
Proof.
  intros Hne H. unfold reconnectDevice.
  destruct (negb (has_reconnect ad)); auto with pool.
Qed.

Lemma cancelled_handleDisconnect (cfg : Config) (deviceId : string) (task : nat)
    (adapter : BLEAdapter) (d : string) (s : PoolState) :
  d <> deviceId ->
  reconnect_cancelled deviceId task adapter s ->
  reconnect_cancelled deviceId task adapter (handleDisconnect cfg d s).
Proof.
  intros Hne H. unfold handleDisconnect.
  destruct (sessions s !! d); [| exact H].
  destruct (autoReconnect cfg); [| auto 10 with pool].
  match goal with |- context [adapters ?x !! d] => destruct (adapters x !! d) as [ad |] end;
    [| auto 10 with pool].
  destruct (has_reconnect ad); [| auto 10 with pool].
  apply cancelled_reconnectDevice; auto 10 with pool.
Qed.

Lemma snd_let_suspend {A : Type} (f : nat -> A) (t : Task) (s : PoolState) :
  snd (let '(task, s') := suspend t s in (f task, s')) = snd (suspend t s).
Proof. reflexivity. Qed.

Lemma quiet_step (cfg : Config) (deviceId : string) (task : nat) (adapter : BLEAdapter)
    (a : Action) (s : PoolState) :
  reconnect_cancelled deviceId task adapter s ->
  quiet deviceId task a ->
  reconnect_cancelled deviceId task adapter (snd (step cfg a s)).
Proof.
  intros H Hquiet.
  destruct a as [ad | d | d | t o | t o]; cbn [step quiet] in *.
  - unfold connect.
    destruct (maxConnections cfg <=? Z.of_nat (size (sessions s)) + pendingConnections s)%Z;
      [exact H |].
    rewrite snd_let_suspend. auto 10 with pool.
  - unfold disconnect.
    match goal with |- context [sessions ?x !! d] => destruct (sessions x !! d) end.
    + rewrite snd_let_suspend. auto 10 with pool.
    + cbn [snd]. auto with pool.
  - cbn [snd]. apply cancelled_handleDisconnect; assumption.
  - destruct (tasks s !! t) as [[ad | d ad | d | d se] |]; try exact H.
    + unfold connect_settles. destruct o; cbn [snd]; auto 12 with pool.
    + unfold reconnect_settles. destruct o.
      * match goal with |- context [negb ?b] => destruct (negb b) end.
        -- rewrite snd_let_suspend. auto 12 with pool.
        -- cbn [snd]. auto 12 with pool.
      * cbn [snd]. auto 12 with pool.
  - destruct (tasks s !! t) as [[ad | d ad | d | d se] |] eqn:Ht; try exact H.
    + unfold reconnect_teardown_settles. cbn [snd].
      apply cancelled_unmark. apply cancelled_resume; [| exact H].
      destruct H as (_ & Htask & _). congruence.
    + unfold disconnect_settles.
      assert (t <> task) by (destruct H as (_ & Htask & _); congruence).
      destruct o; cbn [snd]; auto 12 with pool.
Qed.

Lemma quiet_run (cfg : Config) (deviceId : string) (task : nat) (adapter : BLEAdapter)
    (actions : list Action) :
  forall s,
    reconnect_cancelled deviceId task adapter s ->
    Forall (quiet deviceId task) actions ->
    reconnect_cancelled deviceId task adapter (run cfg actions s).
Proof.
  induction actions as [| a rest IH]; intros s H Hall.
  - exact H.
  - inversion Hall as [| ? ? Ha Hrest]; subst.
    simpl. apply IH; [| exact Hrest]. apply quiet_step; assumption.
Qed.

(** The numbering stays fresh under every action. *)
Lemma fresh_suspend t s : fresh_tasks s -> fresh_tasks (snd (suspend t s)).
Proof.
  intros H t' Hle. simpl in *. rewrite lookup_insert_ne by lia. apply H. lia.
Qed.

Lemma fresh_resume t s : fresh_tasks s -> fresh_tasks (resume t s).
Proof.
  intros H t' Hle. simpl in *. rewrite lookup_delete.
  case_decide; [reflexivity | apply H; exact Hle].
Qed.

Lemma fresh_set_sessions f s : fresh_tasks s -> fresh_tasks (set_sessions f s).
Proof. exact (fun H => H). Qed.

Lemma fresh_set_adapters f s : fresh_tasks s -> fresh_tasks (set_adapters f s).
Proof. exact (fun H => H). Qed.

Lemma fresh_set_disconnectCleanups f s :
  fresh_tasks s -> fresh_tasks (set_disconnectCleanups f s).
Proof. exact (fun H => H). Qed.

Lemma fresh_set_reconnectingDevices f s :
  fresh_tasks s -> fresh_tasks (set_reconnectingDevices f s).
Proof. exact (fun H => H). Qed.

Lemma fresh_set_pendingConnections f s :
  fresh_tasks s -> fresh_tasks (set_pendingConnections f s).
Proof. exact (fun H => H). Qed.

Lemma fresh_emit ev s : fresh_tasks s -> fresh_tasks (emit ev s).
Proof. exact (fun H => H). Qed.

Lemma fresh_call c s : fresh_tasks s -> fresh_tasks (call c s).
Proof. exact (fun H => H). Qed.

Lemma fresh_run_cleanup d s : fresh_tasks s -> fresh_tasks (run_cleanup d s).
Proof.
  intros H. unfold run_cleanup. destruct (disconnectCleanups s !! d); exact H.
Qed.

Lemma fresh_register d session s :
  fresh_tasks s -> fresh_tasks (register_disconnect_handler d session s).
Proof.
  intros H. unfold register_disconnect_handler. destruct (has_onDisconnect session); exact H.
Qed.

#[local] Hint Resolve fresh_suspend fresh_resume fresh_set_sessions fresh_set_adapters
  fresh_set_disconnectCleanups fresh_set_reconnectingDevices
  fresh_set_pendingConnections fresh_emit fresh_call fresh_run_cleanup
  fresh_register : pool.

Lemma fresh_handleDisconnect cfg d s :
  fresh_tasks s -> fresh_tasks (handleDisconnect cfg d s).
Proof.
  intros H. unfold handleDisconnect.
  destruct (sessions s !! d); [| exact H].
  destruct (autoReconnect cfg); [| auto 10 with pool].
  match goal with |- context [adapters ?x !! d] => destruct (adapters x !! d) as [ad |] end;
    [| auto 10 with pool].
  destruct (has_reconnect ad); [| auto 10 with pool].
  unfold reconnectDevice. destruct (negb (has_reconnect ad)); auto 10 with pool.
Qed.

Lemma fresh_tasks_step (cfg : Config) (a : Action) (s : PoolState) :
  fresh_tasks s -> fresh_tasks (snd (step cfg a s)).
Proof.
  intros H.
  destruct a as [ad | d | d | t o | t o]; cbn [step].
  - unfold connect.
    destruct (maxConnections cfg <=? Z.of_nat (size (sessions s)) + pendingConnections s)%Z;
      [exact H |].
    rewrite snd_let_suspend. auto 10 with pool.
  - unfold disconnect.
    match goal with |- context [sessions ?x !! d] => destruct (sessions x !! d) end.
    + rewrite snd_let_suspend. auto 10 with pool.
    + cbn [snd]. auto with pool.
  - cbn [snd]. apply fresh_handleDisconnect. exact H.
  - destruct (tasks s !! t) as [[ad | d ad | d | d se] |]; try exact H.
    + unfold connect_settles. destruct o; cbn [snd]; auto 12 with pool.
    + unfold reconnect_settles. destruct o.
      * match goal with |- context [negb ?b] => destruct (negb b) end.
        -- rewrite snd_let_suspend. auto 12 with pool.
        -- cbn [snd]. auto 12 with pool.
      * cbn [snd]. auto 12 with pool.
  - destruct (tasks s !! t) as [[ad | d ad | d | d se] |]; try exact H.
    + unfold reconnect_teardown_settles. cbn [snd]. auto with pool.
    + unfold disconnect_settles. destruct o; cbn [snd]; auto with pool.
Qed.

Lemma fresh_tasks_run (cfg : Config) (actions : list Action) :
  forall s, fresh_tasks s -> fresh_tasks (run cfg actions s).
Proof.
  induction actions as [| a rest IH]; intros s H; [exact H |].
  simpl. apply IH. apply fresh_tasks_step. exact H.
Qed.

Lemma fresh_tasks_reachable (cfg : Config) (s : PoolState) :
  reachable cfg s -> fresh_tasks s.
Proof. intros [actions ->]. apply fresh_tasks_run. apply fresh_tasks_init. Qed.

Lemma cancelled_after_disconnect (deviceId : string) (task : nat) (adapter : BLEAdapter)
    (s : PoolState) :
  fresh_tasks s ->
  tasks s !! task = Some (ReconnectAwait deviceId adapter) ->
  reconnect_cancelled deviceId task adapter (snd (disconnect deviceId s)).
Proof.
  intros Hfresh Htask.
  assert (H : reconnect_cancelled deviceId task adapter
                (set_reconnectingDevices (fun r => r ∖ {[deviceId]}) s)).
  { split; [exact Hfresh | split; [exact Htask |]]. simpl. apply unmarked_after_unmark. }
  unfold disconnect.
  match goal with |- context [sessions ?x !! deviceId] => destruct (sessions x !! deviceId) end.
  - rewrite snd_let_suspend. auto 10 with pool.
  - exact H.
Qed.

(** The reconnect of an unmarked key resolves: the new session is torn down,
    and neither the entries nor the emitted events change. *)
Lemma reconnect_settles_unmarked (cfg : Config) (deviceId : string) (task : nat)
    (adapter : BLEAdapter) (session : BLEConnectedSession) (s : PoolState) :
  tasks s !! task = Some (ReconnectAwait deviceId adapter) ->
  deviceId ∉ reconnectingDevices s ->
  exists s',
    step cfg (Settle task (inl session)) s = (Suspended (nextTask s), s') /\
    sessions s' = sessions s /\
    adapters s' = adapters s /\
    emitted s' = emitted s /\
    calls s' = calls s ++ [SessionDisconnect session] /\
    reconnectingDevices s' = reconnectingDevices s /\
    tasks s' = <[nextTask s := ReconnectTeardownAwait deviceId]> (delete task (tasks s)).
Proof.
  intros Htask Hmark. cbn [step]. rewrite Htask. unfold reconnect_settles.
  cbn [resume reconnectingDevices].
  rewrite (bool_decide_eq_false_2 _ Hmark). cbn [negb].
  eexists. split; [reflexivity |]. simpl. auto 10.
Qed.

(** C3, as the code has it.  In a reachable state of the pool a reconnect of
    [deviceId] is in flight (suspended as [task]) when [disconnect(deviceId)]
    is called: the key's marker is cleared.  Whatever happens next, as long as no unexpected-disconnect
    notification for that key is handled (which could start a new reconnect
    and mark the key again), the marker stays cleared and the reconnect stays
    in flight; when it then resolves with a new session, the pool invokes that
    session's teardown, leaves its entries as they are and emits nothing, and
    once the teardown has settled this is still so. *)
Theorem explicit_disconnect_wins (cfg : Config) (deviceId : string) (task : nat)
    (adapter : BLEAdapter) (session : BLEConnectedSession)
    (actions : list Action) (s : PoolState) :
  reachable cfg s ->
  tasks s !! task = Some (ReconnectAwait deviceId adapter) ->
  Forall (quiet deviceId task) actions ->
  let s1 := snd (disconnect deviceId s) in
  let s2 := run cfg actions s1 in
  let resolved := step cfg (Settle task (inl session)) s2 in
  let s3 := snd resolved in
  let s4 := snd (step cfg (SettleTeardown (nextTask s2) None) s3) in
  (deviceId ∉ reconnectingDevices s1) /\
  (deviceId ∉ reconnectingDevices s2) /\
  tasks s2 !! task = Some (ReconnectAwait deviceId adapter) /\
  fst resolved = Suspended (nextTask s2) /\
  tasks s3 !! nextTask s2 = Some (ReconnectTeardownAwait deviceId) /\
  calls s3 = calls s2 ++ [SessionDisconnect session] /\
  getSessions s3 = getSessions s2 /\ emitted s3 = emitted s2 /\
  getSessions s4 = getSessions s2 /\ emitted s4 = emitted s2 /\
  (deviceId ∉ reconnectingDevices s4).
Proof.
  intros Hreach Htask Hquiet s1 s2 resolved s3 s4.
  pose proof (fresh_tasks_reachable cfg s Hreach) as Hfresh.
  pose proof (cancelled_after_disconnect deviceId task adapter s Hfresh Htask) as H1.
  fold s1 in H1.
  pose proof (quiet_run cfg deviceId task adapter actions s1 H1 Hquiet) as H2.
  fold s2 in H2. destruct H2 as (Hfresh2 & Htask2 & Hmark2).
  destruct (reconnect_settles_unmarked cfg deviceId task adapter session s2 Htask2 Hmark2)
    as (s' & Hstep & Hs & Ha & He & Hc & Hr & Ht).
  assert (Hs3 : s3 = s') by (unfold s3, resolved; rewrite Hstep; reflexivity).
  assert (Hlookup : tasks s3 !! nextTask s2 = Some (ReconnectTeardownAwait deviceId)).
  { rewrite Hs3, Ht. apply lookup_insert_eq. }
  assert (Hs4 : s4 = set_reconnectingDevices (fun r => r ∖ {[deviceId]})
                       (resume (nextTask s2) s3)).
  { unfold s4. cbn [step]. rewrite Hlookup. reflexivity. }
  split; [exact (proj2 (proj2 H1)) |].
  split; [exact Hmark2 |].
  split; [exact Htask2 |].
  split; [unfold resolved; rewrite Hstep; reflexivity |].
  split; [exact Hlookup |].
  unfold getSessions. rewrite Hs4, Hs3. simpl. rewrite Hs, He, Hc.
  repeat split. apply unmarked_after_unmark.
Qed.

(** While the reconnect of d1 is in flight the user disconnects d1, then
    connects d2; only then does the reconnect resolve. *)
Lemma explicit_disconnect_wins_witness :
  let actions := [CallConnect a2; Settle 2 (inl d2_first)] in
  let s1 := snd (disconnect "d1" one_reconnecting) in
  let s2 := run roomy actions s1 in
  let resolved := step roomy (Settle 1 (inl d1_again)) s2 in
  let s3 := snd resolved in
  let s4 := snd (step roomy (SettleTeardown (nextTask s2) None) s3) in
  ("d1" ∉ reconnectingDevices s1) /\
  ("d1" ∉ reconnectingDevices s2) /\
  tasks s2 !! 1%nat = Some (ReconnectAwait "d1" a1) /\
  fst resolved = Suspended (nextTask s2) /\
  tasks s3 !! nextTask s2 = Some (ReconnectTeardownAwait "d1") /\
  calls s3 = calls s2 ++ [SessionDisconnect d1_again] /\
  getSessions s3 = getSessions s2 /\ emitted s3 = emitted s2 /\
  getSessions s4 = getSessions s2 /\ emitted s4 = emitted s2 /\
  ("d1" ∉ reconnectingDevices s4).
Proof.
  apply (explicit_disconnect_wins roomy "d1" 1 a1 d1_again
           [CallConnect a2; Settle 2 (inl d2_first)] one_reconnecting).
  - exists [CallConnect a1; Settle 0 (inl d1_first); UnexpectedDisconnect "d1"].
    reflexivity.
  - vm_compute. reflexivity.
  - repeat constructor. simpl. lia.
Defined.

Definition d1_second : BLEConnectedSession := mkSession "d1" 2 true.

(** After the explicit disconnect the user connects d1 again, and d1 drops
    again: a second reconnect (task 3) marks the key. *)
Definition connect_and_drop_again : list Action :=
  [ CallConnect a2; Settle 2 (inl d1_second); UnexpectedDisconnect "d1" ].

(** The claim as stated fails: the marker is per key, not per reconnect.  The
    reconnect that was in flight when [disconnect("d1")] was called (task 1)
    resolves after a later reconnect of d1 has marked the key again; its
    session is re-added, a connect notification is emitted for it, and its
    teardown is not invoked. *)
Lemma explicit_disconnect_counterexample :
  let s := one_reconnecting in
  let s1 := snd (disconnect "d1" s) in
  let s2 := run roomy connect_and_drop_again s1 in
  let resolved := step roomy (Settle 1 (inl d1_again)) s2 in
  tasks s !! 1%nat = Some (ReconnectAwait "d1" a1) /\
  bool_decide ("d1" ∈ reconnectingDevices s1) = false /\
  tasks s2 !! 1%nat = Some (ReconnectAwait "d1" a1) /\
  fst resolved = Resolves None /\
  getSession "d1" s2 = None /\
  getSession "d1" (snd resolved) = Some d1_again /\
  emitted (snd resolved) = emitted s2 ++ [EmitConnect "d1" d1_again] /\
  ~ In (SessionDisconnect d1_again) (calls (snd resolved)).
Proof.
  cbv zeta.
  split; [vm_compute; reflexivity |].
  split; [vm_compute; reflexivity |].
  split; [vm_compute; reflexivity |].
  split; [vm_compute; reflexivity |].
  split; [vm_compute; reflexivity |].
  split; [vm_compute; reflexivity |].
  split; [vm_compute; reflexivity |].
  vm_compute. intros [H | [H | [H | [H | []]]]]; discriminate H.
Qed.

End PoolFacts.

(* ===================================================================== *)
(** * Properties of the operation queue *)
(* ===================================================================== *)

Module OperationQueueFacts.
Import Errors OperationQueue.

(** ** The backlog of a key *)

(** An entry of key [k] whose chain has not finished. *)
Definition live (k : string) (e : Entry) : bool :=
  bool_decide (key e = k) && negb (finished (phase e)).

(** The number of chains of key [k] that have not finished. *)
Definition backlog (k : string) (l : list Entry) : nat :=
  length (List.filter (live k) l).

Lemma backlog_snoc (k : string) (l : list Entry) (e : Entry) :
  backlog k (l ++ [e]) = (backlog k l + (if live k e then 1 else 0))%nat.
Proof.
  unfold backlog. rewrite List.filter_app, length_app. simpl.
  destruct (live k e); reflexivity.
Qed.

Lemma backlog_insert (k : string) (l : list Entry) :
  forall (c : nat) (e e' : Entry),
    l !! c = Some e ->
    (backlog k (<[c := e']> l) + (if live k e then 1 else 0) =
     backlog k l + (if live k e' then 1 else 0))%nat.
Proof.
  unfold backlog. induction l as [| x l IH]; intros c e e' Hc.
  - discriminate Hc.
  - destruct c as [| c]; simpl in *.
    + injection Hc as ->. destruct (live k e), (live k e'); simpl; lia.
    + specialize (IH c e e' Hc). destruct (live k x); simpl; lia.
Qed.

Lemma backlog_zero (k : string) (l : list Entry) :
  backlog k l = 0%nat ->
  forall i e, l !! i = Some e -> live k e = false.
Proof.
  unfold backlog. induction l as [| x l IH]; intros Hz i e Hi.
  - discriminate Hi.
  - simpl in Hz. destruct (live k x) eqn:Hx; [discriminate Hz |].
    destruct i as [| i]; simpl in Hi.
    + injection Hi as <-. exact Hx.
    + exact (IH Hz i e Hi).
Qed.

Lemma backlog_positive (k : string) (l : list Entry) :
  backlog k l <> 0%nat ->
  exists i e, l !! i = Some e /\ live k e = true.
Proof.
  unfold backlog. induction l as [| x l IH]; intros Hnz.
  - contradiction Hnz. reflexivity.
  - simpl in Hnz. destruct (live k x) eqn:Hx.
    + exists 0%nat, x. split; [reflexivity | exact Hx].
    + destruct (IH Hnz) as (i & e & Hi & He). exists (S i), e. split; assumption.
Qed.

Lemma backlog_all_finished (k : string) (l : list Entry) :
  (forall i e, l !! i = Some e -> key e = k -> finished (phase e) = true) ->
  backlog k l = 0%nat.
Proof.
  intros Hall. destruct (Nat.eq_dec (backlog k l) 0) as [Hz | Hnz]; [exact Hz |].
  destruct (backlog_positive k l Hnz) as (i & e & Hi & He).
  unfold live in He. apply andb_prop in He. destruct He as [Hk Hf].
  apply bool_decide_eq_true_1 in Hk. rewrite (Hall i e Hi Hk) in Hf. discriminate Hf.
Qed.

Lemma live_true (k : string) (e : Entry) :
  live k e = true <-> key e = k /\ finished (phase e) = false.
Proof.
  unfold live. rewrite andb_true_iff, negb_true_iff, bool_decide_eq_true. reflexivity.
Qed.

(** ** The invariant of the queue *)

(** How the chains of one key follow each other.  A chain is built on the
    latest chain of its key, or on [Promise.resolve()] when every earlier
    chain of its key has finished; the chains of a key leave [Waiting] in
    the order of their creation; an operation is called only when all
    earlier operations of its key have settled; and a chain is skipped only
    under an aborted signal or a cleared queue. *)
Record Chained (s : QueueState) : Prop := mkChained {
  after_some : forall j e p,
    entries s !! j = Some e -> after e = Some p ->
    (p < j)%nat /\
    exists ep, entries s !! p = Some ep /\ key ep = key e /\
      forall i ei, (p < i < j)%nat -> entries s !! i = Some ei -> key ei <> key e;
  after_none : forall j e,
    entries s !! j = Some e -> after e = None ->
    forall i ei, (i < j)%nat -> entries s !! i = Some ei -> key ei = key e ->
      finished (phase ei) = true;
  in_order : forall i j ei ej,
    (i < j)%nat -> entries s !! i = Some ei -> entries s !! j = Some ej ->
    key ei = key ej -> phase ej <> Waiting -> finished (phase ei) = true;
  fifo : forall i j ei ej,
    (i < j)%nat -> entries s !! i = Some ei -> entries s !! j = Some ej ->
    key ei = key ej -> started (phase ej) = true -> phase ei = Done;
  skipped_cancelled : forall i ei,
    entries s !! i = Some ei -> phase ei = Skipped ->
    is_aborted (q_signal s) = true \/ cleared s = true
}.

(** What the two maps hold while the queue is not cleared: [queues] maps a
    key to its latest chain as long as that chain has not finished, and
    [queueDepths] maps it to its backlog, when that is not zero. *)
Record Tracked (s : QueueState) : Prop := mkTracked {
  tail : forall k t,
    queues s !! k = Some t ->
    exists et, entries s !! t = Some et /\ key et = k /\
      finished (phase et) = false /\
      forall i ei, (t < i)%nat -> entries s !! i = Some ei -> key ei <> k;
  no_tail : forall k,
    queues s !! k = None ->
    forall i ei, entries s !! i = Some ei -> key ei = k -> finished (phase ei) = true;
  depth : forall k,
    queueDepths s !! k =
    match backlog k (entries s) with
    | O => None
    | S n => Some (Z.of_nat (S n))
    end
}.

Definition Inv (s : QueueState) : Prop :=
  Chained s /\ (cleared s = false -> Tracked s).

Lemma Inv_init (options : OperationQueueOptions) : Inv (createOperationQueue options).
Proof.
  split; [constructor | intros _; constructor]; simpl;
    try (intros; match goal with H : [] !! _ = Some _ |- _ => discriminate H end).
  - intros k t H. rewrite lookup_empty in H. discriminate H.
  - intros k. apply lookup_empty.
Qed.

Lemma lookup_snoc_cases {A : Type} (l : list A) (x y : A) (i : nat) :
  (l ++ [x]) !! i = Some y ->
  ((i < length l)%nat /\ l !! i = Some y) \/ (i = length l /\ y = x).
Proof.
  intros H. destruct (Nat.lt_ge_cases i (length l)) as [Hlt | Hge].
  - left. split; [exact Hlt |]. rewrite lookup_app_l in H by exact Hlt. exact H.
  - right. rewrite lookup_app_r in H by exact Hge.
    destruct (i - length l)%nat as [| n] eqn:Hd; simpl in H.
    + split; [lia | congruence].
    + destruct n; discriminate H.
Qed.

Lemma Inv_enqueue (k : string) (op : nat) (s : QueueState) :
  Inv s -> Inv (snd (enqueue k op s)).
Proof.
  intros [HC HT]. unfold enqueue.
  destruct (is_aborted (q_signal s)); [split; assumption |].
  destruct (cleared s) eqn:Hcl;
    [cbn [snd]; split; [assumption | intros Hf; congruence] |].
  specialize (HT eq_refl). destruct HC as [Hsome Hnone Hord Hfifo Hskip].
  destruct HT as [Htail Hnotail Hdepth].
  cbn [snd].
  set (new := {| key := k; operation := op; after := queues s !! k;
                 phase := Waiting; result := Pending |}).
  split; [constructor | intros _; constructor]; cbn [entries queues queueDepths q_signal cleared].
  - (* after_some *)
    intros j e p Hj Ha.
    destruct (lookup_snoc_cases _ _ _ _ Hj) as [[Hlt Hj'] | [-> ->]].
    + destruct (Hsome j e p Hj' Ha) as (Hpj & ep & Hp & Hk & Hbetween).
      split; [exact Hpj |]. exists ep.
      split; [rewrite lookup_app_l by lia; exact Hp |].
      split; [exact Hk |].
      intros i ei Hi Hei. rewrite lookup_app_l in Hei by lia. exact (Hbetween i ei Hi Hei).
    + simpl in Ha. destruct (Htail k p Ha) as (et & Hp & Hk & _ & Hlast).
      pose proof (lookup_lt_Some _ _ _ Hp) as Hlt.
      split; [exact Hlt |]. exists et.
      split; [rewrite lookup_app_l by lia; exact Hp |].
      split; [exact Hk |].
      intros i ei Hi Hei. rewrite lookup_app_l in Hei by lia.
      exact (Hlast i ei (proj1 Hi) Hei).
  - (* after_none *)
    intros j e Hj Ha i ei Hij Hi Hk.
    destruct (lookup_snoc_cases _ _ _ _ Hj) as [[Hlt Hj'] | [-> ->]];
      rewrite lookup_app_l in Hi by lia.
    + exact (Hnone j e Hj' Ha i ei Hij Hi Hk).
    + simpl in Ha, Hk. exact (Hnotail k Ha i ei Hi Hk).
  - (* in_order *)
    intros i j ei ej Hij Hi Hj Hk Hph.
    destruct (lookup_snoc_cases _ _ _ _ Hj) as [[Hlt Hj'] | [-> ->]].
    + rewrite lookup_app_l in Hi by lia. exact (Hord i j ei ej Hij Hi Hj' Hk Hph).
    + contradiction Hph. reflexivity.
  - (* fifo *)
    intros i j ei ej Hij Hi Hj Hk Hst.
    destruct (lookup_snoc_cases _ _ _ _ Hj) as [[Hlt Hj'] | [-> ->]].
    + rewrite lookup_app_l in Hi by lia. exact (Hfifo i j ei ej Hij Hi Hj' Hk Hst).
    + discriminate Hst.
  - (* skipped_cancelled *)
    intros i ei Hi Hph.
    destruct (lookup_snoc_cases _ _ _ _ Hi) as [[Hlt Hi'] | [-> ->]].
    + left. destruct (Hskip i ei Hi' Hph) as [Ha | Hc]; [exact Ha | congruence].
    + discriminate Hph.
  - (* tail *)
    intros k' t Ht. destruct (decide (k = k')) as [<- | Hne].
    + rewrite lookup_insert_eq in Ht. injection Ht as <-.
      exists new. split; [apply list_lookup_middle; reflexivity |].
      split; [reflexivity |]. split; [reflexivity |].
      intros i ei Hi Hei. apply lookup_lt_Some in Hei.
      rewrite length_app in Hei. simpl in Hei. lia.
    + rewrite lookup_insert_ne in Ht by exact Hne.
      destruct (Htail k' t Ht) as (et & Hp & Hk & Hf & Hlast).
      pose proof (lookup_lt_Some _ _ _ Hp) as Hlt.
      exists et. split; [rewrite lookup_app_l by lia; exact Hp |].
      split; [exact Hk |]. split; [exact Hf |].
      intros i ei Hi Hei.
      destruct (lookup_snoc_cases _ _ _ _ Hei) as [[_ Hei'] | [_ ->]].
      * exact (Hlast i ei Hi Hei').
      * exact Hne.
  - (* no_tail *)
    intros k' Ht i ei Hi Hk. destruct (decide (k = k')) as [<- | Hne].
    + rewrite lookup_insert_eq in Ht. discriminate Ht.
    + rewrite lookup_insert_ne in Ht by exact Hne.
      destruct (lookup_snoc_cases _ _ _ _ Hi) as [[_ Hi'] | [_ ->]].
      * exact (Hnotail k' Ht i ei Hi' Hk).
      * contradiction Hne.
  - (* depth *)
    intros k'. rewrite backlog_snoc. destruct (decide (k = k')) as [<- | Hne].
    + rewrite lookup_insert_eq.
      assert (Hlive : live k new = true) by (apply live_true; split; reflexivity).
      rewrite Hlive, (Hdepth k).
      destruct (backlog k (entries s)) as [| n]; simpl default.
      * reflexivity.
      * replace (S n + 1)%nat with (S (S n)) by lia. f_equal. lia.
    + rewrite lookup_insert_ne by exact Hne.
      assert (Hlive : live k' new = false).
      { unfold live. simpl. rewrite bool_decide_eq_false_2 by exact Hne. reflexivity. }
      rewrite Hlive, Nat.add_0_r. apply Hdepth.
Qed.

(** ** One chain moves on *)

Section Update.

Variables (s s' : QueueState) (c : nat) (e e' : Entry).

Hypothesis at_c : entries s !! c = Some e.
Hypothesis updated : entries s' = <[c := e']> (entries s).
Hypothesis same_key : key e' = key e.
Hypothesis same_after : after e' = after e.

Lemma updated_back (i : nat) (x : Entry) :
  entries s' !! i = Some x ->
  exists x0, entries s !! i = Some x0 /\ key x = key x0 /\ after x = after x0 /\
    ((i = c /\ x = e' /\ x0 = e) \/ (i <> c /\ x = x0)).
Proof.
  rewrite updated. intros H. apply list_lookup_insert_Some in H.
  destruct H as [(-> & -> & _) | (Hne & H)].
  - exists e. repeat split; auto.
  - exists x. repeat split; auto.
Qed.

Lemma updated_forth (i : nat) (x0 : Entry) :
  entries s !! i = Some x0 ->
  exists x, entries s' !! i = Some x /\ key x = key x0 /\ after x = after x0 /\
    ((i = c /\ x = e' /\ x0 = e) \/ (i <> c /\ x = x0)).
Proof.
  intros H. rewrite updated. destruct (decide (i = c)) as [-> | Hne].
  - exists e'. rewrite at_c in H. injection H as <-.
    split; [apply list_lookup_insert_eq; eapply lookup_lt_Some; exact at_c |].
    repeat split; auto.
  - exists x0. split; [rewrite list_lookup_insert_ne by congruence; exact H |].
    repeat split; auto.
Qed.

Hypothesis same_signal : q_signal s' = q_signal s.
Hypothesis same_cleared : cleared s' = cleared s.
Hypothesis was_live : finished (phase e) = false.
Hypothesis moved : phase e' <> Waiting.
Hypothesis earlier_finished : forall i ei,
  (i < c)%nat -> entries s !! i = Some ei -> key ei = key e -> finished (phase ei) = true.
Hypothesis earlier_done : started (phase e') = true -> forall i ei,
  (i < c)%nat -> entries s !! i = Some ei -> key ei = key e -> phase ei = Done.
Hypothesis skip_cancelled : phase e' = Skipped ->
  is_aborted (q_signal s) = true \/ cleared s = true.

Lemma Chained_update : Chained s -> Chained s'.
Proof.
  intros [Hsome Hnone Hord Hfifo Hskip]. constructor.
  - intros j ej p Hj Ha.
    destruct (updated_back j ej Hj) as (x0 & Hj0 & Hk & Haf & _).
    rewrite Haf in Ha.
    destruct (Hsome j x0 p Hj0 Ha) as (Hpj & ep0 & Hp0 & Hkp & Hbetween).
    split; [exact Hpj |].
    destruct (updated_forth p ep0 Hp0) as (ep & Hp & Hkep & _).
    exists ep. split; [exact Hp |]. split; [congruence |].
    intros i ei Hi Hei.
    destruct (updated_back i ei Hei) as (ei0 & Hei0 & Hkei & _).
    rewrite Hkei, Hk. exact (Hbetween i ei0 Hi Hei0).
  - intros j ej Hj Ha i ei Hij Hi Hk.
    destruct (updated_back j ej Hj) as (x0 & Hj0 & Hkj & Haf & _).
    destruct (updated_back i ei Hi) as (ei0 & Hi0 & Hki & _ & Hcase).
    rewrite Haf in Ha.
    assert (Hold : finished (phase ei0) = true)
      by (apply (Hnone j x0 Hj0 Ha i ei0 Hij Hi0); congruence).
    destruct Hcase as [(_ & _ & ->) | (_ & ->)]; [congruence | exact Hold].
  - intros i j ei ej Hij Hi Hj Hk Hph.
    destruct (updated_back i ei Hi) as (ei0 & Hi0 & Hki & _ & Hci).
    destruct (updated_back j ej Hj) as (ej0 & Hj0 & Hkj & _ & Hcj).
    destruct Hcj as [(-> & -> & ->) | (Hjc & ->)].
    + destruct Hci as [(-> & _) | (_ & ->)]; [lia |].
      apply (earlier_finished i ei0 Hij Hi0). congruence.
    + assert (Hold : finished (phase ei0) = true)
        by (apply (Hord i j ei0 ej0 Hij Hi0 Hj0); congruence).
      destruct Hci as [(_ & _ & ->) | (_ & ->)]; [congruence | exact Hold].
  - intros i j ei ej Hij Hi Hj Hk Hst.
    destruct (updated_back i ei Hi) as (ei0 & Hi0 & Hki & _ & Hci).
    destruct (updated_back j ej Hj) as (ej0 & Hj0 & Hkj & _ & Hcj).
    destruct Hcj as [(-> & -> & ->) | (Hjc & ->)].
    + destruct Hci as [(-> & _) | (_ & ->)]; [lia |].
      apply (earlier_done Hst i ei0 Hij Hi0). congruence.
    + assert (Hold : phase ei0 = Done)
        by (apply (Hfifo i j ei0 ej0 Hij Hi0 Hj0); congruence).
      destruct Hci as [(_ & _ & ->) | (_ & ->)]; [| exact Hold].
      rewrite Hold in was_live. discriminate was_live.
  - intros i ei Hi Hph. rewrite same_signal, same_cleared.
    destruct (updated_back i ei Hi) as (ei0 & Hi0 & _ & _ & Hci).
    destruct Hci as [(_ & -> & _) | (_ & ->)].
    + exact (skip_cancelled Hph).
    + exact (Hskip i ei0 Hi0 Hph).
Qed.

Hypothesis same_queues : queues s' = queues s.
Hypothesis same_depths : queueDepths s' = queueDepths s.

(** The chain stays live ([Waiting] to [Running]): the maps still describe
    the entries. *)
Lemma Tracked_still_live :
  finished (phase e') = false -> Tracked s -> Tracked s'.
Proof.
  intros Hlive [Htail Hnotail Hdepth]. constructor.
  - intros k t Ht. rewrite same_queues in Ht.
    destruct (Htail k t Ht) as (et & Hp & Hk & Hf & Hlast).
    destruct (updated_forth t et Hp) as (x & Hx & Hkx & _ & Hcase).
    exists x. split; [exact Hx |]. split; [congruence |].
    split; [destruct Hcase as [(_ & -> & _) | (_ & ->)]; assumption |].
    intros i ei Hi Hei.
    destruct (updated_back i ei Hei) as (ei0 & Hei0 & Hkei & _).
    rewrite Hkei. exact (Hlast i ei0 Hi Hei0).
  - intros k Ht i ei Hi Hk. rewrite same_queues in Ht.
    destruct (updated_back i ei Hi) as (ei0 & Hi0 & Hki & _ & Hcase).
    assert (Hold : finished (phase ei0) = true)
      by (apply (Hnotail k Ht i ei0 Hi0); congruence).
    destruct Hcase as [(_ & _ & ->) | (_ & ->)]; [congruence | exact Hold].
  - intros k. rewrite same_depths, updated.
    pose proof (backlog_insert k (entries s) c e e' at_c) as Hb.
    assert (Hsame : live k e' = live k e).
    { unfold live. rewrite same_key, Hlive, was_live. reflexivity. }
    rewrite Hsame in Hb.
    replace (backlog k (<[c:=e']> (entries s))) with (backlog k (entries s))
      by (destruct (live k e); lia).
    apply Hdepth.
Qed.

(** The chain finishes and its [finally] callback runs: the maps again
    describe the entries. *)
Lemma Tracked_finally :
  finished (phase e') = true -> Tracked s -> Tracked (finally (key e) c s').
Proof.
  intros Hfin [Htail Hnotail Hdepth].
  remember (key e) as k0 eqn:Hk0.
  pose proof (backlog_insert k0 (entries s) c e e' at_c) as Hb.
  assert (Hle : live k0 e = true) by (apply live_true; split; [congruence | exact was_live]).
  assert (Hle' : live k0 e' = false).
  { unfold live. rewrite Hfin. apply andb_false_r. }
  rewrite Hle, Hle' in Hb. rewrite <- updated in Hb.
  assert (Hother : forall k, k <> k0 -> backlog k (entries s') = backlog k (entries s)).
  { intros k Hne. pose proof (backlog_insert k (entries s) c e e' at_c) as Hbk.
    rewrite <- updated in Hbk.
    assert (H1 : live k e = false)
      by (unfold live; rewrite bool_decide_eq_false_2 by congruence; reflexivity).
    assert (H2 : live k e' = false)
      by (unfold live; rewrite bool_decide_eq_false_2 by congruence; reflexivity).
    rewrite H1, H2 in Hbk. lia. }
  assert (Hd0 : queueDepths s' !! k0 = Some (Z.of_nat (S (backlog k0 (entries s'))))).
  { rewrite same_depths, (Hdepth k0).
    replace (backlog k0 (entries s)) with (S (backlog k0 (entries s'))) by lia.
    reflexivity. }
  assert (Hdef : default 1%Z (queueDepths s' !! k0) = Z.of_nat (S (backlog k0 (entries s'))))
    by (rewrite Hd0; reflexivity).
  unfold finally. rewrite Hdef. clear Hdef.
  destruct (backlog k0 (entries s')) as [| n] eqn:Hn.
  - (* the last live chain of its key *)
    change (Z.of_nat 1 <=? 1)%Z with true. cbv iota.
    assert (Hrest : forall i ei, entries s' !! i = Some ei -> key ei = k0 ->
                      finished (phase ei) = true).
    { intros i ei Hi Hk. pose proof (backlog_zero k0 (entries s') Hn i ei Hi) as Hl.
      unfold live in Hl. rewrite (bool_decide_eq_true_2 _ Hk) in Hl.
      simpl in Hl. apply negb_false_iff in Hl. exact Hl. }
    assert (Hq : queues s' !! k0 = Some c).
    { rewrite same_queues. destruct (queues s !! k0) as [t |] eqn:Ht.
      - destruct (Htail k0 t Ht) as (et & Hp & Hk & Hf & _).
        destruct (decide (t = c)) as [-> | Hne]; [reflexivity |].
        destruct (updated_forth t et Hp) as (x & Hx & Hkx & _ & Hcase).
        destruct Hcase as [(Heq & _) | (_ & ->)]; [contradiction |].
        rewrite (Hrest t et Hx Hk) in Hf. discriminate Hf.
      - rewrite (Hnotail k0 Ht c e at_c (eq_sym Hk0)) in was_live. discriminate was_live. }
    rewrite (bool_decide_eq_true_2 _ Hq).
    constructor; cbn [queues queueDepths entries].
    + intros k t Ht. destruct (decide (k = k0)) as [-> | Hne].
      * rewrite lookup_delete_eq in Ht. discriminate Ht.
      * rewrite lookup_delete_ne in Ht by congruence. rewrite same_queues in Ht.
        destruct (Htail k t Ht) as (et & Hp & Hk & Hf & Hlast).
        destruct (updated_forth t et Hp) as (x & Hx & Hkx & _ & Hcase).
        exists x. split; [exact Hx |]. split; [congruence |].
        split.
        { destruct Hcase as [(_ & _ & ->) | (_ & ->)]; [| exact Hf].
          contradiction Hne. congruence. }
        intros i ei Hi Hei.
        destruct (updated_back i ei Hei) as (ei0 & Hei0 & Hkei & _).
        rewrite Hkei. exact (Hlast i ei0 Hi Hei0).
    + intros k Ht i ei Hi Hk. destruct (decide (k = k0)) as [-> | Hne].
      * exact (Hrest i ei Hi Hk).
      * rewrite lookup_delete_ne in Ht by congruence. rewrite same_queues in Ht.
        destruct (updated_back i ei Hi) as (ei0 & Hi0 & Hki & _ & Hcase).
        destruct Hcase as [(_ & -> & _) | (_ & ->)].
        { contradiction Hne. rewrite <- Hk. congruence. }
        exact (Hnotail k Ht i ei0 Hi0 Hk).
    + intros k. destruct (decide (k = k0)) as [-> | Hne].
      * rewrite lookup_delete_eq, Hn. reflexivity.
      * rewrite lookup_delete_ne by congruence.
        rewrite same_depths, (Hother k Hne). apply Hdepth.
  - (* later chains of the key are still live *)
    assert (Hgt : (Z.of_nat (S (S n)) <=? 1)%Z = false) by (apply Z.leb_gt; lia).
    rewrite Hgt.
    constructor; cbn [queues queueDepths entries].
    + intros k t Ht. rewrite same_queues in Ht.
      destruct (Htail k t Ht) as (et & Hp & Hk & Hf & Hlast).
      destruct (updated_forth t et Hp) as (x & Hx & Hkx & _ & Hcase).
      exists x. split; [exact Hx |]. split; [congruence |].
      split.
      { destruct Hcase as [(-> & _ & ->) | (_ & ->)]; [| exact Hf].
        (* the finishing chain is not the latest of its key *)
        exfalso.
        assert (Hpos : backlog k0 (entries s') <> 0%nat) by lia.
        destruct (backlog_positive k0 (entries s') Hpos) as (i & ei & Hi & Hl).
        apply live_true in Hl. destruct Hl as [Hki Hfi].
        destruct (updated_back i ei Hi) as (ei0 & Hi0 & Hkei & _ & Hci).
        destruct Hci as [(_ & -> & _) | (Hic & ->)]; [congruence |].
        destruct (Nat.lt_ge_cases i c) as [Hlt | Hge].
        - rewrite (earlier_finished i ei0 Hlt Hi0) in Hfi by congruence. discriminate Hfi.
        - apply (Hlast i ei0); [lia | exact Hi0 |]. congruence. }
      intros i ei Hi Hei.
      destruct (updated_back i ei Hei) as (ei0 & Hei0 & Hkei & _).
      rewrite Hkei. exact (Hlast i ei0 Hi Hei0).
    + intros k Ht i ei Hi Hk. rewrite same_queues in Ht.
      destruct (updated_back i ei Hi) as (ei0 & Hi0 & Hki & _ & Hcase).
      destruct Hcase as [(_ & -> & _) | (_ & ->)]; [exact Hfin |].
      exact (Hnotail k Ht i ei0 Hi0 Hk).
    + intros k. destruct (decide (k = k0)) as [-> | Hne].
      * rewrite lookup_insert_eq, Hn. f_equal. lia.
      * rewrite lookup_insert_ne by congruence.
        rewrite same_depths, (Hother k Hne). apply Hdepth.
Qed.

End Update.

Lemma entries_finally k c s : entries (finally k c s) = entries s.
Proof. unfold finally. destruct (_ <=? _)%Z; reflexivity. Qed.

Lemma q_signal_finally k c s : q_signal (finally k c s) = q_signal s.
Proof. unfold finally. destruct (_ <=? _)%Z; reflexivity. Qed.

Lemma cleared_finally k c s : cleared (finally k c s) = cleared s.
Proof. unfold finally. destruct (_ <=? _)%Z; reflexivity. Qed.

Lemma invoked_finally k c s : invoked (finally k c s) = invoked s.
Proof. unfold finally. destruct (_ <=? _)%Z; reflexivity. Qed.

Lemma entries_update_entry c f s e :
  entries s !! c = Some e ->
  entries (update_entry c f s) = <[c := f e]> (entries s).
Proof. intros H. unfold update_entry. simpl. rewrite H. reflexivity. Qed.

(** A chain that is ready: it is waiting and every earlier chain of its key
    has finished. *)
Lemma ready_earlier_finished (s : QueueState) (c : nat) (e : Entry) :
  Chained s -> ready c s = true -> entries s !! c = Some e ->
  phase e = Waiting /\
  forall i ei, (i < c)%nat -> entries s !! i = Some ei -> key ei = key e ->
    finished (phase ei) = true.
Proof.
  intros [Hsome Hnone Hord _ _] Hready Hc. unfold ready in Hready. rewrite Hc in Hready.
  destruct (phase e) eqn:Hph; try discriminate Hready.
  split; [reflexivity |].
  destruct (after e) as [p |] eqn:Ha.
  - destruct (entries s !! p) as [ep |] eqn:Hp; [| discriminate Hready].
    destruct (Hsome c e p Hc Ha) as (Hpc & ep' & Hp' & Hk & Hbetween).
    rewrite Hp in Hp'. injection Hp' as <-.
    intros i ei Hi Hei Hkei.
    destruct (Nat.lt_total i p) as [Hlt | [-> | Hgt]].
    + apply (Hord i p ei ep Hlt Hei Hp); [congruence |].
      intros Hw. rewrite Hw in Hready. discriminate Hready.
    + rewrite Hp in Hei. injection Hei as <-. exact Hready.
    + exfalso. apply (Hbetween i ei); [lia | exact Hei | exact Hkei].
  - intros i ei Hi Hei Hkei. exact (Hnone c e Hc Ha i ei Hi Hei Hkei).
Qed.

(** The [catch] and [finally] callbacks of a chain that is skipped. *)
Lemma Inv_skip (s : QueueState) (c : nat) (e : Entry) (h : Entry -> Handle) :
  Inv s -> ready c s = true -> entries s !! c = Some e ->
  is_aborted (q_signal s) = true \/ cleared s = true ->
  Inv (finally (key e) c
         (update_entry c (fun e => set_phase Skipped (set_result (h e) e)) s)).
Proof.
  intros [HC HT] Hready Hc Hwhy.
  destruct (ready_earlier_finished s c e HC Hready Hc) as [Hw Hearlier].
  set (f := fun e : Entry => set_phase Skipped (set_result (h e) e)).
  set (e' := f e).
  set (s1 := update_entry c f s).
  assert (Hup : entries s1 = <[c := e']> (entries s))
    by (apply (entries_update_entry c f s e Hc)).
  assert (Hlive : finished (phase e) = false) by (rewrite Hw; reflexivity).
  split.
  - apply (Chained_update s (finally (key e) c s1) c e e' Hc).
    + rewrite entries_finally. exact Hup.
    + reflexivity.
    + reflexivity.
    + rewrite q_signal_finally. reflexivity.
    + rewrite cleared_finally. reflexivity.
    + exact Hlive.
    + exact Hearlier.
    + discriminate.
    + intros _. exact Hwhy.
    + exact HC.
  - rewrite cleared_finally. intros Hcl.
    apply (Tracked_finally s s1 c e e' Hc Hup); try reflexivity.
    + exact Hlive.
    + exact Hearlier.
    + exact (HT Hcl).
Qed.

Lemma Inv_advance (c : nat) (s : QueueState) : Inv s -> Inv (advance c s).
Proof.
  intros HI. unfold advance.
  destruct (ready c s) eqn:Hready; [| exact HI]. cbn [negb].
  destruct (entries s !! c) as [e |] eqn:Hc; [| exact HI].
  destruct (is_aborted (q_signal s)) eqn:Hab.
  { apply (Inv_skip s c e (fun e => settle_handle (result e) _)); auto. }
  destruct (cleared s) eqn:Hcl.
  { apply (Inv_skip s c e (fun e => settle_handle (result e) _)); auto. }
  destruct HI as [HC HT].
  destruct (ready_earlier_finished s c e HC Hready Hc) as [Hw Hearlier].
  set (e' := set_phase Running e).
  set (s1 := update_entry c (set_phase Running) s).
  assert (Hup : entries s1 = <[c := e']> (entries s))
    by (apply (entries_update_entry c (set_phase Running) s e Hc)).
  assert (Hlive : finished (phase e) = false) by (rewrite Hw; reflexivity).
  split.
  - apply (Chained_update s _ c e e' Hc).
    + exact Hup.
    + reflexivity.
    + reflexivity.
    + reflexivity.
    + reflexivity.
    + exact Hlive.
    + exact Hearlier.
    + intros _ i ei Hi Hei Hk.
      pose proof (Hearlier i ei Hi Hei Hk) as Hf.
      destruct (phase ei) eqn:Hph; try discriminate Hf; [reflexivity |].
      destruct (skipped_cancelled s HC i ei Hei Hph); congruence.
    + discriminate.
    + exact HC.
  - intros _.
    apply (Tracked_still_live s _ c e e' Hc); try reflexivity.
    + exact Hup.
    + exact Hlive.
    + exact (HT Hcl).
Qed.

Lemma Inv_settle (c : nat) (outcome : Value + Thrown) (s : QueueState) :
  Inv s -> Inv (settle c outcome s).
Proof.
  intros HI. unfold settle.
  destruct (entries s !! c) as [e |] eqn:Hc; [| exact HI].
  destruct (phase e) eqn:Hph; try exact HI.
  destruct HI as [HC HT].
  set (h := match outcome with inl v => Fulfilled v | inr x => Failed (as_Error x) end).
  set (f := fun e : Entry => set_phase Done (set_result (settle_handle (result e) h) e)).
  set (s1 := update_entry c f s).
  assert (Hup : entries s1 = <[c := f e]> (entries s))
    by (apply (entries_update_entry c f s e Hc)).
  assert (Hlive : finished (phase e) = false) by (rewrite Hph; reflexivity).
  assert (Hearlier : forall i ei, (i < c)%nat -> entries s !! i = Some ei ->
            key ei = key e -> phase ei = Done).
  { intros i ei Hi Hei Hk. apply (fifo s HC i c ei e Hi Hei Hc Hk).
    rewrite Hph. reflexivity. }
  split.
  - apply (Chained_update s (finally (key e) c s1) c e (f e) Hc).
    + rewrite entries_finally. exact Hup.
    + reflexivity.
    + reflexivity.
    + rewrite q_signal_finally. reflexivity.
    + rewrite cleared_finally. reflexivity.
    + exact Hlive.
    + intros i ei Hi Hei Hk. rewrite (Hearlier i ei Hi Hei Hk). reflexivity.
    + intros _. exact Hearlier.
    + discriminate.
    + exact HC.
  - rewrite cleared_finally. intros Hcl.
    apply (Tracked_finally s s1 c e (f e) Hc Hup); try reflexivity.
    + exact Hlive.
    + intros i ei Hi Hei Hk. rewrite (Hearlier i ei Hi Hei Hk). reflexivity.
    + exact (HT Hcl).
Qed.

(** ** The signal fires, the queue is cleared *)

Lemma lookup_map_Some {A B : Type} (g : A -> B) (l : list A) :
  forall i y, map g l !! i = Some y -> exists x, l !! i = Some x /\ y = g x.
Proof.
  induction l as [| a l IH]; intros i y H; [discriminate H |].
  destruct i as [| i]; simpl in H.
  - injection H as <-. exists a. split; reflexivity.
  - exact (IH i y H).
Qed.

Lemma lookup_map_of {A B : Type} (g : A -> B) (l : list A) :
  forall i x, l !! i = Some x -> map g l !! i = Some (g x).
Proof.
  induction l as [| a l IH]; intros i x H; [discriminate H |].
  destruct i as [| i]; simpl in H |- *.
  - injection H as <-. reflexivity.
  - exact (IH i x H).
Qed.

Lemma backlog_map (g : Entry -> Entry) (k : string) (l : list Entry) :
  (forall e, key (g e) = key e /\ phase (g e) = phase e) ->
  backlog k (map g l) = backlog k l.
Proof.
  intros Hg. unfold backlog. induction l as [| a l IH]; [reflexivity |].
  simpl. assert (Hl : live k (g a) = live k a).
  { unfold live. destruct (Hg a) as [-> ->]. reflexivity. }
  rewrite Hl. destruct (live k a); simpl; rewrite IH; reflexivity.
Qed.

Lemma Inv_abort (reason : option string) (s : QueueState) : Inv s -> Inv (abort reason s).
Proof.
  intros [HC HT]. unfold abort.
  destruct (q_signal s) as [sg |] eqn:Hsg; [| split; assumption].
  destruct (aborted sg) eqn:Hab; [split; assumption |].
  match goal with |- Inv {| entries := map ?g0 _ |} => set (g := g0) end.
  assert (Hg : forall e, key (g e) = key e /\ after (g e) = after e /\ phase (g e) = phase e)
    by (intros e; repeat split).
  destruct HC as [Hsome Hnone Hord Hfifo Hskip].
  split; [constructor | intros Hcl; destruct (HT Hcl) as [Htail Hnotail Hdepth]; constructor];
    cbn [entries queues queueDepths q_signal cleared].
  - intros j e p Hj Ha.
    destruct (lookup_map_Some g _ j e Hj) as (e0 & Hj0 & ->).
    destruct (Hsome j e0 p Hj0 Ha) as (Hpj & ep & Hp & Hk & Hbetween).
    split; [exact Hpj |]. exists (g ep).
    split; [apply lookup_map_of; exact Hp |]. split; [exact Hk |].
    intros i ei Hi Hei.
    destruct (lookup_map_Some g _ i ei Hei) as (ei0 & Hei0 & ->).
    exact (Hbetween i ei0 Hi Hei0).
  - intros j e Hj Ha i ei Hij Hi Hk.
    destruct (lookup_map_Some g _ j e Hj) as (e0 & Hj0 & ->).
    destruct (lookup_map_Some g _ i ei Hi) as (ei0 & Hi0 & ->).
    exact (Hnone j e0 Hj0 Ha i ei0 Hij Hi0 Hk).
  - intros i j ei ej Hij Hi Hj Hk Hph.
    destruct (lookup_map_Some g _ j ej Hj) as (ej0 & Hj0 & ->).
    destruct (lookup_map_Some g _ i ei Hi) as (ei0 & Hi0 & ->).
    exact (Hord i j ei0 ej0 Hij Hi0 Hj0 Hk Hph).
  - intros i j ei ej Hij Hi Hj Hk Hst.
    destruct (lookup_map_Some g _ j ej Hj) as (ej0 & Hj0 & ->).
    destruct (lookup_map_Some g _ i ei Hi) as (ei0 & Hi0 & ->).
    exact (Hfifo i j ei0 ej0 Hij Hi0 Hj0 Hk Hst).
  - intros i ei Hi Hph. left. reflexivity.
  - intros k t Ht. destruct (Htail k t Ht) as (et & Hp & Hk & Hf & Hlast).
    exists (g et). split; [apply lookup_map_of; exact Hp |].
    split; [exact Hk |]. split; [exact Hf |].
    intros i ei Hi Hei.
    destruct (lookup_map_Some g _ i ei Hei) as (ei0 & Hei0 & ->).
    exact (Hlast i ei0 Hi Hei0).
  - intros k Ht i ei Hi Hk.
    destruct (lookup_map_Some g _ i ei Hi) as (ei0 & Hi0 & ->).
    exact (Hnotail k Ht i ei0 Hi0 Hk).
  - intros k. rewrite backlog_map by (intros e; split; reflexivity). apply Hdepth.
Qed.

Lemma Inv_clear (s : QueueState) : Inv s -> Inv (clear s).
Proof.
  intros [[Hsome Hnone Hord Hfifo Hskip] _].
  split; [constructor; try assumption | intros Hcl; discriminate Hcl].
  intros i ei Hi Hph. right. reflexivity.
Qed.

Lemma Inv_step (a : Action) (s : QueueState) : Inv s -> Inv (step a s).
Proof.
  intros H. destruct a as [k op | c | c outcome | reason |]; cbn [step].
  - apply Inv_enqueue. exact H.
  - apply Inv_advance. exact H.
  - apply Inv_settle. exact H.
  - apply Inv_abort. exact H.
  - apply Inv_clear. exact H.
Qed.

Lemma Inv_run (actions : list Action) : forall s, Inv s -> Inv (run actions s).
Proof.
  induction actions as [| a rest IH]; intros s H; [exact H |].
  simpl. apply IH. apply Inv_step. exact H.
Qed.

Lemma Inv_reachable (options : OperationQueueOptions) (s : QueueState) :
  reachable options s -> Inv s.
Proof. intros [actions ->]. apply Inv_run. apply Inv_init. Qed.

(** ** What the steps do to the entries *)


Lemma advance_calls (c : nat) (s : QueueState) (e : Entry) :
  ready c s = true -> entries s !! c = Some e ->
  is_aborted (q_signal s) = false -> cleared s = false ->
  advance c s =
  {| q_signal := q_signal s; queues := queues s; queueDepths := queueDepths s;
     cleared := cleared s; entries := <[c := set_phase Running e]> (entries s);
     invoked := invoked s ++ [c] |}.
Proof.
  intros Hready Hc Hab Hcl. unfold advance. rewrite Hready, Hc, Hab.
  cbn [negb]. unfold update_entry.
  cbn [q_signal queues queueDepths cleared entries invoked].
  rewrite Hc. destruct (cleared s); [discriminate Hcl | reflexivity].
Qed.


(** Apart from an [Advance] that calls an operation, no step touches the log
    of calls. *)
Lemma step_invoked (a : Action) (s : QueueState) :
  invoked (step a s) = invoked s \/
  exists c e, a = Advance c /\ entries s !! c = Some e /\ phase e = Waiting /\
              ready c s = true /\ is_aborted (q_signal s) = false /\ cleared s = false /\
              step a s = advance c s /\ invoked (step a s) = invoked s ++ [c].
Proof.
  destruct a as [k op | c0 | c0 outcome | reason |]; cbn [step].
  - left. unfold enqueue. destruct (is_aborted (q_signal s)); [reflexivity |].
    destruct (cleared s); reflexivity.
  - destruct (ready c0 s) eqn:Hready.
    + destruct (entries s !! c0) as [e0 |] eqn:Hc0.
      * assert (Hw : phase e0 = Waiting).
        { unfold ready in Hready. rewrite Hc0 in Hready.
          destruct (phase e0); try discriminate Hready. reflexivity. }
        destruct (is_aborted (q_signal s)) eqn:Hab; [| destruct (cleared s) eqn:Hcl].
        -- left. unfold advance. rewrite Hready, Hc0, Hab. cbn [negb].
           rewrite invoked_finally. reflexivity.
        -- left. unfold advance. rewrite Hready, Hc0, Hab, Hcl. cbn [negb].
           rewrite invoked_finally. reflexivity.
        -- right. exists c0, e0. repeat split; auto.
           rewrite (advance_calls c0 s e0 Hready Hc0 Hab Hcl). reflexivity.
      * left. unfold advance. rewrite Hready, Hc0. reflexivity.
    + left. unfold advance. rewrite Hready. reflexivity.
  - left. unfold settle. destruct (entries s !! c0) as [e0 |]; [| reflexivity].
    destruct (phase e0); try reflexivity. rewrite invoked_finally. reflexivity.
  - left. unfold abort. destruct (q_signal s) as [sg |]; [| reflexivity].
    destruct (aborted sg); reflexivity.
  - left. reflexivity.
Qed.

(** ** The log of calls *)





(** ** The lane goes on *)





Lemma enqueue_rejected (k : string) (op : nat) (s : QueueState) :
  is_aborted (q_signal s) = true \/ cleared s = true ->
  exists e, enqueue k op s = (inl e, s) /\ cls e = AbortErrorC.
Proof.
  intros Hwhy. unfold enqueue.
  destruct (is_aborted (q_signal s)); [eexists; split; reflexivity |].
  destruct Hwhy as [Hab | Hcl]; [discriminate Hab |].
  rewrite Hcl. eexists; split; reflexivity.
Qed.

(** ** Two keys *)

Section TwoKeys.

Variable options : OperationQueueOptions.
Variables (kx ky : string) (a b : nat) (v : Value).
Hypothesis distinct : kx <> ky.
Hypothesis live_signal : is_aborted (signal options) = false.





End TwoKeys.

(** ** Results stay pending until something settles them *)





(** ** One lane, end to end *)




Definition drive (ops : list (nat * (Value + Thrown))) : list Action :=
  concat (imap (fun i o => [Advance i; Settle i (snd o)]) ops).










(** ** The claims *)


(** The specification's example: A then B on key X, C on key Y; A fails. *)
Definition a_fails_b_runs : list Action :=
  [ Enqueue "X" 1; Enqueue "X" 2; Enqueue "Y" 3;
    Advance 1;  (* B is not ready: nothing happens *)
    Advance 0; Advance 2;
    Settle 2 (inl 30%nat);
    Settle 0 (inr (ThrownValue "GATT operation failed"));
    Advance 1; Settle 1 (inl 20%nat) ].

Definition no_options : OperationQueueOptions :=
  {| maxConcurrent := None; signal := None |}.

Example a_fails_b_runs_trace :
  let s := run a_fails_b_runs (createOperationQueue no_options) in
  entries s =
    [ mkEntry "X" 1 None Done (Failed (new_Error "GATT operation failed"));
      mkEntry "X" 2 (Some 0%nat) Done (Fulfilled 20%nat);
      mkEntry "Y" 3 None Done (Fulfilled 30%nat) ] /\
  invoked s = [0%nat; 2%nat; 1%nat] /\
  getQueueDepth "X" s = 0%Z /\ getQueueDepth "Y" s = 0%Z /\
  queues s = ∅.
Proof. vm_compute. repeat split. Qed.

(** A signal that fires while A runs: the caller of A sees the abort at once,
    A itself settles later and its value is dropped; B is never called. *)
Example abort_while_running :
  let s := run [ Enqueue "X" 1; Enqueue "X" 2; Advance 0; Abort None;
                 Settle 0 (inl 10%nat); Advance 1 ]
               (createOperationQueue
                  {| maxConcurrent := None; signal := Some (mkSignal false None) |}) in
  entries s =
    [ mkEntry "X" 1 None Done (Failed (new_AbortError "Operation aborted"));
      mkEntry "X" 2 (Some 0%nat) Skipped (Failed (new_AbortError "Operation aborted")) ] /\
  invoked s = [0%nat] /\
  fst (enqueue "X" 3 s) = inl (new_AbortError "Operation aborted").
Proof. vm_compute. repeat split. Qed.

(** [clear()]: the running operation completes, the queued one is rejected,
    and no later [enqueue] is accepted. *)
Example clear_while_running :
  let s := run [ Enqueue "X" 1; Enqueue "X" 2; Advance 0; Clear;
                 Settle 0 (inl 10%nat); Advance 1 ]
               (createOperationQueue no_options) in
  entries s =
    [ mkEntry "X" 1 None Done (Fulfilled 10%nat);
      mkEntry "X" 2 (Some 0%nat) Skipped (Failed (new_AbortError "Queue has been cleared")) ] /\
  invoked s = [0%nat] /\
  getQueueDepth "X" s = 0%Z /\
  fst (enqueue "X" 3 s) = inl (new_AbortError "Queue has been cleared").
Proof. vm_compute. repeat split. Qed.


(** C10.  [maxConcurrent] is not read: a queue created with any value of the
    option is the queue created without it, so after every sequence of
    actions the two are in the same state and answer every [enqueue] alike.
    And whatever the options, two chains of one key never run their
    operations at the same time. *)
Theorem maxConcurrent_ignored (v : Z) (sg : option AbortSignal)
    (actions : list Action) (options : OperationQueueOptions) :
  let with_option := createOperationQueue {| maxConcurrent := Some v; signal := sg |} in
  let without := createOperationQueue {| maxConcurrent := None; signal := sg |} in
  with_option = without /\
  run actions with_option = run actions without /\
  (forall k op, enqueue k op (run actions with_option) = enqueue k op (run actions without)) /\
  (forall k, getQueueDepth k (run actions with_option) = getQueueDepth k (run actions without)) /\
  (let s := run actions (createOperationQueue options) in
   forall i j ei ej,
     entries s !! i = Some ei -> entries s !! j = Some ej -> key ei = key ej ->
     phase ei = Running -> phase ej = Running -> i = j).
Proof.
  intros with_option without.
  assert (Hsame : with_option = without) by reflexivity.
  split; [exact Hsame |].
  split; [rewrite Hsame; reflexivity |].
  split; [intros k op; rewrite Hsame; reflexivity |].
  split; [intros k; rewrite Hsame; reflexivity |].
  intros s i j ei ej Hi Hj Hk Hri Hrj.
  assert (Hreach : reachable options s) by (exists actions; reflexivity).
  pose proof (Inv_reachable options s Hreach) as [HC _].
  destruct (Nat.lt_total i j) as [Hlt | [Heq | Hgt]]; [| exact Heq |].
  - pose proof (fifo s HC i j ei ej Hlt Hi Hj Hk) as Hdone.
    rewrite Hrj, Hri in Hdone. specialize (Hdone eq_refl). discriminate Hdone.
  - pose proof (fifo s HC j i ej ei Hgt Hj Hi (eq_sym Hk)) as Hdone.
    rewrite Hri, Hrj in Hdone. specialize (Hdone eq_refl). discriminate Hdone.
Qed.

End OperationQueueFacts.

(* ===================================================================== *)
(** * Rejections before any side effect *)
(* ===================================================================== *)

Module AdmissionFacts.
Import Errors.

(** C6.  [connect] on a pool whose live and pending connections together
    equal [maxConnections] rejects with the capacity error and leaves the pool
    as it was: the adapter's [connect] is not called, and the pending counter
    and the entries are unchanged.  [withRetry] with [maxAttempts < 1] rejects
    with a [RangeError] without invoking the operation. *)
Theorem rejected_before_side_effects
    (cfg : Pool.Config) (adapter : Pool.BLEAdapter) (s : Pool.PoolState)
    {T : Type} (operation : nat -> Retry.Outcome T) (fires : Z -> bool)
    (options : Retry.RetryOptions) (n : Z) :
  (Pool.connectionCount s + Pool.pendingConnections s = Pool.maxConnections cfg)%Z ->
  Retry.maxAttempts options = Some n ->
  (n < 1)%Z ->
  (let '(reply, s') := Pool.connect cfg adapter s in
   reply = Pool.Rejects (Pool.capacity_error cfg) /\
   s' = s /\
   Pool.calls s' = Pool.calls s /\
   Pool.pendingConnections s' = Pool.pendingConnections s /\
   Pool.getSessions s' = Pool.getSessions s) /\
  (exists e,
     Retry.withRetry operation fires options = (Retry.Rejected e, [], 0%nat) /\
     cls e = RangeErrorC /\ instanceof e RangeErrorC = true).
Proof.
  intros Hfull Hmax Hlt. split.
  - rewrite (PoolFacts.connect_at_capacity cfg adapter s) by lia.
    repeat split.
  - eexists. split.
    + apply (RetryFacts.withRetry_maxAttempts_lt_1 operation fires options n Hmax Hlt).
    + split; reflexivity.
Qed.

(** A pool of one with its one connection in place, and a retry with no
    attempt allowed. *)
Definition full_pool : Pool.PoolState :=
  Pool.run PoolFacts.tiny
    [Pool.CallConnect PoolFacts.a1; Pool.Settle 0 (inl PoolFacts.d1_first)]
    Pool.createConnectionPool.

Definition no_attempts : Retry.RetryOptions :=
  {| Retry.maxAttempts := Some 0%Z; Retry.initialDelayMs := None;
     Retry.maxDelayMs := None; Retry.backoffMultiplier := None;
     Retry.jitter := None; Retry.signal := None; Retry.onRetry := true;
     Retry.isRetryable := None |}.

Lemma rejected_before_side_effects_witness :
  (let '(reply, s') := Pool.connect PoolFacts.tiny PoolFacts.a2 full_pool in
   reply = Pool.Rejects (Pool.capacity_error PoolFacts.tiny) /\
   s' = full_pool /\
   Pool.calls s' = Pool.calls full_pool /\
   Pool.pendingConnections s' = Pool.pendingConnections full_pool /\
   Pool.getSessions s' = Pool.getSessions full_pool) /\
  (exists e,
     Retry.withRetry RetryFacts.flaky (fun _ => false) no_attempts =
       (Retry.Rejected e, [], 0%nat) /\
     cls e = RangeErrorC /\ instanceof e RangeErrorC = true).
Proof.
  apply (rejected_before_side_effects PoolFacts.tiny PoolFacts.a2 full_pool
           RetryFacts.flaky (fun _ => false) no_attempts 0).
  - vm_compute. reflexivity.
  - reflexivity.
  - lia.
Defined.

End AdmissionFacts.

(* ===================================================================== *)
(** * Runs of [withRetry] of any length *)
(* ===================================================================== *)

Module RetryRuns.
Import Errors Retry.

(** The invocations among the events of a run, in order. *)
Definition invocations (evs : list Event) : list nat :=
  flat_map (fun ev => match ev with Invoked j => [j] | _ => [] end) evs.

(** The calls of [onRetry] among the events of a run, by attempt. *)
Definition observed (evs : list Event) : list Z :=
  flat_map (fun ev => match ev with OnRetry a _ _ => [a] | _ => [] end) evs.

Lemma invocations_app (l1 l2 : list Event) :
  invocations (l1 ++ l2) = invocations l1 ++ invocations l2.
Proof. unfold invocations. apply flat_map_app. Qed.

Lemma observed_app (l1 l2 : list Event) :
  observed (l1 ++ l2) = observed l1 ++ observed l2.
Proof. unfold observed. apply flat_map_app. Qed.

(** ** The error of an exhausted run *)

(** How often a message occurs among errors. *)
Definition occurrences (msg : string) (errors : list Error) : nat :=
  length (List.filter (fun e => String.eqb (message e) msg) errors).

(** How often the message of the error at place [i] has occurred up to and
    including that place. *)
Definition running_count (errors : list Error) (i : nat) : nat :=
  match errors !! i with
  | Some e => occurrences (message e) (take (S i) errors)
  | None => 0
  end.

Lemma occurrences_snoc (msg : string) (errors : list Error) (e : Error) :
  occurrences msg (errors ++ [e]) =
  (occurrences msg errors + (if String.eqb (message e) msg then 1 else 0))%nat.
Proof.
  unfold occurrences. rewrite List.filter_app, length_app. cbn.
  destruct (String.eqb (message e) msg); reflexivity.
Qed.

Lemma running_count_snoc_old (errors : list Error) (e : Error) (i : nat) :
  (i < length errors)%nat ->
  running_count (errors ++ [e]) i = running_count errors i.
Proof.
  intros Hi. unfold running_count. rewrite lookup_app_l by exact Hi.
  destruct (errors !! i); [| reflexivity].
  rewrite take_app_le by lia. reflexivity.
Qed.

Lemma running_count_snoc_new (errors : list Error) (e : Error) :
  running_count (errors ++ [e]) (length errors) =
  S (occurrences (message e) errors).
Proof.
  unfold running_count. rewrite list_lookup_middle by reflexivity.
  rewrite take_ge by (rewrite length_app; cbn; lia).
  rewrite occurrences_snoc, String.eqb_refl. lia.
Qed.

(** What the loop of [mainError] has found after the errors [errors]. *)
Definition main_found (errors : list Error)
    (acc : gmap string nat * option Error * nat) : Prop :=
  let '(counts, found, foundCount) := acc in
  (forall msg, default 0%nat (counts !! msg) = occurrences msg errors) /\
  match errors with
  | [] => found = None /\ foundCount = 0%nat
  | _ =>
      exists i e,
        errors !! i = Some e /\ found = Some e /\
        foundCount = running_count errors i /\
        (forall j, (j < length errors)%nat ->
           (running_count errors j <= running_count errors i)%nat) /\
        (forall j, (i < j < length errors)%nat ->
           (running_count errors j < running_count errors i)%nat)
  end.

Lemma main_found_step (errors : list Error) (e : Error)
    (acc : gmap string nat * option Error * nat) :
  main_found errors acc -> main_found (errors ++ [e]) (mainError_step acc e).
Proof.
  destruct acc as [[counts found] foundCount]. intros [Hcounts Hmain].
  unfold mainError_step. rewrite Hcounts.
  assert (Hcounts' : forall msg,
            default 0%nat (<[message e := (occurrences (message e) errors + 1)%nat]> counts
                             !! msg) = occurrences msg (errors ++ [e])).
  { intros msg. rewrite occurrences_snoc.
    destruct (String.eqb_spec (message e) msg) as [<- | Hne].
    - rewrite lookup_insert_eq. reflexivity.
    - rewrite lookup_insert_ne by exact Hne. rewrite Hcounts. lia. }
  assert (Hshape : forall Q P : Prop, P ->
            match errors ++ [e] with [] => Q | _ => P end).
  { intros Q P HP. destruct errors; cbn; exact HP. }
  pose proof (running_count_snoc_new errors e) as Hnew.
  destruct (Nat.leb_spec foundCount (occurrences (message e) errors + 1)) as [Hle | Hgt].
  - split; [exact Hcounts' |]. apply Hshape.
    exists (length errors), e. rewrite list_lookup_middle by reflexivity.
    split; [reflexivity |]. split; [reflexivity |]. split; [lia |]. split.
    + intros j Hj. rewrite length_app in Hj. cbn in Hj.
      destruct (decide (j = length errors)) as [-> | Hne]; [lia |].
      rewrite running_count_snoc_old by lia. rewrite Hnew.
      destruct errors as [| e0 errors']; [cbn in Hj, Hne; lia |].
      destruct Hmain as (i & ei & _ & _ & Hfc & Hall & _).
      specialize (Hall j ltac:(lia)). lia.
    + intros j Hj. rewrite length_app in Hj. cbn in Hj. lia.
  - split; [exact Hcounts' |]. apply Hshape.
    destruct errors as [| e0 errors'].
    { destruct Hmain as [_ ->]. lia. }
    destruct Hmain as (i & ei & Hi & Hfound & Hfc & Hall & Hlater).
    assert (Hlt : (i < length (e0 :: errors'))%nat) by (eapply lookup_lt_Some; exact Hi).
    exists i, ei. rewrite lookup_app_l by exact Hlt.
    split; [exact Hi |]. split; [exact Hfound |].
    rewrite (running_count_snoc_old _ e i Hlt).
    split; [exact Hfc |]. split.
    + intros j Hj. rewrite length_app in Hj. cbn [length] in Hj.
      destruct (decide (j = length (e0 :: errors'))) as [-> | Hne].
      * rewrite Hnew. lia.
      * rewrite running_count_snoc_old by (cbn [length] in *; lia).
        apply Hall. cbn [length] in *. lia.
    + intros j Hj. rewrite length_app in Hj. cbn [length] in Hj.
      destruct (decide (j = length (e0 :: errors'))) as [-> | Hne].
      * rewrite Hnew. lia.
      * rewrite running_count_snoc_old by (cbn [length] in *; lia).
        apply Hlater. cbn [length] in *. lia.
Qed.

Lemma main_found_all (errors : list Error) :
  main_found errors (fold_left mainError_step errors (∅, None, 0%nat)).
Proof.
  induction errors as [| e errors IH] using rev_ind.
  - cbn. split; [| split; reflexivity]. intros msg. rewrite lookup_empty. reflexivity.
  - rewrite fold_left_app. cbn [fold_left]. apply main_found_step. exact IH.
Qed.

(** [mainError]: of the errors whose message has occurred most often when
    they occur, the last one. *)
Lemma mainError_last_most_frequent (errors : list Error) (e0 : Error) :
  exists i e,
    (errors ++ [e0]) !! i = Some e /\
    mainError (errors ++ [e0]) = Some e /\
    (forall j, (j <= length errors)%nat ->
       (running_count (errors ++ [e0]) j <= running_count (errors ++ [e0]) i)%nat) /\
    (forall j, (i < j <= length errors)%nat ->
       (running_count (errors ++ [e0]) j < running_count (errors ++ [e0]) i)%nat).
Proof.
  pose proof (main_found_all (errors ++ [e0])) as H. unfold mainError.
  destruct (fold_left mainError_step (errors ++ [e0]) (∅, None, 0%nat))
    as [[counts found] foundCount].
  destruct H as [_ H]. destruct (errors ++ [e0]) as [| e1 l] eqn:Hl.
  { destruct errors; discriminate Hl. }
  destruct H as (i & e & Hi & Hfound & _ & Hall & Hlater).
  assert (Hlen : length (e1 :: l) = S (length errors)).
  { rewrite <- Hl, length_app. cbn. lia. }
  exists i, e. split; [exact Hi |]. split; [exact Hfound |]. split.
  - intros j Hj. apply Hall. lia.
  - intros j Hj. apply Hlater. lia.
Qed.

(** One step of the p-retry loop, by what the attempt gives. *)
Section Loop.

Context {T : Type}.
Variable input : Z -> nat -> PResult T * list Event * nat.
Variable popts : POptions.
Variable fires : Z -> bool.


Lemma loop_stopped (left : nat) (a : Z) (c c' : nat) (e : Error) (evs : list Event)
    (errs : list Error) :
  input a c = (PRejected (PAbortError e), evs, c') ->
  pRetry_loop input popts fires left a c errs = (Rejected e, evs, c', false).
Proof. intros H. destruct left; cbn [pRetry_loop]; rewrite H; reflexivity. Qed.

Lemma loop_exhausted (a : Z) (c c' : nat) (e : Error) (evs : list Event)
    (errs : list Error) :
  input a c = (PRejected (PError e), evs, c') ->
  pRetry_loop input popts fires 0 a c errs =
  (Rejected (default e (mainError (errs ++ [e]))),
   evs ++ onFailedAttempt popts {| failure := e; attemptNumber := a; retriesLeft := 0 |},
   c', false).
Proof. intros H. cbn [pRetry_loop]. rewrite H. reflexivity. Qed.

Lemma loop_cancelled (left : nat) (a : Z) (c c' : nat) (e : Error) (evs : list Event)
    (s : AbortSignal) (errs : list Error) :
  input a c = (PRejected (PError e), evs, c') ->
  psignal popts = Some s -> fires a = true ->
  pRetry_loop input popts fires (S left) a c errs =
  (Rejected {| cls := ErrorC; name := "AbortError";
               message := default "This operation was aborted" (reason_message s) |},
   evs ++ onFailedAttempt popts
            {| failure := e; attemptNumber := a; retriesLeft := Z.of_nat (S left) |}
       ++ [Waited a],
   c', true).
Proof. intros H Hs Hf. cbn [pRetry_loop]. rewrite H, Hs, Hf. reflexivity. Qed.

Lemma loop_retried (left : nat) (a : Z) (c c' : nat) (e : Error) (evs : list Event)
    (errs : list Error) :
  input a c = (PRejected (PError e), evs, c') ->
  fires a = false ->
  pRetry_loop input popts fires (S left) a c errs =
  let '(res, evs', calls, fired) :=
    pRetry_loop input popts fires left (a + 1) c' (errs ++ [e]) in
  (res,
   evs ++ onFailedAttempt popts
            {| failure := e; attemptNumber := a; retriesLeft := Z.of_nat (S left) |}
       ++ [Waited a] ++ evs',
   calls, fired).
Proof.
  intros H Hf. cbn [pRetry_loop]. rewrite H, Hf.
  destruct (psignal popts); reflexivity.
Qed.

End Loop.

(** The errors of the invocations [c + 1 .. c + k]. *)
Definition failures (x : nat -> Thrown) (c k : nat) : list Error :=
  map (fun j => as_Error (x j)) (seq (S c) k).


(** How often the message of the [j]-th failure has occurred among the
    first [j] failures. *)
Definition repeats (x : nat -> Thrown) (j : nat) : nat :=
  length (List.filter
            (fun i => String.eqb (message (as_Error (x i))) (message (as_Error (x j))))
            (seq 1 j)).

Lemma running_count_failures (x : nat -> Thrown) (k j : nat) :
  (1 <= j <= k)%nat ->
  running_count (failures x 0 k) (j - 1) = repeats x j.
Proof.
  intros Hj. unfold running_count, failures.
  rewrite list_lookup_fmap, lookup_seq_lt by lia. cbn [fmap option_fmap option_map].
  replace (1 + (j - 1))%nat with j by lia.
  replace (S (j - 1)) with j by lia.
  rewrite <- fmap_take, take_seq, Nat.min_l by lia.
  unfold occurrences, repeats.
  generalize (message (as_Error (x j))) as msg. intros msg.
  generalize (seq 1 j) as l. intros l.
  induction l as [| i l IH]; [reflexivity |].
  cbn [fmap list_fmap List.filter]. change (list_fmap _ _ ?f l) with (f <$> l).
  destruct (String.eqb (message (as_Error (x i))) msg); cbn [length]; rewrite IH; reflexivity.
Qed.

Section Run.

Context {T : Type}.
Variable operation : nat -> Outcome T.
Variable fires : Z -> bool.
Variable options : RetryOptions.

Let n : Z := default 3%Z (maxAttempts options).
Let mx : Q := default 30000%Q (maxDelayMs options).
Let initial : Q := Qmin (default 1000%Q (initialDelayMs options)) mx.
Let m : Q := default 2%Q (backoffMultiplier options).
Let retryable : Error -> bool := default isTransientBLEError (isRetryable options).

(** The function [withRetry] hands to [pRetry], and the options. *)
Definition attempt_fn (_ : Z) (calls : nat) : PResult T * list Event * nat :=
  let n := S calls in
  match operation n with
  | Resolves v => (PResolved v, [Invoked n], n)
  | Rejects x =>
      let error := as_Error x in
      if negb (retryable error)
      then (PRejected (PAbortError (new_Error (message error))), [Invoked n], n)
      else (PRejected (PError error), [Invoked n], n)
  end.

Definition p_options : POptions :=
  {| retries := n - 1;
     minTimeout := initial;
     maxTimeout := mx;
     factor := m;
     randomize := default true (jitter options);
     psignal := signal options;
     onFailedAttempt := fun error =>
       if (0 <? retriesLeft error)%Z && onRetry options then
         let attempt := attemptNumber error in
         let delayMs := reported_delay initial m mx attempt in
         [OnRetry attempt delayMs (failure error)]
       else [] |}.

Lemma withRetry_started :
  (1 <= n)%Z -> is_aborted (signal options) = false ->
  withRetry operation fires options =
  let '(res, evs, calls, fired) :=
    pRetry_loop attempt_fn p_options fires (Z.to_nat (n - 1)) 1 0 [] in
  match res with
  | Resolved v => (Resolved v, evs, calls)
  | Rejected e =>
      if String.eqb (name e) "AbortError" && fired
      then (Rejected (new_AbortError (abort_message (signal options))), evs, calls)
      else (Rejected e, evs, calls)
  end.
Proof.
  intros Hn Hs. unfold withRetry. fold n.
  destruct (Z.ltb_spec n 1) as [Hlt | _]; [lia |].
  rewrite Hs. unfold pRetry. cbn [retries orb]. reflexivity.
Qed.


Lemma attempt_retryable (a : Z) (c : nat) (x : Thrown) :
  operation (S c) = Rejects x -> retryable (as_Error x) = true ->
  attempt_fn a c = (PRejected (PError (as_Error x)), [Invoked (S c)], S c).
Proof. intros H Hr. unfold attempt_fn. rewrite H. cbv zeta. rewrite Hr. reflexivity. Qed.

Lemma attempt_not_retryable (a : Z) (c : nat) (x : Thrown) :
  operation (S c) = Rejects x -> retryable (as_Error x) = false ->
  attempt_fn a c =
  (PRejected (PAbortError (new_Error (message (as_Error x)))), [Invoked (S c)], S c).
Proof. intros H Hr. unfold attempt_fn. rewrite H. cbv zeta. rewrite Hr. reflexivity. Qed.

(** The events of the failed attempt [j] that is followed by another one:
    the invocation, the call of [onRetry] when it is supplied, the wait. *)
Definition round (x : nat -> Thrown) (j : nat) : list Event :=
  Invoked j ::
  (if onRetry options
   then [OnRetry (Z.of_nat j) (reported_delay initial m mx (Z.of_nat j)) (as_Error (x j))]
   else []) ++
  [Waited (Z.of_nat j)].

Definition rounds (x : nat -> Thrown) (c k : nat) : list Event :=
  flat_map (round x) (seq (S c) k).

Lemma reported_more (e : Error) (a : Z) (left : nat) :
  onFailedAttempt p_options
    {| failure := e; attemptNumber := a; retriesLeft := Z.of_nat (S left) |} =
  if onRetry options then [OnRetry a (reported_delay initial m mx a) e] else [].
Proof.
  cbn [onFailedAttempt p_options retriesLeft attemptNumber failure].
  destruct (Z.ltb_spec 0 (Z.of_nat (S left))) as [_ | H]; [| lia].
  reflexivity.
Qed.

Lemma reported_last (e : Error) (a : Z) :
  onFailedAttempt p_options {| failure := e; attemptNumber := a; retriesLeft := 0 |} = [].
Proof. reflexivity. Qed.

(** [k] failed attempts in a row, each retryable and none cancelled during
    its wait, when more than [k] attempts are left. *)
Lemma loop_rounds (x : nat -> Thrown) (k : nat) :
  forall (left c : nat) (errs : list Error),
    (forall j, (c < j <= c + k)%nat ->
       operation j = Rejects (x j) /\ retryable (as_Error (x j)) = true /\
       fires (Z.of_nat j) = false) ->
    pRetry_loop attempt_fn p_options fires (k + left) (Z.of_nat (S c)) c errs =
    let '(res, evs, calls, fired) :=
      pRetry_loop attempt_fn p_options fires left (Z.of_nat (S (c + k))) (c + k)
        (errs ++ failures x c k) in
    (res, rounds x c k ++ evs, calls, fired).
Proof.
  induction k as [| k IH]; intros left c errs H.
  - rewrite Nat.add_0_r. cbn [Nat.add]. unfold rounds, failures.
    cbn [seq flat_map map app]. rewrite app_nil_r.
    destruct (pRetry_loop attempt_fn p_options fires left (Z.of_nat (S c)) c errs)
      as [[[res evs] calls] fired]. reflexivity.
  - destruct (H (S c)) as (Hop & Hr & Hf); [lia |].
    cbn [Nat.add].
    rewrite (loop_retried _ _ _ _ _ _ _ _ _ _ (attempt_retryable _ c _ Hop Hr) Hf).
    rewrite reported_more.
    replace (Z.of_nat (S c) + 1)%Z with (Z.of_nat (S (S c))) by lia.
    rewrite (IH left (S c)) by (intros j Hj; apply H; lia).
    replace (S c + k)%nat with (c + S k)%nat by lia.
    replace ((errs ++ [as_Error (x (S c))]) ++ failures x (S c) k)
      with (errs ++ failures x c (S k))
      by (unfold failures; cbn [seq map]; rewrite <- app_assoc; reflexivity).
    destruct (pRetry_loop attempt_fn p_options fires left
                (Z.of_nat (S (c + S k))) (c + S k) (errs ++ failures x c (S k)))
      as [[[res evs] calls] fired].
    unfold rounds. cbn [seq flat_map]. unfold round.
    destruct (onRetry options); cbn [app]; rewrite <- ?app_assoc; reflexivity.
Qed.

(** The invocations of the loop are numbered from the count it is given, and
    there are at most as many as attempts are left. *)
Lemma loop_invocations :
  forall (left : nat) (a : Z) (c : nat) (errs : list Error),
    let '(res, evs, calls, fired) :=
      pRetry_loop attempt_fn p_options fires left a c errs in
    (c < calls <= c + S left)%nat /\
    invocations evs = seq (S c) (calls - c) /\
    (length (observed evs) <= calls - S c + (if fired then 1 else 0))%nat /\
    (length (observed evs) <= left)%nat.
Proof.
  assert (Hrep : forall f, invocations (onFailedAttempt p_options f) = [] /\
                           (length (observed (onFailedAttempt p_options f)) <= 1)%nat).
  { intros f. cbn [onFailedAttempt p_options].
    destruct ((0 <? retriesLeft f)%Z && onRetry options); cbn; split; auto. }
  assert (Hin : forall a c, exists r, attempt_fn a c = (r, [Invoked (S c)], S c)).
  { intros a c. unfold attempt_fn. destruct (operation (S c)) as [v | x]; cbv zeta.
    - eexists; reflexivity.
    - destruct (negb (retryable (as_Error x))); eexists; reflexivity. }
  assert (Hone : forall c, (S c - c = 1)%nat) by (intros; lia).
  induction left as [| left IH]; intros a c errs.
  - cbn [pRetry_loop]. destruct (Hin a c) as [r Hr]. rewrite Hr.
    destruct r as [v | [e | e]].
    + rewrite Hone. cbn. repeat split; lia.
    + rewrite Hone. cbn. repeat split; lia.
    + change (Z.of_nat 0) with 0%Z. rewrite reported_last, Hone. cbn.
      repeat split; lia.
  - cbn [pRetry_loop]. destruct (Hin a c) as [r Hr]. rewrite Hr.
    destruct r as [v | [e | e]].
    + rewrite Hone. cbn. repeat split; lia.
    + rewrite Hone. cbn. repeat split; lia.
    + set (f := {| failure := e; attemptNumber := a;
                   retriesLeft := Z.of_nat (S left) |}).
      destruct (Hrep f) as [Hi Ho].
      specialize (IH (a + 1)%Z (S c) (errs ++ [e])).
      assert (Hgo :
        let '(res, evs', calls'', fired) :=
          pRetry_loop attempt_fn p_options fires left (a + 1) (S c) (errs ++ [e]) in
        (c < calls'' <= c + S (S left))%nat /\
        invocations ([Invoked (S c)] ++ onFailedAttempt p_options f ++ [Waited a] ++ evs')
          = seq (S c) (calls'' - c) /\
        (length (observed ([Invoked (S c)] ++ onFailedAttempt p_options f
                             ++ [Waited a] ++ evs')) <=
           calls'' - S c + (if fired then 1 else 0))%nat /\
        (length (observed ([Invoked (S c)] ++ onFailedAttempt p_options f
                             ++ [Waited a] ++ evs')) <= S left)%nat).
      { destruct (pRetry_loop attempt_fn p_options fires left (a + 1) (S c) (errs ++ [e]))
          as [[[res evs'] calls''] fired].
        destruct IH as (Hc & Hs & Hl & Hl').
        rewrite !invocations_app, !observed_app, Hi, !length_app.
        cbn [invocations observed flat_map app length].
        rewrite Hs. split; [lia | split; [| split]].
        - replace (calls'' - c)%nat with (S (calls'' - S c)) by lia. reflexivity.
        - lia.
        - lia. }
      destruct (psignal p_options) as [s |].
      * destruct (fires a).
        -- rewrite Hone, !invocations_app, !observed_app, Hi, !length_app.
           cbn [invocations observed flat_map app seq length].
           split; [lia | split; [reflexivity | split; lia]].
        -- destruct (pRetry_loop attempt_fn p_options fires left (a + 1) (S c) (errs ++ [e]))
             as [[[res evs'] calls''] fired]. exact Hgo.
      * destruct (pRetry_loop attempt_fn p_options fires left (a + 1) (S c) (errs ++ [e]))
          as [[[res evs'] calls''] fired]. exact Hgo.
Qed.

Lemma invocations_rounds (x : nat -> Thrown) (k : nat) :
  forall c, invocations (rounds x c k) = seq (S c) k.
Proof.
  induction k as [| k IH]; intros c; [reflexivity |].
  unfold rounds. cbn [seq flat_map]. rewrite invocations_app.
  fold (rounds x (S c) k). rewrite IH.
  unfold round. destruct (onRetry options); reflexivity.
Qed.

(** X1.  Whatever the operation does and whenever the signal fires,
    [withRetry] invokes the operation at most [maxAttempts] times and calls
    [onRetry] at most [maxAttempts - 1] times and never more often than the
    operation; the invocations are numbered 1, 2, ... without gap.  With
    [maxAttempts < 1] or a signal that is already aborted nothing happens at
    all; otherwise the operation is invoked at least once. *)
Theorem withRetry_invocations_bounded :
  let '(res, evs, calls) := withRetry operation fires options in
  invocations evs = seq 1 calls /\
  (length (observed evs) <= calls)%nat /\
  (if (n <? 1)%Z || is_aborted (signal options)
   then calls = 0%nat /\ evs = []
   else (1 <= calls)%nat /\ (Z.of_nat calls <= n)%Z /\
        (Z.of_nat (length (observed evs)) <= n - 1)%Z).
Proof.
  destruct (Z.ltb_spec n 1) as [Hlt | Hge].
  - unfold withRetry. fold n.
    destruct (Z.ltb_spec n 1) as [_ | Hge]; [| lia].
    cbn. repeat split; lia.
  - destruct (is_aborted (signal options)) eqn:Hs.
    + unfold withRetry. fold n.
      destruct (Z.ltb_spec n 1) as [Hlt | _]; [lia |].
      rewrite Hs. cbn. repeat split; lia.
    + rewrite (withRetry_started Hge Hs).
      pose proof (loop_invocations (Z.to_nat (n - 1)) 1 0 []) as H.
      destruct (pRetry_loop attempt_fn p_options fires (Z.to_nat (n - 1)) 1 0 [])
        as [[[res evs] calls] fired].
      destruct H as (Hc & Hi & Hl & Hl').
      rewrite Nat.sub_0_r in Hi.
      assert (Hall : invocations evs = seq 1 calls /\
                     (length (observed evs) <= calls)%nat /\
                     (1 <= calls)%nat /\ (Z.of_nat calls <= n)%Z /\
                     (Z.of_nat (length (observed evs)) <= n - 1)%Z).
      { split; [exact Hi |]. split; [destruct fired; lia |]. lia. }
      cbn [orb].
      destruct res as [v | e]; [exact Hall |].
      destruct (String.eqb (name e) "AbortError" && fired); exact Hall.
Qed.


(** Retryable failures, then one that is not: the loop. *)
Lemma fail_fast_loop (x : nat -> Thrown) (k : nat) :
  (Z.of_nat (S k) <= n)%Z ->
  (forall j, (1 <= j < S k)%nat ->
     operation j = Rejects (x j) /\ retryable (as_Error (x j)) = true /\
     fires (Z.of_nat j) = false) ->
  operation (S k) = Rejects (x (S k)) ->
  retryable (as_Error (x (S k))) = false ->
  pRetry_loop attempt_fn p_options fires (Z.to_nat (n - 1)) 1 0 [] =
  (Rejected (new_Error (message (as_Error (x (S k))))),
   rounds x 0 k ++ [Invoked (S k)], S k, false).
Proof.
  intros Hn Hfail Hop Hnot.
  replace (Z.to_nat (n - 1)) with (k + (Z.to_nat (n - 1) - k))%nat by lia.
  change 1%Z with (Z.of_nat 1).
  rewrite (loop_rounds x k) by (intros j Hj; apply Hfail; lia).
  cbn [Nat.add].
  rewrite (loop_stopped _ _ _ _ _ _ _ _ _ _ (attempt_not_retryable _ k _ Hop Hnot)).
  reflexivity.
Qed.


(** Every attempt fails with a retryable error and no wait is cancelled:
    the loop. *)
Lemma exhausted_loop (x : nat -> Thrown) :
  (1 <= n)%Z ->
  (forall j, (1 <= j <= Z.to_nat n)%nat ->
     operation j = Rejects (x j) /\ retryable (as_Error (x j)) = true /\
     fires (Z.of_nat j) = false) ->
  pRetry_loop attempt_fn p_options fires (Z.to_nat (n - 1)) 1 0 [] =
  (Rejected (default (as_Error (x (Z.to_nat n))) (mainError (failures x 0 (Z.to_nat n)))),
   rounds x 0 (Z.to_nat n - 1) ++ [Invoked (Z.to_nat n)], Z.to_nat n, false).
Proof.
  intros Hn Hfail.
  replace (Z.to_nat (n - 1)) with (Z.to_nat n - 1)%nat by lia.
  destruct (Z.to_nat n) as [| k] eqn:Hk; [lia |].
  replace (S k - 1)%nat with (k + 0)%nat by lia.
  change 1%Z with (Z.of_nat 1).
  rewrite (loop_rounds x k) by (intros j Hj; apply Hfail; lia).
  cbn [Nat.add app].
  destruct (Hfail (S k)) as (Hop & Hr & _); [lia |].
  rewrite (loop_exhausted _ _ _ _ _ _ _ _ _ (attempt_retryable _ k _ Hop Hr)).
  rewrite reported_last, app_nil_r, Nat.add_0_r.
  replace (failures x 0 k ++ [as_Error (x (S k))]) with (failures x 0 (S k))
    by (unfold failures; rewrite seq_S, map_app; reflexivity).
  reflexivity.
Qed.

(** X4.  [withRetry] gives up after [maxAttempts] invocations: when every
    invocation fails with a retryable error and the signal does not fire
    while [withRetry] runs, the operation is invoked exactly [maxAttempts]
    times, [onRetry] is told of every failure but the last, and the promise
    is rejected with the error of one of the invocations: of the failures
    whose message had occurred most often when they happened, the last one.
    This is the error of the last invocation when no failure before it had
    its message more often, as when all messages are equal or all are
    different.  (The errors are not of the class [TypeError], which the
    package does not retry, and their messages are taken not to be names of
    properties every object inherits, such as "constructor": the package
    counts the messages in an object.) *)
Theorem withRetry_exhausted (x : nat -> Thrown) :
  (1 <= n)%Z ->
  is_aborted (signal options) = false ->
  (forall j, (1 <= j <= Z.to_nat n)%nat ->
     operation j = Rejects (x j) /\ retryable (as_Error (x j)) = true /\
     fires (Z.of_nat j) = false) ->
  (forall j, (1 <= j <= Z.to_nat n)%nat -> inherited (message (as_Error (x j))) = false) ->
  exists i,
    (1 <= i <= Z.to_nat n)%nat /\
    withRetry operation fires options =
      (Rejected (as_Error (x i)),
       rounds x 0 (Z.to_nat n - 1) ++ [Invoked (Z.to_nat n)], Z.to_nat n) /\
    (forall j, (1 <= j <= Z.to_nat n)%nat -> (repeats x j <= repeats x i)%nat) /\
    (forall j, (i < j <= Z.to_nat n)%nat -> (repeats x j < repeats x i)%nat) /\
    ((forall j, (1 <= j <= Z.to_nat n)%nat -> (repeats x j <= repeats x (Z.to_nat n))%nat) ->
     i = Z.to_nat n).
Proof.
  intros Hn Hs Hfail _.
  rewrite (withRetry_started Hn Hs), (exhausted_loop x Hn Hfail).
  destruct (Z.to_nat n) as [| k] eqn:Hk; [lia |].
  assert (Hsplit : failures x 0 (S k) = failures x 0 k ++ [as_Error (x (S k))])
    by (unfold failures; rewrite seq_S, map_app; reflexivity).
  assert (Hlen : length (failures x 0 k) = k)
    by (unfold failures; rewrite length_map, length_seq; reflexivity).
  destruct (mainError_last_most_frequent (failures x 0 k) (as_Error (x (S k))))
    as (i & e & Hi & Hmain & Hall & Hlater).
  rewrite <- Hsplit in Hi, Hmain, Hall, Hlater. rewrite Hlen in Hall, Hlater.
  assert (Hik : (i <= k)%nat).
  { apply lookup_lt_Some in Hi. rewrite Hsplit, length_app, Hlen in Hi. cbn in Hi. lia. }
  assert (He : e = as_Error (x (S i))).
  { unfold failures in Hi. rewrite list_lookup_fmap, lookup_seq_lt in Hi by lia.
    cbn in Hi. injection Hi as <-. reflexivity. }
  assert (Hrc : forall j, (1 <= j <= S k)%nat ->
            running_count (failures x 0 (S k)) (j - 1) = repeats x j)
    by (intros j Hj; apply running_count_failures; exact Hj).
  assert (Hrci : running_count (failures x 0 (S k)) i = repeats x (S i)).
  { rewrite <- (Hrc (S i)) by lia. f_equal. lia. }
  exists (S i). split; [lia |]. split; [| split; [| split]].
  - rewrite Hmain, He. cbn [default]. rewrite andb_false_r. reflexivity.
  - intros j Hj. rewrite <- (Hrc j Hj), <- Hrci. apply Hall. lia.
  - intros j Hj. rewrite <- (Hrc j) by lia. rewrite <- Hrci. apply Hlater. lia.
  - intros Hlast. destruct (decide (i = k)) as [-> | Hne]; [reflexivity |].
    assert (Hlt : (repeats x (S k) < repeats x (S i))%nat).
    { rewrite <- (Hrc (S k)) by lia. rewrite <- Hrci.
      replace (S k - 1)%nat with k by lia. apply Hlater. lia. }
    specialize (Hlast (S i) ltac:(lia)). lia.
Qed.

(** X5.  Cancellation during a wait ends the run: when the first [k]
    invocations fail with retryable errors ([k < maxAttempts]) and the
    signal fires during the wait that follows the [k]-th, not before, the
    promise is rejected, the operation has been invoked exactly [k] times
    and is not invoked again, and every one of these failures, the [k]-th
    too, was reported to [onRetry] (when supplied) and followed by its
    wait.  The
    error of the rejection comes from the reason the signal was aborted
    with (the library's [AbortError] for a reason named AbortError, the
    reason itself otherwise) and is left open here. *)
Theorem withRetry_cancelled_during_wait (x : nat -> Thrown) (k : nat)
    (s : AbortSignal) :
  (1 <= k)%nat -> (Z.of_nat k < n)%Z ->
  signal options = Some s -> aborted s = false ->
  (forall j, (1 <= j <= k)%nat ->
     operation j = Rejects (x j) /\ retryable (as_Error (x j)) = true) ->
  (forall j, (1 <= j < k)%nat -> fires (Z.of_nat j) = false) ->
  fires (Z.of_nat k) = true ->
  exists e,
    withRetry operation fires options = (Rejected e, rounds x 0 k, k) /\
    invocations (rounds x 0 k) = seq 1 k /\
    last (rounds x 0 k) = Some (Waited (Z.of_nat k)).
Proof.
  intros Hk Hn Hsig Hs Hfail Hquiet Hfire.
  assert (Hna : is_aborted (signal options) = false) by (rewrite Hsig; exact Hs).
  destruct k as [| k]; [lia |].
  rewrite (withRetry_started ltac:(lia) Hna).
  replace (Z.to_nat (n - 1)) with (k + S (Z.to_nat (n - 1) - S k))%nat by lia.
  change 1%Z with (Z.of_nat 1).
  rewrite (loop_rounds x k)
    by (intros j Hj; destruct (Hfail j) as [? ?]; [lia |];
        repeat split; try assumption; apply Hquiet; lia).
  cbn [Nat.add].
  destruct (Hfail (S k)) as (Hop & Hr); [lia |].
  rewrite (loop_cancelled attempt_fn p_options fires _ _ _ _ _ _ s _
             (attempt_retryable _ k _ Hop Hr) Hsig Hfire).
  cbn [name String.eqb Ascii.eqb Bool.eqb andb].
  assert (Hev : forall left,
                rounds x 0 k ++
                  [Invoked (S k)] ++
                  onFailedAttempt p_options
                    {| failure := as_Error (x (S k)); attemptNumber := Z.of_nat (S k);
                       retriesLeft := Z.of_nat (S left) |} ++
                  [Waited (Z.of_nat (S k))] = rounds x 0 (S k)).
  { intros left. rewrite reported_more. unfold rounds. rewrite seq_S, flat_map_app.
    cbn [flat_map Nat.add]. rewrite app_nil_r. unfold round.
    destruct (onRetry options); reflexivity. }
  change (Z.of_nat (S (0 + k))) with (Z.of_nat (S k)). cbn [Nat.add].
  rewrite Hev. eexists. split; [reflexivity |]. split.
  - apply invocations_rounds.
  - unfold rounds. rewrite seq_S, flat_map_app. cbn [flat_map Nat.add].
    rewrite app_nil_r. unfold round. rewrite app_comm_cons, !app_assoc. apply last_snoc.
Qed.

End Run.

(** Runs of a connection that keeps dropping. *)
Definition glitch : Thrown := ThrownError (new_Error "GATT operation failed").

Definition glitches (_ : nat) : Thrown := glitch.

Definition always_glitching (_ : nat) : Outcome string := Rejects glitch.





Definition patient (sg : option AbortSignal) : RetryOptions :=
  {| maxAttempts := Some 5%Z; initialDelayMs := Some 100%Q;
     maxDelayMs := Some 1000%Q; backoffMultiplier := None;
     jitter := Some false; signal := sg; onRetry := true;
     isRetryable := None |}.

Definition user_left : AbortSignal :=
  {| aborted := false; reason_message := Some "user left" |}.



Lemma withRetry_exhausted_witness :
  exists i,
    (1 <= i <= 5)%nat /\
    withRetry always_glitching (fun _ => false) (patient None) =
      (Rejected (as_Error (glitches i)),
       rounds (patient None) glitches 0 (5 - 1) ++ [Invoked 5], 5%nat) /\
    (forall j, (1 <= j <= 5)%nat -> (repeats glitches j <= repeats glitches i)%nat) /\
    (forall j, (i < j <= 5)%nat -> (repeats glitches j < repeats glitches i)%nat) /\
    ((forall j, (1 <= j <= 5)%nat -> (repeats glitches j <= repeats glitches 5)%nat) ->
     i = 5%nat).
Proof.
  apply (withRetry_exhausted always_glitching (fun _ => false) (patient None) glitches).
  - cbn. lia.
  - reflexivity.
  - intros j Hj. repeat split; reflexivity.
  - intros j Hj. reflexivity.
Defined.

(** Two failures with one message, then a failure with another: the
    promise is rejected with the second failure, not with the last.  Three
    failures with three messages: it is rejected with the last. *)
Definition same_message_twice (j : nat) : Thrown :=
  if (j <? 3)%nat
  then ThrownError {| cls := ErrorC; name := "Error " ++ show_Z (Z.of_nat j);
                      message := "GATT A" |}
  else ThrownError (new_Error "GATT B").

Definition all_different (j : nat) : Thrown :=
  ThrownError (new_Error ("GATT failure " ++ show_Z (Z.of_nat j))).

Definition three_failures : RetryOptions :=
  {| maxAttempts := Some 3%Z; initialDelayMs := Some 100%Q;
     maxDelayMs := Some 1000%Q; backoffMultiplier := None;
     jitter := Some false; signal := None; onRetry := false;
     isRetryable := None |}.

Example most_frequent_error_wins :
  fst (fst (withRetry (fun j => Rejects (same_message_twice j) : Outcome nat)
              (fun _ => false) three_failures)) =
  Rejected {| cls := ErrorC; name := "Error 2"; message := "GATT A" |} /\
  fst (fst (withRetry (fun j => Rejects (all_different j) : Outcome nat)
              (fun _ => false) three_failures)) =
  Rejected (new_Error "GATT failure 3").
Proof. vm_compute. split; reflexivity. Qed.

Lemma withRetry_cancelled_during_wait_witness :
  exists e,
    withRetry always_glitching (fun a => (a =? 2)%Z) (patient (Some user_left)) =
      (Rejected e, rounds (patient (Some user_left)) glitches 0 2, 2%nat) /\
    invocations (rounds (patient (Some user_left)) glitches 0 2) = seq 1 2 /\
    last (rounds (patient (Some user_left)) glitches 0 2) = Some (Waited 2).
Proof.
  apply (withRetry_cancelled_during_wait always_glitching (fun a => (a =? 2)%Z)
           (patient (Some user_left)) glitches 2 user_left).
  - lia.
  - cbn. lia.
  - reflexivity.
  - reflexivity.
  - intros j Hj. split; reflexivity.
  - intros j Hj. assert (Hj' : j = 1%nat) by lia. subst j. reflexivity.
  - reflexivity.
Defined.

End RetryRuns.

(* ===================================================================== *)
(** * The bookkeeping of the operation queue *)
(* ===================================================================== *)

Module QueueBookkeeping.
Import Errors OperationQueue OperationQueueFacts.

(** The queue accepts nothing any more: its signal is aborted or it has been
    cleared. *)
Definition stopped (s : QueueState) : bool :=
  is_aborted (q_signal s) || cleared s.

(** ** What a step keeps *)

Lemma finally_maps_empty (k : string) (c : nat) (s : QueueState) :
  queues s = ∅ -> queueDepths s = ∅ ->
  queues (finally k c s) = ∅ /\ queueDepths (finally k c s) = ∅.
Proof.
  intros Hq Hd. unfold finally. rewrite Hq, Hd, !lookup_empty.
  cbn [default]. change (1 <=? 1)%Z with true. cbv iota.
  cbn [queues queueDepths]. rewrite delete_empty.
  rewrite bool_decide_eq_false_2 by discriminate. split; reflexivity.
Qed.

Lemma queues_update_entry c f s : queues (update_entry c f s) = queues s.
Proof. reflexivity. Qed.

Lemma queueDepths_update_entry c f s : queueDepths (update_entry c f s) = queueDepths s.
Proof. reflexivity. Qed.

Lemma q_signal_update_entry c f s : q_signal (update_entry c f s) = q_signal s.
Proof. reflexivity. Qed.

Lemma cleared_update_entry c f s : cleared (update_entry c f s) = cleared s.
Proof. reflexivity. Qed.

Lemma length_update_entry c f s :
  length (entries (update_entry c f s)) = length (entries s).
Proof.
  unfold update_entry. cbn [entries].
  destruct (entries s !! c); [apply length_insert | reflexivity].
Qed.

(** The signal of the queue is aborted by [Abort] only, and stays so. *)
Lemma q_signal_step (a : Action) (s : QueueState) :
  q_signal (step a s) = q_signal s \/
  exists reason sg, a = Abort reason /\ q_signal s = Some sg /\ aborted sg = false /\
    q_signal (step a s) = Some {| aborted := true; reason_message := reason |}.
Proof.
  destruct a as [k op | c | c outcome | reason |]; cbn [step].
  - left. unfold enqueue. destruct (is_aborted (q_signal s)); [reflexivity |].
    destruct (cleared s); reflexivity.
  - left. unfold advance. destruct (negb (ready c s)); [reflexivity |].
    destruct (entries s !! c); [| reflexivity].
    destruct (is_aborted (q_signal s)); [| destruct (cleared s)];
      rewrite ?q_signal_finally; reflexivity.
  - left. unfold settle. destruct (entries s !! c); [| reflexivity].
    destruct (phase _); rewrite ?q_signal_finally; reflexivity.
  - unfold abort. destruct (q_signal s) as [sg |] eqn:Hs; [| left; congruence].
    destruct (aborted sg) eqn:Ha; [left; congruence |].
    right. exists reason, sg. repeat split; congruence.
  - left. reflexivity.
Qed.

(** [cleared] is set by [Clear] only, and stays set. *)
Lemma cleared_step (a : Action) (s : QueueState) :
  cleared (step a s) = match a with Clear => true | _ => cleared s end.
Proof.
  destruct a as [k op | c | c outcome | reason |]; cbn [step].
  - unfold enqueue. destruct (is_aborted (q_signal s)); [reflexivity |].
    destruct (cleared s) eqn:Hc; cbn [snd cleared]; auto.
  - unfold advance. destruct (negb (ready c s)); [reflexivity |].
    destruct (entries s !! c); [| reflexivity].
    destruct (is_aborted (q_signal s)); [| destruct (cleared s) eqn:Hc];
      rewrite ?cleared_finally; cbn [cleared update_entry]; auto.
  - unfold settle. destruct (entries s !! c); [| reflexivity].
    destruct (phase _); rewrite ?cleared_finally; reflexivity.
  - unfold abort. destruct (q_signal s) as [sg |]; [| reflexivity].
    destruct (aborted sg); reflexivity.
  - reflexivity.
Qed.

Lemma stopped_step (a : Action) (s : QueueState) :
  stopped s = true -> stopped (step a s) = true.
Proof.
  unfold stopped. intros H. apply orb_true_iff in H. apply orb_true_iff.
  destruct H as [Hab | Hcl].
  - left. destruct (q_signal_step a s) as [-> | (reason & sg & _ & _ & _ & ->)];
      [exact Hab | reflexivity].
  - right. rewrite cleared_step. destruct a; auto.
Qed.

Lemma stopped_run (actions : list Action) :
  forall s, stopped s = true -> stopped (run actions s) = true.
Proof.
  induction actions as [| a rest IH]; intros s H; [exact H |].
  cbn. apply IH. apply stopped_step. exact H.
Qed.

(** A stopped queue gets no new entry. *)
Lemma length_entries_step (a : Action) (s : QueueState) :
  stopped s = true -> length (entries (step a s)) = length (entries s).
Proof.
  unfold stopped. intros H.
  destruct a as [k op | c | c outcome | reason |]; cbn [step].
  - unfold enqueue. destruct (is_aborted (q_signal s)); [reflexivity |].
    cbn [orb] in H. rewrite H. reflexivity.
  - unfold advance. destruct (negb (ready c s)); [reflexivity |].
    destruct (entries s !! c); [| reflexivity].
    destruct (is_aborted (q_signal s)); [| destruct (cleared s)];
      rewrite ?entries_finally, ?length_update_entry; try reflexivity.
    discriminate H.
  - unfold settle. destruct (entries s !! c); [| reflexivity].
    destruct (phase _); rewrite ?entries_finally, ?length_update_entry; reflexivity.
  - unfold abort. destruct (q_signal s) as [sg |]; [| reflexivity].
    destruct (aborted sg); [reflexivity |]. cbn [entries]. apply length_map.
  - reflexivity.
Qed.

(** While the queue is cleared both maps are empty. *)
Definition Emptied (s : QueueState) : Prop :=
  cleared s = true -> queues s = ∅ /\ queueDepths s = ∅.

Lemma Emptied_step (a : Action) (s : QueueState) : Emptied s -> Emptied (step a s).
Proof.
  intros HE Hcl. rewrite cleared_step in Hcl.
  destruct a as [k op | c | c outcome | reason |]; cbn [step];
    try (specialize (HE Hcl); destruct HE as [Hq Hd]).
  - unfold enqueue. destruct (is_aborted (q_signal s)); [split; assumption |].
    rewrite Hcl. split; assumption.
  - unfold advance. destruct (negb (ready c s)); [split; assumption |].
    destruct (entries s !! c); [| split; assumption].
    destruct (is_aborted (q_signal s)); [| rewrite Hcl];
      apply finally_maps_empty; assumption.
  - unfold settle. destruct (entries s !! c); [| split; assumption].
    destruct (phase _); try (split; assumption).
    apply finally_maps_empty; assumption.
  - unfold abort. destruct (q_signal s) as [sg |]; [| split; assumption].
    destruct (aborted sg); split; assumption.
  - split; reflexivity.
Qed.

Lemma Emptied_reachable (options : OperationQueueOptions) (s : QueueState) :
  reachable options s -> Emptied s.
Proof.
  intros [actions ->].
  assert (H : forall s0, Emptied s0 -> Emptied (run actions s0)).
  { induction actions as [| a rest IH]; intros s0 H0; [exact H0 |].
    cbn. apply IH. apply Emptied_step. exact H0. }
  apply H. intros Hc. discriminate Hc.
Qed.

(** A settled result is left alone by every step. *)
Lemma step_keeps_result (a : Action) (s : QueueState) (c : nat) (e : Entry) :
  entries s !! c = Some e -> result e <> Pending ->
  exists e', entries (step a s) !! c = Some e' /\
             result e' = result e /\ key e' = key e /\ operation e' = operation e.
Proof.
  intros Hc Hset.
  assert (Hsame : exists e', entries s !! c = Some e' /\
                    result e' = result e /\ key e' = key e /\ operation e' = operation e)
    by (exists e; auto).
  assert (Hkeep : forall h, settle_handle (result e) h = result e).
  { intros h. destruct (result e); [contradiction Hset; reflexivity | |]; reflexivity. }
  assert (Hupd : forall c0 e0 e1,
            entries s !! c0 = Some e0 -> key e1 = key e0 -> operation e1 = operation e0 ->
            (exists h, result e1 = settle_handle (result e0) h) ->
            exists e', <[c0 := e1]> (entries s) !! c = Some e' /\
              result e' = result e /\ key e' = key e /\ operation e' = operation e).
  { intros c0 e0 e1 Hc0 Hk Ho [h Hr]. destruct (decide (c0 = c)) as [-> | Hne].
    - rewrite Hc in Hc0. injection Hc0 as <-. exists e1.
      split; [apply list_lookup_insert_eq; eapply lookup_lt_Some; exact Hc |].
      rewrite Hr, Hkeep. auto.
    - exists e. rewrite list_lookup_insert_ne by exact Hne. auto. }
  destruct a as [k op | c0 | c0 outcome | reason |]; cbn [step].
  - unfold enqueue. destruct (is_aborted (q_signal s)); [exact Hsame |].
    destruct (cleared s); [exact Hsame |]. cbn [snd entries].
    exists e. split; [| auto].
    rewrite lookup_app_l by (eapply lookup_lt_Some; exact Hc). exact Hc.
  - unfold advance. destruct (negb (ready c0 s)); [exact Hsame |].
    destruct (entries s !! c0) as [e0 |] eqn:Hc0; [| exact Hsame].
    destruct (is_aborted (q_signal s)); [| destruct (cleared s)].
    + rewrite entries_finally, (entries_update_entry c0 _ s e0 Hc0).
      apply (Hupd c0 e0); [exact Hc0 | reflexivity | reflexivity |].
      eexists; reflexivity.
    + rewrite entries_finally, (entries_update_entry c0 _ s e0 Hc0).
      apply (Hupd c0 e0); [exact Hc0 | reflexivity | reflexivity |].
      eexists; reflexivity.
    + cbn [entries]. rewrite (entries_update_entry c0 _ s e0 Hc0).
      apply (Hupd c0 e0); [exact Hc0 | reflexivity | reflexivity |].
      exists (result e0). cbn [result set_phase]. destruct (result e0); reflexivity.
  - unfold settle. destruct (entries s !! c0) as [e0 |] eqn:Hc0; [| exact Hsame].
    destruct (phase e0) eqn:Hph; try exact Hsame.
    rewrite entries_finally, (entries_update_entry c0 _ s e0 Hc0).
    apply (Hupd c0 e0); [exact Hc0 | reflexivity | reflexivity |].
    eexists; reflexivity.
  - unfold abort. destruct (q_signal s) as [sg |]; [| exact Hsame].
    destruct (aborted sg); [exact Hsame |]. cbn [entries].
    eexists. split; [apply lookup_map_of; exact Hc |].
    cbn [result set_result key operation]. rewrite Hkeep. auto.
  - exact Hsame.
Qed.

Lemma run_keeps_result (actions : list Action) :
  forall (s : QueueState) (c : nat) (e : Entry),
    entries s !! c = Some e -> result e <> Pending ->
    exists e', entries (run actions s) !! c = Some e' /\
               result e' = result e /\ key e' = key e /\ operation e' = operation e.
Proof.
  induction actions as [| a rest IH]; intros s c e Hc Hset.
  - exists e. auto.
  - destruct (step_keeps_result a s c e Hc Hset) as (e1 & Hc1 & Hr1 & Hk1 & Ho1).
    destruct (IH (step a s) c e1 Hc1 ltac:(congruence)) as (e' & Hc' & Hr' & Hk' & Ho').
    exists e'. cbn. split; [exact Hc' |]. repeat split; congruence.
Qed.

Lemma run_stopped_idle (actions : list Action) :
  forall s, stopped s = true ->
    invoked (run actions s) = invoked s /\
    length (entries (run actions s)) = length (entries s).
Proof.
  induction actions as [| a rest IH]; intros s H; [split; reflexivity |].
  change (run (a :: rest) s) with (run rest (step a s)).
  destruct (IH (step a s) (stopped_step a s H)) as [Hi Hl].
  rewrite Hi, Hl. split; [| apply length_entries_step; exact H].
  destruct (step_invoked a s) as [Hsame | (c & e & _ & _ & _ & _ & Hab & Hcl & _)];
    [exact Hsame |].
  unfold stopped in H. rewrite Hab, Hcl in H. discriminate H.
Qed.

(** ** The properties *)

(** X7.  In every state the queue can reach, [getQueueDepth] of a key is the
    number of operations of that key that were accepted and have not
    finished, until [clear()], and 0 from then on; and the map of chains
    holds a key exactly as long as that number is not zero, so a key whose
    operations have all finished leaves nothing behind. *)
Theorem getQueueDepth_counts_unfinished (options : OperationQueueOptions)
    (s : QueueState) (k : string) :
  reachable options s ->
  getQueueDepth k s =
    (if cleared s then 0 else Z.of_nat (backlog k (entries s)))%Z /\
  (queues s !! k = None <-> cleared s = true \/ backlog k (entries s) = 0%nat).
Proof.
  intros Hreach. unfold getQueueDepth.
  destruct (cleared s) eqn:Hcl.
  - destruct (Emptied_reachable options s Hreach Hcl) as [Hq Hd].
    rewrite Hq, Hd, !lookup_empty. split; [reflexivity |].
    split; auto.
  - destruct (Inv_reachable options s Hreach) as [_ HT].
    specialize (HT Hcl). split.
    + rewrite (depth s HT k). destruct (backlog k (entries s)); reflexivity.
    + split.
      * intros Hnone. right. apply backlog_all_finished.
        intros i e Hi Hk. exact (no_tail s HT k Hnone i e Hi Hk).
      * intros [Hc | Hz]; [discriminate Hc |].
        destruct (queues s !! k) as [t |] eqn:Ht; [| reflexivity].
        destruct (tail s HT k t Ht) as (et & Het & Hk & Hlive & _).
        pose proof (backlog_zero k (entries s) Hz t et Het) as Hdead.
        assert (Halive : live k et = true) by (apply live_true; auto).
        rewrite Halive in Hdead. discriminate Hdead.
Qed.

(** Two operations queued on one key, the first of them running. *)
Definition two_queued : QueueState :=
  run [Enqueue "X" 1; Enqueue "X" 2; Advance 0] (createOperationQueue no_options).

Lemma getQueueDepth_counts_unfinished_witness :
  getQueueDepth "X" two_queued =
    (if cleared two_queued then 0 else Z.of_nat (backlog "X" (entries two_queued)))%Z /\
  (queues two_queued !! "X" = None <->
   cleared two_queued = true \/ backlog "X" (entries two_queued) = 0%nat).
Proof.
  apply (getQueueDepth_counts_unfinished no_options two_queued "X").
  exists [Enqueue "X" 1; Enqueue "X" 2; Advance 0]. reflexivity.
Defined.

(** X8.  Once the signal is aborted or the queue cleared, whatever happens
    next, no operation is called any more (not even one that was accepted
    and is still waiting), no entry is added, and every [enqueue] is
    answered with an [AbortError] and leaves the queue as it is. *)
Theorem stopped_queue_stays_idle (s : QueueState) (actions : list Action) :
  stopped s = true ->
  let s' := run actions s in
  invoked s' = invoked s /\
  length (entries s') = length (entries s) /\
  forall k op, exists e, enqueue k op s' = (inl e, s') /\ cls e = AbortErrorC.
Proof.
  intros H s'. destruct (run_stopped_idle actions s H) as [Hi Hl].
  split; [exact Hi |]. split; [exact Hl |].
  intros k op. apply enqueue_rejected.
  pose proof (stopped_run actions s H) as H'. unfold stopped in H'.
  apply orb_true_iff in H'. exact H'.
Qed.

Lemma stopped_queue_stays_idle_witness :
  let s' := run [Advance 1; Settle 0 (inl 7%nat); Advance 1; Enqueue "X" 3]
                (clear two_queued) in
  invoked s' = invoked (clear two_queued) /\
  length (entries s') = length (entries (clear two_queued)) /\
  forall k op, exists e, enqueue k op s' = (inl e, s') /\ cls e = AbortErrorC.
Proof.
  apply (stopped_queue_stays_idle (clear two_queued)
           [Advance 1; Settle 0 (inl 7%nat); Advance 1; Enqueue "X" 3]).
  reflexivity.
Defined.

(** X9.  A result promise is settled once: when the result of an entry is
    fulfilled or rejected, no later step of the queue (the operation
    settling late, the signal firing, [clear()]) changes it. *)
Theorem result_settles_once (s : QueueState) (actions : list Action)
    (c : nat) (e : Entry) :
  entries s !! c = Some e -> result e <> Pending ->
  exists e', entries (run actions s) !! c = Some e' /\ result e' = result e.
Proof.
  intros Hc Hset.
  destruct (run_keeps_result actions s c e Hc Hset) as (e' & Hc' & Hr' & _).
  exists e'. split; assumption.
Qed.

(** The signal fired while the first operation was running. *)
Definition aborted_while_running : QueueState :=
  run [Enqueue "X" 1; Enqueue "X" 2; Advance 0; Abort (Some "gone")]
      (createOperationQueue
         {| maxConcurrent := None; signal := Some (mkSignal false None) |}).

Lemma result_settles_once_witness :
  exists e',
    entries (run [Settle 0 (inl 7%nat); Advance 1; Clear] aborted_while_running) !! 0%nat
      = Some e' /\
    result e' = result (mkEntry "X" 1 None Running (Failed (new_AbortError "gone"))).
Proof.
  apply (result_settles_once aborted_while_running
           [Settle 0 (inl 7%nat); Advance 1; Clear] 0
           (mkEntry "X" 1 None Running (Failed (new_AbortError "gone")))).
  - reflexivity.
  - discriminate.
Defined.

(** X10.  When the signal of the queue fires, the result of every operation
    that is still pending, running or waiting, is rejected with an
    [AbortError] that carries the reason's message, and the results that had
    settled stay; from then on, whatever happens, these results stay as they
    are, no operation is called and no entry is added. *)
Theorem abort_settles_every_result (s : QueueState) (sg : AbortSignal)
    (reason : option string) (actions : list Action) :
  q_signal s = Some sg -> aborted sg = false ->
  let s' := run actions (abort reason s) in
  invoked s' = invoked s /\
  length (entries s') = length (entries s) /\
  forall c e, entries s !! c = Some e ->
    exists e', entries s' !! c = Some e' /\
      result e' =
        settle_handle (result e)
          (Failed (new_AbortError (default "Operation aborted" reason))) /\
      result e' <> Pending.
Proof.
  intros Hs Ha s'.
  assert (Hab : abort reason s =
    {| q_signal := Some {| aborted := true; reason_message := reason |};
       queues := queues s; queueDepths := queueDepths s; cleared := cleared s;
       entries :=
         map (fun e =>
                set_result
                  (settle_handle (result e)
                     (Failed (new_AbortError (default "Operation aborted" reason))))
                  e)
             (entries s);
       invoked := invoked s |}).
  { unfold abort. rewrite Hs, Ha. reflexivity. }
  assert (Hstop : stopped (abort reason s) = true) by (rewrite Hab; reflexivity).
  destruct (run_stopped_idle actions _ Hstop) as [Hi Hl].
  split; [unfold s'; rewrite Hi, Hab; reflexivity |].
  split; [unfold s'; rewrite Hl, Hab; cbn [entries]; apply length_map |].
  intros c e Hc.
  set (e1 := set_result
               (settle_handle (result e)
                  (Failed (new_AbortError (default "Operation aborted" reason)))) e).
  assert (Hc1 : entries (abort reason s) !! c = Some e1).
  { rewrite Hab. cbn [entries].
    exact (lookup_map_of _ (entries s) c e Hc). }
  assert (Hset : result e1 <> Pending).
  { unfold e1. cbn [result set_result]. destruct (result e); discriminate. }
  destruct (run_keeps_result actions _ c e1 Hc1 Hset) as (e' & Hc' & Hr' & _).
  exists e'. split; [exact Hc' |]. split; [exact Hr' |]. rewrite Hr'. exact Hset.
Qed.

(** A queue with a live signal and two operations on one key, the first
    running. *)
Definition two_queued_with_signal : QueueState :=
  run [Enqueue "X" 1; Enqueue "X" 2; Advance 0]
      (createOperationQueue
         {| maxConcurrent := None; signal := Some (mkSignal false None) |}).

Lemma abort_settles_every_result_witness :
  let s' := run [Settle 0 (inl 7%nat); Advance 1]
                (abort (Some "gone") two_queued_with_signal) in
  invoked s' = invoked two_queued_with_signal /\
  length (entries s') = length (entries two_queued_with_signal) /\
  forall c e, entries two_queued_with_signal !! c = Some e ->
    exists e', entries s' !! c = Some e' /\
      result e' =
        settle_handle (result e)
          (Failed (new_AbortError (default "Operation aborted" (Some "gone")))) /\
      result e' <> Pending.
Proof.
  apply (abort_settles_every_result two_queued_with_signal (mkSignal false None)
           (Some "gone") [Settle 0 (inl 7%nat); Advance 1]); reflexivity.
Defined.

End QueueBookkeeping.

(* ===================================================================== *)
(** * What the connection pool keeps, whatever its configuration *)
(* ===================================================================== *)

Module PoolInvariants.
Import Errors Pool PoolFacts.

(** ** The suspended functions *)

Lemma kept_insert (s : PoolState) (t0 : nat) (task0 task : Task) :
  fresh_tasks s -> tasks s !! t0 = Some task0 ->
  <[nextTask s := task]> (tasks s) !! t0 = Some task0.
Proof.
  intros Hfresh H0. pose proof (fresh_tasks_lt s t0 task0 Hfresh H0).
  rewrite lookup_insert_ne by lia. exact H0.
Qed.

Lemma kept_delete (m : gmap nat Task) (t t0 : nat) (task task0 : Task) :
  m !! t0 = Some task0 -> m !! t = Some task -> task <> task0 ->
  delete t m !! t0 = Some task0.
Proof.
  intros H0 Ht Hne. rewrite lookup_delete_ne; [exact H0 |].
  intros ->. rewrite H0 in Ht. injection Ht as ->. contradiction Hne. reflexivity.
Qed.

(** What [run_cleanup] and [register_disconnect_handler] leave alone. *)
Lemma run_cleanup_fields (d : string) (s : PoolState) :
  sessions (run_cleanup d s) = sessions s /\
  adapters (run_cleanup d s) = adapters s /\
  disconnectCleanups (run_cleanup d s) = delete d (disconnectCleanups s) /\
  reconnectingDevices (run_cleanup d s) = reconnectingDevices s /\
  pendingConnections (run_cleanup d s) = pendingConnections s /\
  emitted (run_cleanup d s) = emitted s /\
  tasks (run_cleanup d s) = tasks s /\
  nextTask (run_cleanup d s) = nextTask s.
Proof.
  unfold run_cleanup. destruct (disconnectCleanups s !! d) eqn:Hc; cbn; repeat split.
  symmetry. apply delete_id. exact Hc.
Qed.

Lemma register_fields (d : string) (session : BLEConnectedSession) (s : PoolState) :
  sessions (register_disconnect_handler d session s) = sessions s /\
  adapters (register_disconnect_handler d session s) = adapters s /\
  reconnectingDevices (register_disconnect_handler d session s) = reconnectingDevices s /\
  pendingConnections (register_disconnect_handler d session s) = pendingConnections s /\
  emitted (register_disconnect_handler d session s) = emitted s /\
  calls (register_disconnect_handler d session s) = calls s /\
  tasks (register_disconnect_handler d session s) = tasks s /\
  nextTask (register_disconnect_handler d session s) = nextTask s /\
  (forall k c, disconnectCleanups (register_disconnect_handler d session s) !! k = Some c ->
     k = d \/ disconnectCleanups s !! k = Some c).
Proof.
  unfold register_disconnect_handler. destruct (has_onDisconnect session); cbn;
    repeat split; auto.
  intros k c H. destruct (decide (d = k)) as [-> | Hne]; [left; reflexivity |].
  rewrite lookup_insert_ne in H by exact Hne. right. exact H.
Qed.

(** How a step changes the suspended functions and the pending counter:
    not at all; or one function is suspended; or one is resumed and ends;
    or a reconnect is resumed and suspended again for the teardown of the
    session it discards. *)
Inductive TaskChange (s s' : PoolState) : Prop :=
| NoChange :
    tasks s' = tasks s -> nextTask s' = nextTask s ->
    pendingConnections s' = pendingConnections s -> TaskChange s s'
| HasSuspended (task : Task) :
    tasks s' = <[nextTask s := task]> (tasks s) ->
    pendingConnections s' =
      (pendingConnections s + match task with ConnectAwait _ => 1 | _ => 0 end)%Z ->
    TaskChange s s'
| HasEnded (t : nat) (task : Task) :
    tasks s !! t = Some task ->
    tasks s' = delete t (tasks s) ->
    pendingConnections s' =
      (pendingConnections s - match task with ConnectAwait _ => 1 | _ => 0 end)%Z ->
    TaskChange s s'
| HasDiscarded (t : nat) (d : string) (adapter : BLEAdapter) :
    tasks s !! t = Some (ReconnectAwait d adapter) ->
    tasks s' = <[nextTask s := ReconnectTeardownAwait d]> (delete t (tasks s)) ->
    pendingConnections s' = pendingConnections s ->
    TaskChange s s'.

Lemma step_TaskChange (cfg : Config) (a : Action) (s : PoolState) :
  TaskChange s (snd (step cfg a s)).
Proof.
  destruct a as [ad | d | d | t o | t o]; cbn [step].
  - unfold connect.
    destruct (maxConnections cfg <=? Z.of_nat (size (sessions s)) + pendingConnections s)%Z.
    + apply NoChange; reflexivity.
    + apply (HasSuspended _ _ (ConnectAwait ad)); reflexivity.
  - unfold disconnect. cbn [sessions set_reconnectingDevices].
    destruct (sessions s !! d) as [session |].
    + rewrite snd_let_suspend.
      match goal with |- context [run_cleanup d ?s0] =>
        destruct (run_cleanup_fields d s0) as (_ & _ & _ & _ & Hp & _ & Ht & Hn) end.
      apply (HasSuspended _ _ (DisconnectAwait d session));
        cbn [snd suspend tasks pendingConnections call nextTask];
        rewrite ?Ht, ?Hn, ?Hp; cbn; try reflexivity. lia.
    + apply NoChange; reflexivity.
  - cbn [snd]. unfold handleDisconnect.
    destruct (sessions s !! d) as [session |]; [| apply NoChange; reflexivity].
    match goal with |- context [run_cleanup d ?s0] =>
      destruct (run_cleanup_fields d s0) as (_ & Ha & _ & _ & Hp & _ & Ht & Hn) end.
    destruct (autoReconnect cfg).
    + cbn [adapters emit]. rewrite Ha. cbn [adapters set_sessions].
      destruct (adapters s !! d) as [ad |];
        [| apply NoChange; cbn; rewrite ?Ht, ?Hn, ?Hp; reflexivity].
      destruct (has_reconnect ad) eqn:Hre;
        [| apply NoChange; cbn; rewrite ?Ht, ?Hn, ?Hp; reflexivity].
      unfold reconnectDevice. rewrite Hre. cbn [negb].
      apply (HasSuspended _ _ (ReconnectAwait d ad)); cbn; rewrite ?Ht, ?Hn, ?Hp;
        cbn; try reflexivity. lia.
    + apply NoChange; cbn; rewrite ?Ht, ?Hn, ?Hp; reflexivity.
  - destruct (tasks s !! t) as [[ad | d ad | d | d se] |] eqn:Ht;
      try (apply NoChange; reflexivity).
    + unfold connect_settles. destruct o as [session | e]; cbn [snd].
      * match goal with |- context [register_disconnect_handler ?d ?se ?s0] =>
          destruct (register_fields d se s0) as (_ & _ & _ & Hp & _ & _ & Hts & _) end.
        apply (HasEnded _ _ t (ConnectAwait ad) Ht); cbn; rewrite ?Hts, ?Hp; reflexivity.
      * apply (HasEnded _ _ t (ConnectAwait ad) Ht); reflexivity.
    + unfold reconnect_settles. destruct o as [session | e].
      * cbn [reconnectingDevices resume].
        destruct (negb (bool_decide (d ∈ reconnectingDevices s))).
        -- rewrite snd_let_suspend.
           apply (HasDiscarded _ _ t d ad Ht); reflexivity.
        -- cbn [snd].
           match goal with |- context [register_disconnect_handler ?d ?se ?s0] =>
             destruct (register_fields d se s0) as (_ & _ & _ & Hp & _ & _ & Hts & _) end.
           apply (HasEnded _ _ t (ReconnectAwait d ad) Ht); cbn; rewrite ?Hts, ?Hp;
             cbn; try reflexivity. lia.
      * cbn [snd]. apply (HasEnded _ _ t (ReconnectAwait d ad) Ht); cbn;
          try reflexivity. lia.
  - destruct (tasks s !! t) as [[ad | d ad | d | d se] |] eqn:Ht;
      try (apply NoChange; reflexivity).
    + unfold reconnect_teardown_settles. cbn [snd].
      apply (HasEnded _ _ t (ReconnectTeardownAwait d) Ht); cbn; try reflexivity. lia.
    + unfold disconnect_settles. destruct o; cbn [snd];
        apply (HasEnded _ _ t (DisconnectAwait d se) Ht); cbn; try reflexivity; lia.
Qed.

(** ** The reconnecting markers *)

(** Every marked key has a reconnect in flight. *)
Definition Marked (s : PoolState) : Prop :=
  forall k, k ∈ reconnectingDevices s ->
    exists t adapter, tasks s !! t = Some (ReconnectAwait k adapter).

Lemma Marked_step (cfg : Config) (a : Action) (s : PoolState) :
  fresh_tasks s -> Marked s -> Marked (snd (step cfg a s)).
Proof.
  intros Hfresh HM.
  assert (Hins : forall k task, k ∈ reconnectingDevices s ->
            exists t adapter,
              <[nextTask s := task]> (tasks s) !! t = Some (ReconnectAwait k adapter)).
  { intros k task Hk. destruct (HM k Hk) as (t0 & ad0 & H0).
    exists t0, ad0. apply kept_insert; assumption. }
  assert (Hdel : forall k t task, k ∈ reconnectingDevices s ->
            tasks s !! t = Some task ->
            (forall adapter, task <> ReconnectAwait k adapter) ->
            exists t0 adapter,
              delete t (tasks s) !! t0 = Some (ReconnectAwait k adapter)).
  { intros k t task Hk Ht Hne. destruct (HM k Hk) as (t0 & ad0 & H0).
    exists t0, ad0. apply (kept_delete _ t t0 task); auto. }
  destruct a as [ad | d | d | t o | t o]; cbn [step].
  - unfold connect.
    destruct (maxConnections cfg <=? Z.of_nat (size (sessions s)) + pendingConnections s)%Z;
      [exact HM |].
    intros k Hk. cbn in Hk |- *. apply Hins. exact Hk.
  - unfold disconnect. cbn [sessions set_reconnectingDevices].
    destruct (sessions s !! d) as [session |].
    + rewrite snd_let_suspend.
      match goal with |- context [run_cleanup d ?s0] =>
        destruct (run_cleanup_fields d s0) as (_ & _ & _ & Hr & _ & _ & Ht & Hn) end.
      intros k Hk. cbn in Hk |- *. rewrite Hr in Hk. rewrite Ht, Hn. cbn in Hk |- *.
      apply Hins. apply elem_of_difference in Hk. tauto.
    + intros k Hk. cbn in Hk |- *. apply elem_of_difference in Hk. apply HM. tauto.
  - cbn [snd]. unfold handleDisconnect.
    destruct (sessions s !! d) as [session |]; [| exact HM].
    match goal with |- context [run_cleanup d ?s0] =>
      destruct (run_cleanup_fields d s0) as (_ & Ha & _ & Hr & _ & _ & Ht & Hn) end.
    destruct (autoReconnect cfg).
    + cbn [adapters emit]. rewrite Ha. cbn [adapters set_sessions].
      destruct (adapters s !! d) as [ad |];
        [| intros k Hk; cbn in Hk |- *; rewrite Hr in Hk; rewrite Ht; apply HM; exact Hk].
      destruct (has_reconnect ad) eqn:Hre;
        [| intros k Hk; cbn in Hk |- *; rewrite Hr in Hk; rewrite Ht; apply HM; exact Hk].
      unfold reconnectDevice. rewrite Hre. cbn [negb].
      intros k Hk. cbn in Hk |- *. rewrite Hr in Hk. rewrite Ht, Hn. cbn in Hk |- *.
      apply elem_of_union in Hk. destruct Hk as [Hk | Hk].
      * apply elem_of_singleton in Hk. subst k.
        exists (nextTask s), ad. apply lookup_insert_eq.
      * apply Hins. exact Hk.
    + intros k Hk. cbn in Hk |- *. rewrite Hr in Hk. rewrite Ht. apply HM. exact Hk.
  - destruct (tasks s !! t) as [[ad | d ad | d | d se] |] eqn:Ht; try exact HM.
    + unfold connect_settles. destruct o as [session | e]; cbn [snd].
      * match goal with |- context [register_disconnect_handler ?d ?se ?s0] =>
          destruct (register_fields d se s0) as (_ & _ & Hr & _ & _ & _ & Hts & _) end.
        intros k Hk. cbn in Hk |- *. rewrite Hr in Hk. rewrite Hts. cbn in Hk |- *.
        apply (Hdel k t _ Hk Ht). discriminate.
      * intros k Hk. cbn in Hk |- *. apply (Hdel k t _ Hk Ht). discriminate.
    + unfold reconnect_settles. destruct o as [session | e].
      * cbn [reconnectingDevices resume].
        destruct (bool_decide (d ∈ reconnectingDevices s)) eqn:Hd; cbn [negb].
        -- cbn [snd].
           match goal with |- context [register_disconnect_handler ?d ?se ?s0] =>
             destruct (register_fields d se s0) as (_ & _ & Hr & _ & _ & _ & Hts & _) end.
           intros k Hk. cbn in Hk |- *. rewrite Hr in Hk. rewrite Hts. cbn in Hk |- *.
           apply elem_of_difference in Hk. destruct Hk as [Hk Hne].
           apply (Hdel k t _ Hk Ht). intros ad' Heq. injection Heq as -> _.
           apply Hne. apply elem_of_singleton. reflexivity.
        -- rewrite snd_let_suspend. apply bool_decide_eq_false_1 in Hd.
           intros k Hk. cbn in Hk |- *.
           destruct (Hdel k t _ Hk Ht) as (t0 & ad0 & H0).
           { intros ad' Heq. injection Heq as -> _. contradiction. }
           exists t0, ad0. rewrite lookup_insert_ne; [exact H0 |].
           apply lookup_delete_Some in H0. destruct H0 as [_ H0].
           pose proof (fresh_tasks_lt s t0 _ Hfresh H0). lia.
      * cbn [snd]. intros k Hk. cbn in Hk |- *.
        apply elem_of_difference in Hk. destruct Hk as [Hk Hne].
        apply (Hdel k t _ Hk Ht). intros ad' Heq. injection Heq as -> _.
        apply Hne. apply elem_of_singleton. reflexivity.
  - destruct (tasks s !! t) as [[ad | d ad | d | d se] |] eqn:Ht; try exact HM.
    + unfold reconnect_teardown_settles. cbn [snd].
      intros k Hk. cbn in Hk |- *. apply elem_of_difference in Hk.
      apply (Hdel k t _ (proj1 Hk) Ht). discriminate.
    + unfold disconnect_settles. destruct o; cbn [snd];
        intros k Hk; cbn in Hk |- *; apply (Hdel k t _ Hk Ht); discriminate.
Qed.

(** X12.  No reconnecting marker is left behind: in every state the pool
    can reach, a key is marked as reconnecting only while a reconnect of
    that key is in flight, so the marker of a key is gone when its last
    reconnect has ended, however it ended. *)
Theorem marked_only_while_reconnecting (cfg : Config) (s : PoolState) (k : string) :
  reachable cfg s ->
  k ∈ reconnectingDevices s ->
  exists t adapter, tasks s !! t = Some (ReconnectAwait k adapter).
Proof.
  intros [actions ->] Hk.
  assert (H : forall s0, fresh_tasks s0 -> Marked s0 -> Marked (run cfg actions s0)).
  { clear Hk. induction actions as [| a rest IH]; intros s0 Hf HM0; [exact HM0 |].
    cbn. apply IH; [apply fresh_tasks_step; exact Hf | apply Marked_step; assumption]. }
  assert (HM : Marked (run cfg actions createConnectionPool)).
  { apply H; [apply fresh_tasks_init |]. intros k0 Hk0. cbn in Hk0.
    apply elem_of_empty in Hk0. contradiction. }
  exact (HM k Hk).
Qed.

Lemma marked_only_while_reconnecting_witness :
  exists t adapter, tasks one_reconnecting !! t = Some (ReconnectAwait "d1" adapter).
Proof.
  apply (marked_only_while_reconnecting roomy one_reconnecting "d1").
  - exists [CallConnect a1; Settle 0 (inl d1_first); UnexpectedDisconnect "d1"].
    reflexivity.
  - vm_compute. reflexivity.
Defined.

(** ** The three maps, without auto-reconnect *)

(** Every entry is filed under the key its session reports, the pool holds
    an adapter exactly for the keys that have an entry, a cleanup only for
    such keys, and no reconnect is in flight. *)
Record Aligned (s : PoolState) : Prop := mkAligned {
  keyed : forall k session, sessions s !! k = Some session -> deviceId session = k;
  adapter_of_entry : forall k, is_Some (adapters s !! k) <-> is_Some (sessions s !! k);
  cleanup_of_entry : forall k c,
    disconnectCleanups s !! k = Some c -> is_Some (sessions s !! k);
  no_reconnects : forall t task, tasks s !! t = Some task ->
    match task with
    | ReconnectAwait _ _ | ReconnectTeardownAwait _ => False
    | _ => True
    end;
  no_marks : reconnectingDevices s = ∅
}.

Lemma Aligned_init : Aligned createConnectionPool.
Proof.
  constructor; cbn.
  - intros k se H. rewrite lookup_empty in H. discriminate H.
  - intros k. rewrite !lookup_empty. split; intros [x H]; discriminate H.
  - intros k c H. rewrite lookup_empty in H. discriminate H.
  - intros t task H. rewrite lookup_empty in H. discriminate H.
  - reflexivity.
Qed.

Lemma Aligned_tasks (s s' : PoolState) :
  TaskChange s s' ->
  (forall task, tasks s' !! nextTask s = Some task ->
     tasks s !! nextTask s = Some task \/
     match task with
     | ReconnectAwait _ _ | ReconnectTeardownAwait _ => False
     | _ => True
     end) ->
  Aligned s ->
  forall t task, tasks s' !! t = Some task ->
    match task with
    | ReconnectAwait _ _ | ReconnectTeardownAwait _ => False
    | _ => True
    end.
Proof.
  intros Hchange Hnew HA t task Ht.
  destruct Hchange as [Hts _ _ | task' Hts _ | t' task' Hin Hts _ | t' d ad Hin _ _].
  - rewrite Hts in Ht. exact (no_reconnects s HA t task Ht).
  - destruct (decide (nextTask s = t)) as [<- | Hne].
    + destruct (Hnew task Ht) as [Hold | Hok]; [| exact Hok].
      exact (no_reconnects s HA _ task Hold).
    + rewrite Hts, lookup_insert_ne in Ht by exact Hne.
      exact (no_reconnects s HA t task Ht).
  - rewrite Hts in Ht. apply lookup_delete_Some in Ht.
    exact (no_reconnects s HA t task (proj2 Ht)).
  - contradiction (no_reconnects s HA t' _ Hin).
Qed.

Section WithoutAutoReconnect.

Variable cfg : Config.
Hypothesis disabled : autoReconnect cfg = false.

Lemma Aligned_step (a : Action) (s : PoolState) :
  Aligned s -> Aligned (snd (step cfg a s)).
Proof.
  intros HA. pose proof HA as [Hkey Had Hcl Hnore Hmark].
  pose proof (step_TaskChange cfg a s) as Hchange.
  pose proof (Aligned_tasks s (snd (step cfg a s)) Hchange) as Htasks.
  destruct a as [ad | d | d | t o | t o]; cbn [step] in *.
  - unfold connect in *.
    destruct (maxConnections cfg <=? Z.of_nat (size (sessions s)) + pendingConnections s)%Z;
      [exact HA |].
    cbn [snd] in *. constructor; cbn; auto.
    apply Htasks; [| exact HA]. cbn. intros task H.
    rewrite lookup_insert_eq in H. injection H as <-. right. exact I.
  - unfold disconnect in *. cbn [sessions set_reconnectingDevices] in *.
    destruct (sessions s !! d) as [session |] eqn:Hs.
    + rewrite snd_let_suspend in *.
      match goal with |- context [run_cleanup d ?s0] =>
        destruct (run_cleanup_fields d s0) as (Hse & Ha & Hc & Hr & _ & _ & Ht & Hn) end.
      constructor; cbn [snd suspend sessions adapters disconnectCleanups
                          reconnectingDevices tasks call];
        rewrite ?Hse, ?Ha, ?Hc, ?Hr; cbn.
      * intros k se H. apply lookup_delete_Some in H. apply Hkey. tauto.
      * intros k. rewrite !lookup_delete_is_Some, Had. reflexivity.
      * intros k c H. apply lookup_delete_Some in H. destruct H as [Hne H].
        apply lookup_delete_is_Some. split; [exact Hne | exact (Hcl k c H)].
      * apply Htasks; [| exact HA].
        cbn [snd suspend tasks call nextTask]. rewrite Ht, Hn. cbn. intros task H.
        rewrite lookup_insert_eq in H. injection H as <-. right. exact I.
      * rewrite Hmark. apply empty_difference_L.
    + cbn [snd] in *. constructor; cbn; auto.
      rewrite Hmark. apply empty_difference_L.
  - cbn [snd] in *. unfold handleDisconnect in *. rewrite disabled in *.
    destruct (sessions s !! d) as [session |] eqn:Hs; [| exact HA].
    match goal with |- context [run_cleanup d ?s0] =>
      destruct (run_cleanup_fields d s0) as (Hse & Ha & Hc & Hr & _ & _ & Ht & Hn) end.
    constructor; cbn; rewrite ?Hse, ?Ha, ?Hc, ?Hr, ?Ht; cbn.
    + intros k se H. apply lookup_delete_Some in H. apply Hkey. tauto.
    + intros k. rewrite !lookup_delete_is_Some, Had. reflexivity.
    + intros k c H. apply lookup_delete_Some in H. destruct H as [Hne H].
      apply lookup_delete_is_Some. split; [exact Hne | exact (Hcl k c H)].
    + exact Hnore.
    + exact Hmark.
  - destruct (tasks s !! t) as [[ad | d ad | d | d se] |] eqn:Ht; try exact HA.
    + unfold connect_settles in *. destruct o as [session | e]; cbn [snd] in *.
      * match goal with |- context [register_disconnect_handler ?d ?se ?s0] =>
          destruct (register_fields d se s0)
            as (Hse & Ha & Hr & _ & _ & _ & Hts & _ & Hreg) end.
        constructor; cbn; rewrite ?Hse, ?Ha, ?Hr; cbn.
        -- intros k se H. destruct (decide (deviceId session = k)) as [<- | Hne].
           ++ rewrite lookup_insert_eq in H. injection H as <-. reflexivity.
           ++ rewrite lookup_insert_ne in H by exact Hne. exact (Hkey k se H).
        -- intros k. rewrite !lookup_insert_is_Some, Had. reflexivity.
        -- intros k c H. apply lookup_insert_is_Some.
           destruct (Hreg k c H) as [-> | Hold]; [left; reflexivity |].
           destruct (decide (deviceId session = k)); [left; assumption | right].
           split; [assumption | exact (Hcl k c Hold)].
        -- apply Htasks; [| exact HA]. intros task H. left.
           cbn in H. rewrite Hts in H. cbn in H.
           apply lookup_delete_Some in H. tauto.
        -- exact Hmark.
      * constructor; cbn; auto.
        intros t' task H. apply lookup_delete_Some in H. exact (Hnore t' task (proj2 H)).
    + contradiction (Hnore t _ Ht).
  - destruct (tasks s !! t) as [[ad | d ad | d | d se] |] eqn:Ht; try exact HA.
    + contradiction (Hnore t _ Ht).
    + unfold disconnect_settles. destruct o; cbn [snd]; constructor; cbn; auto;
        intros t' task H; apply lookup_delete_Some in H; exact (Hnore t' task (proj2 H)).
Qed.

Lemma Aligned_run (actions : list Action) :
  forall s, Aligned s -> Aligned (run cfg actions s).
Proof.
  induction actions as [| a rest IH]; intros s H; [exact H |].
  cbn. apply IH. apply Aligned_step. exact H.
Qed.

End WithoutAutoReconnect.

(** X13.  With auto-reconnect disabled, in every state the pool can reach:
    every entry is filed under the key its session reports; the pool holds
    an adapter for exactly the connected keys, and a disconnect cleanup only
    for connected keys, so nothing is left behind for a key that is gone;
    and no key is marked as reconnecting. *)
Theorem entries_aligned_without_autoReconnect (cfg : Config) (s : PoolState) :
  autoReconnect cfg = false ->
  reachable cfg s ->
  (forall k session, getSession k s = Some session -> deviceId session = k) /\
  (forall k, is_Some (adapters s !! k) <-> isConnected k s = true) /\
  (forall k c, disconnectCleanups s !! k = Some c -> isConnected k s = true) /\
  reconnectingDevices s = ∅.
Proof.
  intros Hoff [actions ->].
  destruct (Aligned_run cfg Hoff actions createConnectionPool Aligned_init)
    as [Hkey Had Hcl _ Hmark].
  unfold getSession, isConnected. split; [exact Hkey |]. split; [| split].
  - intros k. rewrite bool_decide_eq_true. apply Had.
  - intros k c H. apply bool_decide_eq_true. exact (Hcl k c H).
  - exact Hmark.
Qed.

Definition plain : Config := {| maxConnections := 2; autoReconnect := false |}.

(** Device d1 connected to a pool without auto-reconnect. *)
Definition one_plain : PoolState :=
  run plain [CallConnect a1; Settle 0 (inl d1_first)] createConnectionPool.

Lemma entries_aligned_without_autoReconnect_witness :
  (forall k session, getSession k one_plain = Some session -> deviceId session = k) /\
  (forall k, is_Some (adapters one_plain !! k) <-> isConnected k one_plain = true) /\
  (forall k c, disconnectCleanups one_plain !! k = Some c -> isConnected k one_plain = true) /\
  reconnectingDevices one_plain = ∅.
Proof.
  apply (entries_aligned_without_autoReconnect plain one_plain).
  - reflexivity.
  - exists [CallConnect a1; Settle 0 (inl d1_first)]. reflexivity.
Defined.

(** ** One notification, one event *)

Lemma sessions_handleDisconnect (cfg : Config) (d : string) (s : PoolState)
    (session : BLEConnectedSession) :
  sessions s !! d = Some session ->
  sessions (handleDisconnect cfg d s) = delete d (sessions s) /\
  emitted (handleDisconnect cfg d s) = emitted s ++ [EmitDisconnect d] /\
  disconnectCleanups (handleDisconnect cfg d s) = delete d (disconnectCleanups s) /\
  pendingConnections (handleDisconnect cfg d s) = pendingConnections s.
Proof.
  intros Hs. unfold handleDisconnect. rewrite Hs.
  match goal with |- context [run_cleanup d ?s0] =>
    destruct (run_cleanup_fields d s0) as (Hse & Ha & Hc & _ & Hp & He & _ & _) end.
  destruct (autoReconnect cfg).
  - cbn [adapters emit]. rewrite Ha. cbn [adapters set_sessions].
    destruct (adapters s !! d) as [ad |];
      [| cbn; rewrite Hse, Hc, Hp, He; repeat split].
    destruct (has_reconnect ad) eqn:Hre;
      [| cbn; rewrite Hse, Hc, Hp, He; repeat split].
    unfold reconnectDevice. rewrite Hre. cbn. rewrite Hse, Hc, Hp, He. repeat split.
  - cbn. rewrite Hse, Hc, Hp, He. repeat split.
Qed.

(** X15.  An unexpected disconnect of a connected key removes the entry and
    its cleanup and emits exactly one disconnect notification; a second
    notification for the same key is ignored: it changes nothing and emits
    nothing.  A notification for a key without entry changes nothing. *)
Theorem unexpected_disconnect_once (cfg : Config) (d : string) (s : PoolState) :
  let s1 := handleDisconnect cfg d s in
  isConnected d s1 = false /\
  disconnectCleanups s1 =
    (if isConnected d s then delete d (disconnectCleanups s) else disconnectCleanups s) /\
  emitted s1 =
    emitted s ++ (if isConnected d s then [EmitDisconnect d] else []) /\
  pendingConnections s1 = pendingConnections s /\
  (forall k, k <> d -> getSession k s1 = getSession k s) /\
  handleDisconnect cfg d s1 = s1.
Proof.
  intros s1. unfold isConnected, getSession.
  destruct (sessions s !! d) as [session |] eqn:Hs.
  - destruct (sessions_handleDisconnect cfg d s session Hs) as (Hse & He & Hc & Hp).
    fold s1 in Hse, He, Hc, Hp.
    assert (Hgone : sessions s1 !! d = None) by (rewrite Hse; apply lookup_delete_eq).
    rewrite Hgone, Hc, He, Hp, Hse.
    rewrite bool_decide_eq_false_2 by (intros [x Hx]; discriminate Hx).
    rewrite bool_decide_eq_true_2 by (eexists; reflexivity).
    repeat split.
    + intros k Hne. apply lookup_delete_ne. congruence.
    + unfold handleDisconnect at 1. rewrite Hgone. reflexivity.
  - assert (Hsame : s1 = s) by (unfold s1, handleDisconnect; rewrite Hs; reflexivity).
    rewrite Hsame, Hs.
    rewrite bool_decide_eq_false_2 by (intros [x Hx]; discriminate Hx).
    rewrite app_nil_r. repeat split.
    unfold handleDisconnect. rewrite Hs. reflexivity.
Qed.

(** ** A connection attempt, from the call to its end *)



End PoolInvariants.

(* ===================================================================== *)
(** * Properties of [disconnectAll] *)
(* ===================================================================== *)

Module PoolTeardownFacts.
Import Errors Pool PoolFacts PoolInvariants PoolTeardown.

Lemma teardowns_app (l1 l2 : list Call) :
  teardowns (l1 ++ l2) = teardowns l1 ++ teardowns l2.
Proof. unfold teardowns. apply flat_map_app. Qed.

(** [disconnect] of a connected key, field by field. *)
Lemma disconnect_fields (d : string) (session : BLEConnectedSession) (s : PoolState) :
  sessions s !! d = Some session ->
  exists s1,
    disconnect d s = (Suspended (nextTask s), s1) /\
    sessions s1 = delete d (sessions s) /\
    adapters s1 = delete d (adapters s) /\
    disconnectCleanups s1 = delete d (disconnectCleanups s) /\
    reconnectingDevices s1 = reconnectingDevices s ∖ {[d]} /\
    emitted s1 = emitted s /\
    pendingConnections s1 = pendingConnections s /\
    tasks s1 = <[nextTask s := DisconnectAwait d session]> (tasks s) /\
    nextTask s1 = S (nextTask s) /\
    teardowns (calls s1) = teardowns (calls s) ++ [session].
Proof.
  intros Hs. unfold disconnect. cbn [sessions set_reconnectingDevices]. rewrite Hs.
  unfold run_cleanup. cbn [disconnectCleanups set_adapters set_sessions
                             set_reconnectingDevices].
  destruct (disconnectCleanups s !! d) as [c |] eqn:Hc.
  - eexists. split; [reflexivity |]. cbn.
    rewrite !teardowns_app. cbn. rewrite app_nil_r. repeat split.
  - eexists. split; [reflexivity |]. cbn.
    rewrite !teardowns_app. cbn. repeat split.
    symmetry. apply delete_id. exact Hc.
Qed.

Lemma omap_sessions_delete (d : string) (m : gmap string BLEConnectedSession)
    (l : list string) :
  d ∉ l -> omap (fun k => delete d m !! k) l = omap (fun k => m !! k) l.
Proof.
  induction l as [| k l IH]; intros Hd; [reflexivity |].
  apply not_elem_of_cons in Hd. destruct Hd as [Hne Hd].
  cbn. rewrite lookup_delete_ne by exact Hne. rewrite (IH Hd). reflexivity.
Qed.

(** What the calls of [disconnect] for distinct connected keys add up to. *)
Lemma disconnect_each_fields (deviceIds : list string) :
  forall s,
    NoDup deviceIds ->
    (forall k, k ∈ deviceIds -> is_Some (sessions s !! k)) ->
    exists s1,
      disconnect_each deviceIds s =
        (map Suspended (seq (nextTask s) (length deviceIds)), s1) /\
      (forall k, sessions s1 !! k =
                 if bool_decide (k ∈ deviceIds) then None else sessions s !! k) /\
      (forall k, adapters s1 !! k =
                 if bool_decide (k ∈ deviceIds) then None else adapters s !! k) /\
      (forall k, disconnectCleanups s1 !! k =
                 if bool_decide (k ∈ deviceIds) then None else disconnectCleanups s !! k) /\
      (forall k, k ∈ reconnectingDevices s1 <->
                 k ∈ reconnectingDevices s /\ k ∉ deviceIds) /\
      emitted s1 = emitted s /\
      pendingConnections s1 = pendingConnections s /\
      nextTask s1 = (nextTask s + length deviceIds)%nat /\
      (forall t, (t < nextTask s)%nat -> tasks s1 !! t = tasks s !! t) /\
      (forall i k, deviceIds !! i = Some k ->
         exists session, sessions s !! k = Some session /\
           tasks s1 !! (nextTask s + i)%nat = Some (DisconnectAwait k session)) /\
      teardowns (calls s1) =
        teardowns (calls s) ++ omap (fun k => sessions s !! k) deviceIds.
Proof.
  induction deviceIds as [| d rest IH]; intros s Hnd Hall.
  - exists s. cbn. rewrite app_nil_r, Nat.add_0_r.
    split; [reflexivity |]. split; [reflexivity |]. split; [reflexivity |].
    split; [reflexivity |].
    split; [intros k; pose proof (not_elem_of_nil k); tauto |].
    split; [reflexivity |]. split; [reflexivity |]. split; [reflexivity |].
    split; [reflexivity |].
    split; [| reflexivity].
    intros i k Hi. discriminate Hi.
  - apply NoDup_cons in Hnd. destruct Hnd as [Hd Hnd].
    destruct (Hall d) as [session Hs]; [apply elem_of_cons; left; reflexivity |].
    destruct (disconnect_fields d session s Hs)
      as (s' & Hdis & Hse & Had & Hcl & Hmk & Hem & Hp & Hts & Hn & Htd).
    destruct (IH s' Hnd) as
      (s1 & Heach & Hse1 & Had1 & Hcl1 & Hmk1 & Hem1 & Hp1 & Hn1 & Hold1 & Hts1 & Htd1).
    { intros k Hk. rewrite Hse. apply lookup_delete_is_Some. split.
      - intros ->. contradiction.
      - apply Hall. apply elem_of_cons. right. exact Hk. }
    exists s1.
    assert (Hmem : forall k, bool_decide (k ∈ d :: rest) =
                             bool_decide (k = d) || bool_decide (k ∈ rest)).
    { intros k. destruct (decide (k = d)) as [-> | Hne].
      - rewrite (bool_decide_eq_true_2 (d = d)) by reflexivity.
        rewrite bool_decide_eq_true_2 by (apply elem_of_cons; left; reflexivity).
        reflexivity.
      - rewrite (bool_decide_eq_false_2 (k = d)) by exact Hne. cbn [orb].
        apply bool_decide_ext. rewrite elem_of_cons. tauto. }
    assert (Hlook : forall (A : Type) (m m1 : gmap string A),
              (forall k, m1 !! k = if bool_decide (k ∈ rest) then None
                                   else delete d m !! k) ->
              forall k, m1 !! k = if bool_decide (k ∈ d :: rest) then None else m !! k).
    { intros A m m1 H k. rewrite H, Hmem.
      destruct (decide (k = d)) as [-> | Hne].
      - rewrite (bool_decide_eq_true_2 (d = d)) by reflexivity. cbn [orb].
        rewrite lookup_delete_eq. destruct (bool_decide (d ∈ rest)); reflexivity.
      - rewrite (bool_decide_eq_false_2 (k = d)) by exact Hne. cbn [orb].
        rewrite lookup_delete_ne by congruence. reflexivity. }
    split.
    { cbn [disconnect_each]. rewrite Hdis, Heach, Hn. reflexivity. }
    split; [apply Hlook; intros k; rewrite Hse1, Hse; reflexivity |].
    split; [apply Hlook; intros k; rewrite Had1, Had; reflexivity |].
    split; [apply Hlook; intros k; rewrite Hcl1, Hcl; reflexivity |].
    split.
    { intros k. rewrite Hmk1, Hmk, elem_of_difference, elem_of_singleton,
        not_elem_of_cons. tauto. }
    split; [congruence |]. split; [congruence |].
    split; [rewrite Hn1, Hn; cbn [length]; lia |].
    split.
    { intros t Ht. rewrite Hold1 by (rewrite Hn; lia).
      rewrite Hts. apply lookup_insert_ne. lia. }
    split.
    { intros i k Hi. destruct i as [| i]; cbn in Hi.
      - injection Hi as <-. exists session. split; [exact Hs |].
        rewrite Nat.add_0_r, Hold1 by (rewrite Hn; lia).
        rewrite Hts. apply lookup_insert_eq.
      - destruct (Hts1 i k Hi) as (se & Hk & Htask).
        exists se. split.
        + rewrite Hse in Hk. apply lookup_delete_Some in Hk. tauto.
        + rewrite Hn in Htask.
          replace (nextTask s + S i)%nat with (S (nextTask s) + i)%nat by lia.
          exact Htask. }
    rewrite Htd1, Htd, Hse, <- app_assoc. cbn [omap list_omap app].
    rewrite Hs. rewrite (omap_sessions_delete d (sessions s) rest Hd). reflexivity.
Qed.

(** X17.  [disconnectAll] calls [disconnect] once for every connected key:
    when its calls are suspended the pool has no entry left, no adapter, no
    cleanup and no reconnecting marker for any of these keys, it has called
    the teardown of every session exactly once, in the order of the keys,
    each of these calls awaits its own teardown, and no notification has
    been emitted yet.  And however the teardowns settle, [disconnectAll]
    itself resolves: failures are only reported to the console. *)
Theorem disconnectAll_disconnects_all (deviceIds : list string) (s : PoolState)
    (results : list (option Error)) :
  lists_keys deviceIds s ->
  let '(replies, s1) := disconnectAll deviceIds s in
  replies = map Suspended (seq (nextTask s) (length deviceIds)) /\
  getSessions s1 = ∅ /\ connectionCount s1 = 0%Z /\
  (forall k, isConnected k s = true ->
     adapters s1 !! k = None /\ disconnectCleanups s1 !! k = None /\
     k ∉ reconnectingDevices s1) /\
  emitted s1 = emitted s /\
  teardowns (calls s1) = teardowns (calls s) ++ omap (fun k => getSession k s) deviceIds /\
  length (omap (fun k => getSession k s) deviceIds) = length deviceIds /\
  (forall i k, deviceIds !! i = Some k ->
     exists session, getSession k s = Some session /\
       tasks s1 !! (nextTask s + i)%nat = Some (DisconnectAwait k session)) /\
  fst (disconnectAll_settles results s1) = Resolves None /\
  sessions (snd (disconnectAll_settles results s1)) = ∅.
Proof.
  intros [Hnd Hkeys]. unfold disconnectAll.
  destruct (disconnect_each_fields deviceIds s Hnd) as
    (s1 & Heach & Hse & Had & Hcl & Hmk & Hem & _ & _ & _ & Hts & Htd).
  { intros k Hk. apply Hkeys. exact Hk. }
  rewrite Heach.
  assert (Hempty : sessions s1 = ∅).
  { apply map_eq. intros k. rewrite Hse, lookup_empty.
    destruct (decide (k ∈ deviceIds)) as [Hin | Hout].
    - rewrite bool_decide_eq_true_2 by exact Hin. reflexivity.
    - rewrite bool_decide_eq_false_2 by exact Hout.
      destruct (sessions s !! k) eqn:Hk; [| reflexivity].
      contradiction Hout. apply Hkeys. eexists. exact Hk. }
  split; [reflexivity |].
  split; [exact Hempty |].
  split; [unfold connectionCount; rewrite Hempty, map_size_empty; reflexivity |].
  split.
  { intros k Hk. unfold isConnected in Hk. apply bool_decide_eq_true in Hk.
    apply Hkeys in Hk.
    rewrite Had, Hcl, bool_decide_eq_true_2 by exact Hk.
    split; [reflexivity |]. split; [reflexivity |].
    intros Hm. apply Hmk in Hm. tauto. }
  split; [exact Hem |].
  split; [exact Htd |].
  split.
  { unfold getSession. clear - Hkeys.
    assert (H : forall l, (forall k, k ∈ l -> is_Some (sessions s !! k)) ->
              length (omap (fun k => sessions s !! k) l) = length l).
    { induction l as [| k l IH]; intros Hl; [reflexivity |].
      destruct (Hl k) as [x Hx]; [apply elem_of_cons; left; reflexivity |].
      cbn. rewrite Hx. cbn. f_equal. apply IH.
      intros k' Hk'. apply Hl. apply elem_of_cons. right. exact Hk'. }
    apply H. intros k Hk. apply Hkeys. exact Hk. }
  split; [exact Hts |].
  unfold disconnectAll_settles.
  destruct (0 <? _)%nat; cbn; split; auto.
Qed.

(** Devices d1 and d2 connected. *)
Definition two_connected : PoolState :=
  run roomy [CallConnect a1; Settle 0 (inl d1_first); CallConnect a2; Settle 1 (inl d2_first)]
    createConnectionPool.

Lemma two_connected_keys : lists_keys ["d1"; "d2"] two_connected.
Proof.
  split.
  - apply NoDup_cons. split.
    + intros H. apply list_elem_of_singleton in H. discriminate H.
    + apply NoDup_singleton.
  - assert (Hs : sessions two_connected =
                 <["d2" := d2_first]> (<["d1" := d1_first]> ∅))
      by (vm_compute; reflexivity).
    intros k. rewrite Hs, elem_of_cons, list_elem_of_singleton. split.
    + intros [-> | ->].
      * apply lookup_insert_is_Some. right. split; [discriminate |].
        apply lookup_insert_is_Some. left. reflexivity.
      * apply lookup_insert_is_Some. left. reflexivity.
    + intros H. apply lookup_insert_is_Some in H.
      destruct H as [<- | [_ H]]; [right; reflexivity |].
      apply lookup_insert_is_Some in H.
      destruct H as [<- | [_ H]]; [left; reflexivity |].
      rewrite lookup_empty in H. destruct H as [x Hx]. discriminate Hx.
Qed.

Lemma disconnectAll_disconnects_all_witness :
  let '(replies, s1) := disconnectAll ["d1"; "d2"] two_connected in
  replies = map Suspended (seq (nextTask two_connected) (length ["d1"; "d2"])) /\
  getSessions s1 = ∅ /\ connectionCount s1 = 0%Z /\
  (forall k, isConnected k two_connected = true ->
     adapters s1 !! k = None /\ disconnectCleanups s1 !! k = None /\
     k ∉ reconnectingDevices s1) /\
  emitted s1 = emitted two_connected /\
  teardowns (calls s1) =
    teardowns (calls two_connected) ++
    omap (fun k => getSession k two_connected) ["d1"; "d2"] /\
  length (omap (fun k => getSession k two_connected) ["d1"; "d2"]) =
    length ["d1"; "d2"] /\
  (forall i k, ["d1"; "d2"] !! i = Some k ->
     exists session, getSession k two_connected = Some session /\
       tasks s1 !! (nextTask two_connected + i)%nat = Some (DisconnectAwait k session)) /\
  fst (disconnectAll_settles [None; Some (new_Error "GATT operation failed")] s1)
    = Resolves None /\
  sessions (snd (disconnectAll_settles [None; Some (new_Error "GATT operation failed")] s1))
    = ∅.
Proof.
  apply (disconnectAll_disconnects_all ["d1"; "d2"] two_connected
           [None; Some (new_Error "GATT operation failed")]).
  exact two_connected_keys.
Defined.

End PoolTeardownFacts.

(* ===================================================================== *)
(** * The pool's accounts while listeners call the pool *)
(* ===================================================================== *)

Module PoolListenersFacts.
Import Errors Pool PoolFacts PoolInvariants PoolListeners.

(** ** Listeners that leave the pool alone *)

Lemma step_without_calls (cfg : Config) (a : Action) (s : PoolState) :
  step cfg a [] s = Pool.step cfg a s.
Proof.
  destruct a as [ad | d | d | t o | t o]; cbn [step Pool.step]; reflexivity.
Qed.

Lemma run_without_calls (cfg : Config) (actions : list Action) :
  forall s, run cfg (map (fun a => (a, [])) actions) s = Pool.run cfg actions s.
Proof.
  induction actions as [| a rest IH]; intros s; [reflexivity |].
  cbn [map run Pool.run fold_left fst snd]. rewrite step_without_calls. apply IH.
Qed.

(** Every state of [Pool] is a state of the pool with listeners. *)
Lemma reachable_without_calls (cfg : Config) (s : PoolState) :
  Pool.reachable cfg s -> reachable cfg s.
Proof.
  intros [actions ->]. exists (map (fun a => (a, [])) actions).
  symmetry. apply run_without_calls.
Qed.

(** ** The pending counter *)

(** The suspended functions are numbered below [nextTask], and the pending
    counter is the number of [connect] calls suspended at [adapter.connect]
    plus [k]. *)
Definition Held (k : Z) (s : PoolState) : Prop :=
  fresh_tasks s /\ pendingConnections s = (Z.of_nat (connecting s) + k)%Z.

Lemma Held_same (k : Z) (s s' : PoolState) :
  tasks s' = tasks s -> nextTask s' = nextTask s ->
  pendingConnections s' = pendingConnections s ->
  Held k s -> Held k s'.
Proof.
  intros Ht Hn Hp [Hf Hc]. split.
  - intros t Hle. rewrite Ht. apply Hf. rewrite <- Hn. exact Hle.
  - unfold connecting. rewrite Ht, Hp. exact Hc.
Qed.

Lemma Held_pool_step (cfg : Config) (a : Action) (k : Z) (s : PoolState) :
  Held k s -> Held k (snd (Pool.step cfg a s)).
Proof.
  intros [Hfresh Hcount]. split; [apply fresh_tasks_step; exact Hfresh |].
  unfold connecting in *.
  destruct (step_TaskChange cfg a s) as
    [Ht Hn Hp | task Ht Hp | t task Hin Ht Hp | t d ad Hin Ht Hp];
    rewrite Ht, Hp, Hcount.
  - reflexivity.
  - assert (Hnone : tasks s !! nextTask s = None) by (apply Hfresh; lia).
    destruct task as [ad | d ad | d | d se].
    + rewrite connecting_insert_connect by exact Hnone. lia.
    + rewrite connecting_insert_other by (first [exact Hnone | tauto]). lia.
    + rewrite connecting_insert_other by (first [exact Hnone | tauto]). lia.
    + rewrite connecting_insert_other by (first [exact Hnone | tauto]). lia.
  - destruct task as [ad | d ad | d | d se].
    + rewrite (connecting_delete_connect (tasks s) t ad Hin). lia.
    + rewrite (connecting_delete_other _ _ _ Hin) by tauto. lia.
    + rewrite (connecting_delete_other _ _ _ Hin) by tauto. lia.
    + rewrite (connecting_delete_other _ _ _ Hin) by tauto. lia.
  - rewrite connecting_insert_other.
    + rewrite (connecting_delete_other _ _ _ Hin) by tauto. lia.
    + rewrite lookup_delete_ne; [apply Hfresh; lia |].
      pose proof (fresh_tasks_lt s t _ Hfresh Hin). lia.
    + tauto.
Qed.

Definition action_of (c : ListenerCall) : Action :=
  match c with
  | ListenerConnect adapter => CallConnect adapter
  | ListenerDisconnect deviceId => CallDisconnect deviceId
  end.

Lemma listener_step_pool (cfg : Config) (c : ListenerCall) (s : PoolState) :
  listener_step cfg c s = snd (Pool.step cfg (action_of c) s).
Proof. destruct c; reflexivity. Qed.

Lemma Held_emit (cfg : Config) (calls : list ListenerCall) (ev : PoolEvent) (k : Z)
    (s : PoolState) :
  Held k s -> Held k (emit cfg calls ev s).
Proof.
  intros H. unfold emit.
  assert (H0 : Held k (Pool.emit ev s)) by (apply (Held_same k s); auto).
  revert H0. generalize (Pool.emit ev s). clear.
  induction calls as [| c rest IH]; intros s H; [exact H |].
  cbn [fold_left]. apply IH. rewrite listener_step_pool. apply Held_pool_step. exact H.
Qed.

Lemma Held_resumed (k : Z) (t : nat) (task : Task) (s : PoolState) :
  tasks s !! t = Some task -> Held k s ->
  Held (k + match task with ConnectAwait _ => 1 | _ => 0 end) (resume t s).
Proof.
  intros Ht [Hf Hc]. split; [apply fresh_resume; exact Hf |].
  unfold connecting in *. cbn [resume tasks pendingConnections]. rewrite Hc.
  destruct task as [ad | d ad | d | d se].
  - rewrite (connecting_delete_connect (tasks s) t ad Ht). lia.
  - rewrite (connecting_delete_other _ _ _ Ht) by tauto. lia.
  - rewrite (connecting_delete_other _ _ _ Ht) by tauto. lia.
  - rewrite (connecting_delete_other _ _ _ Ht) by tauto. lia.
Qed.

Lemma Held_suspended (k : Z) (task : Task) (s : PoolState) :
  Held k s -> ~ awaiting_connect (nextTask s, task) ->
  Held k (snd (suspend task s)).
Proof.
  intros [Hf Hc] Hnot. split; [apply fresh_suspend; exact Hf |].
  unfold connecting in *. cbn [suspend snd tasks pendingConnections].
  rewrite connecting_insert_other; [exact Hc | apply Hf; lia | exact Hnot].
Qed.

Lemma Held_run_cleanup (k : Z) (d : string) (s : PoolState) :
  Held k s -> Held k (run_cleanup d s).
Proof.
  destruct (run_cleanup_fields d s) as (_ & _ & _ & _ & Hp & _ & Ht & Hn).
  apply Held_same; assumption.
Qed.

Lemma Held_register (k : Z) (d : string) (session : BLEConnectedSession) (s : PoolState) :
  Held k s -> Held k (register_disconnect_handler d session s).
Proof.
  destruct (register_fields d session s) as (_ & _ & _ & Hp & _ & _ & Ht & Hn & _).
  apply Held_same; assumption.
Qed.

Lemma Held_reconnectDevice (k : Z) (d : string) (adapter : BLEAdapter) (s : PoolState) :
  Held k s -> Held k (reconnectDevice d adapter s).
Proof.
  intros H. unfold reconnectDevice. destruct (negb (has_reconnect adapter)); [exact H |].
  apply Held_suspended; [| cbn; tauto]. revert H. apply Held_same; reflexivity.
Qed.

(** The states the listeners see. *)
Lemma Held_handleDisconnect_notifies (cfg : Config) (calls : list ListenerCall)
    (k : Z) (d : string) (s : PoolState) :
  Held k s -> Held k (handleDisconnect_notifies cfg calls d s).
Proof.
  intros H. unfold handleDisconnect_notifies. apply Held_emit, Held_run_cleanup.
  revert H. apply Held_same; reflexivity.
Qed.

Lemma Held_connect_notifies (cfg : Config) (calls : list ListenerCall) (k : Z)
    (t : nat) (adapter : BLEAdapter) (session : BLEConnectedSession) (s : PoolState) :
  tasks s !! t = Some (ConnectAwait adapter) -> Held k s ->
  Held (k + 1) (connect_notifies cfg calls t adapter session s).
Proof.
  intros Ht H. unfold connect_notifies. apply Held_emit, Held_register.
  pose proof (Held_resumed k t _ s Ht H) as Hr. revert Hr.
  apply Held_same; reflexivity.
Qed.

Lemma Held_reconnect_notifies (cfg : Config) (calls : list ListenerCall) (k : Z)
    (d : string) (session : BLEConnectedSession) (s : PoolState) :
  Held k s -> Held k (reconnect_notifies cfg calls d session s).
Proof.
  intros H. unfold reconnect_notifies. apply Held_emit, Held_register.
  revert H. apply Held_same; reflexivity.
Qed.

Lemma Held_step (cfg : Config) (a : Action) (calls : list ListenerCall) (s : PoolState) :
  Held 0 s -> Held 0 (snd (step cfg a calls s)).
Proof.
  intros H. destruct a as [ad | d | d | t o | t o]; cbn [step].
  - apply (Held_pool_step cfg (CallConnect ad)). exact H.
  - apply (Held_pool_step cfg (CallDisconnect d)). exact H.
  - cbn [snd]. unfold handleDisconnect.
    destruct (sessions s !! d); [| exact H].
    pose proof (Held_handleDisconnect_notifies cfg calls 0 d s H) as Hn.
    destruct (autoReconnect cfg).
    + destruct (adapters _ !! d) as [ad |]; [| exact Hn].
      destruct (has_reconnect ad); [| exact Hn].
      apply Held_reconnectDevice. exact Hn.
    + revert Hn. apply Held_same; reflexivity.
  - destruct (tasks s !! t) as [[ad | d ad | d | d se] |] eqn:Ht; try exact H.
    + unfold connect_settles. destruct o as [session | e]; cbn [snd].
      * pose proof (Held_connect_notifies cfg calls 0 t ad session s Ht H) as [Hf Hc].
        split; [exact Hf |]. unfold connecting in *.
        cbn [set_pendingConnections pendingConnections tasks]. rewrite Hc. lia.
      * pose proof (Held_resumed 0 t _ s Ht H) as [Hf Hc].
        split; [exact Hf |]. unfold connecting in *.
        cbn [set_pendingConnections pendingConnections tasks] in *. rewrite Hc. lia.
    + pose proof (Held_resumed 0 t _ s Ht H) as Hr. cbn [Z.add] in Hr.
      unfold reconnect_settles. destruct o as [session | e].
      * destruct (negb (bool_decide (d ∈ reconnectingDevices (resume t s)))).
        -- rewrite snd_let_suspend. apply Held_suspended; [| cbn; tauto].
           revert Hr. apply Held_same; reflexivity.
        -- cbn [snd].
           pose proof (Held_reconnect_notifies cfg calls 0 d session _ Hr) as Hn.
           revert Hn. apply Held_same; reflexivity.
      * cbn [snd]. revert Hr. apply Held_same; reflexivity.
  - destruct (tasks s !! t) as [[ad | d ad | d | d se] |] eqn:Ht; try exact H.
    + pose proof (Held_resumed 0 t _ s Ht H) as Hr. cbn [Z.add] in Hr.
      unfold reconnect_teardown_settles. cbn [snd].
      revert Hr. apply Held_same; reflexivity.
    + pose proof (Held_resumed 0 t _ s Ht H) as Hr. cbn [Z.add] in Hr.
      unfold disconnect_settles. destruct o; cbn [snd]; [exact Hr |].
      apply Held_emit. exact Hr.
Qed.

Lemma Held_reachable (cfg : Config) (s : PoolState) : reachable cfg s -> Held 0 s.
Proof.
  intros [actions ->]. unfold run.
  assert (H0 : Held 0 createConnectionPool).
  { split; [apply fresh_tasks_init |]. unfold connecting. cbn.
    rewrite map_filter_empty. reflexivity. }
  revert H0. generalize createConnectionPool.
  induction actions as [| [a calls] rest IH]; intros s H; [exact H |].
  cbn [fold_left fst snd]. apply IH, Held_step, H.
Qed.

(** X11.  Whatever the configuration and whatever the listeners do with the
    pool: whenever no function of the pool is running, the pending counter
    is the number of [connect] calls that are suspended at
    [adapter.connect]; while the listeners of the connect event of a
    [connect] call run, the counter is that number plus one, because the
    call that is about to return still counts (its [finally] block has not
    run); and while the listeners of any other event run, the counter is
    that number. *)
Theorem pending_counts_connects_in_flight (cfg : Config) (s : PoolState) :
  reachable cfg s ->
  pendingConnections s = Z.of_nat (connecting s) /\
  (forall task adapter session calls,
     tasks s !! task = Some (ConnectAwait adapter) ->
     let inside := connect_notifies cfg calls task adapter session s in
     pendingConnections inside = (Z.of_nat (connecting inside) + 1)%Z) /\
  (forall deviceId calls,
     let inside := handleDisconnect_notifies cfg calls deviceId s in
     pendingConnections inside = Z.of_nat (connecting inside)) /\
  (forall task deviceId adapter session calls,
     tasks s !! task = Some (ReconnectAwait deviceId adapter) ->
     let inside := reconnect_notifies cfg calls deviceId session (resume task s) in
     pendingConnections inside = Z.of_nat (connecting inside)) /\
  (forall task deviceId session calls,
     tasks s !! task = Some (DisconnectAwait deviceId session) ->
     let inside := emit cfg calls (EmitDisconnect deviceId) (resume task s) in
     pendingConnections inside = Z.of_nat (connecting inside)).
Proof.
  intros Hreach. pose proof (Held_reachable cfg s Hreach) as H.
  split; [destruct H as [_ Hc]; lia |].
  split.
  { intros task adapter session calls Ht inside.
    destruct (Held_connect_notifies cfg calls 0 task adapter session s Ht H) as [_ Hc].
    exact Hc. }
  split.
  { intros d calls inside.
    destruct (Held_handleDisconnect_notifies cfg calls 0 d s H) as [_ Hc].
    unfold inside. lia. }
  split.
  { intros task d adapter session calls Ht inside.
    pose proof (Held_resumed 0 task _ s Ht H) as Hr. cbn [Z.add] in Hr.
    destruct (Held_reconnect_notifies cfg calls 0 d session _ Hr) as [_ Hc].
    unfold inside. lia. }
  intros task d session calls Ht inside.
  pose proof (Held_resumed 0 task _ s Ht H) as Hr. cbn [Z.add] in Hr.
  destruct (Held_emit cfg calls (EmitDisconnect d) 0 _ Hr) as [_ Hc].
  unfold inside. lia.
Qed.

(** Two [connect] calls in flight; the listener of the connect event of the
    first makes a third call. *)
Definition plenty : Config := {| maxConnections := 7; autoReconnect := true |}.

Definition two_connecting : PoolState :=
  run plenty [(CallConnect a1, []); (CallConnect a2, [])] createConnectionPool.

Lemma pending_counts_connects_in_flight_witness :
  pendingConnections two_connecting = Z.of_nat (connecting two_connecting) /\
  (forall task adapter session calls,
     tasks two_connecting !! task = Some (ConnectAwait adapter) ->
     let inside := connect_notifies plenty calls task adapter session two_connecting in
     pendingConnections inside = (Z.of_nat (connecting inside) + 1)%Z) /\
  (forall deviceId calls,
     let inside := handleDisconnect_notifies plenty calls deviceId two_connecting in
     pendingConnections inside = Z.of_nat (connecting inside)) /\
  (forall task deviceId adapter session calls,
     tasks two_connecting !! task = Some (ReconnectAwait deviceId adapter) ->
     let inside :=
       reconnect_notifies plenty calls deviceId session (resume task two_connecting) in
     pendingConnections inside = Z.of_nat (connecting inside)) /\
  (forall task deviceId session calls,
     tasks two_connecting !! task = Some (DisconnectAwait deviceId session) ->
     let inside :=
       emit plenty calls (EmitDisconnect deviceId) (resume task two_connecting) in
     pendingConnections inside = Z.of_nat (connecting inside)).
Proof.
  apply (pending_counts_connects_in_flight plenty two_connecting).
  exists [(CallConnect a1, []); (CallConnect a2, [])]. reflexivity.
Defined.

Example counter_inside_connect_listener :
  let inside :=
    connect_notifies plenty [ListenerConnect a1] 0 a1 d1_first two_connecting in
  pendingConnections two_connecting = 2%Z /\ connecting two_connecting = 2%nat /\
  pendingConnections inside = 3%Z /\ connecting inside = 2%nat /\
  pendingConnections
    (snd (step plenty (Settle 0 (inl d1_first)) [ListenerConnect a1] two_connecting)) = 2%Z.
Proof. vm_compute. repeat split. Qed.

(** ** The capacity without auto-reconnect *)

(** The accounts of a pool without auto-reconnect, with [k] calls of
    [connect] that have not returned from their connect event. *)
Record Bounded (cfg : Config) (k : Z) (s : PoolState) : Prop := mkBounded {
  bounded_held : Held k s;
  bounded_capacity : (connectionCount s + pendingConnections s <= maxConnections cfg + k)%Z;
  bounded_plain : forall t task, tasks s !! t = Some task ->
    match task with
    | ReconnectAwait _ _ | ReconnectTeardownAwait _ => False
    | _ => True
    end
}.

Lemma Bounded_Capped (cfg : Config) (s : PoolState) :
  Bounded cfg 0 s <-> Capped cfg s.
Proof.
  split.
  - intros [[Hf Hc] Hcap Hp]. constructor; [lia | lia | exact Hf | exact Hp].
  - intros [Hc Hcap Hf Hp]. constructor; [split; [exact Hf | lia] | lia | exact Hp].
Qed.

Lemma Bounded_same (cfg : Config) (k : Z) (s s' : PoolState) :
  tasks s' = tasks s -> nextTask s' = nextTask s ->
  pendingConnections s' = pendingConnections s ->
  (size (sessions s') <= size (sessions s))%nat ->
  Bounded cfg k s -> Bounded cfg k s'.
Proof.
  intros Ht Hn Hp Hs [Hh Hcap Hpl]. constructor.
  - exact (Held_same k s s' Ht Hn Hp Hh).
  - unfold connectionCount in *. rewrite Hp. lia.
  - rewrite Ht. exact Hpl.
Qed.

Lemma Bounded_resumed (cfg : Config) (k : Z) (t : nat) (task : Task) (s : PoolState) :
  tasks s !! t = Some task -> Bounded cfg k s ->
  Bounded cfg (k + match task with ConnectAwait _ => 1 | _ => 0 end) (resume t s).
Proof.
  intros Ht [Hh Hcap Hpl]. constructor.
  - apply Held_resumed; assumption.
  - unfold connectionCount in *. cbn [resume sessions pendingConnections].
    destruct task; lia.
  - intros t' task' Hl. cbn [resume tasks] in Hl. apply lookup_delete_Some in Hl.
    exact (Hpl t' task' (proj2 Hl)).
Qed.

Lemma Bounded_suspended (cfg : Config) (k : Z) (task : Task) (s : PoolState) :
  Bounded cfg k s -> ~ awaiting_connect (nextTask s, task) ->
  match task with ReconnectAwait _ _ | ReconnectTeardownAwait _ => False | _ => True end ->
  Bounded cfg k (snd (suspend task s)).
Proof.
  intros [Hh Hcap Hpl] Hnot Hok. constructor.
  - apply Held_suspended; assumption.
  - exact Hcap.
  - intros t' task' Hl. cbn [suspend snd tasks] in Hl.
    destruct (decide (nextTask s = t')) as [<- | Hne].
    + rewrite lookup_insert_eq in Hl. injection Hl as <-. exact Hok.
    + rewrite lookup_insert_ne in Hl by exact Hne. exact (Hpl t' task' Hl).
Qed.

Lemma Bounded_listener_step (cfg : Config) (c : ListenerCall) (k : Z) (s : PoolState) :
  (0 <= k)%Z -> Bounded cfg k s -> Bounded cfg k (listener_step cfg c s).
Proof.
  intros Hk H. destruct c as [ad | d]; cbn [listener_step].
  - unfold connect.
    destruct (Z.leb_spec (maxConnections cfg)
                (Z.of_nat (size (sessions s)) + pendingConnections s)) as [Hfull | Hroom];
      [exact H |].
    rewrite snd_let_suspend. destruct H as [[Hf Hc] Hcap Hpl]. constructor.
    + split; [intros t Hle; cbn in *; rewrite lookup_insert_ne by lia; apply Hf; lia |].
      unfold connecting in *. cbn [suspend snd tasks pendingConnections call
                                   set_pendingConnections].
      rewrite connecting_insert_connect by (apply Hf; cbn; lia). lia.
    + unfold connectionCount in *. cbn. lia.
    + intros t' task' Hl. cbn in Hl.
      destruct (decide (nextTask s = t')) as [<- | Hne].
      * rewrite lookup_insert_eq in Hl. injection Hl as <-. exact I.
      * rewrite lookup_insert_ne in Hl by exact Hne. exact (Hpl t' task' Hl).
  - unfold disconnect. cbn [sessions set_reconnectingDevices].
    destruct (sessions s !! d) as [session |];
      [| cbn [snd]; revert H; apply Bounded_same; reflexivity].
    rewrite snd_let_suspend. apply Bounded_suspended; [| cbn; tauto | exact I].
    match goal with |- Bounded _ _ (call _ (run_cleanup d ?s0)) =>
      destruct (run_cleanup_fields d s0) as (Hse & _ & _ & _ & Hp & _ & Ht & Hn) end.
    revert H. apply Bounded_same; cbn; rewrite ?Ht, ?Hn, ?Hp, ?Hse; cbn; try reflexivity.
    apply size_delete_le.
Qed.

Lemma Bounded_emit (cfg : Config) (calls : list ListenerCall) (ev : PoolEvent) (k : Z)
    (s : PoolState) :
  (0 <= k)%Z -> Bounded cfg k s -> Bounded cfg k (emit cfg calls ev s).
Proof.
  intros Hk H. unfold emit.
  assert (H0 : Bounded cfg k (Pool.emit ev s))
    by (revert H; apply Bounded_same; reflexivity).
  revert H0. generalize (Pool.emit ev s). clear H.
  induction calls as [| c rest IH]; intros s0 H; [exact H |].
  cbn [fold_left]. apply IH. apply Bounded_listener_step; assumption.
Qed.

Lemma Bounded_connect_notifies (cfg : Config) (calls : list ListenerCall)
    (t : nat) (adapter : BLEAdapter) (session : BLEConnectedSession) (s : PoolState) :
  tasks s !! t = Some (ConnectAwait adapter) -> Bounded cfg 0 s ->
  Bounded cfg 1 (connect_notifies cfg calls t adapter session s).
Proof.
  intros Ht H. unfold connect_notifies. apply Bounded_emit; [lia |].
  pose proof (Bounded_resumed cfg 0 t _ s Ht H) as [Hh Hcap Hpl]. cbn [Z.add] in *.
  match goal with |- Bounded _ _ (register_disconnect_handler ?d ?se ?s0) =>
    destruct (register_fields d se s0) as (Hse & _ & _ & Hp & _ & _ & Hts & Hn & _) end.
  constructor.
  - apply Held_register. revert Hh. apply Held_same; reflexivity.
  - pose proof (bounded_capacity cfg 0 s H) as Hcap0.
    unfold connectionCount in *. rewrite Hp, Hse.
    cbn [sessions set_sessions set_adapters pendingConnections resume].
    pose proof (size_insert_le (sessions s) (deviceId session) session). lia.
  - rewrite Hts. exact Hpl.
Qed.

Section WithoutAutoReconnect.

Variable cfg : Config.
Hypothesis disabled : autoReconnect cfg = false.

Lemma Bounded_step (a : Action) (calls : list ListenerCall) (s : PoolState) :
  Bounded cfg 0 s -> Bounded cfg 0 (snd (step cfg a calls s)).
Proof.
  intros H. destruct a as [ad | d | d | t o | t o]; cbn [step].
  - apply (Bounded_listener_step cfg (ListenerConnect ad)); [lia | exact H].
  - apply (Bounded_listener_step cfg (ListenerDisconnect d)); [lia | exact H].
  - cbn [snd]. unfold handleDisconnect. rewrite disabled.
    destruct (sessions s !! d); [| exact H].
    assert (Hn : Bounded cfg 0 (handleDisconnect_notifies cfg calls d s)).
    { unfold handleDisconnect_notifies. apply Bounded_emit; [lia |].
      match goal with |- Bounded _ _ (run_cleanup d ?s0) =>
        destruct (run_cleanup_fields d s0) as (Hse & _ & _ & _ & Hp & _ & Ht & Hnx) end.
      revert H. apply Bounded_same; rewrite ?Ht, ?Hnx, ?Hp, ?Hse; cbn; try reflexivity.
      apply size_delete_le. }
    revert Hn. apply Bounded_same; reflexivity.
  - destruct (tasks s !! t) as [[ad | d ad | d | d se] |] eqn:Ht; try exact H.
    + unfold connect_settles. destruct o as [session | e]; cbn [snd].
      * destruct (Bounded_connect_notifies cfg calls t ad session s Ht H)
          as [[Hf Hc] Hcap Hpl].
        constructor; [split; [exact Hf |] | | exact Hpl];
          unfold connecting, connectionCount in *;
          cbn [set_pendingConnections pendingConnections tasks sessions]; lia.
      * destruct (Bounded_resumed cfg 0 t _ s Ht H) as [[Hf Hc] Hcap Hpl].
        constructor; [split; [exact Hf |] | | exact Hpl];
          unfold connecting, connectionCount in *;
          cbn [set_pendingConnections pendingConnections tasks sessions resume] in *; lia.
    + contradiction (bounded_plain cfg 0 s H t _ Ht).
  - destruct (tasks s !! t) as [[ad | d ad | d | d se] |] eqn:Ht; try exact H.
    + contradiction (bounded_plain cfg 0 s H t _ Ht).
    + pose proof (Bounded_resumed cfg 0 t _ s Ht H) as Hr. cbn [Z.add] in Hr.
      unfold disconnect_settles. destruct o; cbn [snd]; [exact Hr |].
      apply Bounded_emit; [lia | exact Hr].
Qed.

Lemma Bounded_reachable (s : PoolState) :
  (0 <= maxConnections cfg)%Z -> reachable cfg s -> Bounded cfg 0 s.
Proof.
  intros Hsane [actions ->]. unfold run.
  assert (H0 : Bounded cfg 0 createConnectionPool)
    by (apply Bounded_Capped, Capped_init; exact Hsane).
  revert H0. generalize createConnectionPool.
  induction actions as [| [a calls] rest IH]; intros s H; [exact H |].
  cbn [fold_left fst snd]. apply IH, Bounded_step, H.
Qed.

End WithoutAutoReconnect.

(** X14.  With auto-reconnect disabled and a capacity that is an integer
    and not negative, whatever the listeners do with the pool: whenever no
    function of the pool is running, the connected devices and the pending
    counter together do not exceed [maxConnections].  While the listeners
    of the connect event of a [connect] call run, the connected devices and
    the connection attempts in flight together do not exceed
    [maxConnections] either, but the counter counts one more, so that a
    [connect] a listener makes then is rejected as soon as they reach
    [maxConnections - 1].  And whenever the connected devices and the
    counter reach [maxConnections], [connect] is rejected and changes
    nothing. *)
Theorem capacity_kept_without_autoReconnect (cfg : Config) (s : PoolState)
    (adapter : BLEAdapter) :
  autoReconnect cfg = false ->
  (0 <= maxConnections cfg)%Z ->
  reachable cfg s ->
  ((connectionCount s + pendingConnections s <= maxConnections cfg)%Z /\
   (connectionCount s <= maxConnections cfg)%Z) /\
  (forall task connected session calls,
     tasks s !! task = Some (ConnectAwait connected) ->
     let inside := connect_notifies cfg calls task connected session s in
     (connectionCount inside + Z.of_nat (connecting inside) <= maxConnections cfg)%Z /\
     (connectionCount inside + pendingConnections inside <= maxConnections cfg + 1)%Z /\
     ((maxConnections cfg - 1 <= connectionCount inside + Z.of_nat (connecting inside))%Z ->
      connect cfg adapter inside = (Rejects (capacity_error cfg), inside))) /\
  (forall s', (maxConnections cfg <= connectionCount s' + pendingConnections s')%Z ->
     connect cfg adapter s' = (Rejects (capacity_error cfg), s')).
Proof.
  intros Hoff Hsane Hreach.
  pose proof (Bounded_reachable cfg Hoff s Hsane Hreach) as H.
  split.
  { destruct H as [[_ Hc] Hcap _]. unfold connectionCount in *. lia. }
  split; [| intros s' Hfull; apply connect_at_capacity; exact Hfull].
  intros task connected session calls Ht inside.
  destruct (Bounded_connect_notifies cfg calls task connected session s Ht H)
    as [[_ Hc] Hcap _].
  fold inside in Hc, Hcap.
  split; [lia |]. split; [exact Hcap |].
  intros Hnear. apply connect_at_capacity. lia.
Qed.

(** A pool of two connections without auto-reconnect, with two [connect]
    calls in flight. *)
Definition pair : Config := {| maxConnections := 2; autoReconnect := false |}.

Definition pair_connecting : PoolState :=
  run pair [(CallConnect a1, []); (CallConnect a2, [])] createConnectionPool.

Lemma capacity_kept_without_autoReconnect_witness :
  ((connectionCount pair_connecting + pendingConnections pair_connecting
    <= maxConnections pair)%Z /\
   (connectionCount pair_connecting <= maxConnections pair)%Z) /\
  (forall task connected session calls,
     tasks pair_connecting !! task = Some (ConnectAwait connected) ->
     let inside := connect_notifies pair calls task connected session pair_connecting in
     (connectionCount inside + Z.of_nat (connecting inside) <= maxConnections pair)%Z /\
     (connectionCount inside + pendingConnections inside <= maxConnections pair + 1)%Z /\
     ((maxConnections pair - 1 <= connectionCount inside + Z.of_nat (connecting inside))%Z ->
      connect pair a1 inside = (Rejects (capacity_error pair), inside))) /\
  (forall s', (maxConnections pair <= connectionCount s' + pendingConnections s')%Z ->
     connect pair a1 s' = (Rejects (capacity_error pair), s')).
Proof.
  apply (capacity_kept_without_autoReconnect pair pair_connecting a1).
  - reflexivity.
  - cbn. lia.
  - exists [(CallConnect a1, []); (CallConnect a2, [])]. reflexivity.
Defined.

(** The first of the two calls resolves.  Its listener sees one connected
    device and one attempt in flight, and a counter of 2; when it disconnects
    the device and connects again, the new call is rejected although one of
    the two places is free.  Once the call has returned, a [connect] is
    admitted. *)
Example connect_from_listener_rejected :
  let inside := connect_notifies pair [ListenerDisconnect "d1"] 0 a1 d1_first
                  pair_connecting in
  connectionCount inside = 0%Z /\ connecting inside = 1%nat /\
  pendingConnections inside = 2%Z /\
  fst (connect pair a1 inside) = Rejects (capacity_error pair) /\
  let returned :=
    snd (step pair (Settle 0 (inl d1_first)) [ListenerDisconnect "d1"; ListenerConnect a1]
           pair_connecting) in
  connectionCount returned = 0%Z /\ pendingConnections returned = 1%Z /\
  fst (connect pair a1 returned) = Suspended 3.
Proof. vm_compute. repeat split. Qed.

End PoolListenersFacts.

(* ===================================================================== *)
(** * Callbacks, subscriptions and walks of the state machine *)
(* ===================================================================== *)

Module StateMachineRuns.
Import Errors StateMachine StateMachineFacts.

(** ** What the callbacks of one transition do *)

(** What the body of a callback does while the machine is at [st] with its
    guard held: every [transition] it calls is refused; the body ends at its
    first uncaught exception.  The result is what it leaves in the trace and
    the exception that escapes it. *)
Fixpoint callback_run (st : ConnectionState) (cmds : list Cmd)
    : list Event * option Error :=
  match cmds with
  | [] => ([], None)
  | CallTransition to caught :: rest =>
      let ev := InnerTransition to (Some (reentrant_error st to)) st in
      if caught
      then let '(evs, escaped) := callback_run st rest in (ev :: evs, escaped)
      else ([ev], Some (reentrant_error st to))
  | CallGetState :: rest => callback_run st rest
  | CallCanTransition _ :: rest => callback_run st rest
  | Throw e :: _ => ([], Some e)
  end.

(** The same, with the report of the escaped exception to [console.error]. *)
Definition callback_events (st : ConnectionState) (cmds : list Cmd) : list Event :=
  fst (callback_run st cmds) ++
  match snd (callback_run st cmds) with
  | Some e => [ConsoleError e]
  | None => []
  end.

Definition add_trace (evs : list Event) (m : Machine) : Machine :=
  {| state := state m; callbacks := callbacks m;
     isTransitioning := isTransitioning m; trace := trace m ++ evs |}.

Lemma add_trace_nil (m : Machine) : add_trace [] m = m.
Proof. destruct m. unfold add_trace. cbn. rewrite app_nil_r. reflexivity. Qed.

Lemma add_trace_add_trace (l1 l2 : list Event) (m : Machine) :
  add_trace l2 (add_trace l1 m) = add_trace (l1 ++ l2) m.
Proof. unfold add_trace. cbn. rewrite app_assoc. reflexivity. Qed.

Lemma run_cmds_exact (fuel : nat) (cmds : list Cmd) :
  forall m, isTransitioning m = true ->
    run_cmds (transition fuel) cmds m =
    Some (add_trace (fst (callback_run (state m) cmds)) m,
          snd (callback_run (state m) cmds)).
Proof.
  induction cmds as [| c rest IH]; intros m Hg.
  - cbn. rewrite add_trace_nil. reflexivity.
  - destruct c as [to caught | | to | e]; cbn [run_cmds callback_run].
    + rewrite (transition_while_transitioning fuel to m Hg).
      destruct caught.
      * rewrite IH by exact Hg. cbn [state log].
        destruct (callback_run (state m) rest) as [evs escaped]. cbn [fst snd].
        f_equal. f_equal. unfold add_trace, log. cbn. rewrite <- app_assoc. reflexivity.
      * reflexivity.
    + apply IH. exact Hg.
    + apply IH. exact Hg.
    + cbn. rewrite add_trace_nil. reflexivity.
Qed.

Lemma run_callbacks_exact (fuel : nat) (from to : ConnectionState)
    (cbs : list (nat * TransitionCallback)) :
  forall m, isTransitioning m = true ->
    run_callbacks (transition fuel) cbs from to m =
    Some (add_trace
            (flat_map (fun p => callback_events (state m) (snd p from to)) cbs) m).
Proof.
  induction cbs as [| [id cb] rest IH]; intros m Hg.
  - cbn. rewrite add_trace_nil. reflexivity.
  - cbn [run_callbacks flat_map snd]. rewrite (run_cmds_exact fuel _ m Hg).
    unfold callback_events at 1.
    destruct (callback_run (state m) (cb from to)) as [evs [e |]]; cbn [fst snd].
    + rewrite IH by exact Hg. cbn [state log add_trace].
      f_equal. unfold add_trace, log. cbn. rewrite <- !app_assoc. reflexivity.
    + rewrite IH by exact Hg. rewrite add_trace_add_trace, app_nil_r. reflexivity.
Qed.

(** A valid transition of a machine at rest, with callbacks that register
    and remove no callback: every registered callback runs once, in the
    order of registration. *)
Lemma plain_transition_exact (fuel : nat) (to : ConnectionState) (m : Machine) :
  isTransitioning m = false ->
  canTransition m to = true ->
  transition (S fuel) to m =
  Returned
    {| state := to; callbacks := callbacks m; isTransitioning := false;
       trace := trace m ++
                flat_map (fun p => callback_events to (snd p (state m) to))
                         (callbacks m) |}.
Proof.
  intros Hrest Hok. cbn [transition]. rewrite Hrest, Hok. cbn [negb].
  rewrite run_callbacks_exact by reflexivity. reflexivity.
Qed.

(** A callback that throws, and one that tries to move the machine on. *)
Definition faulty : TransitionCallback :=
  fun _ _ => [Throw (new_Error "listener failed")].

Definition pushy : TransitionCallback :=
  fun _ _ => [CallTransition connected true; CallGetState].

Definition observed_machine : Machine :=
  onTransition 2 pushy (onTransition 1 faulty (createStateMachine disconnected)).

Example observed_machine_trace :
  trace (machine_of (transition 1 connecting observed_machine) observed_machine) =
  [ConsoleError (new_Error "listener failed");
   InnerTransition connected (Some (reentrant_error connecting connected)) connecting].
Proof. reflexivity. Qed.

(** ** Subscriptions *)

Definition registered (id : nat) (m : Machine) : bool :=
  existsb (fun p => Nat.eqb (fst p) id) (callbacks m).

Lemma filter_unregistered (id : nat) (l : list (nat * TransitionCallback)) :
  existsb (fun p => Nat.eqb (fst p) id) l = false ->
  List.filter (fun p => negb (Nat.eqb (fst p) id)) l = l.
Proof.
  induction l as [| p l IH]; intros H; [reflexivity |].
  cbn in H |- *. apply orb_false_iff in H. destruct H as [Hp Hl].
  rewrite Hp. cbn. rewrite (IH Hl). reflexivity.
Qed.

Lemma registered_filter (id : nat) (l : list (nat * TransitionCallback)) :
  existsb (fun p => Nat.eqb (fst p) id)
    (List.filter (fun p => negb (Nat.eqb (fst p) id)) l) = false.
Proof.
  induction l as [| p l IH]; [reflexivity |].
  cbn. destruct (Nat.eqb (fst p) id) eqn:Hp; cbn; [exact IH |].
  rewrite Hp. exact IH.
Qed.

(** X19.  Subscriptions are a set.  Registering a callback that is
    registered already changes nothing, so it is notified once per
    transition; the unsubscribe function removes the callback, and is
    idempotent; and subscribing a new callback and unsubscribing it again
    gives the machine back as it was, so that its transitions are the ones
    of the machine before. *)
Theorem subscription_round_trip (id : nat) (cb cb' : TransitionCallback) (m : Machine)
    (fuel : nat) (to : ConnectionState) :
  onTransition id cb' (onTransition id cb m) = onTransition id cb m /\
  registered id (onTransition id cb m) = true /\
  registered id (unsubscribe id m) = false /\
  unsubscribe id (unsubscribe id m) = unsubscribe id m /\
  (if registered id m
   then onTransition id cb m = m
   else unsubscribe id (onTransition id cb m) = m /\
        transition fuel to (unsubscribe id (onTransition id cb m)) =
        transition fuel to m).
Proof.
  assert (Hreg : registered id (onTransition id cb m) = true).
  { unfold registered, onTransition.
    destruct (existsb (fun p => Nat.eqb (fst p) id) (callbacks m)) eqn:H; [exact H |].
    cbn [callbacks]. rewrite existsb_app. cbn. rewrite Nat.eqb_refl.
    rewrite orb_true_r. reflexivity. }
  assert (Hun : registered id (unsubscribe id m) = false)
    by apply registered_filter.
  split; [| split; [exact Hreg | split; [exact Hun | split]]].
  - unfold onTransition at 1. unfold registered in Hreg. rewrite Hreg. reflexivity.
  - unfold unsubscribe at 1. cbn [state callbacks isTransitioning trace unsubscribe].
    rewrite filter_unregistered by apply registered_filter. reflexivity.
  - unfold registered. destruct (existsb _ (callbacks m)) eqn:H.
    + unfold onTransition. rewrite H. reflexivity.
    + assert (Hback : unsubscribe id (onTransition id cb m) = m).
      { unfold onTransition. rewrite H. unfold unsubscribe. cbn.
        rewrite List.filter_app. cbn. rewrite Nat.eqb_refl. cbn.
        rewrite app_nil_r, (filter_unregistered id _ H). destruct m; reflexivity. }
      split; [exact Hback | rewrite Hback; reflexivity].
Qed.

(** ** Walks *)

(** The state after a sequence of [transition] calls, by the table of the
    specification: a call the table allows moves the state, any other call
    leaves it. *)
Definition walk (st : ConnectionState) (targets : list ConnectionState)
    : ConnectionState :=
  fold_left (fun st to => if allowed_by_spec st to then to else st) targets st.

(** [transition] called for each target in turn, by a caller that catches
    the exceptions. *)
Definition drive (fuel : nat) (targets : list ConnectionState) (m : Machine) : Machine :=
  fold_left (fun m to => machine_of (transition fuel to m) m) targets m.

Lemma walk_to_connected (targets : list ConnectionState) :
  forall st, st <> connected -> walk st targets = connected ->
    st = connecting \/ In connecting targets.
Proof.
  induction targets as [| to rest IH]; intros st Hst Hw.
  - cbn in Hw. contradiction.
  - cbn [walk fold_left] in Hw. fold (walk (if allowed_by_spec st to
                                             then to else st) rest) in Hw.
    destruct (allowed_by_spec st to) eqn:Hok.
    + destruct (ConnectionState_eqb to connected) eqn:Hto.
      * destruct to; try discriminate Hto.
        destruct st; try (cbn in Hok; discriminate Hok). left. reflexivity.
      * destruct (IH to) as [-> | Hin]; [| exact Hw | right; left; reflexivity |
                                          right; right; exact Hin].
        intros ->. discriminate Hto.
    + destruct (IH st Hst Hw) as [Hc | Hin]; [left; exact Hc | right; right; exact Hin].
Qed.

Lemma drive_walks (fuel : nat) (targets : list ConnectionState) :
  forall m, isTransitioning m = false ->
    state (drive (S fuel) targets m) = walk (state m) targets /\
    isTransitioning (drive (S fuel) targets m) = false.
Proof.
  induction targets as [| to rest IH]; intros m Hrest; [auto |].
  cbn [drive walk fold_left].
  fold (drive (S fuel) rest (machine_of (transition (S fuel) to m) m)).
  fold (walk (if allowed_by_spec (state m) to then to else state m) rest).
  rewrite <- (canTransition_table m to).
  destruct (canTransition m to) eqn:Hok.
  - destruct (transition_valid fuel to m Hrest Hok) as (m' & evs & Hr & Hs & Ht & _).
    rewrite Hr. cbn [machine_of]. rewrite <- Hs. apply IH. exact Ht.
  - rewrite (transition_invalid (S fuel) to m Hrest Hok). cbn [machine_of].
    apply IH. exact Hrest.
Qed.

(** X20.  However [transition] is called, with valid targets or not, the
    state of a machine moves along the edges of the specification's table
    only: after any sequence of calls made at rest, the state is the one the
    table leads to, a refused call having left it where it was, and the
    machine is at rest again.  In particular [connected] is entered from
    [connecting] only: a machine that was not connected and is now has been
    in [connecting]. *)
Theorem state_walks_the_table (fuel : nat) (targets : list ConnectionState)
    (m : Machine) :
  isTransitioning m = false ->
  let m' := drive (S fuel) targets m in
  state m' = walk (state m) targets /\
  isTransitioning m' = false /\
  (state m <> connected -> state m' = connected ->
   state m = connecting \/ In connecting targets).
Proof.
  intros Hrest m'.
  destruct (drive_walks fuel targets m Hrest) as (Hs & Ht). fold m' in Hs, Ht.
  split; [exact Hs |]. split; [exact Ht |].
  intros Hnot Hnow. rewrite Hs in Hnow. exact (walk_to_connected targets _ Hnot Hnow).
Qed.

Lemma state_walks_the_table_witness :
  let m' := drive 1 [connected; connecting; connecting; connected] observed_machine in
  state m' = walk (state observed_machine) [connected; connecting; connecting; connected] /\
  isTransitioning m' = false /\
  (state observed_machine <> connected -> state m' = connected ->
   state observed_machine = connecting \/
   In connecting [connected; connecting; connecting; connected]).
Proof.
  apply (state_walks_the_table 0 [connected; connecting; connecting; connected]
           observed_machine).
  reflexivity.
Defined.

End StateMachineRuns.

(* ===================================================================== *)
(** * Transitions whose callbacks register and remove callbacks *)
(* ===================================================================== *)

Module LiveCallbacksFacts.
Import Errors.
Import StateMachine(ConnectionState, disconnected, connecting, connected, error,
                    VALID_TRANSITIONS, includes, Cmd, CallTransition, CallGetState,
                    CallCanTransition, Throw, Event, InnerTransition, ConsoleError,
                    reentrant_error, invalid_error).
Import StateMachineRuns(callback_run, callback_events).
Import LiveCallbacks.

Definition add_trace (evs : list Event) (m : Machine) : Machine :=
  {| state := state m; callbacks := callbacks m;
     isTransitioning := isTransitioning m; trace := trace m ++ evs |}.

Lemma add_trace_empty (m : Machine) : add_trace [] m = m.
Proof. destruct m. unfold add_trace. cbn. rewrite app_nil_r. reflexivity. Qed.

Lemma add_trace_twice (l1 l2 : list Event) (m : Machine) :
  add_trace l2 (add_trace l1 m) = add_trace (l1 ++ l2) m.
Proof. unfold add_trace. cbn. rewrite app_assoc. reflexivity. Qed.

Section Bodies.

Variable body : nat -> ConnectionState -> ConnectionState -> list LiveCmd.

Lemma transition_guarded (fuel : nat) (to : ConnectionState) (m : Machine) :
  isTransitioning m = true ->
  transition body fuel to m = Threw (reentrant_error (state m) to) m.
Proof. intros H. destruct fuel; cbn; rewrite H; reflexivity. Qed.

(** A body without registrations and removals, run with the guard held. *)
Lemma run_cmds_plain (fuel : nat) (cmds : list Cmd) :
  forall m, isTransitioning m = true ->
    run_cmds (transition body fuel) (map Plain cmds) m =
    Some (add_trace (fst (callback_run (state m) cmds)) m,
          snd (callback_run (state m) cmds)).
Proof.
  induction cmds as [| c rest IH]; intros m Hg.
  - cbn. rewrite add_trace_empty. reflexivity.
  - destruct c as [to caught | | to | e]; cbn [map run_cmds callback_run].
    + rewrite (transition_guarded fuel to m Hg).
      destruct caught.
      * rewrite IH by exact Hg. cbn [state log].
        destruct (callback_run (state m) rest) as [evs escaped]. cbn [fst snd].
        f_equal. f_equal. unfold add_trace, log. cbn. rewrite <- app_assoc. reflexivity.
      * reflexivity.
    + apply IH. exact Hg.
    + apply IH. exact Hg.
    + cbn. rewrite add_trace_empty. reflexivity.
Qed.

(** The loop over callbacks that neither register nor remove callbacks:
    every value in an entry from [index] on is called once, in order. *)
Lemma for_of_plain (cmds : nat -> list Cmd) (from to : ConnectionState) (f : nat) :
  forall (k fuel index : nat) (m : Machine),
    isTransitioning m = true ->
    (forall id, Some id ∈ callbacks m -> body id from to = map Plain (cmds id)) ->
    (length (callbacks m) - index <= k)%nat -> (k < fuel)%nat ->
    for_of body (transition body f) fuel index from to m =
    Some (add_trace
            (flat_map (fun id => callback_events (state m) (cmds id))
                      (values (drop index (callbacks m)))) m).
Proof.
  induction k as [| k IH]; intros fuel index m Hg Hplain Hk Hfuel.
  - destruct fuel as [| fuel]; [lia |]. cbn [for_of].
    rewrite (lookup_ge_None_2 (callbacks m) index) by lia. rewrite drop_ge by lia.
    cbn. rewrite add_trace_empty. reflexivity.
  - destruct fuel as [| fuel]; [lia |]. cbn [for_of].
    destruct (callbacks m !! index) as [[id |] |] eqn:Hentry.
    + assert (Hvals : values (drop index (callbacks m)) =
                      id :: values (drop (S index) (callbacks m)))
        by (rewrite (drop_S _ _ _ Hentry); reflexivity).
      rewrite Hvals. cbn [flat_map].
      rewrite (Hplain id) by (eapply list_elem_of_lookup_2; exact Hentry).
      rewrite (run_cmds_plain f (cmds id) m Hg).
      set (rest := flat_map _ (values (drop (S index) (callbacks m)))).
      unfold callback_events.
      destruct (callback_run (state m) (cmds id)) as [evs [e |]]; cbn [fst snd].
      * rewrite (IH fuel (S index) (log (ConsoleError e) (add_trace evs m)));
          [| exact Hg | exact Hplain | cbn [callbacks log add_trace]; lia | lia].
        fold rest. unfold add_trace, log. cbn [state callbacks isTransitioning trace].
        rewrite <- !app_assoc. reflexivity.
      * rewrite (IH fuel (S index) (add_trace evs m));
          [| exact Hg | exact Hplain | cbn [callbacks add_trace]; lia | lia].
        fold rest. unfold add_trace. cbn [state callbacks isTransitioning trace].
        rewrite app_nil_r, <- !app_assoc. reflexivity.
    + assert (Hvals : values (drop index (callbacks m)) =
                      values (drop (S index) (callbacks m)))
        by (rewrite (drop_S _ _ _ Hentry); reflexivity).
      rewrite Hvals. apply IH; [exact Hg | exact Hplain | lia | lia].
    + rewrite drop_ge by (apply lookup_ge_None_1; exact Hentry).
      cbn. rewrite add_trace_empty. reflexivity.
Qed.

(** X18.  A valid transition of a machine at rest whose callbacks register
    and remove no callback while they run notifies every registered callback
    once, in the order of registration, with the guard held: the trace grows
    by what each callback does at the new state, one callback after the
    other, an exception that escapes a callback is reported to
    [console.error] and does not keep the later callbacks from running, and
    afterwards the machine is at the target, at rest, with the same
    callbacks.  (The loop runs over the set itself: a callback that another
    callback removes before its turn is not notified, and one that is
    registered while the loop runs is.) *)
Theorem transition_notifies_in_order (cmds : nat -> list Cmd) (fuel : nat)
    (to : ConnectionState) (m : Machine) :
  isTransitioning m = false ->
  canTransition m to = true ->
  (forall id, Some id ∈ callbacks m -> body id (state m) to = map Plain (cmds id)) ->
  (length (callbacks m) < fuel)%nat ->
  transition body (S fuel) to m =
  Returned
    {| state := to; callbacks := callbacks m; isTransitioning := false;
       trace := trace m ++
                flat_map (fun id => callback_events to (cmds id))
                         (values (callbacks m)) |}.
Proof.
  intros Hrest Hok Hplain Hfuel. cbn [transition]. rewrite Hrest, Hok. cbn [negb].
  rewrite (for_of_plain cmds (state m) to fuel (length (callbacks m)) fuel 0);
    [| reflexivity | exact Hplain | cbn [callbacks]; lia | exact Hfuel].
  cbn [callbacks state drop add_trace trace]. reflexivity.
Qed.

End Bodies.

(** The machine of [StateMachine] is this machine for callbacks that
    register and remove no callback: both refuse the same calls with the
    same error, and a valid transition leaves the same state and the same
    trace. *)
Lemma agrees_with_StateMachine (cb : nat -> StateMachine.TransitionCallback)
    (fuel : nat) (to : ConnectionState) (m : Machine) :
  isTransitioning m = false ->
  (length (callbacks m) < fuel)%nat ->
  let simple :=
    StateMachine.mkMachine (state m) (map (fun id => (id, cb id)) (values (callbacks m)))
      false (trace m) in
  match transition (fun id from to => map Plain (cb id from to)) (S fuel) to m,
        StateMachine.transition (S fuel) to simple with
  | Returned m', StateMachine.Returned simple' =>
      state m' = StateMachine.state simple' /\
      trace m' = StateMachine.trace simple' /\
      isTransitioning m' = StateMachine.isTransitioning simple' /\
      map (fun id => (id, cb id)) (values (callbacks m')) = StateMachine.callbacks simple'
  | Threw e m', StateMachine.Threw e' simple' => e = e' /\ m' = m /\ simple' = simple
  | _, _ => False
  end.
Proof.
  intros Hrest Hfuel simple.
  assert (Hcan : StateMachine.canTransition simple to = canTransition m to) by reflexivity.
  destruct (canTransition m to) eqn:Hok.
  - rewrite (StateMachineRuns.plain_transition_exact fuel to simple eq_refl Hcan).
    cbn [transition]. rewrite Hrest, Hok. cbn [negb].
    rewrite (for_of_plain _ (fun id => cb id (state m) to) (state m) to fuel
               (length (callbacks m)) fuel 0);
      [| reflexivity | intros id _; reflexivity | cbn [callbacks]; lia | exact Hfuel].
    cbn [callbacks state drop add_trace trace isTransitioning
         StateMachine.state StateMachine.trace StateMachine.isTransitioning
         StateMachine.callbacks simple].
    assert (Hflat : forall l : list nat,
              flat_map (fun p => callback_events to (snd p (state m) to))
                       (map (fun id => (id, cb id)) l) =
              flat_map (fun id => callback_events to (cb id (state m) to)) l).
    { induction l as [| id l IH]; [reflexivity |].
      cbn [map flat_map snd]. rewrite IH. reflexivity. }
    rewrite Hflat. repeat split.
  - cbn [transition]. rewrite Hrest, Hok. cbn [negb].
    rewrite (StateMachineFacts.transition_invalid (S fuel) to simple eq_refl Hcan).
    repeat split.
Qed.

(** Three callbacks: the first throws, the second tries to move the machine
    on, the third reads the state.  A fourth callback was registered and
    removed. *)
Definition quiet_bodies (id : nat) : list Cmd :=
  match id with
  | 1%nat => [Throw (new_Error "listener failed")]
  | 2%nat => [CallTransition connected true; CallGetState]
  | _ => [CallGetState]
  end.

Definition quiet_body (id : nat) (_ _ : ConnectionState) : list LiveCmd :=
  map Plain (quiet_bodies id).

Definition observed_machine : Machine :=
  onTransition 3 (unsubscribe 4 (onTransition 2 (onTransition 4 (onTransition 1
    (createStateMachine disconnected))))).

Lemma transition_notifies_in_order_witness :
  transition quiet_body 6 connecting observed_machine =
  Returned
    {| state := connecting; callbacks := callbacks observed_machine;
       isTransitioning := false;
       trace := trace observed_machine ++
                flat_map (fun id => callback_events connecting (quiet_bodies id))
                         (values (callbacks observed_machine)) |}.
Proof.
  apply (transition_notifies_in_order quiet_body quiet_bodies 5 connecting
           observed_machine).
  - reflexivity.
  - reflexivity.
  - intros id _. reflexivity.
  - vm_compute. lia.
Defined.

Example observed_machine_notified :
  values (callbacks observed_machine) = [1%nat; 2%nat; 3%nat] /\
  transition quiet_body 6 connecting observed_machine =
  Returned
    {| state := connecting; callbacks := [Some 1%nat; None; Some 2%nat; Some 3%nat];
       isTransitioning := false;
       trace :=
         [ConsoleError (new_Error "listener failed");
          InnerTransition connected (Some (reentrant_error connecting connected))
            connecting] |}.
Proof. split; reflexivity. Qed.

(** The loop runs over the set itself.  The first callback removes the
    second and registers a fourth: the second is not notified, the fourth
    is, after the third. *)
Definition meddling_body (id : nat) (_ _ : ConnectionState) : list LiveCmd :=
  match id with
  | 1%nat => [CallUnsubscribe 2; CallOnTransition 4]
  | _ => [Plain (Throw (new_Error ("callback " ++ Retry.show_Z (Z.of_nat id))))]
  end.

Example meddling_callback :
  transition meddling_body 6 connecting
    (onTransition 3 (onTransition 2 (onTransition 1 (createStateMachine disconnected)))) =
  Returned
    {| state := connecting;
       callbacks := [Some 1%nat; None; Some 3%nat; Some 4%nat];
       isTransitioning := false;
       trace := [ConsoleError (new_Error "callback 3");
                 ConsoleError (new_Error "callback 4")] |}.
Proof. vm_compute. reflexivity. Qed.

(** A callback that removes itself is notified once and not again. *)
Definition one_shot_body (id : nat) (_ _ : ConnectionState) : list LiveCmd :=
  [CallUnsubscribe id; Plain (Throw (new_Error "once"))].

Example one_shot_callback :
  let m := onTransition 1 (createStateMachine disconnected) in
  match transition one_shot_body 3 connecting m with
  | Returned m1 =>
      values (callbacks m1) = [] /\ trace m1 = [ConsoleError (new_Error "once")] /\
      match transition one_shot_body 3 connected m1 with
      | Returned m2 => trace m2 = trace m1 /\ state m2 = connected
      | _ => False
      end
  | _ => False
  end.
Proof. vm_compute. repeat split. Qed.

End LiveCallbacksFacts.

(* ===================================================================== *)
(** * Properties of the event emitter *)
(* ===================================================================== *)

Module EventEmitterFacts.
Import Errors EventEmitter.

(** ** Sets and maps of functions *)

Lemma elem_of_set_add (x y : Fn) (l : list Fn) :
  y ∈ set_add x l <-> y = x \/ y ∈ l.
Proof.
  unfold set_add. case_bool_decide as Hx.
  - split; [auto |]. intros [-> | H]; assumption.
  - rewrite elem_of_app, list_elem_of_singleton. tauto.
Qed.

Lemma NoDup_set_add (x : Fn) (l : list Fn) : NoDup l -> NoDup (set_add x l).
Proof.
  intros H. unfold set_add. case_bool_decide as Hx; [exact H |].
  apply NoDup_app. split; [exact H |]. split; [| apply NoDup_singleton].
  intros y Hy Hy'. apply list_elem_of_singleton in Hy'. subst y. contradiction.
Qed.

Lemma set_add_member (x : Fn) (l : list Fn) : x ∈ l -> set_add x l = l.
Proof. intros H. unfold set_add. rewrite bool_decide_eq_true_2 by exact H. reflexivity. Qed.

Lemma elem_of_set_delete (x y : Fn) (l : list Fn) :
  y ∈ set_delete x l <-> y <> x /\ y ∈ l.
Proof.
  unfold set_delete. rewrite !list_elem_of_In, List.filter_In, negb_true_iff,
    bool_decide_eq_false. tauto.
Qed.

Lemma NoDup_set_delete (x : Fn) (l : list Fn) : NoDup l -> NoDup (set_delete x l).
Proof.
  intros H. unfold set_delete. apply NoDup_ListNoDup.
  apply List.NoDup_filter. apply NoDup_ListNoDup. exact H.
Qed.

Lemma set_delete_absent (x : Fn) (l : list Fn) : x ∉ l -> set_delete x l = l.
Proof.
  unfold set_delete. induction l as [| y l IH]; intros H; [reflexivity |].
  apply not_elem_of_cons in H. destruct H as [Hne Hl]. cbn.
  rewrite bool_decide_eq_false_2 by congruence. cbn. rewrite (IH Hl). reflexivity.
Qed.

Lemma set_delete_snoc (x : Fn) (l : list Fn) : x ∉ l -> set_delete x (l ++ [x]) = l.
Proof.
  intros H. unfold set_delete. rewrite List.filter_app. cbn.
  rewrite bool_decide_eq_true_2 by reflexivity. cbn. rewrite app_nil_r.
  apply set_delete_absent. exact H.
Qed.

Lemma elem_of_map_delete (k : Fn) (p : Fn * Fn) (m : list (Fn * Fn)) :
  p ∈ map_delete k m <-> fst p <> k /\ p ∈ m.
Proof.
  unfold map_delete. rewrite !list_elem_of_In, List.filter_In, negb_true_iff,
    bool_decide_eq_false. tauto.
Qed.

Lemma elem_of_map_set (k v : Fn) (p : Fn * Fn) (m : list (Fn * Fn)) :
  p ∈ map_set k v m -> p = (k, v) \/ (p ∈ m /\ fst p <> k).
Proof.
  unfold map_set. destruct (existsb _ m) eqn:Hex.
  - intros H. apply list_elem_of_In, in_map_iff in H. destruct H as (q & <- & Hq).
    apply list_elem_of_In in Hq.
    case_bool_decide as Hk; [left; reflexivity | right; auto].
  - intros H. apply elem_of_app in H. destruct H as [H | H].
    + right. split; [exact H |]. intros Hk.
      assert (Hex' : existsb (fun p => bool_decide (fst p = k)) m = true).
      { apply existsb_exists. exists p. split; [apply list_elem_of_In; exact H |].
        apply bool_decide_eq_true_2. exact Hk. }
      congruence.
    + apply list_elem_of_singleton in H. left. exact H.
Qed.

Lemma map_get_None (k : Fn) (m : list (Fn * Fn)) :
  (forall p, p ∈ m -> fst p <> k) -> map_get k m = None.
Proof.
  intros H. unfold map_get.
  destruct (List.find _ m) as [p |] eqn:Hf; [| reflexivity].
  apply List.find_some in Hf. destruct Hf as [Hin Hk].
  apply bool_decide_eq_true in Hk. apply list_elem_of_In in Hin.
  contradiction (H p Hin Hk).
Qed.

(** ** What the operations leave alone *)

(** The operations other than a delivery call no callback and report no
    error, and the closures of the wrappers are only ever added to. *)
Definition quiet (e e' : Emitter) : Prop :=
  called e' = called e /\ reported e' = reported e /\
  wrappers e `prefix_of` wrappers e'.

Lemma quiet_refl (e : Emitter) : quiet e e.
Proof. repeat split; reflexivity. Qed.

Lemma quiet_trans (e1 e2 e3 : Emitter) : quiet e1 e2 -> quiet e2 e3 -> quiet e1 e3.
Proof.
  intros (Hc & Hr & Hw) (Hc' & Hr' & Hw'). repeat split; try congruence.
  etransitivity; eassumption.
Qed.

Lemma quiet_on (event : string) (id : nat) (e : Emitter) : quiet e (on event id e).
Proof. repeat split; reflexivity. Qed.

Lemma quiet_once (event : string) (id : nat) (e : Emitter) : quiet e (once event id e).
Proof. repeat split; try reflexivity. cbn. apply prefix_app_r. reflexivity. Qed.

Lemma quiet_off (event : string) (fn : Fn) (e : Emitter) : quiet e (off event fn e).
Proof.
  unfold off. destruct (listeners e !! event); [| apply quiet_refl].
  destruct (map_get fn (onceWrappers e)); repeat split; reflexivity.
Qed.

Lemma quiet_removeAllListeners (event : option string) (e : Emitter) :
  quiet e (removeAllListeners event e).
Proof. destruct event; repeat split; reflexivity. Qed.

Lemma run_body_quiet (cmds : list Cmd) :
  forall e, quiet e (fst (run_body cmds e)) /\ snd (run_body cmds e) = escapes cmds.
Proof.
  induction cmds as [| c rest IH]; intros e; [split; [apply quiet_refl | reflexivity] |].
  destruct c as [ev id | ev id | ev id | ev | err]; cbn [run_body escapes].
  - destruct (IH (on ev id e)) as [Hq Ht]. split; [| exact Ht].
    eapply quiet_trans; [apply quiet_on | exact Hq].
  - destruct (IH (once ev id e)) as [Hq Ht]. split; [| exact Ht].
    eapply quiet_trans; [apply quiet_once | exact Hq].
  - destruct (IH (off ev (Callback id) e)) as [Hq Ht]. split; [| exact Ht].
    eapply quiet_trans; [apply quiet_off | exact Hq].
  - destruct (IH (removeAllListeners ev e)) as [Hq Ht]. split; [| exact Ht].
    eapply quiet_trans; [apply quiet_removeAllListeners | exact Hq].
  - split; [apply quiet_refl | reflexivity].
Qed.

Section Delivery.

Variable body : nat -> Data -> list Cmd.

(** One delivery: the callback behind the listener is called once, with the
    payload, and what escapes it is what its body throws. *)
Lemma call_effect (fn : Fn) (data : Data) (e : Emitter) :
  let e' := fst (call body fn data e) in
  called e' = called e ++
              match target e fn with Some id => [(id, data)] | None => [] end /\
  reported e' = reported e /\
  wrappers e `prefix_of` wrappers e' /\
  snd (call body fn data e) =
    match target e fn with Some id => escapes (body id data) | None => None end.
Proof.
  assert (Hcb : forall id e0,
            called (fst (call_callback body id data e0)) = called e0 ++ [(id, data)] /\
            reported (fst (call_callback body id data e0)) = reported e0 /\
            wrappers e0 `prefix_of` wrappers (fst (call_callback body id data e0)) /\
            snd (call_callback body id data e0) = escapes (body id data)).
  { intros id e0. unfold call_callback.
    match goal with |- context [run_body ?c ?x] =>
      destruct (run_body_quiet c x) as [(Hc & Hr & Hw) Ht] end.
    cbn in Hc, Hr, Hw. auto. }
  destruct fn as [id | w]; cbn [call target].
  - apply Hcb.
  - destruct (wrappers e !! w) as [[ev id] |] eqn:Hw.
    + match goal with |- context [call_callback body id data ?x] =>
        destruct (Hcb id x) as (Hc & Hr & Hp & Ht);
        assert (Hq : quiet e x) end.
      { eapply quiet_trans; [| apply quiet_off]. repeat split; reflexivity. }
      destruct Hq as (Hc0 & Hr0 & Hp0).
      cbv zeta. rewrite Hc, Hr, Hc0, Hr0, Ht.
      repeat split; try reflexivity. etransitivity; eassumption.
    + cbn. rewrite app_nil_r. repeat split; reflexivity.
Qed.

Lemma target_prefix (e e' : Emitter) (fn : Fn) (id : nat) :
  wrappers e `prefix_of` wrappers e' -> target e fn = Some id -> target e' fn = Some id.
Proof.
  intros Hp. destruct fn as [id' | w]; cbn; [auto |].
  destruct (wrappers e !! w) as [[ev id'] |] eqn:Hw; [| discriminate].
  rewrite (prefix_lookup_Some _ _ _ _ Hw Hp). auto.
Qed.

(** The payloads delivered to a list of listeners, and the errors reported. *)
Definition deliveries (e : Emitter) (data : Data) (l : list Fn) : list (nat * Data) :=
  omap (fun fn => match target e fn with Some id => Some (id, data) | None => None end) l.

Definition failures (e : Emitter) (data : Data) (l : list Fn) : list Error :=
  omap (fun fn => match target e fn with
                  | Some id => escapes (body id data)
                  | None => None
                  end) l.

Lemma deliver_all (e : Emitter) (data : Data) (l : list Fn) :
  (forall fn, fn ∈ l -> is_Some (target e fn)) ->
  forall e0, wrappers e `prefix_of` wrappers e0 ->
    called (fold_left (deliver body data) l e0) = called e0 ++ deliveries e data l /\
    reported (fold_left (deliver body data) l e0) = reported e0 ++ failures e data l /\
    wrappers e `prefix_of` wrappers (fold_left (deliver body data) l e0).
Proof.
  induction l as [| fn l IH]; intros Hall e0 Hp.
  - cbn. rewrite !app_nil_r. auto.
  - destruct (Hall fn) as [id Hid]; [apply elem_of_cons; left; reflexivity |].
    pose proof (target_prefix e e0 fn id Hp Hid) as Hid0.
    destruct (call_effect fn data e0) as (Hc & Hr & Hw & Ht). rewrite Hid0 in Hc, Ht.
    assert (Hstep : called (deliver body data e0 fn) = called e0 ++ [(id, data)] /\
                    reported (deliver body data e0 fn) =
                      reported e0 ++ match escapes (body id data) with
                                     | Some err => [err] | None => [] end /\
                    wrappers e0 `prefix_of` wrappers (deliver body data e0 fn)).
    { unfold deliver. destruct (call body fn data e0) as [e1 thrown].
      cbn [fst snd] in Hc, Hr, Hw, Ht. subst thrown.
      destruct (escapes (body id data)); cbn; rewrite ?app_nil_r, ?Hr; auto. }
    destruct Hstep as (Hc1 & Hr1 & Hw1).
    destruct (IH (fun fn' H => Hall fn' (proj2 (elem_of_cons _ _ _) (or_intror H)))
                 (deliver body data e0 fn)) as (Hc2 & Hr2 & Hw2).
    { etransitivity; eassumption. }
    cbn [fold_left]. rewrite Hc2, Hr2, Hc1, Hr1.
    unfold deliveries, failures. cbn [omap list_omap]. rewrite Hid.
    split; [rewrite <- app_assoc; reflexivity |].
    split; [| exact Hw2].
    rewrite <- app_assoc. destruct (escapes (body id data)); reflexivity.
Qed.

End Delivery.

(** ** The invariant of the emitter *)

(** Every wrapper in the listener set of an event closes over that event;
    [onceWrappers] maps callbacks to wrappers that exist; and a listener set
    holds a function once. *)
Record WF (e : Emitter) : Prop := mkWF {
  wf_closed : forall ev set w,
    listeners e !! ev = Some set -> Wrapper w ∈ set ->
    exists id, wrappers e !! w = Some (ev, id);
  wf_keys : forall p, p ∈ onceWrappers e ->
    exists id w, p = (Callback id, Wrapper w) /\ (w < length (wrappers e))%nat;
  wf_nodup : forall ev set, listeners e !! ev = Some set -> NoDup set;
  wf_values : forall p q,
    p ∈ onceWrappers e -> q ∈ onceWrappers e -> snd p = snd q -> p = q
}.

Lemma WF_init : WF createEventEmitter.
Proof.
  constructor; cbn.
  - intros ev set w H. rewrite lookup_empty in H. discriminate H.
  - intros p H. apply elem_of_nil in H. contradiction.
  - intros ev set H. rewrite lookup_empty in H. discriminate H.
  - intros p q H. apply elem_of_nil in H. contradiction.
Qed.

(** The invariant does not read the two logs. *)
Lemma WF_same (e e' : Emitter) :
  listeners e' = listeners e -> onceWrappers e' = onceWrappers e ->
  wrappers e' = wrappers e -> WF e -> WF e'.
Proof.
  intros Hl Ho Hw [Hc Hk Hn Hv]. constructor; rewrite ?Hl, ?Ho, ?Hw; assumption.
Qed.

Lemma WF_add_listener (event : string) (fn : Fn) (e : Emitter) :
  WF e ->
  (forall w, fn = Wrapper w -> exists id, wrappers e !! w = Some (event, id)) ->
  WF (add_listener event fn e).
Proof.
  intros [Hc Hk Hn Hv] Hfn. constructor; cbn.
  - intros ev set w Hset Hw. destruct (decide (event = ev)) as [<- | Hne].
    + rewrite lookup_insert_eq in Hset. injection Hset as <-.
      apply elem_of_set_add in Hw. destruct Hw as [Hw | Hw]; [apply Hfn; auto |].
      destruct (listeners e !! event) as [set |] eqn:Hl; cbn in Hw.
      * exact (Hc event set w Hl Hw).
      * apply elem_of_nil in Hw. contradiction.
    + rewrite lookup_insert_ne in Hset by exact Hne. exact (Hc ev set w Hset Hw).
  - exact Hk.
  - intros ev set Hset. destruct (decide (event = ev)) as [<- | Hne].
    + rewrite lookup_insert_eq in Hset. injection Hset as <-. apply NoDup_set_add.
      destruct (listeners e !! event) as [set |] eqn:Hl; cbn;
        [exact (Hn event set Hl) | apply NoDup_nil_2].
    + rewrite lookup_insert_ne in Hset by exact Hne. exact (Hn ev set Hset).
  - exact Hv.
Qed.

Lemma WF_on (event : string) (id : nat) (e : Emitter) : WF e -> WF (on event id e).
Proof. intros H. apply WF_add_listener; [exact H |]. intros w Hw. discriminate Hw. Qed.

Lemma WF_once (event : string) (id : nat) (e : Emitter) : WF e -> WF (once event id e).
Proof.
  intros [Hc Hk Hn Hv]. unfold once. apply WF_add_listener.
  - constructor; cbn.
    + intros ev set w Hset Hw. destruct (Hc ev set w Hset Hw) as [id' Hid'].
      exists id'. apply lookup_app_l_Some. exact Hid'.
    + intros p Hp. rewrite length_app. cbn.
      apply elem_of_map_set in Hp. destruct Hp as [-> | [Hp _]].
      * exists id, (length (wrappers e)). split; [reflexivity | lia].
      * destruct (Hk p Hp) as (id' & w & -> & Hlt). exists id', w.
        split; [reflexivity | lia].
    + exact Hn.
    + intros p q Hp Hq Heq.
      apply elem_of_map_set in Hp. apply elem_of_map_set in Hq.
      destruct Hp as [-> | [Hp _]], Hq as [-> | [Hq _]].
      * reflexivity.
      * destruct (Hk q Hq) as (id' & w & -> & Hlt). cbn in Heq.
        injection Heq as Heq. lia.
      * destruct (Hk p Hp) as (id' & w & -> & Hlt). cbn in Heq.
        injection Heq as Heq. lia.
      * exact (Hv p q Hp Hq Heq).
  - intros w Hw. injection Hw as <-. exists id. cbn.
    apply list_lookup_middle. reflexivity.
Qed.

Lemma WF_off (event : string) (fn : Fn) (e : Emitter) : WF e -> WF (off event fn e).
Proof.
  intros [Hc Hk Hn Hv]. unfold off.
  destruct (listeners e !! event) as [set0 |] eqn:Hl; [| constructor; assumption].
  assert (Hsub : forall x (ev : string) (set : list Fn) (w : nat),
            <[event := set_delete x set0]> (listeners e) !! ev = Some set ->
            Wrapper w ∈ set -> exists id, wrappers e !! w = Some (ev, id)).
  { intros x ev set w Hset Hw. destruct (decide (event = ev)) as [<- | Hne].
    - rewrite lookup_insert_eq in Hset. injection Hset as <-.
      apply elem_of_set_delete in Hw. exact (Hc event set0 w Hl (proj2 Hw)).
    - rewrite lookup_insert_ne in Hset by exact Hne. exact (Hc ev set w Hset Hw). }
  assert (Hnd : forall x (ev : string) (set : list Fn),
            <[event := set_delete x set0]> (listeners e) !! ev = Some set -> NoDup set).
  { intros x ev set Hset. destruct (decide (event = ev)) as [<- | Hne].
    - rewrite lookup_insert_eq in Hset. injection Hset as <-.
      apply NoDup_set_delete. exact (Hn event set0 Hl).
    - rewrite lookup_insert_ne in Hset by exact Hne. exact (Hn ev set Hset). }
  destruct (map_get fn (onceWrappers e)) as [wrapper |]; constructor; cbn.
  - apply Hsub.
  - intros p Hp. apply elem_of_map_delete in Hp. exact (Hk p (proj2 Hp)).
  - apply Hnd.
  - intros p q Hp Hq. apply elem_of_map_delete in Hp. apply elem_of_map_delete in Hq.
    exact (Hv p q (proj2 Hp) (proj2 Hq)).
  - apply Hsub.
  - exact Hk.
  - apply Hnd.
  - exact Hv.
Qed.

Lemma elem_of_forget (set : list Fn) :
  forall (ow : list (Fn * Fn)) p, p ∈ fold_left forget_wrapper set ow -> p ∈ ow.
Proof.
  induction set as [| cb set IH]; intros ow p Hp; [exact Hp |].
  cbn in Hp. apply IH in Hp. unfold forget_wrapper in Hp.
  destruct (List.find _ ow); [| exact Hp].
  apply elem_of_map_delete in Hp. exact (proj2 Hp).
Qed.

Lemma WF_removeAllListeners (event : option string) (e : Emitter) :
  WF e -> WF (removeAllListeners event e).
Proof.
  intros [Hc Hk Hn Hv]. destruct event as [event |]; constructor; cbn.
  - intros ev set w Hset Hw. apply lookup_delete_Some in Hset.
    exact (Hc ev set w (proj2 Hset) Hw).
  - intros p Hp. apply Hk. destruct (listeners e !! event); [| exact Hp].
    exact (elem_of_forget _ _ _ Hp).
  - intros ev set Hset. apply lookup_delete_Some in Hset. exact (Hn ev set (proj2 Hset)).
  - intros p q Hp Hq. apply Hv; (destruct (listeners e !! event); [| assumption]);
      eapply elem_of_forget; eassumption.
  - intros ev set w H. rewrite lookup_empty in H. discriminate H.
  - intros p H. apply elem_of_nil in H. contradiction.
  - intros ev set H. rewrite lookup_empty in H. discriminate H.
  - intros p q H. apply elem_of_nil in H. contradiction.
Qed.

Lemma WF_run_body (cmds : list Cmd) : forall e, WF e -> WF (fst (run_body cmds e)).
Proof.
  induction cmds as [| c rest IH]; intros e H; [exact H |].
  destruct c as [ev id | ev id | ev id | ev | err]; cbn [run_body].
  - apply IH. apply WF_on. exact H.
  - apply IH. apply WF_once. exact H.
  - apply IH. apply WF_off. exact H.
  - apply IH. apply WF_removeAllListeners. exact H.
  - exact H.
Qed.

Section Invariant.

Variable body : nat -> Data -> list Cmd.

Lemma WF_call_callback (id : nat) (data : Data) (e : Emitter) :
  WF e -> WF (fst (call_callback body id data e)).
Proof.
  intros H. unfold call_callback. apply WF_run_body.
  apply (WF_same e); auto.
Qed.

Lemma WF_call (fn : Fn) (data : Data) (e : Emitter) :
  WF e -> WF (fst (call body fn data e)).
Proof.
  intros H. destruct fn as [id | w]; cbn [call]; [apply WF_call_callback; exact H |].
  destruct (wrappers e !! w) as [[ev id] |]; [| exact H].
  apply WF_call_callback. apply WF_off.
  destruct H as [Hc Hk Hn Hv]. constructor; cbn; auto.
  - intros p Hp. apply elem_of_map_delete in Hp. exact (Hk p (proj2 Hp)).
  - intros p q Hp Hq. apply elem_of_map_delete in Hp. apply elem_of_map_delete in Hq.
    exact (Hv p q (proj2 Hp) (proj2 Hq)).
Qed.

Lemma WF_deliver (data : Data) (e : Emitter) (fn : Fn) :
  WF e -> WF (deliver body data e fn).
Proof.
  intros H. pose proof (WF_call fn data e H) as H'. unfold deliver.
  destruct (call body fn data e) as [e' [err |]]; cbn [fst] in H'; [| exact H'].
  apply (WF_same e'); auto.
Qed.

Lemma WF_deliver_all (data : Data) (l : list Fn) :
  forall e, WF e -> WF (fold_left (deliver body data) l e).
Proof.
  induction l as [| fn l IH]; intros e H; [exact H |].
  cbn. apply IH. apply WF_deliver. exact H.
Qed.

Lemma WF_emit (event : string) (data : Data) (e : Emitter) :
  WF e -> WF (emit body event data e).
Proof.
  intros H. unfold emit. destruct (listeners e !! event); [| exact H].
  apply WF_deliver_all. exact H.
Qed.

Lemma WF_step (a : Action) (e : Emitter) : WF e -> WF (step body a e).
Proof.
  intros H. destruct a; cbn [step].
  - apply WF_on. exact H.
  - apply WF_once. exact H.
  - apply WF_off. exact H.
  - apply WF_removeAllListeners. exact H.
  - apply WF_emit. exact H.
Qed.

Lemma WF_reachable (e : Emitter) : reachable body e -> WF e.
Proof.
  intros [actions ->].
  assert (H : forall e0, WF e0 -> WF (run body actions e0)).
  { induction actions as [| a rest IH]; intros e0 H0; [exact H0 |].
    cbn. apply IH. apply WF_step. exact H0. }
  apply H. apply WF_init.
Qed.

End Invariant.

(** ** A wrapper that has fired *)

(** The wrapper [w] exists and is in no listener set. *)
Definition Gone (w : nat) (e : Emitter) : Prop :=
  (w < length (wrappers e))%nat /\
  forall ev set, listeners e !! ev = Some set -> Wrapper w ∉ set.

Lemma Gone_same (w : nat) (e e' : Emitter) :
  listeners e' = listeners e -> wrappers e' = wrappers e -> Gone w e -> Gone w e'.
Proof. intros Hl Hw [H1 H2]. split; rewrite ?Hl, ?Hw; assumption. Qed.

Lemma Gone_add_listener (w : nat) (event : string) (fn : Fn) (e : Emitter) :
  fn <> Wrapper w -> Gone w e -> Gone w (add_listener event fn e).
Proof.
  intros Hne [Hlt Hout]. split; [exact Hlt |]. cbn.
  intros ev set Hset Hin. destruct (decide (event = ev)) as [<- | Hev].
  - rewrite lookup_insert_eq in Hset. injection Hset as <-.
    apply elem_of_set_add in Hin. destruct Hin as [Hin | Hin]; [congruence |].
    destruct (listeners e !! event) as [set |] eqn:Hl; cbn in Hin.
    + exact (Hout event set Hl Hin).
    + apply elem_of_nil in Hin. contradiction.
  - rewrite lookup_insert_ne in Hset by exact Hev. exact (Hout ev set Hset Hin).
Qed.

Lemma Gone_on (w : nat) (event : string) (id : nat) (e : Emitter) :
  Gone w e -> Gone w (on event id e).
Proof. apply Gone_add_listener. discriminate. Qed.

Lemma Gone_once (w : nat) (event : string) (id : nat) (e : Emitter) :
  Gone w e -> Gone w (once event id e).
Proof.
  intros [Hlt Hout]. unfold once. apply Gone_add_listener.
  - intros Heq. injection Heq as Heq. lia.
  - split; cbn; [rewrite length_app; lia | exact Hout].
Qed.

Lemma Gone_off (w : nat) (event : string) (fn : Fn) (e : Emitter) :
  Gone w e -> Gone w (off event fn e).
Proof.
  intros [Hlt Hout]. unfold off.
  destruct (listeners e !! event) as [set0 |] eqn:Hl; [| split; assumption].
  assert (H : forall x ev set,
            <[event := set_delete x set0]> (listeners e) !! ev = Some set ->
            Wrapper w ∉ set).
  { intros x ev set Hset Hin. destruct (decide (event = ev)) as [<- | Hev].
    - rewrite lookup_insert_eq in Hset. injection Hset as <-.
      apply elem_of_set_delete in Hin. exact (Hout event set0 Hl (proj2 Hin)).
    - rewrite lookup_insert_ne in Hset by exact Hev. exact (Hout ev set Hset Hin). }
  destruct (map_get fn (onceWrappers e)); split; cbn; auto; apply H.
Qed.

Lemma Gone_removeAllListeners (w : nat) (event : option string) (e : Emitter) :
  Gone w e -> Gone w (removeAllListeners event e).
Proof.
  intros [Hlt Hout]. destruct event as [event |]; split; cbn; auto.
  - intros ev set Hset. apply lookup_delete_Some in Hset. exact (Hout ev set (proj2 Hset)).
  - intros ev set Hset. rewrite lookup_empty in Hset. discriminate Hset.
Qed.

Lemma Gone_run_body (w : nat) (cmds : list Cmd) :
  forall e, Gone w e -> Gone w (fst (run_body cmds e)).
Proof.
  induction cmds as [| c rest IH]; intros e H; [exact H |].
  destruct c as [ev id | ev id | ev id | ev | err]; cbn [run_body].
  - apply IH. apply Gone_on. exact H.
  - apply IH. apply Gone_once. exact H.
  - apply IH. apply Gone_off. exact H.
  - apply IH. apply Gone_removeAllListeners. exact H.
  - exact H.
Qed.

Section Fired.

Variable body : nat -> Data -> list Cmd.

Lemma Gone_call_callback (w id : nat) (data : Data) (e : Emitter) :
  Gone w e -> Gone w (fst (call_callback body id data e)).
Proof.
  intros H. unfold call_callback. apply Gone_run_body. apply (Gone_same w e); auto.
Qed.

Lemma Gone_call (w : nat) (fn : Fn) (data : Data) (e : Emitter) :
  Gone w e -> Gone w (fst (call body fn data e)).
Proof.
  intros H. destruct fn as [id | w']; cbn [call]; [apply Gone_call_callback; exact H |].
  destruct (wrappers e !! w') as [[ev id] |]; [| exact H].
  apply Gone_call_callback. apply Gone_off. apply (Gone_same w e); auto.
Qed.

Lemma Gone_deliver (w : nat) (data : Data) (e : Emitter) (fn : Fn) :
  Gone w e -> Gone w (deliver body data e fn).
Proof.
  intros H. pose proof (Gone_call w fn data e H) as H'. unfold deliver.
  destruct (call body fn data e) as [e' [err |]]; cbn [fst] in H'; [| exact H'].
  apply (Gone_same w e'); auto.
Qed.

Lemma Gone_deliver_all (w : nat) (data : Data) (l : list Fn) :
  forall e, Gone w e -> Gone w (fold_left (deliver body data) l e).
Proof.
  induction l as [| fn l IH]; intros e H; [exact H |].
  cbn. apply IH. apply Gone_deliver. exact H.
Qed.

Lemma Gone_step (w : nat) (a : Action) (e : Emitter) :
  Gone w e -> Gone w (step body a e).
Proof.
  intros H. destruct a; cbn [step].
  - apply Gone_on. exact H.
  - apply Gone_once. exact H.
  - apply Gone_off. exact H.
  - apply Gone_removeAllListeners. exact H.
  - unfold emit. destruct (listeners e !! event); [| exact H].
    apply Gone_deliver_all. exact H.
Qed.

Lemma Gone_run (w : nat) (actions : list Action) :
  forall e, Gone w e -> Gone w (run body actions e).
Proof.
  induction actions as [| a rest IH]; intros e H; [exact H |].
  cbn. apply IH. apply Gone_step. exact H.
Qed.

(** The wrapper removes itself when it is called. *)
Lemma fired_Gone (w : nat) (ev : string) (id : nat) (data : Data) (e : Emitter) :
  WF e -> wrappers e !! w = Some (ev, id) ->
  Gone w (fst (call body (Wrapper w) data e)).
Proof.
  intros [Hc Hk Hn Hv] Hw. cbn [call]. rewrite Hw.
  apply Gone_call_callback.
  assert (Hlt : (w < length (wrappers e))%nat) by (eapply lookup_lt_Some; exact Hw).
  assert (Hget : map_get (Wrapper w) (map_delete (Callback id) (onceWrappers e)) = None).
  { apply map_get_None. intros p Hp Hkey. apply elem_of_map_delete in Hp.
    destruct (Hk p (proj2 Hp)) as (id' & w' & -> & _). discriminate Hkey. }
  assert (Helse : forall ev' set, listeners e !! ev' = Some set -> ev' <> ev ->
            Wrapper w ∉ set).
  { intros ev' set Hset Hne Hin. destruct (Hc ev' set w Hset Hin) as [id' Hid'].
    rewrite Hw in Hid'. injection Hid' as <- _. contradiction Hne. reflexivity. }
  unfold off. cbn [listeners onceWrappers].
  destruct (listeners e !! ev) as [set0 |] eqn:Hl.
  - rewrite Hget. split; [exact Hlt |]. cbn.
    intros ev' set Hset Hin. destruct (decide (ev = ev')) as [<- | Hne].
    + rewrite lookup_insert_eq in Hset. injection Hset as <-.
      apply elem_of_set_delete in Hin. destruct Hin as [Hin _]. contradiction Hin.
      reflexivity.
    + rewrite lookup_insert_ne in Hset by exact Hne.
      exact (Helse ev' set Hset (not_eq_sym Hne) Hin).
  - split; [exact Hlt |]. cbn. intros ev' set Hset.
    apply (Helse ev' set Hset). intros ->. rewrite Hl in Hset. discriminate Hset.
Qed.

Lemma snapshot_Gone (w : nat) (ev : string) (id : nat) (data : Data) (l : list Fn) :
  forall e, WF e -> wrappers e !! w = Some (ev, id) -> Wrapper w ∈ l ->
    Gone w (fold_left (deliver body data) l e).
Proof.
  induction l as [| fn l IH]; intros e HWF Hw Hin.
  - apply elem_of_nil in Hin. contradiction.
  - cbn [fold_left]. destruct (decide (fn = Wrapper w)) as [-> | Hne].
    + apply Gone_deliver_all.
      pose proof (fired_Gone w ev id data e HWF Hw) as HG. unfold deliver.
      destruct (call body (Wrapper w) data e) as [e' [err |]]; cbn [fst] in HG;
        [| exact HG].
      apply (Gone_same w e'); auto.
    + apply elem_of_cons in Hin. destruct Hin as [Hin | Hin]; [congruence |].
      apply IH; [apply WF_deliver; exact HWF | | exact Hin].
      destruct (call_effect body fn data e) as (_ & _ & Hp & _).
      unfold deliver. destruct (call body fn data e) as [e' [err |]]; cbn [fst] in Hp;
        cbn [wrappers]; exact (prefix_lookup_Some _ _ _ _ Hw Hp).
Qed.

End Fired.

(** ** The properties *)

Lemma snapshot_targets (e : Emitter) (event : string) (set : list Fn) :
  WF e -> listeners e !! event = Some set ->
  forall fn, fn ∈ set -> is_Some (target e fn).
Proof.
  intros HWF Hset fn Hin. destruct fn as [id | w]; cbn; [eexists; reflexivity |].
  destruct (wf_closed e HWF event set w Hset Hin) as [id Hid]. rewrite Hid.
  eexists; reflexivity.
Qed.

Lemma length_deliveries (e : Emitter) (data : Data) (l : list Fn) :
  (forall fn, fn ∈ l -> is_Some (target e fn)) ->
  length (deliveries e data l) = length l.
Proof.
  induction l as [| fn l IH]; intros Hall; [reflexivity |].
  destruct (Hall fn) as [id Hid]; [apply elem_of_cons; left; reflexivity |].
  unfold deliveries. cbn [omap list_omap]. rewrite Hid. cbn [length]. f_equal.
  apply IH. intros fn' H. apply Hall. apply elem_of_cons. right. exact H.
Qed.

(** X21.  [emit] delivers the payload to the listeners that are registered
    for the event when it is called, each once and in the order of their
    registration, whatever the callbacks do to the registrations while they
    run (the loop runs over a copy) and whether or not they throw: an
    exception that escapes a callback is reported to [console.error] and the
    delivery goes on.  So an [emit] makes exactly [listenerCount(event)]
    calls. *)
Theorem emit_delivers_to_snapshot (body : nat -> Data -> list Cmd) (e : Emitter)
    (event : string) (data : Data) :
  reachable body e ->
  let snapshot := default [] (listeners e !! event) in
  called (emit body event data e) = called e ++ deliveries e data snapshot /\
  reported (emit body event data e) = reported e ++ failures body e data snapshot /\
  length (deliveries e data snapshot) = listenerCount event e.
Proof.
  intros Hreach snapshot. pose proof (WF_reachable body e Hreach) as HWF.
  unfold emit, listenerCount, snapshot.
  destruct (listeners e !! event) as [set |] eqn:Hset; cbn [default].
  - pose proof (snapshot_targets e event set HWF Hset) as Hall.
    destruct (deliver_all body e data set Hall e) as (Hc & Hr & _); [reflexivity |].
    split; [exact Hc |]. split; [exact Hr |]. apply length_deliveries. exact Hall.
  - cbn. rewrite !app_nil_r. auto.
Qed.

(** Callback 1 unsubscribes callback 2 and throws; the others do nothing. *)
Definition spoilsport (id : nat) (_ : Data) : list Cmd :=
  match id with
  | 1%nat => [DoOff "data" 2; DoThrow (new_Error "listener failed")]
  | _ => []
  end.

(** Callbacks 1 and 2 subscribed to "data", callback 3 subscribed once. *)
Definition three_listeners : Emitter :=
  run spoilsport [On "data" 1; On "data" 2; Once "data" 3] createEventEmitter.

Lemma emit_delivers_to_snapshot_witness :
  let snapshot := default [] (listeners three_listeners !! "data") in
  called (emit spoilsport "data" 7 three_listeners) =
    called three_listeners ++ deliveries three_listeners 7 snapshot /\
  reported (emit spoilsport "data" 7 three_listeners) =
    reported three_listeners ++ failures spoilsport three_listeners 7 snapshot /\
  length (deliveries three_listeners 7 snapshot) = listenerCount "data" three_listeners.
Proof.
  apply (emit_delivers_to_snapshot spoilsport three_listeners "data" 7).
  exists [On "data" 1; On "data" 2; Once "data" 3]. reflexivity.
Defined.

Example three_listeners_emit :
  called (emit spoilsport "data" 7 three_listeners) = [(1, 7); (2, 7); (3, 7)]%nat /\
  reported (emit spoilsport "data" 7 three_listeners) = [new_Error "listener failed"] /\
  listenerCount "data" (emit spoilsport "data" 7 three_listeners) = 1%nat /\
  called (emit spoilsport "data" 8 (emit spoilsport "data" 7 three_listeners)) =
    [(1, 7); (2, 7); (3, 7); (1, 8)]%nat.
Proof. vm_compute. repeat split. Qed.

(** In this model, where no listener emits: the [emit] that finds the
    wrapper of a [once] registration calls its callback, and afterwards the
    wrapper is registered for no event. *)
Lemma plain_emit_removes_wrapper (body : nat -> Data -> list Cmd) (e : Emitter)
    (event : string) (data : Data) (w : nat) (actions : list Action) :
  reachable body e ->
  Wrapper w ∈ default [] (listeners e !! event) ->
  let e1 := emit body event data e in
  (exists id, wrappers e !! w = Some (event, id) /\
     (id, data) ∈ deliveries e data (default [] (listeners e !! event))) /\
  forall ev set, listeners (run body actions e1) !! ev = Some set -> Wrapper w ∉ set.
Proof.
  intros Hreach Hin e1. pose proof (WF_reachable body e Hreach) as HWF.
  destruct (listeners e !! event) as [set |] eqn:Hset; cbn [default] in Hin |- *;
    [| apply elem_of_nil in Hin; contradiction].
  destruct (wf_closed e HWF event set w Hset Hin) as [id Hid].
  split.
  - exists id. split; [exact Hid |].
    unfold deliveries. apply list_elem_of_omap. exists (Wrapper w).
    split; [exact Hin |]. cbn. rewrite Hid. reflexivity.
  - assert (HG : Gone w e1).
    { unfold e1, emit. rewrite Hset.
      exact (snapshot_Gone body w event id data set e HWF Hid Hin). }
    exact (proj2 (Gone_run body w actions e1 HG)).
Qed.

Lemma length_set_delete (x : Fn) (l : list Fn) :
  NoDup l -> x ∈ l -> S (length (set_delete x l)) = length l.
Proof.
  unfold set_delete. induction l as [| y l IH]; intros Hnd Hin.
  - apply elem_of_nil in Hin. contradiction.
  - apply NoDup_cons in Hnd. destruct Hnd as [Hy Hnd]. cbn.
    destruct (decide (y = x)) as [-> | Hne].
    + rewrite bool_decide_eq_true_2 by reflexivity. cbn.
      fold (set_delete x l). rewrite (set_delete_absent x l Hy). reflexivity.
    + rewrite bool_decide_eq_false_2 by exact Hne. cbn.
      apply elem_of_cons in Hin. destruct Hin as [Hin | Hin]; [congruence |].
      rewrite (IH Hnd Hin). reflexivity.
Qed.

(** X23.  Listener sets are sets: subscribing a callback that is subscribed
    already changes nothing, so it is called once per [emit]; and the
    function [on] returns unsubscribes the callback (when the callback has
    no pending [once] registration): afterwards the callback is not
    registered for the event, the count is one less, the other events and
    the [once] registrations are untouched, and when the callback was not
    subscribed before, the listeners of the event are the ones before. *)
Theorem subscribe_then_unsubscribe (body : nat -> Data -> list Cmd) (e : Emitter)
    (event : string) (id : nat) :
  reachable body e ->
  map_get (Callback id) (onceWrappers e) = None ->
  let before := default [] (listeners e !! event) in
  let e1 := on event id e in
  let e2 := off event (Callback id) e1 in
  on event id e1 = e1 /\
  Callback id ∈ default [] (listeners e1 !! event) /\
  listenerCount event e1 =
    (listenerCount event e + (if bool_decide (Callback id ∈ before) then 0 else 1))%nat /\
  (Callback id ∉ default [] (listeners e2 !! event)) /\
  S (listenerCount event e2) = listenerCount event e1 /\
  (forall ev, ev <> event -> listeners e2 !! ev = listeners e !! ev) /\
  onceWrappers e2 = onceWrappers e /\
  (Callback id ∉ before -> default [] (listeners e2 !! event) = before).
Proof.
  intros Hreach Hget before e1 e2.
  pose proof (WF_reachable body e Hreach) as HWF.
  assert (Hnd : NoDup before).
  { unfold before. destruct (listeners e !! event) as [set |] eqn:Hset; cbn.
    - exact (wf_nodup e HWF event set Hset).
    - apply NoDup_nil_2. }
  assert (Hl1 : listeners e1 !! event = Some (set_add (Callback id) before))
    by apply lookup_insert_eq.
  assert (Hin1 : Callback id ∈ set_add (Callback id) before)
    by (apply elem_of_set_add; left; reflexivity).
  assert (He2 : e2 =
    {| listeners := <[event := set_delete (Callback id) (set_add (Callback id) before)]>
                      (listeners e1);
       onceWrappers := onceWrappers e; wrappers := wrappers e;
       called := called e; reported := reported e |}).
  { unfold e2, off. rewrite Hl1. cbn [onceWrappers e1 on add_listener]. rewrite Hget.
    reflexivity. }
  split.
  { unfold e1, on, add_listener. cbn [listeners onceWrappers wrappers called reported].
    rewrite lookup_insert_eq.
    change (default [] (Some (set_add (Callback id) (default [] (listeners e !! event)))))
      with (set_add (Callback id) before).
    rewrite (set_add_member _ _ Hin1).
    rewrite insert_insert_eq. reflexivity. }
  split; [rewrite Hl1; exact Hin1 |].
  split.
  { unfold listenerCount. rewrite Hl1. unfold set_add.
    fold before. unfold before at 3.
    destruct (listeners e !! event) as [set |] eqn:Hset; cbn [default];
      case_bool_decide; rewrite ?length_app; cbn; lia. }
  split.
  { rewrite He2. cbn [listeners]. rewrite lookup_insert_eq. cbn [default].
    intros H. apply elem_of_set_delete in H. destruct H as [H _]. apply H. reflexivity. }
  split.
  { unfold listenerCount. rewrite Hl1, He2. cbn [listeners].
    rewrite lookup_insert_eq. apply length_set_delete; [| exact Hin1].
    apply NoDup_set_add. exact Hnd. }
  split.
  { intros ev Hne. rewrite He2. cbn [listeners].
    rewrite lookup_insert_ne by congruence.
    unfold e1, on, add_listener. cbn [listeners].
    rewrite lookup_insert_ne by congruence. reflexivity. }
  split; [rewrite He2; reflexivity |].
  intros Hout. rewrite He2. cbn [listeners]. rewrite lookup_insert_eq. cbn [default].
  unfold set_add. rewrite bool_decide_eq_false_2 by exact Hout.
  apply set_delete_snoc. exact Hout.
Qed.

Lemma subscribe_then_unsubscribe_witness :
  let e := three_listeners in
  let before := default [] (listeners e !! "data") in
  let e1 := on "data" 4 e in
  let e2 := off "data" (Callback 4) e1 in
  on "data" 4 e1 = e1 /\
  Callback 4 ∈ default [] (listeners e1 !! "data") /\
  listenerCount "data" e1 =
    (listenerCount "data" e + (if bool_decide (Callback 4 ∈ before) then 0 else 1))%nat /\
  (Callback 4 ∉ default [] (listeners e2 !! "data")) /\
  S (listenerCount "data" e2) = listenerCount "data" e1 /\
  (forall ev, ev <> "data" -> listeners e2 !! ev = listeners e !! ev) /\
  onceWrappers e2 = onceWrappers e /\
  (Callback 4 ∉ before -> default [] (listeners e2 !! "data") = before).
Proof.
  apply (subscribe_then_unsubscribe spoilsport three_listeners "data" 4).
  - exists [On "data" 1; On "data" 2; Once "data" 3]. reflexivity.
  - reflexivity.
Defined.

Lemma forget_all (set : list Fn) :
  forall (ow : list (Fn * Fn)),
    (forall p q, p ∈ ow -> q ∈ ow -> snd p = snd q -> p = q) ->
    forall p, p ∈ fold_left forget_wrapper set ow -> p ∈ ow /\ snd p ∉ set.
Proof.
  induction set as [| cb set IH]; intros ow Huniq p Hp.
  - split; [exact Hp | apply not_elem_of_nil].
  - cbn [fold_left] in Hp.
    assert (Hsub : forall x, x ∈ forget_wrapper ow cb -> x ∈ ow /\ snd x <> cb).
    { intros x Hx. unfold forget_wrapper in Hx.
      destruct (List.find (fun p => bool_decide (snd p = cb)) ow) as [p0 |] eqn:Hf.
      - apply List.find_some in Hf. destruct Hf as [Hin0 H0].
        apply bool_decide_eq_true in H0. apply list_elem_of_In in Hin0.
        apply elem_of_map_delete in Hx. destruct Hx as [Hkey Hx].
        split; [exact Hx |]. intros Hcb. apply Hkey.
        rewrite (Huniq x p0 Hx Hin0) by congruence. reflexivity.
      - split; [exact Hx |]. intros Hcb.
        pose proof (List.find_none _ _ Hf x (proj1 (list_elem_of_In _ _) Hx)) as Hno.
        apply bool_decide_eq_false in Hno. contradiction. }
    destruct (IH (forget_wrapper ow cb)) with (p := p) as [Hin Hrest].
    + intros x y Hx Hy. apply Huniq; [exact (proj1 (Hsub x Hx)) | exact (proj1 (Hsub y Hy))].
    + exact Hp.
    + destruct (Hsub p Hin) as [Hpo Hne]. split; [exact Hpo |].
      apply not_elem_of_cons. split; assumption.
Qed.

(** X24.  [removeAllListeners(event)] leaves the event without listener, so
    that an [emit] of it calls nothing, leaves the listeners of the other
    events alone, and forgets the [once] registrations of the event: no
    entry of [onceWrappers] is left for a wrapper that was registered for
    it.  [removeAllListeners()] leaves no listener and no [once]
    registration at all. *)
Theorem removeAllListeners_forgets (body : nat -> Data -> list Cmd) (e : Emitter)
    (event : string) (data : Data) :
  reachable body e ->
  let e' := removeAllListeners (Some event) e in
  let e0 := removeAllListeners None e in
  listenerCount event e' = 0%nat /\
  emit body event data e' = e' /\
  (forall ev, ev <> event -> listeners e' !! ev = listeners e !! ev) /\
  (forall p, p ∈ onceWrappers e' ->
     p ∈ onceWrappers e /\ snd p ∉ default [] (listeners e !! event)) /\
  (forall ev, listenerCount ev e0 = 0%nat /\ emit body ev data e0 = e0) /\
  onceWrappers e0 = [].
Proof.
  intros Hreach e' e0. pose proof (WF_reachable body e Hreach) as HWF.
  assert (Hgone : listeners e' !! event = None) by apply lookup_delete_eq.
  split; [unfold listenerCount; rewrite Hgone; reflexivity |].
  split; [unfold emit; rewrite Hgone; reflexivity |].
  split; [intros ev Hne; apply lookup_delete_ne; congruence |].
  split.
  - intros p Hp. cbn in Hp.
    destruct (listeners e !! event) as [set |]; cbn [default].
    + exact (forget_all set (onceWrappers e) (wf_values e HWF) p Hp).
    + split; [exact Hp | apply not_elem_of_nil].
  - split; [| reflexivity].
    intros ev. unfold listenerCount, emit. cbn. rewrite lookup_empty. auto.
Qed.

Lemma removeAllListeners_forgets_witness :
  let e := three_listeners in
  let e' := removeAllListeners (Some "data") e in
  let e0 := removeAllListeners None e in
  listenerCount "data" e' = 0%nat /\
  emit spoilsport "data" 7 e' = e' /\
  (forall ev, ev <> "data" -> listeners e' !! ev = listeners e !! ev) /\
  (forall p, p ∈ onceWrappers e' ->
     p ∈ onceWrappers e /\ snd p ∉ default [] (listeners e !! "data")) /\
  (forall ev, listenerCount ev e0 = 0%nat /\ emit spoilsport ev 7 e0 = e0) /\
  onceWrappers e0 = [].
Proof.
  apply (removeAllListeners_forgets spoilsport three_listeners "data" 7).
  exists [On "data" 1; On "data" 2; Once "data" 3]. reflexivity.
Defined.

End EventEmitterFacts.

(* ===================================================================== *)
(** * Properties of an emitter whose listeners emit *)
(* ===================================================================== *)

Module NestedEmitFacts.
Import Errors EventEmitter EventEmitterFacts NestedEmit.

(** ** The log of calls *)

Lemma times_app (w : nat) (l1 l2 : list (Fn * Data)) :
  times w (l1 ++ l2) = (times w l1 + times w l2)%nat.
Proof. unfold times. rewrite List.filter_app, length_app. reflexivity. Qed.

Lemma times_other (w : nat) (cb : Fn) (d : Data) (l : list (Fn * Data)) :
  cb <> Wrapper w -> times w (l ++ [(cb, d)]) = times w l.
Proof.
  intros Hne. rewrite times_app. unfold times at 2. cbn.
  rewrite bool_decide_eq_false_2 by exact Hne. cbn. lia.
Qed.

Lemma times_self (w : nat) (d : Data) (l : list (Fn * Data)) :
  times w (l ++ [(Wrapper w, d)]) = S (times w l).
Proof.
  rewrite times_app. unfold times at 2. cbn.
  rewrite bool_decide_eq_true_2 by reflexivity. cbn. lia.
Qed.

(** ** What a wrapper does before it calls the callback *)

Lemma unwrap_fires (ev : string) (id w : nat) (d : Data) (e : Emitter) :
  wrappers e !! w = Some (ev, id) ->
  fst (EventEmitter.call (fun _ _ => []) (Wrapper w) d e) = log_call id d (unwrap ev id w e).
Proof. intros H. cbn [EventEmitter.call]. rewrite H. reflexivity. Qed.

Lemma WF_unwrap (ev : string) (id w : nat) (e : Emitter) :
  WF e -> wrappers e !! w = Some (ev, id) -> WF (unwrap ev id w e).
Proof.
  intros HWF Hw. pose proof (WF_call (fun _ _ => []) (Wrapper w) 0%nat e HWF) as H.
  rewrite (unwrap_fires ev id w 0%nat e Hw) in H.
  revert H. apply WF_same; reflexivity.
Qed.

Lemma Gone_unwrap (ev : string) (id w : nat) (e : Emitter) :
  WF e -> wrappers e !! w = Some (ev, id) -> Gone w (unwrap ev id w e).
Proof.
  intros HWF Hw.
  pose proof (fired_Gone (fun _ _ => []) w ev id 0%nat e HWF Hw) as H.
  rewrite (unwrap_fires ev id w 0%nat e Hw) in H.
  revert H. apply Gone_same; reflexivity.
Qed.

Lemma Gone_unwrap_other (w : nat) (ev : string) (id w' : nat) (e : Emitter) :
  Gone w e -> Gone w (unwrap ev id w' e).
Proof.
  intros H. unfold unwrap. apply Gone_off. revert H. apply Gone_same; reflexivity.
Qed.

Lemma quiet_unwrap (ev : string) (id w : nat) (e : Emitter) : quiet e (unwrap ev id w e).
Proof.
  unfold unwrap. eapply quiet_trans; [| apply quiet_off]. repeat split; reflexivity.
Qed.

(** ** What every call keeps *)

(** A property of the run that the parts of a delivery keep: the commands of
    a body, the removal a wrapper starts with, and the entries of the logs,
    for the listeners [allowed] to be called.  [ok] tells the events whose
    listeners are all [allowed]; the bodies emit those events only. *)
Record Keeps (body : nat -> Data -> list Cmd) (Inv : Run -> Prop)
    (ok : string -> Prop) (allowed : Fn -> Prop) : Prop := mkKeeps {
  keeps_plain : forall c r, Inv r ->
    Inv (set_emitter (fst (EventEmitter.run_body [c] (emitter r))) r);
  keeps_unwrap : forall ev id w r,
    Inv r -> wrappers (emitter r) !! w = Some (ev, id) ->
    Inv (set_emitter (unwrap ev id w (emitter r)) r);
  keeps_called : forall id d r, Inv r -> Inv (set_emitter (log_call id d (emitter r)) r);
  keeps_reported : forall err r, Inv r -> Inv (set_emitter (log_error err (emitter r)) r);
  keeps_invoked : forall cb d r, allowed cb -> Inv r ->
    Inv {| emitter := emitter r; invoked := invoked r ++ [(cb, d)] |};
  keeps_snapshot : forall ev set cb r, ok ev -> Inv r ->
    listeners (emitter r) !! ev = Some set -> cb ∈ set -> allowed cb;
  keeps_bodies : forall id d ev d', DoEmit ev d' ∈ body id d -> ok ev
}.

Section Kept.

Variable body : nat -> Data -> list Cmd.
Variable Inv : Run -> Prop.
Variable ok : string -> Prop.
Variable allowed : Fn -> Prop.
Hypothesis K : Keeps body Inv ok allowed.

Section Level.

Variable inner : string -> Data -> Run -> option Run.
Hypothesis inner_keeps : forall ev d r r1,
  ok ev -> Inv r -> inner ev d r = Some r1 -> Inv r1.

Lemma kept_run_body (cmds : list Cmd) :
  (forall ev d, DoEmit ev d ∈ cmds -> ok ev) ->
  forall r r1 t, Inv r -> run_body inner cmds r = Some (r1, t) -> Inv r1.
Proof.
  induction cmds as [| c rest IH]; intros Hok r r1 t HI Hrun.
  - cbn in Hrun. injection Hrun as <- _. exact HI.
  - assert (Hrest : forall ev d, DoEmit ev d ∈ rest -> ok ev).
    { intros ev d H. apply (Hok ev d). apply elem_of_cons. right. exact H. }
    destruct c as [c | ev d]; cbn [run_body] in Hrun.
    + pose proof (keeps_plain _ _ _ _ K c r HI) as HI'.
      destruct (EventEmitter.run_body [c] (emitter r)) as [e [err |]]; cbn [fst] in HI'.
      * injection Hrun as <- _. exact HI'.
      * exact (IH Hrest _ _ _ HI' Hrun).
    + destruct (inner ev d r) as [r' |] eqn:Hin; [| discriminate Hrun].
      apply (IH Hrest r' r1 t); [| exact Hrun].
      apply (inner_keeps ev d r r'); [| exact HI | exact Hin].
      apply (Hok ev d). apply elem_of_cons. left. reflexivity.
Qed.

Lemma kept_call_callback (id : nat) (d : Data) (r r1 : Run) (t : option Error) :
  Inv r -> call_callback body inner id d r = Some (r1, t) -> Inv r1.
Proof.
  intros HI Hrun. unfold call_callback in Hrun.
  apply (kept_run_body (body id d)) in Hrun; [exact Hrun | |].
  - intros ev d'. apply (keeps_bodies _ _ _ _ K).
  - apply (keeps_called _ _ _ _ K). exact HI.
Qed.

Lemma kept_call (fn : Fn) (d : Data) (r r1 : Run) (t : option Error) :
  Inv r -> call body inner fn d r = Some (r1, t) -> Inv r1.
Proof.
  intros HI Hrun. destruct fn as [id | w]; cbn [call] in Hrun.
  - exact (kept_call_callback id d r r1 t HI Hrun).
  - destruct (wrappers (emitter r) !! w) as [[ev id] |] eqn:Hw.
    + apply (kept_call_callback id d _ r1 t) in Hrun; [exact Hrun |].
      apply (keeps_unwrap _ _ _ _ K); assumption.
    + injection Hrun as <- _. exact HI.
Qed.

(** What is left of a delivery once the callback has returned or thrown. *)
Lemma kept_caught (called : option (Run * option Error)) (r1 : Run) :
  (forall r' t, called = Some (r', t) -> Inv r') ->
  match called with
  | Some (r', Some err) => Some (set_emitter (log_error err (emitter r')) r')
  | Some (r', None) => Some r'
  | None => None
  end = Some r1 ->
  Inv r1.
Proof.
  intros HI Hrun. destruct called as [[r' [err |]] |]; [| | discriminate Hrun].
  - injection Hrun as <-. apply (keeps_reported _ _ _ _ K). exact (HI r' _ eq_refl).
  - injection Hrun as <-. exact (HI r' _ eq_refl).
Qed.

Lemma kept_deliver (d : Data) (r : Run) (cb : Fn) (r1 : Run) :
  allowed cb -> Inv r -> deliver body inner d r cb = Some r1 -> Inv r1.
Proof.
  intros Hcb HI Hrun. unfold deliver in Hrun.
  apply kept_caught in Hrun; [exact Hrun |].
  intros r' t Hcall. apply (kept_call cb d _ r' t) in Hcall; [exact Hcall |].
  apply (keeps_invoked _ _ _ _ K); assumption.
Qed.

Lemma kept_deliver_all (d : Data) (l : list Fn) :
  (forall cb, cb ∈ l -> allowed cb) ->
  forall r r1, Inv r -> deliver_all body inner d l r = Some r1 -> Inv r1.
Proof.
  induction l as [| cb rest IH]; intros Hall r r1 HI Hrun.
  - cbn in Hrun. injection Hrun as <-. exact HI.
  - cbn [deliver_all] in Hrun.
    destruct (deliver body inner d r cb) as [r' |] eqn:Hd; [| discriminate Hrun].
    apply (IH (fun cb' H => Hall cb' (proj2 (elem_of_cons _ _ _) (or_intror H))) r' r1);
      [| exact Hrun].
    apply (kept_deliver d r cb r'); [| exact HI | exact Hd].
    apply Hall. apply elem_of_cons. left. reflexivity.
Qed.

Lemma kept_emit_with (ev : string) (d : Data) (r r1 : Run) :
  ok ev -> Inv r -> emit_with body inner ev d r = Some r1 -> Inv r1.
Proof.
  intros Hev HI Hrun. unfold emit_with in Hrun.
  destruct (listeners (emitter r) !! ev) as [set |] eqn:Hset.
  - apply (kept_deliver_all d set) in Hrun; [exact Hrun | | exact HI].
    intros cb Hcb. exact (keeps_snapshot _ _ _ _ K ev set cb r Hev HI Hset Hcb).
  - injection Hrun as <-. exact HI.
Qed.

End Level.

Lemma kept_emit (fuel : nat) :
  forall ev d r r1, ok ev -> Inv r -> emit body fuel ev d r = Some r1 -> Inv r1.
Proof.
  induction fuel as [| fuel IH]; intros ev d r r1 Hev HI Hrun; [discriminate Hrun |].
  exact (kept_emit_with (emit body fuel) IH ev d r r1 Hev HI Hrun).
Qed.

(** The body of a callback, and what [emit] does when it has returned or
    thrown. *)
Lemma kept_body (fuel id : nat) (d : Data) (r r1 : Run) :
  Inv r ->
  match run_body (emit body fuel) (body id d) r with
  | Some (r', Some err) => Some (set_emitter (log_error err (emitter r')) r')
  | Some (r', None) => Some r'
  | None => None
  end = Some r1 ->
  Inv r1.
Proof.
  intros HI Hrun. apply kept_caught in Hrun; [exact Hrun |].
  intros r' t Hbody.
  apply (kept_run_body (emit body fuel) (kept_emit fuel) (body id d)) in Hbody;
    [exact Hbody | | exact HI].
  intros ev d'. apply (keeps_bodies _ _ _ _ K).
Qed.

Lemma kept_step (fuel : nat) (a : Action) (r r1 : Run) :
  (forall ev d, a = Emit ev d -> ok ev) ->
  Inv r -> step body fuel a r = Some r1 -> Inv r1.
Proof.
  intros Hok HI Hrun. destruct a as [ev id | ev id | ev id | ev | ev d]; cbn [step] in Hrun.
  - injection Hrun as <-. exact (keeps_plain _ _ _ _ K (DoOn ev id) r HI).
  - injection Hrun as <-. exact (keeps_plain _ _ _ _ K (DoOnce ev id) r HI).
  - injection Hrun as <-. exact (keeps_plain _ _ _ _ K (DoOff ev id) r HI).
  - injection Hrun as <-. exact (keeps_plain _ _ _ _ K (DoRemoveAll ev) r HI).
  - exact (kept_emit fuel ev d r r1 (Hok ev d eq_refl) HI Hrun).
Qed.

Lemma kept_run (fuel : nat) (actions : list Action) :
  (forall ev d, Emit ev d ∈ actions -> ok ev) ->
  forall r r1, Inv r -> run body fuel actions r = Some r1 -> Inv r1.
Proof.
  induction actions as [| a rest IH]; intros Hok r r1 HI Hrun.
  - cbn in Hrun. injection Hrun as <-. exact HI.
  - cbn [run] in Hrun.
    destruct (step body fuel a r) as [r' |] eqn:Hs; [| discriminate Hrun].
    apply (IH (fun ev d H => Hok ev d (proj2 (elem_of_cons _ _ _) (or_intror H))) r' r1);
      [| exact Hrun].
    apply (kept_step fuel a r r'); [| exact HI | exact Hs].
    intros ev d ->. apply (Hok ev d). apply elem_of_cons. left. reflexivity.
Qed.

End Kept.

(** ** The invariant of the emitter *)

Lemma WF_Keeps (body : nat -> Data -> list Cmd) :
  Keeps body (fun r => WF (emitter r)) (fun _ => True) (fun _ => True).
Proof.
  constructor; cbn [emitter set_emitter].
  - intros c r H. apply WF_run_body. exact H.
  - intros ev id w r H Hw. exact (WF_unwrap ev id w (emitter r) H Hw).
  - intros id d r. apply WF_same; reflexivity.
  - intros err r. apply WF_same; reflexivity.
  - intros cb d r _ H. exact H.
  - intros ev set cb r _ _ _ _. exact I.
  - intros id d ev d' _. exact I.
Qed.

Lemma nested_WF_reachable (body : nat -> Data -> list Cmd) (r : Run) :
  reachable body r -> WF (emitter r).
Proof.
  intros (fuel & actions & Hrun).
  apply (kept_run body _ _ _ (WF_Keeps body) fuel actions (fun _ _ _ => I) start r);
    [exact WF_init | exact Hrun].
Qed.

(** ** The logs and the wrappers only grow *)

Definition extends (r0 r : Run) : Prop :=
  invoked r0 `prefix_of` invoked r /\
  called (emitter r0) `prefix_of` called (emitter r) /\
  wrappers (emitter r0) `prefix_of` wrappers (emitter r).

Lemma extends_Keeps (body : nat -> Data -> list Cmd) (r0 : Run) :
  Keeps body (extends r0) (fun _ => True) (fun _ => True).
Proof.
  constructor; unfold extends; cbn [emitter invoked set_emitter].
  - intros c r (Hi & Hc & Hw).
    destruct (run_body_quiet [c] (emitter r)) as [(Hc' & _ & Hw') _].
    rewrite Hc'. split; [exact Hi |]. split; [exact Hc |]. etransitivity; eassumption.
  - intros ev id w r (Hi & Hc & Hw) _.
    destruct (quiet_unwrap ev id w (emitter r)) as (Hc' & _ & Hw').
    rewrite Hc'. split; [exact Hi |]. split; [exact Hc |]. etransitivity; eassumption.
  - intros id d r (Hi & Hc & Hw). cbn. split; [exact Hi |]. split; [| exact Hw].
    apply prefix_app_r. exact Hc.
  - intros err r H. exact H.
  - intros cb d r _ (Hi & Hc & Hw). split; [| split; assumption].
    apply prefix_app_r. exact Hi.
  - intros ev set cb r _ _ _ _. exact I.
  - intros id d ev d' _. exact I.
Qed.

Lemma extends_refl (r : Run) : extends r r.
Proof. repeat split; reflexivity. Qed.

(** ** A wrapper that is registered nowhere is not called *)

Lemma Gone_Keeps (body : nat -> Data -> list Cmd) (w n : nat) :
  Keeps body (fun r => Gone w (emitter r) /\ times w (invoked r) = n)
    (fun _ => True) (fun cb => cb <> Wrapper w).
Proof.
  constructor; cbn [emitter invoked set_emitter].
  - intros c r [H Hn]. split; [| exact Hn]. apply Gone_run_body. exact H.
  - intros ev id w' r [H Hn] _. split; [| exact Hn]. apply Gone_unwrap_other. exact H.
  - intros id d r [H Hn]. split; [| exact Hn]. revert H. apply Gone_same; reflexivity.
  - intros err r [H Hn]. split; [| exact Hn]. revert H. apply Gone_same; reflexivity.
  - intros cb d r Hcb [H Hn]. split; [exact H |]. rewrite times_other; assumption.
  - intros ev set cb r _ [[_ H] _] Hset Hcb ->. exact (H ev set Hset Hcb).
  - intros id d ev d' _. exact I.
Qed.

(** ** A wrapper is registered for its own event only *)

Lemma Closed_Keeps (body : nat -> Data -> list Cmd) (w : nat) (event : string)
    (id n : nat) :
  (forall id' d ev d', DoEmit ev d' ∈ body id' d -> ev <> event) ->
  Keeps body
    (fun r => WF (emitter r) /\ wrappers (emitter r) !! w = Some (event, id) /\
              times w (invoked r) = n)
    (fun ev => ev <> event) (fun cb => cb <> Wrapper w).
Proof.
  intros Hbodies. constructor; cbn [emitter invoked set_emitter].
  - intros c r (H & Hw & Hn). split; [apply WF_run_body; exact H |]. split; [| exact Hn].
    destruct (run_body_quiet [c] (emitter r)) as [(_ & _ & Hp) _].
    exact (prefix_lookup_Some _ _ _ _ Hw Hp).
  - intros ev id' w' r (H & Hw & Hn) Hw'.
    split; [exact (WF_unwrap ev id' w' (emitter r) H Hw') |]. split; [| exact Hn].
    destruct (quiet_unwrap ev id' w' (emitter r)) as (_ & _ & Hp).
    exact (prefix_lookup_Some _ _ _ _ Hw Hp).
  - intros id' d r (H & Hw & Hn). split; [| split; assumption].
    revert H. apply WF_same; reflexivity.
  - intros err r (H & Hw & Hn). split; [| split; assumption].
    revert H. apply WF_same; reflexivity.
  - intros cb d r Hcb (H & Hw & Hn). split; [exact H |]. split; [exact Hw |].
    rewrite times_other; assumption.
  - intros ev set cb r Hev (H & Hw & _) Hset Hcb ->.
    destruct (wf_closed _ H ev set w Hset Hcb) as [id' Hid'].
    rewrite Hw in Hid'. injection Hid' as <- _. contradiction Hev. reflexivity.
  - exact Hbodies.
Qed.

(** ** The loop, in parts *)

Lemma deliver_all_app (body : nat -> Data -> list Cmd)
    (inner : string -> Data -> Run -> option Run) (d : Data) (l1 l2 : list Fn) :
  forall r r1, deliver_all body inner d (l1 ++ l2) r = Some r1 ->
    exists r', deliver_all body inner d l1 r = Some r' /\
               deliver_all body inner d l2 r' = Some r1.
Proof.
  induction l1 as [| cb l1 IH]; intros r r1 Hrun.
  - exists r. split; [reflexivity | exact Hrun].
  - cbn [app deliver_all] in Hrun |- *.
    destruct (deliver body inner d r cb) as [r' |]; [| discriminate Hrun].
    exact (IH r' r1 Hrun).
Qed.

(** ** Listeners that do not emit *)

(** With bodies that do not emit, [emit] returns, and does to the emitter
    what [EventEmitter.emit] does. *)
Section Plain.

Variable cmds : nat -> Data -> list EventEmitter.Cmd.
Variable body : nat -> Data -> list Cmd.
Hypothesis body_plain : forall id d, body id d = map Plain (cmds id d).
Variable inner : string -> Data -> Run -> option Run.

Lemma plain_run_body (l : list EventEmitter.Cmd) :
  forall r, run_body inner (map Plain l) r =
            Some (set_emitter (fst (EventEmitter.run_body l (emitter r))) r,
                  snd (EventEmitter.run_body l (emitter r))).
Proof.
  induction l as [| c rest IH]; intros r; [destruct r; reflexivity |].
  cbn [map run_body].
  destruct c as [ev id | ev id | ev id | ev | err];
    cbn [EventEmitter.run_body]; try (rewrite IH; reflexivity).
  reflexivity.
Qed.

Lemma plain_call (fn : Fn) (d : Data) (r : Run) :
  call body inner fn d r =
  Some (set_emitter (fst (EventEmitter.call cmds fn d (emitter r))) r,
        snd (EventEmitter.call cmds fn d (emitter r))).
Proof.
  destruct fn as [id | w]; cbn [call EventEmitter.call].
  - unfold call_callback. rewrite body_plain, plain_run_body. reflexivity.
  - destruct (wrappers (emitter r) !! w) as [[ev id] |]; [| destruct r; reflexivity].
    unfold call_callback. rewrite body_plain, plain_run_body. reflexivity.
Qed.

Lemma plain_deliver (d : Data) (r : Run) (cb : Fn) :
  deliver body inner d r cb =
  Some {| emitter := EventEmitter.deliver cmds d (emitter r) cb;
          invoked := invoked r ++ [(cb, d)] |}.
Proof.
  unfold deliver, EventEmitter.deliver. rewrite plain_call. cbn [emitter invoked].
  destruct (EventEmitter.call cmds cb d (emitter r)) as [e' [err |]]; reflexivity.
Qed.

Lemma plain_deliver_all (d : Data) (l : list Fn) :
  forall r, deliver_all body inner d l r =
            Some {| emitter := fold_left (EventEmitter.deliver cmds d) l (emitter r);
                    invoked := invoked r ++ map (fun cb => (cb, d)) l |}.
Proof.
  induction l as [| cb rest IH]; intros r.
  - cbn. rewrite app_nil_r. destruct r; reflexivity.
  - cbn [deliver_all fold_left map]. rewrite plain_deliver, IH. cbn [emitter invoked].
    rewrite <- app_assoc. reflexivity.
Qed.

Lemma plain_emit_with (ev : string) (d : Data) (r : Run) :
  emit_with body inner ev d r =
  Some {| emitter := EventEmitter.emit cmds ev d (emitter r);
          invoked := invoked r ++
                     map (fun cb => (cb, d)) (default [] (listeners (emitter r) !! ev)) |}.
Proof.
  unfold emit_with, EventEmitter.emit.
  destruct (listeners (emitter r) !! ev) as [snap |]; cbn [default].
  - apply plain_deliver_all.
  - cbn. rewrite app_nil_r. destruct r; reflexivity.
Qed.

End Plain.

Lemma plain_emit (cmds : nat -> Data -> list EventEmitter.Cmd)
    (body : nat -> Data -> list Cmd) (fuel : nat) (ev : string) (d : Data) (r : Run) :
  (forall id d, body id d = map Plain (cmds id d)) ->
  emit body (S fuel) ev d r =
  Some {| emitter := EventEmitter.emit cmds ev d (emitter r);
          invoked := invoked r ++
                     map (fun cb => (cb, d)) (default [] (listeners (emitter r) !! ev)) |}.
Proof.
  intros Hbody. cbn [emit]. exact (plain_emit_with cmds body Hbody (emit body fuel) ev d r).
Qed.

(** ** More fuel changes nothing *)

Section MoreFuel.

Variable body : nat -> Data -> list Cmd.
Variables inner inner' : string -> Data -> Run -> option Run.
Hypothesis inner_more : forall ev d r r1, inner ev d r = Some r1 -> inner' ev d r = Some r1.

Lemma more_run_body (cmds : list Cmd) :
  forall r res, run_body inner cmds r = Some res -> run_body inner' cmds r = Some res.
Proof.
  induction cmds as [| c rest IH]; intros r res Hrun; [exact Hrun |].
  destruct c as [c | ev d]; cbn [run_body] in Hrun |- *.
  - destruct (EventEmitter.run_body [c] (emitter r)) as [e [err |]]; [exact Hrun |].
    exact (IH _ _ Hrun).
  - destruct (inner ev d r) as [r' |] eqn:Hin; [| discriminate Hrun].
    rewrite (inner_more ev d r r' Hin). exact (IH _ _ Hrun).
Qed.

Lemma more_call (fn : Fn) (d : Data) (r : Run) (res : Run * option Error) :
  call body inner fn d r = Some res -> call body inner' fn d r = Some res.
Proof.
  destruct fn as [id | w]; cbn [call]; [apply more_run_body |].
  destruct (wrappers (emitter r) !! w) as [[ev id] |]; [apply more_run_body | auto].
Qed.

Lemma more_deliver (d : Data) (r : Run) (cb : Fn) (r1 : Run) :
  deliver body inner d r cb = Some r1 -> deliver body inner' d r cb = Some r1.
Proof.
  unfold deliver. intros Hrun.
  destruct (call body inner cb d _) as [res |] eqn:Hcall; [| discriminate Hrun].
  rewrite (more_call cb d _ res Hcall). exact Hrun.
Qed.

Lemma more_deliver_all (d : Data) (l : list Fn) :
  forall r r1, deliver_all body inner d l r = Some r1 ->
               deliver_all body inner' d l r = Some r1.
Proof.
  induction l as [| cb rest IH]; intros r r1 Hrun; [exact Hrun |].
  cbn [deliver_all] in Hrun |- *.
  destruct (deliver body inner d r cb) as [r' |] eqn:Hd; [| discriminate Hrun].
  rewrite (more_deliver d r cb r' Hd). exact (IH _ _ Hrun).
Qed.

End MoreFuel.

Lemma emit_more_fuel (body : nat -> Data -> list Cmd) (fuel : nat) :
  forall ev d r r1, emit body fuel ev d r = Some r1 -> emit body (S fuel) ev d r = Some r1.
Proof.
  induction fuel as [| fuel IH]; intros ev d r r1 Hrun; [discriminate Hrun |].
  cbn [emit] in Hrun. change (emit_with body (emit body (S fuel)) ev d r = Some r1).
  unfold emit_with in Hrun |- *.
  destruct (listeners (emitter r) !! ev) as [snap |]; [| exact Hrun].
  exact (more_deliver_all body (emit body fuel) (emit body (S fuel)) IH d snap r r1 Hrun).
Qed.

(** ** The properties *)

(** X22.  A [once] registration and a listener that emits.  When [emit]
    finds the wrapper of a [once] registration registered for its event,
    it calls the wrapper with the payload, and the wrapper calls the
    callback of the registration with it; when that [emit] has returned,
    the wrapper is registered for no event, and whatever is called
    afterwards ([on], [once], [off], [removeAllListeners], [emit], by the
    user or by listeners), it is registered for no event and is not called
    again.  During that [emit] the wrapper is called once, and so is the
    callback on behalf of the registration, when no callback emits the event
    of the registration; a listener that emits this event from inside the
    [emit] can have the wrapper called again by the loop that was running
    (an [emit] whose listeners re-enter it without end does not return). *)
Theorem once_wrapper_gone_after_emit (body : nat -> Data -> list Cmd) (fuel : nat)
    (r r1 : Run) (event : string) (data : Data) (w : nat) :
  reachable body r ->
  Wrapper w ∈ default [] (listeners (emitter r) !! event) ->
  emit body fuel event data r = Some r1 ->
  exists id,
    wrappers (emitter r) !! w = Some (event, id) /\
    (exists before after,
       invoked r1 = invoked r ++ before ++ (Wrapper w, data) :: after) /\
    (exists before after,
       called (emitter r1) = called (emitter r) ++ before ++ (id, data) :: after) /\
    ((forall id' d ev d', DoEmit ev d' ∈ body id' d -> ev <> event) ->
     times w (invoked r1) = S (times w (invoked r))) /\
    forall fuel' actions r2,
      run body fuel' actions r1 = Some r2 ->
      (forall ev set, listeners (emitter r2) !! ev = Some set -> Wrapper w ∉ set) /\
      times w (invoked r2) = times w (invoked r1).
Proof.
  intros Hreach Hin Hemit.
  pose proof (nested_WF_reachable body r Hreach) as HWF.
  destruct (listeners (emitter r) !! event) as [snap |] eqn:Hset; cbn [default] in Hin;
    [| apply elem_of_nil in Hin; contradiction].
  destruct (wf_closed _ HWF event snap w Hset Hin) as [id Hid].
  exists id. split; [exact Hid |].
  destruct fuel as [| f]; [discriminate Hemit |].
  cbn [emit] in Hemit. unfold emit_with in Hemit. rewrite Hset in Hemit.
  pose proof (wf_nodup _ HWF event snap Hset) as Hnd.
  apply list_elem_of_split in Hin. destruct Hin as (l1 & l2 & Hsnap).
  change (snap = l1 ++ Wrapper w :: l2) in Hsnap. subst snap.
  apply NoDup_app in Hnd. destruct Hnd as (_ & Hl1 & Hnd).
  apply NoDup_cons in Hnd. destruct Hnd as [Hl2 _].
  assert (Hfirst : forall cb, cb ∈ l1 -> cb <> Wrapper w).
  { intros cb Hcb ->. apply (Hl1 _ Hcb). apply elem_of_cons. left. reflexivity. }
  assert (Hlast : forall cb, cb ∈ l2 -> cb <> Wrapper w).
  { intros cb Hcb ->. contradiction. }
  apply deliver_all_app in Hemit. destruct Hemit as (ra & Ha & Hrest).
  cbn [deliver_all] in Hrest.
  destruct (deliver body (emit body f) data ra (Wrapper w)) as [rb |] eqn:Hb;
    [| discriminate Hrest].
  (* the listeners before the wrapper *)
  assert (HWFa : WF (emitter ra)).
  { apply (kept_deliver_all body _ _ _ (WF_Keeps body) (emit body f)
             (kept_emit body _ _ _ (WF_Keeps body) f) data l1 (fun _ _ => I) r ra HWF Ha). }
  assert (Hexta : extends r ra).
  { apply (kept_deliver_all body _ _ _ (extends_Keeps body r) (emit body f)
             (kept_emit body _ _ _ (extends_Keeps body r) f) data l1 (fun _ _ => I) r ra
             (extends_refl r) Ha). }
  assert (Hida : wrappers (emitter ra) !! w = Some (event, id)).
  { exact (prefix_lookup_Some _ _ _ _ Hid (proj2 (proj2 Hexta))). }
  (* the wrapper *)
  unfold deliver in Hb. cbn [call emitter] in Hb. rewrite Hida in Hb.
  unfold call_callback in Hb.
  set (rp := {| emitter := log_call id data (unwrap event id w (emitter ra));
                invoked := invoked ra ++ [(Wrapper w, data)] |}).
  change (match run_body (emit body f) (body id data) rp with
          | Some (r', Some err) => Some (set_emitter (log_error err (emitter r')) r')
          | Some (r', None) => Some r'
          | None => None
          end = Some rb) in Hb.
  assert (HGp : Gone w (emitter rp)).
  { pose proof (Gone_unwrap event id w (emitter ra) HWFa Hida) as H.
    revert H. apply Gone_same; reflexivity. }
  assert (Hextb : extends rp rb).
  { exact (kept_body body _ _ _ (extends_Keeps body rp) f id data rp rb (extends_refl rp) Hb). }
  assert (HGb : Gone w (emitter rb) /\ times w (invoked rb) = times w (invoked rp)).
  { exact (kept_body body _ _ _ (Gone_Keeps body w (times w (invoked rp))) f id data rp rb
             (conj HGp eq_refl) Hb). }
  (* the listeners after the wrapper *)
  assert (Hext1 : extends rb r1).
  { apply (kept_deliver_all body _ _ _ (extends_Keeps body rb) (emit body f)
             (kept_emit body _ _ _ (extends_Keeps body rb) f) data l2 (fun _ _ => I) rb r1
             (extends_refl rb) Hrest). }
  assert (HG1 : Gone w (emitter r1) /\ times w (invoked r1) = times w (invoked rp)).
  { apply (kept_deliver_all body _ _ _ (Gone_Keeps body w (times w (invoked rp)))
             (emit body f)
             (kept_emit body _ _ _ (Gone_Keeps body w (times w (invoked rp))) f)
             data l2 Hlast rb r1 HGb Hrest). }
  destruct Hexta as ([k1 Hk1] & [c1 Hc1] & _).
  destruct Hextb as ([k2 Hk2] & [c2 Hc2] & _).
  destruct Hext1 as ([k3 Hk3] & [c3 Hc3] & _).
  split.
  { exists k1, (k2 ++ k3). rewrite Hk3, Hk2. cbn [invoked rp]. rewrite Hk1.
    rewrite <- !app_assoc. reflexivity. }
  split.
  { exists c1, (c2 ++ c3). rewrite Hc3, Hc2. cbn [emitter rp log_call called].
    destruct (quiet_unwrap event id w (emitter ra)) as (Hq & _ & _). rewrite Hq, Hc1.
    rewrite <- !app_assoc. reflexivity. }
  split.
  { intros Hbodies.
    pose proof (Closed_Keeps body w event id (times w (invoked r)) Hbodies) as KC.
    assert (Hna : WF (emitter ra) /\ wrappers (emitter ra) !! w = Some (event, id) /\
                  times w (invoked ra) = times w (invoked r)).
    { apply (kept_deliver_all body _ _ _ KC (emit body f) (kept_emit body _ _ _ KC f)
               data l1 Hfirst r ra (conj HWF (conj Hid eq_refl)) Ha). }
    destruct Hna as (_ & _ & Hna). destruct HG1 as [_ ->]. cbn [invoked rp].
    rewrite times_self, Hna. reflexivity. }
  intros fuel' actions r2 Hrun.
  destruct (kept_run body _ _ _ (Gone_Keeps body w (times w (invoked r1))) fuel' actions
              (fun _ _ _ => I) r1 r2 (conj (proj1 HG1) eq_refl) Hrun) as [[_ HG2] Hn2].
  split; [exact HG2 | exact Hn2].
Qed.

(** Callback 1 answers the payload 7 by emitting the event again, with the
    payload 8. *)
Definition echoing (id : nat) (d : Data) : list Cmd :=
  match id, d with
  | 1%nat, 7%nat => [DoEmit "data" 8%nat]
  | _, _ => []
  end.

(** Callback 1 subscribed to "data", callback 3 subscribed once. *)
Definition listening : Run :=
  default start (run echoing 0 [On "data" 1%nat; Once "data" 3%nat] start).

Definition echoed : Run := default start (emit echoing 2 "data" 7%nat listening).

Lemma once_wrapper_gone_after_emit_witness :
  exists id,
    wrappers (emitter listening) !! 0%nat = Some ("data", id) /\
    (exists before after,
       invoked echoed = invoked listening ++ before ++ (Wrapper 0, 7%nat) :: after) /\
    (exists before after,
       called (emitter echoed) =
       called (emitter listening) ++ before ++ (id, 7%nat) :: after) /\
    ((forall id' d ev d', DoEmit ev d' ∈ echoing id' d -> ev <> "data") ->
     times 0 (invoked echoed) = S (times 0 (invoked listening))) /\
    forall fuel' actions r2,
      run echoing fuel' actions echoed = Some r2 ->
      (forall ev set, listeners (emitter r2) !! ev = Some set -> Wrapper 0 ∉ set) /\
      times 0 (invoked r2) = times 0 (invoked echoed).
Proof.
  apply (once_wrapper_gone_after_emit echoing 2 listening echoed "data" 7%nat 0%nat).
  - exists 0%nat, [On "data" 1%nat; Once "data" 3%nat]. reflexivity.
  - vm_compute. apply elem_of_cons. right. apply elem_of_cons. left. reflexivity.
  - reflexivity.
Defined.

(** The listener that emits from inside the [emit]: the inner [emit] calls
    the wrapper, which removes itself, and the loop that was running calls
    it again; the callback of the [once] registration runs twice. *)
Example once_callback_runs_twice :
  invoked echoed =
    [(Callback 1, 7); (Callback 1, 8); (Wrapper 0, 8); (Wrapper 0, 7)]%nat /\
  called (emitter echoed) = [(1, 7); (1, 8); (3, 8); (3, 7)]%nat /\
  times 0 (invoked echoed) = 2%nat /\
  listenerCount "data" (emitter echoed) = 1%nat.
Proof. vm_compute. repeat split. Qed.

(** Callback 1 passes what it hears on to another event. *)
Definition relaying (id : nat) (d : Data) : list Cmd :=
  match id with
  | 1%nat => [DoEmit "seen" d]
  | _ => []
  end.

Definition relayed : Run :=
  default start
    (run relaying 2 [On "data" 1%nat; On "seen" 2%nat; Once "data" 3%nat; Emit "data" 7%nat;
                     Emit "data" 8%nat] start).

Example once_callback_runs_once :
  invoked relayed =
    [(Callback 1, 7); (Callback 2, 7); (Wrapper 0, 7); (Callback 1, 8); (Callback 2, 8)]%nat /\
  called (emitter relayed) = [(1, 7); (2, 7); (3, 7); (1, 8); (2, 8)]%nat /\
  times 0 (invoked relayed) = 1%nat.
Proof. vm_compute. repeat split. Qed.

End NestedEmitFacts.

(* ===================================================================== *)
(** * Properties of the timeouts and retries of BLE operations *)
(* ===================================================================== *)

Module TransportFacts.
Import Errors Retry RetryRuns Transport.

(** ** Places in a timeline *)

Lemma operation_promise_shift {T : Type} (timeline : list (Happening T)) :
  forall place,
    operation_promise timeline (S place) =
    match operation_promise timeline place with
    | Some (p, o) => Some (S p, o)
    | None => None
    end.
Proof.
  induction timeline as [| h rest IH]; intros place; [reflexivity |].
  destruct h; cbn; auto.
Qed.

Lemma timer_at_shift {T : Type} (timeline : list (Happening T)) :
  forall place, timer_at timeline (S place) = S (timer_at timeline place).
Proof.
  induction timeline as [| h rest IH]; intros place; [reflexivity |].
  destruct h; cbn; auto.
Qed.



(** ** The race, by the timeline *)




(** ** The properties *)



Definition listening (signal : option Signal) : bool :=
  match signal with Some _ => true | None => false end.



(** A write that the peripheral acknowledges after the timer has fired and
    the signal has been aborted. *)
Example late_acknowledgement :
  writeWithTimeout 2 (inl {| timeoutMs := Some 250%Z;
                             signal := Some (mkTransportSignal false (ReasonString "bye")) |})
    [TimerFires; SignalFires; Settles (Resolves tt)] =
  (Rejects (ThrownError (new_TimeoutError "BLE write" "250")), 1%nat).
Proof. reflexivity. Qed.




Definition twice : BLERetryOptions :=
  {| ble_timeoutMs := Some 250%Z;
     retryOptions :=
       {| maxAttempts := Some 2%Z; initialDelayMs := Some 10%Q; maxDelayMs := None;
          backoffMultiplier := None; jitter := Some false; Retry.signal := None;
          onRetry := true; isRetryable := None |} |}.


Lemma empty_data_not_retryable :
  isTransientBLEError
    (new_Error "Empty data: cannot write zero bytes to BLE characteristic") = false.
Proof. vm_compute. reflexivity. Qed.

(** X27.  [writeWithRetry] does not retry an empty write: with the default
    classification and a signal that is not aborted, a write of zero bytes
    is rejected after one attempt with the error that says so, without a
    single call of the characteristic and without a wait, whatever
    [maxAttempts] allows. *)
Theorem writeWithRetry_empty_data (timelines : nat -> list (Happening unit))
    (fires : Z -> bool) (options : BLERetryOptions) :
  (1 <= default 3%Z (maxAttempts (retryOptions options)))%Z ->
  is_aborted (Retry.signal (retryOptions options)) = false ->
  isRetryable (retryOptions options) = None ->
  writeWithRetry 0 timelines fires options =
    (Rejected (new_Error "Empty data: cannot write zero bytes to BLE characteristic"),
     [Invoked 1], 1%nat) /\
  forall n, snd (writeWithTimeout 0
                   (inr (default DEFAULT_WRITE_TIMEOUT_MS (ble_timeoutMs options)))
                   (timelines n)) = 0%nat.
Proof.
  intros Hn Hlive Hdefault. split; [| reflexivity].
  unfold writeWithRetry.
  rewrite (withRetry_started _ fires (retryOptions options) Hn Hlive).
  rewrite (fail_fast_loop _ fires (retryOptions options)
             (fun _ => ThrownError
                         (new_Error
                            "Empty data: cannot write zero bytes to BLE characteristic"))
             0).
  - reflexivity.
  - cbn. lia.
  - intros j Hj. lia.
  - reflexivity.
  - rewrite Hdefault. apply empty_data_not_retryable.
Qed.

Lemma writeWithRetry_empty_data_witness :
  writeWithRetry 0 (fun _ => [Settles (Resolves tt)]) (fun _ => false) twice =
    (Rejected (new_Error "Empty data: cannot write zero bytes to BLE characteristic"),
     [Invoked 1], 1%nat) /\
  forall n : nat, snd (writeWithTimeout 0
                   (inr (default DEFAULT_WRITE_TIMEOUT_MS (ble_timeoutMs twice)))
                   [Settles (Resolves tt)]) = 0%nat.
Proof.
  apply (writeWithRetry_empty_data (fun _ => [Settles (Resolves tt)]) (fun _ => false) twice).
  - cbn. lia.
  - reflexivity.
  - reflexivity.
Defined.

(** X28.  [connectWithRetry] uses one signal for the retry loop and for the
    adapter: the one of the retry options, or else the one of the connect
    options; the signal of the connect options is not looked at when the
    retry options have one.  When the signal it uses is aborted already (and
    [maxAttempts] is at least 1), the promise is rejected with an
    [AbortError] that carries the reason's message and the adapter is not
    called at all. *)
Theorem connectWithRetry_one_signal {T : Type}
    (adapter : option AbortSignal -> nat -> Outcome T)
    (connectSignal : option AbortSignal) (retryOptions : RetryOptions)
    (fires : Z -> bool) :
  let chosen :=
    match Retry.signal retryOptions with
    | Some s => Some s
    | None => connectSignal
    end in
  let '(res, evs, calls, given) :=
    connectWithRetry adapter connectSignal retryOptions fires in
  given = chosen /\
  (res, evs, calls) =
    withRetry (adapter chosen) fires
      {| maxAttempts := maxAttempts retryOptions;
         initialDelayMs := initialDelayMs retryOptions;
         maxDelayMs := maxDelayMs retryOptions;
         backoffMultiplier := backoffMultiplier retryOptions;
         jitter := jitter retryOptions;
         Retry.signal := chosen;
         onRetry := onRetry retryOptions;
         isRetryable := isRetryable retryOptions |} /\
  (if is_aborted chosen && (1 <=? default 3%Z (maxAttempts retryOptions))%Z
   then res = Rejected (new_AbortError (abort_message chosen)) /\
        evs = [] /\ calls = 0%nat
   else True).
Proof.
  intros chosen. unfold connectWithRetry. fold chosen.
  set (final := match chosen with
                | Some s => _
                | None => retryOptions
                end).
  assert (Hfinal : final =
    {| maxAttempts := maxAttempts retryOptions;
       initialDelayMs := initialDelayMs retryOptions;
       maxDelayMs := maxDelayMs retryOptions;
       backoffMultiplier := backoffMultiplier retryOptions;
       jitter := jitter retryOptions;
       Retry.signal := chosen;
       onRetry := onRetry retryOptions;
       isRetryable := isRetryable retryOptions |}).
  { unfold final. destruct chosen as [s |] eqn:Hc; [reflexivity |].
    unfold chosen in Hc. destruct retryOptions as [ma i mx b j sg o r]. cbn in Hc |- *.
    destruct sg; [discriminate Hc | reflexivity]. }
  assert (Hgiven : match chosen with Some s => Some s | None => connectSignal end = chosen).
  { unfold chosen. destruct (Retry.signal retryOptions); [reflexivity |].
    destruct connectSignal; reflexivity. }
  rewrite Hgiven, Hfinal.
  destruct (withRetry (adapter chosen) fires _) as [[res evs] calls] eqn:Hrun.
  split; [reflexivity |]. split; [reflexivity |].
  destruct (is_aborted chosen) eqn:Hab; cbn [andb]; [| exact I].
  destruct (Z.leb_spec 1 (default 3%Z (maxAttempts retryOptions))) as [Hn | Hn]; [| exact I].
  unfold withRetry in Hrun. cbn [maxAttempts Retry.signal] in Hrun. rewrite Hab in Hrun.
  destruct (Z.ltb_spec (default 3%Z (maxAttempts retryOptions)) 1) as [Hlt | _]; [lia |].
  injection Hrun as <- <- <-. auto.
Qed.

End TransportFacts.

